(** * Map-coloring CSP solver: a shallow embedding of [csp.py]

    The development follows the layout of the Python module:

    - small helpers ([first], [count_true], [argmin_random_tie]);
    - the constraint store [CSP] with its pruning API
      ([support_pruning], [suppose], [prune], [choices], [restore]);
    - the heuristics ([first_unassigned_variable], [mrv], [lcv], ...);
    - the inference strategies ([no_inference], [forward_checking]);
    - the backtracking engine ([backtracking_search] with its nested
      [log], [is_goal] and [backtrack]);
    - the map-coloring helpers ([parse_neighbors], [MapColoringCSP]), and the
      entry point [solve_map_coloring] and [build_adjacency] of
      [coloring_map.py];
    - the games of [games.py]: the base class [Game], [minmax_decision],
      [alpha_beta_search], the players and the class [TicTacToe].

    Python objects that are mutated in place are threaded explicitly through
    a state-and-exception monad; Python exceptions are values of [exn]. *)

From Stdlib Require Import String Ascii List Arith ZArith Lia Permutation Sorted.
From stdpp Require Import base option gmap strings list fin_maps sorting pretty.

Local Open Scope string_scope.
Local Open Scope list_scope.

(** ** Exceptions and the state monad *)

(** The Python exceptions that the modelled code can raise. *)
Inductive exn : Set :=
| KeyError        (* [d[k]] on a missing key *)
| StopIteration   (* [next] on an exhausted iterator *)
| TypeError       (* [random.choice(None)] *)
| IndexError      (* [random.choice([])] *)
| RuntimeError    (* the trace cap of [log] *)
| AssertionError. (* [assert] and the final validation *)

(** The outcome of running a computation from a state: a value, an
    exception (the state reached when it was raised is kept, since the
    mutated objects stay visible to the caller), or exhaustion of the
    recursion budget of the model. *)
Inductive outcome (S A : Type) : Type :=
| Ret (a : A) (s : S)
| Exc (e : exn) (s : S)
| NoFuel.
Arguments Ret {S A} a s.
Arguments Exc {S A} e s.
Arguments NoFuel {S A}.

Definition M (S A : Type) : Type := S -> outcome S A.

Definition ret {S A} (a : A) : M S A := fun s => Ret a s.

Definition bind {S A B} (m : M S A) (k : A -> M S B) : M S B :=
  fun s =>
    match m s with
    | Ret a s' => k a s'
    | Exc e s' => Exc e s'
    | NoFuel => NoFuel
    end.

Definition raise {S A} (e : exn) : M S A := fun s => Exc e s.
Definition get {S} : M S S := fun s => Ret s s.
Definition gets {S A} (f : S -> A) : M S A := fun s => Ret (f s) s.
Definition put {S} (s : S) : M S unit := fun _ => Ret tt s.
Definition modify {S} (f : S -> S) : M S unit := fun s => Ret tt (f s).

Declare Scope py_scope.
Delimit Scope py_scope with py.
Notation "'let*' x ':=' m 'in' k" := (bind m (fun x => k))
  (at level 10, x pattern, m at level 100, k at level 200) : py_scope.
Notation "m1 '>>' m2" := (bind m1 (fun _ => m2))
  (at level 100, m2 at level 200, right associativity) : py_scope.
Local Open Scope py_scope.

(** Running a computation on a component of a larger state. *)
Definition zoom {S T A} (proj : T -> S) (inj : S -> T -> T) (m : M S A) : M T A :=
  fun t =>
    match m (proj t) with
    | Ret a s' => Ret a (inj s' t)
    | Exc e s' => Exc e (inj s' t)
    | NoFuel => NoFuel
    end.

(** What an outcome satisfies: [Q] on a returned value, [E] on an
    exception; nothing is said on an exhausted budget. *)
Definition post {S A} (Q : A -> S -> Prop) (E : exn -> S -> Prop)
    (o : outcome S A) : Prop :=
  match o with
  | Ret a s => Q a s
  | Exc e s => E e s
  | NoFuel => True
  end.

(** From a state in [P], [m] ends in [Q] or raises in [E]. *)
Definition triple {S A} (P : S -> Prop) (m : M S A)
    (Q : A -> S -> Prop) (E : exn -> S -> Prop) : Prop :=
  forall s, P s -> post Q E (m s).

(** Two outcomes agree on the value or the exception, and their states are
    related by [Rs]. *)
Definition outcome_rel {S A} (Rs : S -> S -> Prop) (o1 o2 : outcome S A) : Prop :=
  match o1, o2 with
  | Ret a1 s1, Ret a2 s2 => a1 = a2 /\ Rs s1 s2
  | Exc e1 s1, Exc e2 s2 => e1 = e2 /\ Rs s1 s2
  | NoFuel, NoFuel => True
  | _, _ => False
  end.

(** From states related by [Rs], [m1] and [m2] end alike. *)
Definition related {S A} (Rs : S -> S -> Prop) (m1 m2 : M S A) : Prop :=
  forall s1 s2, Rs s1 s2 -> outcome_rel Rs (m1 s1) (m2 s2).

(** [m] raises only exceptions in [R]. *)
Definition raises_only {S A} (R : exn -> Prop) (m : M S A) : Prop :=
  forall s e s', m s = Exc e s' -> R e.

(** [d[k]] on a dictionary. *)
Definition getitem {S K V} `{Countable K} (d : gmap K V) (k : K) : M S V :=
  match d !! k with
  | Some v => ret v
  | None => raise KeyError
  end.

(** A [for] loop that threads an accumulator. *)
Fixpoint for_each {S A B} (l : list A) (body : B -> A -> M S B) (acc : B) : M S B :=
  match l with
  | [] => ret acc
  | x :: rest => let* acc' := body acc x in for_each rest body acc'
  end.

(** ** Small helpers *)

(** [first(seq)]: [next(iter(seq))]. *)
Definition first {S A} (seq : list A) : M S A :=
  match seq with
  | x :: _ => ret x
  | [] => raise StopIteration
  end.

(** [count_true(items)]. *)
Definition count_true (items : list bool) : nat :=
  length (filter (fun x => x = true) items).

(** [list.remove(x)]: drops the first occurrence. *)
Fixpoint list_remove {A} `{EqDecision A} (x : A) (l : list A) : list A :=
  match l with
  | [] => []
  | y :: rest => if decide (y = x) then rest else y :: list_remove x rest
  end.

(** [sorted(l, key=...)] with natural-number keys. Python's sort is stable;
    the model is the insertion sort that puts every element before the first
    later element with a strictly greater or equal key. *)
Fixpoint insert_by {A} (key : A -> nat) (x : A) (l : list A) : list A :=
  match l with
  | [] => [x]
  | y :: rest => if (key x <=? key y)%nat then x :: l else y :: insert_by key x rest
  end.

Definition sorted_by {A} (key : A -> nat) (l : list A) : list A :=
  foldr (insert_by key) [] l.

(** ** The random module *)

(** The state of Python's global random generator: the stream of numbers it
    is going to produce and the position reached in it. *)
Record RandomSrc : Type := mkRandomSrc { draws : nat -> nat; pos : nat }.

(** ** Trace event kinds *)

Inductive event_kind : Set := TRY | CONFLICT | ASSIGN | INFER_FAIL | BACKTRACK | GOAL.

#[global] Instance event_kind_eq_dec : EqDecision event_kind.
Proof. solve_decision. Defined.

(** ** The constraint store *)

Section Solver.

Context {val : Type} `{EqDecision val}.

Definition ConstraintFn : Type := string -> val -> string -> val -> bool.

(** The four constructor arguments of [class CSP]; they are never mutated
    after construction. *)
Record CSP : Type := mkCSP {
  variables : list string;
  domains : gmap string (list val);
  neighbors : gmap string (list string);
  constraints : ConstraintFn;
}.

(** What the solver mutates: the attributes [curr_domains] and [nassigns] of
    the CSP object, and the global random generator. *)
Record World : Type := mkWorld {
  curr_domains : option (gmap string (list val));
  nassigns : nat;
  rand : RandomSrc;
}.

(** The world right after [CSP.__init__]. *)
Definition fresh_world (r : RandomSrc) : World :=
  {| curr_domains := None; nassigns := 0; rand := r |}.

Definition set_curr_domains (d : option (gmap string (list val))) (w : World) : World :=
  {| curr_domains := d; nassigns := nassigns w; rand := rand w |}.

Definition set_rand (r : RandomSrc) (w : World) : World :=
  {| curr_domains := curr_domains w; nassigns := nassigns w; rand := r |}.

Definition removal : Type := (string * val)%type.

(** [random.choice(seq)]; the engine only calls it through
    [argmin_random_tie], where [seq] is [None] when nothing was seen. *)
Definition random_choice {A} (seq : option (list A)) : M World A :=
  match seq with
  | None => raise TypeError
  | Some [] => raise IndexError
  | Some (x :: rest) =>
      let* w := get in
      let r := rand w in
      let i := draws r (pos r) mod length (x :: rest) in
      put (set_rand {| draws := draws r; pos := S (pos r) |} w) >>
      ret (nth i (x :: rest) x)
  end.

(** [argmin_random_tie(seq, key)]; [best] and [best_key] are kept together. *)
Definition argmin_random_tie {A} (seq : list A) (key : A -> M World nat) : M World A :=
  let* best :=
    for_each seq
      (fun (best : option (list A * nat)) x =>
         let* k := key x in
         match best with
         | None => ret (Some ([x], k))
         | Some (b, best_key) =>
             if (k <? best_key)%nat then ret (Some ([x], k))
             else if (k =? best_key)%nat then ret (Some (b ++ [x], best_key))
             else ret best
         end)
      None in
  random_choice (fst <$> best).

Section WithCSP.

Variable csp : CSP.

(** [CSP.assign]: the updated assignment is returned. *)
Definition assign (var : string) (v : val) (assignment : gmap string val)
  : M World (gmap string val) :=
  modify (fun w => {| curr_domains := curr_domains w;
                      nassigns := S (nassigns w);
                      rand := rand w |}) >>
  ret (<[var := v]> assignment).

(** [CSP.unassign]. *)
Definition unassign (var : string) (assignment : gmap string val) : gmap string val :=
  if decide (is_Some (assignment !! var)) then delete var assignment else assignment.

(** [CSP.nconflicts]; the loop over [neighbors.get(var, [])]. *)
Definition nconflicts (var : string) (v : val) (assignment : gmap string val) : nat :=
  fold_left
    (fun conflicts n =>
       match assignment !! n with
       | Some b => if negb (constraints csp var v n b) then S conflicts else conflicts
       | None => conflicts
       end)
    (default [] (neighbors csp !! var)) 0.

(** The dictionary comprehension of [support_pruning]. *)
Definition copy_domains : M World (gmap string (list val)) :=
  for_each (variables csp)
    (fun d v => let* l := getitem (domains csp) v in ret (<[v := l]> d))
    ∅.

(** [CSP.support_pruning]. *)
Definition support_pruning : M World unit :=
  let* cd := gets curr_domains in
  match cd with
  | None => let* d := copy_domains in modify (set_curr_domains (Some d))
  | Some _ => ret tt
  end.

(** [assert self.curr_domains is not None], giving the dictionary. *)
Definition the_curr_domains : M World (gmap string (list val)) :=
  let* cd := gets curr_domains in
  match cd with
  | Some d => ret d
  | None => raise AssertionError
  end.

(** [CSP.suppose]. *)
Definition suppose (var : string) (value : val) : M World (list removal) :=
  support_pruning >>
  let* d := the_curr_domains in
  let* l := getitem d var in
  let removals := (fun v => (var, v)) <$> filter (fun v => v ≠ value) l in
  modify (set_curr_domains (Some (<[var := [value]]> d))) >>
  ret removals.

(** [CSP.prune]; the removal log is returned extended. *)
Definition prune (var : string) (value : val) (removals : list removal)
  : M World (list removal) :=
  let* d := the_curr_domains in
  let* l := getitem d var in
  if decide (value ∈ l) then
    modify (set_curr_domains (Some (<[var := list_remove value l]> d))) >>
    ret (removals ++ [(var, value)])
  else ret removals.

(** [CSP.choices]: [(self.curr_domains or self.domains)[var]]; an empty
    dictionary is falsy. *)
Definition choices (var : string) : M World (list val) :=
  let* cd := gets curr_domains in
  match cd with
  | Some d => if decide (d = ∅) then getitem (domains csp) var else getitem d var
  | None => getitem (domains csp) var
  end.

(** [CSP.restore]. *)
Definition restore (removals : list removal) : M World unit :=
  the_curr_domains >>
  for_each removals
    (fun _ '(var, value) =>
       let* d := the_curr_domains in
       let* l := getitem d var in
       modify (set_curr_domains (Some (<[var := l ++ [value]]> d))))
    tt.

End WithCSP.

(** ** Heuristics *)

(** [first_unassigned_variable(assignment, csp)]. *)
Definition first_unassigned_variable (assignment : gmap string val) (csp : CSP)
  : M World string :=
  first (filter (fun v => assignment !! v = None) (variables csp)).

(** [num_legal_values(csp, var, assignment)]. *)
Definition num_legal_values (csp : CSP) (var : string) (assignment : gmap string val)
  : M World nat :=
  let* cd := gets curr_domains in
  match cd with
  | Some d => let* l := getitem d var in ret (length l)
  | None =>
      let* l := getitem (domains csp) var in
      ret (count_true
             ((fun v => bool_decide (nconflicts csp var v assignment = 0)) <$> l))
  end.

(** [mrv(assignment, csp)]. *)
Definition mrv (assignment : gmap string val) (csp : CSP) : M World string :=
  let unassigned := filter (fun v => assignment !! v = None) (variables csp) in
  argmin_random_tie unassigned (fun v => num_legal_values csp v assignment).

(** [unordered_domain_values(var, assignment, csp)]. *)
Definition unordered_domain_values (var : string) (assignment : gmap string val)
    (csp : CSP) : M World (list val) :=
  choices csp var.

(** [lcv(var, assignment, csp)]. *)
Definition lcv (var : string) (assignment : gmap string val) (csp : CSP)
  : M World (list val) :=
  let* cs := choices csp var in
  ret (sorted_by (fun v => nconflicts csp var v assignment) cs).

(** ** Inference *)

(** [no_inference]. *)
Definition no_inference (csp : CSP) (var : string) (value : val)
    (assignment : gmap string val) (removals : list removal)
  : M World (bool * list removal) :=
  ret (true, removals).

(** The inner loop of [forward_checking] over a snapshot of the domain of
    [B]. *)
Definition fc_prune_conflicts (csp : CSP) (var : string) (value : val) (B : string)
    (snapshot : list val) (removals : list removal) : M World (list removal) :=
  for_each snapshot
    (fun removals b =>
       if negb (constraints csp var value B b) then prune B b removals
       else ret removals)
    removals.

(** The outer loop of [forward_checking]; [return False] leaves it early. *)
Fixpoint fc_neighbors (csp : CSP) (var : string) (value : val)
    (assignment : gmap string val) (Bs : list string) (removals : list removal)
  : M World (bool * list removal) :=
  match Bs with
  | [] => ret (true, removals)
  | B :: rest =>
      match assignment !! B with
      | Some _ => fc_neighbors csp var value assignment rest removals
      | None =>
          let* d := the_curr_domains in
          let* snapshot := getitem d B in
          let* removals := fc_prune_conflicts csp var value B snapshot removals in
          let* d := the_curr_domains in
          let* l := getitem d B in
          match l with
          | [] => ret (false, removals)
          | _ :: _ => fc_neighbors csp var value assignment rest removals
          end
      end
  end.

(** [forward_checking(csp, var, value, assignment, removals)]; the removal
    log is returned extended. *)
Definition forward_checking (csp : CSP) (var : string) (value : val)
    (assignment : gmap string val) (removals : list removal)
  : M World (bool * list removal) :=
  support_pruning csp >>
  the_curr_domains >>
  fc_neighbors csp var value assignment (default [] (neighbors csp !! var)) removals.

(** ** Backtracking search *)

(** One dictionary appended to [trace] by [log]. *)
Record trace_event : Type := mkEvent {
  ev_step : nat;
  ev_depth : nat;
  ev_event : event_kind;
  ev_var : option string;
  ev_val : option val;
  ev_assignment : gmap string val;
}.

(** The state of one call of [backtracking_search]: the world, the shared
    [assignment] dictionary handed to [backtrack], the closure variable
    [step], and the caller's [trace] list ([None] when no trace is kept). *)
Record SearchState : Type := mkSearchState {
  world : World;
  assignment : gmap string val;
  step : nat;
  trace : option (list trace_event);
}.

Definition set_world (w : World) (s : SearchState) : SearchState :=
  {| world := w; assignment := assignment s; step := step s; trace := trace s |}.
Definition set_assignment (a : gmap string val) (s : SearchState) : SearchState :=
  {| world := world s; assignment := a; step := step s; trace := trace s |}.
Definition set_step (n : nat) (s : SearchState) : SearchState :=
  {| world := world s; assignment := assignment s; step := n; trace := trace s |}.
Definition set_trace (t : option (list trace_event)) (s : SearchState) : SearchState :=
  {| world := world s; assignment := assignment s; step := step s; trace := t |}.

(** Calls into the store and the strategies only see the world. *)
Definition in_world {A} (m : M World A) : M SearchState A := zoom world set_world m.

Section Engine.

Variable csp : CSP.
Variable select_unassigned_variable : gmap string val -> CSP -> M World string.
Variable order_domain_values : string -> gmap string val -> CSP -> M World (list val).
Variable inference :
  CSP -> string -> val -> gmap string val -> list removal -> M World (bool * list removal).
Variable max_steps : option nat.

(** The nested function [log]; its [assignment] argument is always the
    shared dictionary, read here from the state. *)
Definition log (event : event_kind) (var : option string) (v : option val)
  : M SearchState unit :=
  let* s := get in
  match trace s with
  | None => ret tt
  | Some t =>
      let step' := S (step s) in
      put (set_step step' s) >>
      if match max_steps with Some m => (m <? step')%nat | None => false end
      then raise RuntimeError
      else
        modify (set_trace (Some (t ++ [ {| ev_step := step';
                                           ev_depth := size (assignment s);
                                           ev_event := event;
                                           ev_var := var;
                                           ev_val := v;
                                           ev_assignment := assignment s |} ])))
  end.

(** The generator consumed by [all] in [is_goal]; it stops at the first
    variable with a conflict. *)
Fixpoint all_conflict_free {S} (a : gmap string val) (vs : list string) : M S bool :=
  match vs with
  | [] => ret true
  | v :: rest =>
      let* x := getitem a v in
      if decide (nconflicts csp v x a = 0) then all_conflict_free a rest
      else ret false
  end.

(** The nested function [is_goal]. *)
Definition is_goal {S} (a : gmap string val) : M S bool :=
  if decide (size a ≠ length (variables csp)) then ret false
  else all_conflict_free a (variables csp).

(** The [for value in ...] loop of [backtrack] for the selected [var];
    [recurse] is the recursive call [backtrack(assignment)]. *)
Fixpoint try_values (recurse : M SearchState (option (gmap string val)))
    (var : string) (values : list val) : M SearchState (option (gmap string val)) :=
  match values with
  | [] => ret None
  | value :: rest =>
      log TRY (Some var) (Some value) >>
      let* a := gets assignment in
      if decide (nconflicts csp var value a ≠ 0) then
        log CONFLICT (Some var) (Some value) >>
        try_values recurse var rest
      else
        let* a := in_world (assign var value a) in
        modify (set_assignment a) >>
        log ASSIGN (Some var) (Some value) >>
        let* removals := in_world (suppose csp var value) in
        let* (ok, removals) := in_world (inference csp var value a removals) in
        let undo :=
          in_world (restore removals) >>
          modify (fun s => set_assignment (unassign var (assignment s)) s) >>
          log BACKTRACK (Some var) (Some value) >>
          try_values recurse var rest in
        if ok then
          let* result := recurse in
          match result with
          | Some r => ret (Some r)
          | None => undo
          end
        else
          log INFER_FAIL (Some var) (Some value) >> undo
  end.

(** The nested function [backtrack]; [fuel] bounds the recursion depth. *)
Fixpoint backtrack (fuel : nat) : M SearchState (option (gmap string val)) :=
  match fuel with
  | 0 => fun _ => NoFuel
  | S fuel' =>
      let* a := gets assignment in
      if decide (size a = length (variables csp)) then
        log GOAL None None >> ret (Some a)
      else
        let* var := in_world (select_unassigned_variable a csp) in
        let* values := in_world (order_domain_values var a csp) in
        try_values (backtrack fuel') var values
  end.

(** The body of [backtracking_search] after [step = 0]. *)
Definition search_body (fuel : nat) : M SearchState (option (gmap string val)) :=
  let* result := backtrack fuel in
  match result with
  | Some r =>
      let* g := is_goal r in
      if g then ret result else raise AssertionError
  | None => ret result
  end.

End Engine.

(** [backtracking_search(csp, select_unassigned_variable, order_domain_values,
    inference, trace, max_steps)], run from the world [w]. *)
Definition backtracking_search (csp : CSP)
    (select_unassigned_variable : gmap string val -> CSP -> M World string)
    (order_domain_values : string -> gmap string val -> CSP -> M World (list val))
    (inference : CSP -> string -> val -> gmap string val -> list removal ->
                 M World (bool * list removal))
    (trace : option (list trace_event)) (max_steps : option nat)
    (fuel : nat) (w : World) : outcome SearchState (option (gmap string val)) :=
  search_body csp select_unassigned_variable order_domain_values inference max_steps fuel
    {| world := w; assignment := ∅; step := 0; trace := trace |}.

(** [different_values_constraint]. *)
Definition different_values_constraint : ConstraintFn :=
  fun A a B b => bool_decide (a ≠ b).

End Solver.

Arguments ConstraintFn val : clear implicits.
Arguments CSP val : clear implicits.
Arguments World val : clear implicits.
Arguments removal val : clear implicits.
Arguments trace_event val : clear implicits.
Arguments SearchState val : clear implicits.

(** ** Map-coloring helpers *)

(** *** String primitives

    A [string] is read as a sequence of code points below 256. *)

(** [str.isspace] on one character of that range. *)
Definition isspace (c : ascii) : bool :=
  let n := nat_of_ascii c in
  ((9 <=? n) && (n <=? 13) || (28 <=? n) && (n <=? 32) || (n =? 133) || (n =? 160))%nat.

(** [s.split(sep)] for a one-character separator. *)
Fixpoint str_split (sep : ascii) (s : string) : list string :=
  match s with
  | EmptyString => [EmptyString]
  | String c rest =>
      if Ascii.eqb c sep then EmptyString :: str_split sep rest
      else match str_split sep rest with
           | cur :: more => String c cur :: more
           | [] => [String c EmptyString]
           end
  end.

(** [sep in s] for a one-character [sep]. *)
Fixpoint str_contains (sep : ascii) (s : string) : bool :=
  match s with
  | EmptyString => false
  | String c rest => Ascii.eqb c sep || str_contains sep rest
  end.

(** [s.split(sep, 1)] when [sep in s]; [None] when [sep not in s] (unpacking
    the result into two names would fail). *)
Fixpoint str_split_once (sep : ascii) (s : string) : option (string * string) :=
  match s with
  | EmptyString => None
  | String c rest =>
      if Ascii.eqb c sep then Some (EmptyString, rest)
      else match str_split_once sep rest with
           | Some (a, b) => Some (String c a, b)
           | None => None
           end
  end.

Fixpoint str_lstrip (s : string) : string :=
  match s with
  | EmptyString => EmptyString
  | String c rest => if isspace c then str_lstrip rest else s
  end.

Fixpoint str_rstrip (s : string) : string :=
  match s with
  | EmptyString => EmptyString
  | String c rest =>
      match str_rstrip rest with
      | EmptyString => if isspace c then EmptyString else String c EmptyString
      | r => String c r
      end
  end.

(** [s.strip()]. *)
Definition str_strip (s : string) : string := str_rstrip (str_lstrip s).

(** [s.split()]: the maximal runs of non-space characters. *)
Fixpoint str_words (s : string) : list string :=
  match s with
  | EmptyString => []
  | String c rest =>
      if isspace c then str_words rest
      else match rest with
           | String d _ =>
               if isspace d then String c EmptyString :: str_words rest
               else match str_words rest with
                    | w :: ws => String c w :: ws
                    | [] => [String c EmptyString]
                    end
           | EmptyString => [String c EmptyString]
           end
  end.

(** *** Insertion-ordered dictionaries of lists *)

(** A Python [dict] whose iteration order matters: the items in insertion
    order. A well-formed one has no key twice. *)
Definition odict (V : Type) : Type := list (string * V).

Definition od_keys {V} (d : odict V) : list string := fst <$> d.
Definition od_wf {V} (d : odict V) : Prop := NoDup (od_keys d).

Fixpoint od_get {V} (d : odict V) (k : string) : option V :=
  match d with
  | [] => None
  | (k', v) :: rest => if decide (k' = k) then Some v else od_get rest k
  end.

(** [graph[k].append(x)] on a [defaultdict(list)]. *)
Fixpoint od_append {A} (k : string) (x : A) (g : odict (list A)) : odict (list A) :=
  match g with
  | [] => [(k, [x])]
  | (k', l) :: rest =>
      if decide (k' = k) then (k', l ++ [x]) :: rest
      else (k', l) :: od_append k x rest
  end.

(** The lookup structure of a dictionary, forgetting the order. *)
Definition od_to_map {V} (d : odict V) : gmap string V := list_to_map d.

(** The order of Python on [str]. *)
Definition str_le (s1 s2 : string) : Prop := String.leb s1 s2 = true.

#[global] Instance str_le_dec : RelDecision str_le.
Proof. intros s1 s2. unfold str_le. apply _. Defined.

(** [sorted(set(v))]. *)
Definition sorted_set (v : list string) : list string :=
  merge_sort str_le (remove_dups v).

(** The body of the [for spec in specs] loop of [parse_neighbors]. *)
Definition parse_spec (graph : odict (list string)) (spec : string) : odict (list string) :=
  if negb (str_contains ":" spec) then graph
  else
    match str_split_once ":" spec with
    | None => graph
    | Some (A, Aneigh) =>
        let A := str_strip A in
        fold_left (fun graph B => od_append B A (od_append A B graph))
                  (str_words Aneigh) graph
    end.

(** [B] is in the list stored under [A]. *)
Definition adjacent (g : odict (list string)) (A B : string) : Prop :=
  exists l, od_get g A = Some l /\ B ∈ l.

(** [parse_neighbors(neighbors)]. *)
Definition parse_neighbors (neighbors : string) : odict (list string) :=
  let specs :=
    filter (fun spec => spec ≠ EmptyString) (str_strip <$> str_split ";" neighbors) in
  let graph := fold_left parse_spec specs [] in
  (fun kv => (kv.1, sorted_set kv.2)) <$> graph.

(** The edges that the entry [spec] of the text asks for: [spec], stripped,
    holds a colon, and [X] and [Y] are, in one order or the other, the
    stripped name before the first colon and one of the words after it. *)
Definition entry_edge (spec : string) (X Y : string) : Prop :=
  exists A Aneigh B,
    str_split_once ":" (str_strip spec) = Some (A, Aneigh) /\
    B ∈ str_words Aneigh /\
    ((X = str_strip A /\ Y = B) \/ (X = B /\ Y = str_strip A)).

(** The argument [neighbors: Dict[str, List[str]] | str]. *)
Inductive neighbors_arg : Type :=
| NeighborsDict (d : odict (list string))
| NeighborsText (s : string).

(** [if isinstance(neighbors, str): neighbors = parse_neighbors(neighbors)]. *)
Definition neighbors_of (neighbors : neighbors_arg) : odict (list string) :=
  match neighbors with
  | NeighborsText s => parse_neighbors s
  | NeighborsDict d => d
  end.

(** [MapColoringCSP(colors, neighbors)]. *)
Definition MapColoringCSP {val : Type} `{EqDecision val}
    (colors : list val) (neighbors : neighbors_arg) : CSP val :=
  let neighbors := neighbors_of neighbors in
  let variables := od_keys neighbors in
  {| variables := variables;
     domains := list_to_map ((fun v => (v, colors)) <$> variables);
     neighbors := od_to_map neighbors;
     constraints := different_values_constraint |}.

(** A neighbour dictionary of a simple graph: no key twice, no region among
    its own neighbours, and every neighbour is itself a key. *)
Definition simple_graph (g : odict (list string)) : Prop :=
  od_wf g /\
  Forall (fun kv => kv.1 ∉ kv.2 /\ Forall (fun B => B ∈ od_keys g) kv.2) g.

#[global] Instance simple_graph_dec g : Decision (simple_graph g).
Proof. unfold simple_graph, od_wf. apply _. Defined.

(** ** The entry point of [coloring_map.py] *)

(** [list(domain_letters)]. *)
Fixpoint str_chars (s : string) : list string :=
  match s with
  | EmptyString => []
  | String c rest => String c EmptyString :: str_chars rest
  end.

(** [solve_map_coloring(neighbor_dict, domain_letters, max_steps, log_events)];
    [max_steps = None] is the call that leaves the argument out. The world is
    the one of the freshly built CSP, with the random generator in state [r]. *)
Definition solve_map_coloring (neighbor_dict : odict (list string))
    (domain_letters : string) (max_steps : option nat)
    (log_events : option (list event_kind)) (fuel : nat) (r : RandomSrc)
  : outcome (SearchState string) (option (gmap string string) * list (trace_event string)) :=
  let max_steps := default (50 * 1000) max_steps in
  let regions_csp := MapColoringCSP (str_chars domain_letters) (NeighborsDict neighbor_dict) in
  match backtracking_search regions_csp mrv lcv forward_checking
          (Some []) (Some max_steps) fuel (fresh_world r) with
  | Ret solution s =>
      let trace := default [] (trace s) in
      let trace :=
        match log_events with
        | Some evs => filter (fun t => ev_event t ∈ evs) trace
        | None => trace
        end in
      Ret (solution, trace) s
  | Exc e s => Exc e s
  | NoFuel => NoFuel
  end.

(** ** Specification vocabulary *)

(** The prefix of [l] up to and including the first element satisfying [P]. *)
Fixpoint upto_first {A} (P : A -> Prop) `{forall x, Decision (P x)} (l : list A) : list A :=
  match l with
  | [] => []
  | x :: rest => if decide (P x) then [x] else x :: upto_first P rest
  end.

(** The elements of [l] in the order of their first occurrence. *)
Fixpoint first_occurrences {A} `{EqDecision A} (l : list A) : list A :=
  match l with
  | [] => []
  | x :: rest => x :: filter (fun y => y ≠ x) (first_occurrences rest)
  end.

Section FcVocabulary.

Context {val : Type} `{EqDecision val} (csp : CSP val).

(** The values of [l] that are consistent with [var = value] for the
    neighbour [B], and those that conflict with it. *)
Definition fc_keep (var : string) (value : val) (B : string) (l : list val) : list val :=
  filter (fun b => constraints csp var value B b = true) l.
Definition fc_drop (var : string) (value : val) (B : string) (l : list val) : list val :=
  filter (fun b => constraints csp var value B b = false) l.

(** The neighbours of [var] that are not assigned, as [forward_checking]
    meets them. *)
Definition unassigned_neighbors (var : string) (a : gmap string val) : list string :=
  filter (fun B => a !! B = None) (default [] (neighbors csp !! var)).

(** Pruning the conflicting values leaves nothing in the domain of [B]. *)
Definition fc_emptied (var : string) (value : val) (d : gmap string (list val))
    (B : string) : Prop :=
  fc_keep var value B (default [] (d !! B)) = [].

#[global] Instance fc_emptied_dec var value d B : Decision (fc_emptied var value d B).
Proof. unfold fc_emptied. apply _. Defined.

(** The removals logged when the neighbour [B] is pruned from the working
    domains [d]. *)
Definition fc_logged (var : string) (value : val) (d : gmap string (list val))
    (B : string) : list (removal val) :=
  (fun b => (B, b)) <$> fc_drop var value B (default [] (d !! B)).

End FcVocabulary.

Section StoreVocabulary.

Context {val : Type} `{EqDecision val} (csp : CSP val).

(** The values logged for [v] in a removal log, in order. *)
Definition pending (v : string) (removals : list (removal val)) : list val :=
  (filter (fun p => p.1 = v) removals).*2.

(** The list that [choices] would read for [var], dictionary permitting. *)
Definition working_domain (w : World val) (var : string) : option (list val) :=
  match curr_domains w with
  | Some d => d !! var
  | None => domains csp !! var
  end.

(** The invariant as the documentation words it: every working domain is a
    subsequence of the original domain of its variable. *)
Definition domains_subsequence (w : World val) : Prop :=
  forall d v l, curr_domains w = Some d -> d !! v = Some l ->
    exists l0, domains csp !! v = Some l0 /\ l `sublist_of` l0.

(** The invariant that the store keeps: every working domain, together with
    the values logged for its variable and not yet restored, holds only
    values of the original domain, none more often than there. *)
Definition domains_within (w : World val)
    (removals : list (removal val)) : Prop :=
  forall d v l, curr_domains w = Some d -> d !! v = Some l ->
    exists l0, domains csp !! v = Some l0 /\ l ++ pending v removals ⊆+ l0.

(** The two ways of pruning into a removal log. *)
Inductive prune_op : Type :=
| OpSuppose (var : string) (value : val)
| OpPrune (var : string) (value : val).

(** One pruning step; the log returned by [suppose] continues [removals]. *)
Definition prune_step (removals : list (removal val)) (op : prune_op)
  : M (World val) (list (removal val)) :=
  match op with
  | OpSuppose var value => let* r := suppose csp var value in ret (removals ++ r)
  | OpPrune var value => prune var value removals
  end.

(** A sequence of pruning steps into one log. *)
Definition prune_all (ops : list prune_op) (removals : list (removal val))
  : M (World val) (list (removal val)) :=
  for_each ops prune_step removals.

(** Every [suppose] of the sequence is given a value that is in the working
    domain of its variable when it runs. *)
Fixpoint supposes_in_domain (ops : list prune_op) (w : World val) : Prop :=
  match ops with
  | [] => True
  | op :: rest =>
      match op with
      | OpSuppose var value => exists l, working_domain w var = Some l /\ value ∈ l
      | OpPrune _ _ => True
      end /\
      forall removals r w', prune_step removals op w = Ret r w' -> supposes_in_domain rest w'
  end.

(** Relative to the working domains [d] at the start of the pruning: the
    working domain of every variable, with the values logged for it, holds
    exactly the values it held at the start. *)
Definition roundtrip_inv (d : gmap string (list val)) (w : World val)
    (removals : list (removal val)) : Prop :=
  exists d', curr_domains w = Some d' /\
    forall v,
      match d !! v with
      | Some l => exists l', d' !! v = Some l' /\
                            forall x, x ∈ l' ++ pending v removals <-> x ∈ l
      | None => d' !! v = None /\ pending v removals = []
      end.

End StoreVocabulary.

Section SolutionVocabulary.

Context {val : Type} `{EqDecision val} (csp : CSP val).

(** [c] solves the problem: every variable has a value of its domain, and
    the values of a variable and of each of its neighbours satisfy the
    constraint. For map coloring this is a proper coloring with the given
    colors. *)
Definition solution (c : gmap string val) : Prop :=
  (forall v, v ∈ variables csp ->
     exists x l, c !! v = Some x /\ domains csp !! v = Some l /\ x ∈ l) /\
  (forall v n x y,
     v ∈ variables csp -> n ∈ default [] (neighbors csp !! v) ->
     c !! v = Some x -> c !! n = Some y -> constraints csp v x n y = true).

(** What [MapColoringCSP] and a graph without loops give: no variable
    twice, a domain for every variable, neighbours that are variables, and
    no variable among its own neighbours. *)
Record well_formed : Prop := {
  wf_nodup : NoDup (variables csp);
  wf_domains : forall v, v ∈ variables csp -> is_Some (domains csp !! v);
  wf_closed : forall v n,
    v ∈ variables csp -> n ∈ default [] (neighbors csp !! v) -> n ∈ variables csp;
  wf_loop_free : forall v, v ∈ variables csp -> v ∉ default [] (neighbors csp !! v);
}.

(** The partial assignment is over the variables, with values of the
    domains, and consistent along every edge that has both ends assigned. *)
Definition asg_ok (a : gmap string val) : Prop :=
  (forall v, is_Some (a !! v) -> v ∈ variables csp) /\
  (forall v x, a !! v = Some x -> exists l0, domains csp !! v = Some l0 /\ x ∈ l0) /\
  (forall v n x y,
     a !! v = Some x -> n ∈ default [] (neighbors csp !! v) -> a !! n = Some y ->
     constraints csp v x n y = true).

(** Once initialized, the working domains are those of the variables, with
    values of the original domains. *)
Definition store_ok (w : World val) : Prop :=
  forall d, curr_domains w = Some d ->
    (forall v, v ∈ variables csp <-> is_Some (d !! v)) /\
    (forall v l, d !! v = Some l ->
       exists l0, domains csp !! v = Some l0 /\ forall x, x ∈ l -> x ∈ l0).

(** The domain of every unassigned neighbour of an assigned variable holds
    only values consistent with the value of that variable. *)
Definition pruned (a : gmap string val) (w : World val) : Prop :=
  forall A x B l,
    a !! A = Some x -> B ∈ default [] (neighbors csp !! A) -> a !! B = None ->
    working_domain csp w B = Some l ->
    forall b, b ∈ l -> constraints csp A x B b = true.

Definition search_inv (a : gmap string val) (w : World val) : Prop :=
  asg_ok a /\ store_ok w /\ pruned a w.

(** The domains of the variables hold the same values in [w'] as in [w],
    and working domains that were initialized still are. *)
Definition same_domains (w w' : World val) : Prop :=
  (is_Some (curr_domains w) -> is_Some (curr_domains w')) /\
  forall v l, v ∈ variables csp -> working_domain csp w v = Some l ->
    exists l', working_domain csp w' v = Some l' /\ forall x, x ∈ l' <-> x ∈ l.

(** No cap can stop the search: there is no trace, or no [max_steps]. *)
Definition cap_free (max_steps : option nat) (t : option (list (trace_event val))) : Prop :=
  t = None \/ max_steps = None.

(** What a call of [backtrack] from the assignment [a] and the world [w]
    leaves: a solution, or [None] with the assignment as it was and the
    domains holding the values they held. *)
Definition search_post (max_steps : option nat) (w : World val) (a : gmap string val)
    (r : option (gmap string val)) (s' : SearchState val) : Prop :=
  cap_free max_steps (trace s') /\
  match r with
  | Some c => solution c /\ size c = length (variables csp)
  | None => assignment s' = a /\ store_ok (world s') /\ same_domains w (world s')
  end.

(** A selector that returns an unassigned variable whenever there is one,
    and leaves the store as it is. *)
Definition selects_unassigned
    (select_unassigned_variable : gmap string val -> CSP val -> M (World val) string)
  : Prop :=
  forall a w,
    store_ok w ->
    (exists v, v ∈ variables csp /\ a !! v = None) ->
    exists v w',
      select_unassigned_variable a csp w = Ret v w' /\
      v ∈ variables csp /\ a !! v = None /\
      curr_domains w' = curr_domains w.

(** A value ordering that returns values of [choices], and leaves the world
    as it is. *)
Definition orders_choices
    (order_domain_values : string -> gmap string val -> CSP val -> M (World val) (list val))
  : Prop :=
  forall var a w l,
    choices csp var w = Ret l w ->
    exists l', order_domain_values var a csp w = Ret l' w /\ forall x, x ∈ l' -> x ∈ l.

End SolutionVocabulary.

Section DeterminismVocabulary.

Context {val : Type}.

(** Two worlds that differ at most in the state of the random generator. *)
Definition same_store (w1 w2 : World val) : Prop :=
  curr_domains w1 = curr_domains w2 /\ nassigns w1 = nassigns w2.

(** Two search states that differ at most in the state of the random
    generator. *)
Definition same_search (s1 s2 : SearchState val) : Prop :=
  same_store (world s1) (world s2) /\
  assignment s1 = assignment s2 /\ step s1 = step s2 /\ trace s1 = trace s2.

(** [m] does not consult the random generator. *)
Definition deterministic {A} (m : M (World val) A) : Prop := related same_store m m.

End DeterminismVocabulary.

Section TraceVocabulary.

Context {val : Type}.

(** The caller's list held [t0]; the search appended [n] events to it,
    numbered 1 to [n] in order. *)
Definition traced (t0 : list (trace_event val)) (s : SearchState val) (n : nat) : Prop :=
  exists evs, trace s = Some (t0 ++ evs) /\ ev_step <$> evs = seq 1 n.

(** [n] steps do not exceed [max_steps]. *)
Definition within_cap (max_steps : option nat) (n : nat) : Prop :=
  match max_steps with
  | Some m => n <= m
  | None => True
  end.

(** The state in which [log] raises: the counter is one past the cap, and
    the trace holds as many events as the cap allows. *)
Definition overflowed (t0 : list (trace_event val)) (max_steps : option nat)
    (s : SearchState val) : Prop :=
  exists m, max_steps = Some m /\ step s = S m /\ traced t0 s m.

End TraceVocabulary.

(** ** Vocabulary of the proofs *)

(** The order that [sorted_by] sorts by. *)
Definition key_le {A : Type} (key : A -> nat) (x y : A) : Prop := key x <= key y.

(** What the loops of [parse_neighbors] keep true of [graph]. *)
Definition graph_inv (g : odict (list string)) : Prop :=
  od_wf g /\ forall A B, adjacent g A B -> adjacent g B A.

(** [n] is an assigned neighbour whose value violates the constraint. *)
Definition in_conflict {val : Type} (csp : CSP val) (var : string) (x : val)
    (a : gmap string val) (n : string) : bool :=
  match a !! n with
  | Some b => negb (constraints csp var x n b)
  | None => false
  end.

(** What the search may raise: an exception of the strategies, in a state
    where [I] holds, or an exception of [log]. *)
Definition engine_exc {val : Type} (I : SearchState val -> Prop) (R : exn -> Prop)
    (Elog : exn -> SearchState val -> Prop) (e : exn) (s : SearchState val) : Prop :=
  (I s /\ R e) \/ Elog e s.

(** The trace and the step counter agree, and the cap is respected. *)
Definition trace_inv {val : Type} (max_steps : option nat) (t0 : list (trace_event val))
    (s : SearchState val) : Prop :=
  traced t0 s (step s) /\ within_cap max_steps (step s).

Section CompletenessVocabulary.

Context {val : Type} `{EqDecision val} (csp : CSP val).

(** [c] is a solution that agrees with the partial assignment [a] and gives
    every variable a value of its working domain in [w]. *)
Definition extends (a : gmap string val) (w : World val) (c : gmap string val) : Prop :=
  solution csp c /\
  (forall v x, a !! v = Some x -> c !! v = Some x) /\
  (forall v, v ∈ variables csp ->
     exists x l, c !! v = Some x /\ working_domain csp w v = Some l /\ x ∈ l).

(** A value ordering that returns exactly the values of [choices], in some
    order, and leaves the world as it is. *)
Definition covers_choices
    (order_domain_values : string -> gmap string val -> CSP val -> M (World val) (list val))
  : Prop :=
  forall var a w l,
    choices csp var w = Ret l w ->
    exists l', order_domain_values var a csp w = Ret l' w /\ forall x, x ∈ l' <-> x ∈ l.

(** How a call of [backtrack] from the assignment [a] and the world [w] can
    end: with a solution that agrees with [a]; with [None], the assignment
    and the domains as they were, when no solution among the candidates [P]
    agrees with [a] within the working domains; or with the error of the
    trace cap. *)
Definition search_outcome (P : gmap string val -> Prop) (w : World val)
    (a : gmap string val)
    (o : outcome (SearchState val) (option (gmap string val))) : Prop :=
  match o with
  | Ret (Some c) s' =>
      solution csp c /\ size c = length (variables csp) /\
      forall v x, a !! v = Some x -> c !! v = Some x
  | Ret None s' =>
      assignment s' = a /\ store_ok csp (world s') /\ same_domains csp w (world s') /\
      forall c, extends a w c -> ~ P c
  | Exc e s' => e = RuntimeError
  | NoFuel => False
  end.

End CompletenessVocabulary.

(** A proper coloring of the map [g] with [colors]: every region has one of
    the colors, and the two ends of an edge have different colors. *)
Definition proper_coloring {val : Type} (g : odict (list string)) (colors : list val)
    (c : gmap string val) : Prop :=
  (forall A, A ∈ od_keys g -> exists x, c !! A = Some x /\ x ∈ colors) /\
  (forall A B x y,
     A ∈ od_keys g -> adjacent g A B -> c !! A = Some x -> c !! B = Some y -> x ≠ y).

(** The events of a trace are numbered in increasing order, from 1 up to [cap]
    at most. *)
Definition steps_increase {val : Type} (cap : nat) (tr : list (trace_event val)) : Prop :=
  StronglySorted (fun e1 e2 => ev_step e1 < ev_step e2) tr /\
  Forall (fun e => 1 <= ev_step e <= cap) tr.

(** What the loop of [argmin_random_tie] holds in [best] after the elements
    [seen], for a key that reads the world without changing it. *)
Definition argmin_inv {val A : Type} (key : A -> M (World val) nat) (w : World val)
    (seen : list A) (best : option (list A * nat)) : Prop :=
  match best with
  | None => seen = []
  | Some (b, k) =>
      b ≠ [] /\
      (forall x, x ∈ b -> x ∈ seen /\ key x w = Ret k w) /\
      (forall y ky, y ∈ seen -> key y w = Ret ky w -> k <= ky)
  end.

(** Relative to duplicate-free working domains [d] at the start of the
    pruning: the working domain of every variable, with the values logged for
    it, is a rearrangement of the domain it had at the start. *)
Definition roundtrip_perm {val : Type} (d : gmap string (list val)) (w : World val)
    (removals : list (removal val)) : Prop :=
  exists d', curr_domains w = Some d' /\
    forall v,
      match d !! v with
      | Some l => exists l', d' !! v = Some l' /\ l' ++ pending v removals ≡ₚ l
      | None => d' !! v = None /\ pending v removals = []
      end.

(** What a successful call of [backtrack] leaves in the trace, when one is
    kept: its last event is the GOAL event of the returned assignment. *)
Definition goal_logged {val : Type} (r : option (gmap string val))
    (s : SearchState val) : Prop :=
  match r with
  | Some c =>
      forall t, trace s = Some t ->
        exists t' e,
          t = t' ++ [e] /\ ev_event e = GOAL /\ ev_assignment e = c /\
          ev_depth e = size c /\ ev_var e = None /\ ev_val e = None /\
          ev_step e = step s
  | None => True
  end.

(** Every key of the graph has at least one neighbour listed. *)
Definition no_empty_list (g : odict (list string)) : Prop :=
  forall A l, od_get g A = Some l -> l ≠ [].

(** ** The adjacency of [coloring_map.py] *)

(** [d[k] = v] on an insertion-ordered dictionary: a new key goes last, an
    old key keeps its place. *)
Fixpoint od_set {V} (k : string) (v : V) (d : odict V) : odict V :=
  match d with
  | [] => [(k, v)]
  | (k', v') :: rest =>
      if decide (k' = k) then (k', v) :: rest else (k', v') :: od_set k v rest
  end.

(** [d[k]] on an insertion-ordered dictionary. *)
Definition od_getitem {S V} (d : odict V) (k : string) : M S V :=
  match od_get d k with
  | Some v => ret v
  | None => raise KeyError
  end.

Section BuildAdjacency.

(** The geometry library is a parameter: the geometries, the predicate
    [touches] on them, and the row positions that [_candidate_indices] gets
    from the spatial index for a geometry. A frame is the list of its rows,
    each a region name and a geometry. *)
Variable geom : Type.
Variable touches : geom -> geom -> bool.
Variable _candidate_indices : list (string * geom) -> geom -> list nat.

(** [regions_gdf.iloc[idxs][name_col].tolist()]; a position past the last
    row is an IndexError. *)
Definition iloc_names {S} (regions_gdf : list (string * geom)) (idxs : list nat)
  : M S (list string) :=
  for_each idxs
    (fun names i =>
       match regions_gdf !! i with
       | Some row => ret (names ++ [row.1])
       | None => raise IndexError
       end)
    [].

(** The dictionary comprehension [geom_by_name]. *)
Definition geom_by_name (regions_gdf : list (string * geom)) : odict geom :=
  fold_left (fun d row => od_set row.1 row.2 d) regions_gdf [].

(** The loop over [candidate_names] for the region [a]. *)
Definition touching {S} (by_name : odict geom) (a : string) (a_geom : geom)
    (candidate_names : list string) : M S (list string) :=
  for_each candidate_names
    (fun neigh_list b =>
       if decide (a = b) then ret neigh_list
       else
         let* b_geom := od_getitem by_name b in
         if touches a_geom b_geom then ret (neigh_list ++ [b]) else ret neigh_list)
    [].

(** [build_adjacency(regions_gdf, name_col)]. *)
Definition build_adjacency {S} (regions_gdf : list (string * geom))
  : M S (odict (list string)) :=
  let by_name := geom_by_name regions_gdf in
  let names := od_keys by_name in
  for_each names
    (fun neighbors a =>
       let* a_geom := od_getitem by_name a in
       let idxs := _candidate_indices regions_gdf a_geom in
       let* candidate_names := iloc_names regions_gdf idxs in
       let* neigh_list := touching by_name a a_geom candidate_names in
       ret (od_set a (sorted_set neigh_list) neighbors))
    [].

End BuildAdjacency.

Arguments iloc_names {geom S} regions_gdf idxs.
Arguments geom_by_name {geom} regions_gdf.
Arguments touching {geom} touches {S} by_name a a_geom candidate_names.
Arguments build_adjacency {geom} touches _candidate_indices {S} regions_gdf.

(** A computation that reads no state: it returns a value in [Q] and leaves
    the state as it is, or raises an exception in [E]. *)
Definition pure_post {S A} (Q : A -> Prop) (E : exn -> Prop) (s : S)
    (o : outcome S A) : Prop :=
  match o with
  | Ret a s' => s' = s /\ Q a
  | Exc e _ => E e
  | NoFuel => False
  end.

(** * Tic-tac-toe and game-tree search: a shallow embedding of [games.py] *)

(** The type aliases [Move] and [Board]. *)
Notation Move := (Z * Z)%type.
Notation Board := (gmap (Z * Z) string).

(** The named tuple [GameState]. *)
Record GameState : Type := mkGameState {
  to_move : string;
  utility : Z;
  board : Board;
  moves : list Move;
}.

(** The one exception that the game code can raise: [int(inf)]. *)
Inductive game_exn : Set := OverflowError.

(** The outcome of a computation of the game code: a value, an exception, or
    no return within the budget of the model. *)
Inductive run (A : Type) : Type :=
| Done (a : A)
| Raised (e : game_exn)
| Unfinished.
Arguments Done {A} a.
Arguments Raised {A} e.
Arguments Unfinished {A}.

#[global] Instance run_ret : MRet run := @Done.
#[global] Instance run_bind : MBind run := fun A B f m =>
  match m with
  | Done a => f a
  | Raised e => Raised e
  | Unfinished => Unfinished
  end.

(** The values of [v], [alpha] and [beta]: an [int], or one of the floats
    [-inf] and [inf]. *)
Inductive number : Set := NegInf | Int (z : Z) | PosInf.

(** [a < b]. *)
Definition num_lt (a b : number) : bool :=
  match a, b with
  | NegInf, NegInf => false
  | NegInf, _ => true
  | Int _, NegInf => false
  | Int x, Int y => (x <? y)%Z
  | Int _, PosInf => true
  | PosInf, _ => false
  end.

(** [a >= b]. *)
Definition num_ge (a b : number) : bool := negb (num_lt a b).

(** [max(a, b)] and [min(a, b)]: the first argument unless the second is
    strictly better. *)
Definition py_max (a b : number) : number := if num_lt a b then b else a.
Definition py_min (a b : number) : number := if num_lt b a then b else a.

(** [int(v)]. *)
Definition py_int (v : number) : run Z :=
  match v with
  | Int z => Done z
  | NegInf | PosInf => Raised OverflowError
  end.

(** [range(1, n + 1)]. *)
Definition range1 (n : Z) : list Z := Z.of_nat <$> seq 1 (Z.to_nat n).

(** The global random generator and the standard output, as lines. *)
Record GameIO : Type := mkGameIO { io_rand : RandomSrc; io_stdout : list string }.

(** [print] of the given lines. *)
Definition print (lines : list string) (io : GameIO) : GameIO :=
  {| io_rand := io_rand io; io_stdout := io_stdout io ++ lines |}.

(** ** The base class [Game] *)

Module Game.

(** What a game provides. [result] may fail to return; [display] gives the
    lines that it prints. *)
Record methods : Type := mkMethods {
  initial : GameState;
  actions : GameState -> list Move;
  result : GameState -> option Move -> run GameState;
  utility : GameState -> string -> Z;
  terminal_test : GameState -> bool;
  to_move : GameState -> string;
  display : GameState -> list string;
}.

(** A player function: it may draw from the random generator and print. *)
Definition player : Type :=
  methods -> GameState -> GameIO -> run (option Move * GameIO).

(** One pass of [for player_fn in players]: the utility when the game ended
    in it, or the state reached. *)
Fixpoint play_round (self : methods) (players : list player) (state : GameState)
    (io : GameIO) : run ((Z + GameState) * GameIO) :=
  match players with
  | [] => Done (inr state, io)
  | player_fn :: rest =>
      '(move, io) ← player_fn self state io;
      state ← result self state move;
      if terminal_test self state then
        Done (inl (utility self state "X"), print (display self state) io)
      else play_round self rest state io
  end.

(** The loop [while True]; [fuel] bounds the number of passes. *)
Fixpoint play_loop (fuel : nat) (self : methods) (players : list player)
    (state : GameState) (io : GameIO) : run (Z * GameIO) :=
  match fuel with
  | 0 => Unfinished
  | S fuel' =>
      '(r, io) ← play_round self players state io;
      match r with
      | inl u => Done (u, io)
      | inr state => play_loop fuel' self players state io
      end
  end.

(** [Game.play_game], called with the players. *)
Definition play_game (fuel : nat) (self : methods) (players : list player)
    (io : GameIO) : run (Z * GameIO) :=
  play_loop fuel self players (initial self) io.

End Game.

(** ** Minimax *)

(** A [for] loop of the game code that threads an accumulator. *)
Fixpoint run_fold {A B} (body : B -> A -> run B) (l : list A) (acc : B) : run B :=
  match l with
  | [] => Done acc
  | x :: rest => acc' ← body acc x; run_fold body rest acc'
  end.

(** [max(l, key=key)] on a list with first element [x]: the first element
    whose key is the greatest. *)
Fixpoint max_by_loop {A} (key : A -> run Z) (l : list A) (best : A) (best_key : Z)
  : run A :=
  match l with
  | [] => Done best
  | x :: rest =>
      k ← key x;
      if (best_key <? k)%Z then max_by_loop key rest x k
      else max_by_loop key rest best best_key
  end.

Section Minimax.

Variable game : Game.methods.
Variable player : string.

(** The nested functions [max_value] and [min_value] of [minmax_decision];
    [fuel] bounds the depth of the recursion. *)
Fixpoint minmax_max_value (fuel : nat) (s : GameState) : run Z :=
  match fuel with
  | 0 => Unfinished
  | S fuel' =>
      if Game.terminal_test game s then Done (Game.utility game s player)
      else
        v ← run_fold
               (fun v a =>
                  s' ← Game.result game s (Some a);
                  x ← minmax_min_value fuel' s';
                  Done (py_max v (Int x)))
               (Game.actions game s) NegInf;
        py_int v
  end
with minmax_min_value (fuel : nat) (s : GameState) : run Z :=
  match fuel with
  | 0 => Unfinished
  | S fuel' =>
      if Game.terminal_test game s then Done (Game.utility game s player)
      else
        v ← run_fold
               (fun v a =>
                  s' ← Game.result game s (Some a);
                  x ← minmax_max_value fuel' s';
                  Done (py_min v (Int x)))
               (Game.actions game s) PosInf;
        py_int v
  end.

(** The loops of the nested functions of [alpha_beta_search], which leave
    at a cut; [eval] is the call on the other function. *)
Fixpoint alpha_beta_max_loop (eval : GameState -> number -> number -> run Z)
    (s : GameState) (beta : number) (acts : list Move) (v alpha : number) : run Z :=
  match acts with
  | [] => py_int v
  | a :: rest =>
      s' ← Game.result game s (Some a);
      x ← eval s' alpha beta;
      let v := py_max v (Int x) in
      if num_ge v beta then py_int v
      else alpha_beta_max_loop eval s beta rest v (py_max alpha v)
  end.

Fixpoint alpha_beta_min_loop (eval : GameState -> number -> number -> run Z)
    (s : GameState) (alpha : number) (acts : list Move) (v beta : number) : run Z :=
  match acts with
  | [] => py_int v
  | a :: rest =>
      s' ← Game.result game s (Some a);
      x ← eval s' alpha beta;
      let v := py_min v (Int x) in
      if num_ge alpha v then py_int v
      else alpha_beta_min_loop eval s alpha rest v (py_min beta v)
  end.

(** The nested functions [max_value] and [min_value] of
    [alpha_beta_search]. *)
Fixpoint alpha_beta_max_value (fuel : nat) (s : GameState) (alpha beta : number)
  : run Z :=
  match fuel with
  | 0 => Unfinished
  | S fuel' =>
      if Game.terminal_test game s then Done (Game.utility game s player)
      else
        alpha_beta_max_loop (alpha_beta_min_value fuel') s beta
          (Game.actions game s) NegInf alpha
  end
with alpha_beta_min_value (fuel : nat) (s : GameState) (alpha beta : number)
  : run Z :=
  match fuel with
  | 0 => Unfinished
  | S fuel' =>
      if Game.terminal_test game s then Done (Game.utility game s player)
      else
        alpha_beta_min_loop (alpha_beta_max_value fuel') s alpha
          (Game.actions game s) PosInf beta
  end.

End Minimax.

(** [minmax_decision(state, game)]. *)
Definition minmax_decision (fuel : nat) (state : GameState) (game : Game.methods)
  : run (option Move) :=
  let player := Game.to_move game state in
  match Game.actions game state with
  | [] => Done None
  | a :: rest =>
      let key a :=
        s' ← Game.result game state (Some a);
        minmax_min_value game player fuel s' in
      k ← key a;
      best ← max_by_loop key rest a k;
      Done (Some best)
  end.

(** [alpha_beta_search(state, game)]. *)
Definition alpha_beta_search (fuel : nat) (state : GameState) (game : Game.methods)
  : run (option Move) :=
  let player := Game.to_move game state in
  '(best_score, best_action) ←
    run_fold
      (fun '(best_score, best_action) a =>
         s' ← Game.result game state (Some a);
         v ← alpha_beta_min_value game player fuel s' best_score PosInf;
         if num_lt best_score (Int v) then Done (Int v, Some a)
         else Done (best_score, best_action))
      (Game.actions game state) (NegInf, None);
  Done best_action.

(** ** Players *)

(** [random.choice(seq)] on a list that is not empty. *)
Definition random_choice_of {A} (x : A) (rest : list A) (io : GameIO) : A * GameIO :=
  let r := io_rand io in
  let i := draws r (pos r) mod length (x :: rest) in
  (nth i (x :: rest) x,
   {| io_rand := {| draws := draws r; pos := S (pos r) |}; io_stdout := io_stdout io |}).

(** [random_player(game, state)]. *)
Definition random_player : Game.player := fun game state io =>
  match Game.actions game state with
  | [] => Done (None, io)
  | m :: rest => let '(m', io') := random_choice_of m rest io in Done (Some m', io')
  end.

(** [minmax_player(game, state)] and [alpha_beta_player(game, state)]. *)
Definition minmax_player (fuel : nat) : Game.player := fun game state io =>
  m ← minmax_decision fuel state game; Done (m, io).
Definition alpha_beta_player (fuel : nat) : Game.player := fun game state io =>
  m ← alpha_beta_search fuel state game; Done (m, io).

(** ** The class [TicTacToe] *)

Module TicTacToe.

Section Methods.

(** The attributes [h], [v] and [k] set by [__init__]. *)
Variables h v k : Z.

(** [self.initial]. *)
Definition initial : GameState :=
  {| to_move := "X"; utility := 0; board := ∅;
     moves := x ← range1 h; y ← range1 v; [(x, y)] |}.

(** [actions]. *)
Definition actions (state : GameState) : list Move := moves state.

(** One of the [while] loops of [k_in_row]: the number of times that its
    body runs from the cell [(x, y)] in steps of [(dx, dy)]. *)
Fixpoint run_length (fuel : nat) (board : Board) (player : string) (x y dx dy : Z)
  : run nat :=
  match fuel with
  | 0 => Unfinished
  | S fuel' =>
      if decide (board !! (x, y) = Some player) then
        n ← run_length fuel' board player (x + dx)%Z (y + dy)%Z dx dy; Done (S n)
      else Done 0
  end.

(** [k_in_row]; each loop gets a budget of one more than the number of
    cells on the board. *)
Definition k_in_row (board : Board) (move : Move) (player : string) (delta : Move)
  : run bool :=
  let '(dx, dy) := delta in
  let '(x0, y0) := move in
  forward ← run_length (S (size board)) board player (x0 + dx)%Z (y0 + dy)%Z dx dy;
  back ← run_length (S (size board)) board player (x0 - dx)%Z (y0 - dy)%Z (- dx)%Z (- dy)%Z;
  Done (bool_decide (k ≤ Z.of_nat (1 + forward + back))%Z).

(** [compute_utility]; [or] evaluates the directions in order until one
    succeeds. *)
Definition compute_utility (board : Board) (move : Move) (player : string) : run Z :=
  let won : run Z := Done (if decide (player = "X") then 1 else -1)%Z in
  b ← k_in_row board move player (0, 1)%Z;
  if b : bool then won else
  b ← k_in_row board move player (1, 0)%Z;
  if b : bool then won else
  b ← k_in_row board move player (1, 1)%Z;
  if b : bool then won else
  b ← k_in_row board move player (1, -1)%Z;
  if b : bool then won else Done 0%Z.

(** [result]. *)
Definition result (state : GameState) (move : option Move) : run GameState :=
  match move with
  | None => Done state
  | Some move =>
      if decide (move ∈ moves state) then
        let board := <[move := to_move state]> (board state) in
        let moves := list_remove move (moves state) in
        let next_player := if decide (to_move state = "X") then "O" else "X" in
        util ← compute_utility board move (to_move state);
        Done {| to_move := next_player; utility := util; board := board; moves := moves |}
      else Done state
  end.

(** [terminal_test]. *)
Definition terminal_test (state : GameState) : bool :=
  bool_decide (utility state ≠ 0%Z) || bool_decide (length (moves state) = 0).

(** [display]: the lines printed. *)
Definition display (state : GameState) : list string :=
  ((fun x =>
      String.concat " " ((fun y => default "." (board state !! (x, y))) <$> range1 v))
     <$> range1 h)
  ++ ["to_move: " +:+ to_move state +:+ " | utility(X): " +:+ pretty (utility state); ""].

(** [utility]. *)
Definition utility (state : GameState) (player : string) : Z :=
  if decide (player = "X") then utility state else (- utility state)%Z.

(** The game object; [to_move] is inherited from [Game]. *)
Definition game : Game.methods :=
  {| Game.initial := initial;
     Game.actions := actions;
     Game.result := result;
     Game.utility := utility;
     Game.terminal_test := terminal_test;
     Game.to_move := to_move;
     Game.display := display |}.

End Methods.

End TicTacToe.

(** ** Specification vocabulary of the game code *)

(** The cells from [lo] to [hi] steps along [delta] from [move], the cell
    [move] itself left out, all hold [player]. *)
Definition line_of (board : Board) (player : string) (move delta : Move) (lo hi : Z)
  : Prop :=
  forall t : Z, (lo <= t <= hi)%Z -> t ≠ 0%Z ->
    board !! (move.1 + t * delta.1, move.2 + t * delta.2)%Z = Some player.

(** [move] completes at least [k] cells in a row along [delta]. *)
Definition in_a_row (k : Z) (board : Board) (player : string) (move delta : Move)
  : Prop :=
  exists lo hi : Z,
    (lo <= 0 <= hi)%Z /\ (k <= hi - lo + 1)%Z /\ line_of board player move delta lo hi.

(** The four directions that [compute_utility] looks in. *)
Definition directions : list Move := [(0, 1); (1, 0); (1, 1); (1, -1)]%Z.

(** The move of [player] wins on [board], which already holds it. *)
Definition winning (k : Z) (board : Board) (player : string) (move : Move) : Prop :=
  exists delta, delta ∈ directions /\ in_a_row k board player move delta.

(** The states that a game of tic-tac-toe can be in: the initial state, and
    what [result] gives from them for any move. *)
Inductive reachable (h v k : Z) : GameState -> Prop :=
| reachable_initial : reachable h v k (TicTacToe.initial h v)
| reachable_result state move state' :
    reachable h v k state ->
    TicTacToe.result k state move = Done state' ->
    reachable h v k state'.

(** What holds of every state of a game on a board of [h] by [v] cells: the
    free cells and the marked cells together are the cells of the board,
    each once; the marks are "X" and "O", "X" moves on an even number of
    marks; a utility of 1 is followed by the turn of "O", one of -1 by the
    turn of "X". *)
Record state_inv (h v : Z) (state : GameState) : Prop := {
  inv_cells :
    moves state ++ (map_to_list (board state)).*1 ≡ₚ moves (TicTacToe.initial h v);
  inv_marks : forall c p, board state !! c = Some p -> p = "X" \/ p = "O";
  inv_turn :
    (to_move state = "X" /\ Nat.Even (size (board state))) \/
    (to_move state = "O" /\ Nat.Odd (size (board state)));
  inv_utility :
    (utility state = 0 \/ (utility state = 1 /\ to_move state = "O") \/
     (utility state = -1 /\ to_move state = "X"))%Z;
}.

(** A player that, in the states [ok], always answers, with one of the
    legal moves whenever there is one. *)
Definition plays_legal (game : Game.methods) (ok : GameState -> Prop)
    (p : Game.player) : Prop :=
  forall state io, ok state -> exists move io',
    p game state io = Done (move, io') /\
    (Game.actions game state ≠ [] ->
     exists m, move = Some m /\ m ∈ Game.actions game state).

(** How a game of tic-tac-toe ends: in a terminal state that was reached by
    the rules, with its utility for "X" returned and displayed last. *)
Definition game_over (h v k : Z) (u : Z) (io : GameIO) : Prop :=
  exists final out,
    reachable h v k final /\
    TicTacToe.terminal_test final = true /\
    u = utility final /\ (u = 0 \/ u = 1 \/ u = -1)%Z /\
    io_stdout io = out ++ TicTacToe.display h v final.

(** The value that [minmax_decision] gives to the move [a] in [state]: the
    minimax value, for the player to move, of the state after it. *)
Definition move_value (fuel : nat) (state : GameState) (game : Game.methods) (a : Move)
  : run Z :=
  s' ← Game.result game state (Some a);
  minmax_min_value game (Game.to_move game state) fuel s'.

(** What a value [r] returned for the window from [alpha] to [beta] says
    about the minimax value [t]: at or below [alpha] it bounds [t] from
    above, at or above [beta] from below, and strictly inside it is [t]. *)
Definition within_window (alpha beta : number) (t r : Z) : Prop :=
  (num_lt alpha (Int r) = false -> (t <= r)%Z) /\
  (num_lt (Int r) beta = false -> (r <= t)%Z) /\
  (num_lt alpha (Int r) = true -> num_lt (Int r) beta = true -> t = r).

(** * Concrete problems *)


(** A random generator that always draws 0, and one that always draws 1. *)
Definition rand0 : RandomSrc := {| draws := fun _ => 0; pos := 0 |}.
Definition rand1 : RandomSrc := {| draws := fun _ => 1; pos := 0 |}.

(** The cycle A-B-C-D-E-A, colored with two colors. *)
Definition cycle5 : CSP string :=
  MapColoringCSP ["R"; "G"] (NeighborsText "A: B E; B: C; C: D; D: E").

(** The cycle A-B-C-D-A, colored with two colors. *)
Definition cycle4 : CSP string :=
  MapColoringCSP ["R"; "G"] (NeighborsText "A: B D; B: C; C: D").

(** One region that is its own neighbour. *)
Definition loop1 : CSP string := MapColoringCSP ["R"] (NeighborsText "A: A").

(** A star with centre A, colored with three colors. *)
Definition star3 : CSP string :=
  MapColoringCSP ["R"; "G"; "B"] (NeighborsText "A: B C").

(** The world of [star3] once [support_pruning] has run. *)
Definition star3_world : World string :=
  match support_pruning star3 (fresh_world rand0) with
  | Ret _ w => w
  | _ => fresh_world rand0
  end.

(** The removal log and the world of [star3] after [suppose A G], and the
    world after the [restore] of that log. *)
Definition star3_supposed : list (removal string) * World string :=
  match suppose star3 "A" "G" star3_world with
  | Ret r w => (r, w)
  | _ => ([], star3_world)
  end.

Definition star3_restored : World string :=
  match restore star3_supposed.1 star3_supposed.2 with
  | Ret _ w => w
  | _ => star3_world
  end.

(** The working domains of [star3_world], and the log and the world after
    [suppose A G] and [prune B R]. *)
Definition star3_domains : gmap string (list string) :=
  default ∅ (curr_domains star3_world).

Definition star3_pruned : list (removal string) * World string :=
  match prune_all star3 [OpSuppose "A" "G"; OpPrune "B" "R"] [] star3_world with
  | Ret r w => (r, w)
  | _ => ([], star3_world)
  end.

(** The solution found for [cycle4] and the state in which it is returned;
    the candidate that [backtrack] returns for [loop1]. *)
Definition cycle4_outcome : gmap string string * SearchState string :=
  match backtracking_search cycle4 mrv lcv forward_checking (Some []) None 10
          (fresh_world rand0) with
  | Ret (Some r) s => (r, s)
  | _ => (∅, {| world := fresh_world rand0; assignment := ∅; step := 0; trace := None |})
  end.

Definition loop1_candidate : gmap string string * SearchState string :=
  match backtrack loop1 mrv lcv forward_checking None 5
          {| world := fresh_world rand0; assignment := ∅; step := 0; trace := None |} with
  | Ret (Some r) s => (r, s)
  | _ => (∅, {| world := fresh_world rand0; assignment := ∅; step := 0; trace := None |})
  end.


(** The triangle A-B-C as a neighbor dictionary. *)
Definition triangle : odict (list string) := parse_neighbors "A: B C; B: C".

(** A board with two marks of "X" in the first row, and the empty standard
    output with the generator [rand0]. *)
Definition two_in_row : Board := <[(1, 1)%Z := "X"]> (<[(1, 2)%Z := "X"]> ∅).
Definition quiet_io : GameIO := {| io_rand := rand0; io_stdout := [] |}.

(** * Verification *)

(** ** Running computations *)

Lemma bind_Ret_inv {S A B} (m : M S A) (k : A -> M S B) s b s2 :
  bind m k s = Ret b s2 -> exists a s1, m s = Ret a s1 /\ k a s1 = Ret b s2.
Proof. unfold bind. destruct (m s) as [a s1|e s1|]; [eauto|done|done]. Qed.

Lemma bind_Exc_inv {S A B} (m : M S A) (k : A -> M S B) s e s2 :
  bind m k s = Exc e s2 ->
  m s = Exc e s2 \/ exists a s1, m s = Ret a s1 /\ k a s1 = Exc e s2.
Proof.
  unfold bind. destruct (m s) as [a s1|e1 s1|]; intros; simplify_eq; eauto.
Qed.

Lemma bind_run {S A B} (m : M S A) (k : A -> M S B) s a s1 :
  m s = Ret a s1 -> bind m k s = k a s1.
Proof. unfold bind. by intros ->. Qed.

Lemma bind_run_Exc {S A B} (m : M S A) (k : A -> M S B) s e s1 :
  m s = Exc e s1 -> bind m k s = Exc e s1.
Proof. unfold bind. by intros ->. Qed.

Lemma getitem_Ret_inv {S K V} `{Countable K} (d : gmap K V) k (s s' : S) v :
  getitem d k s = Ret v s' -> d !! k = Some v /\ s' = s.
Proof. unfold getitem. destruct (d !! k); cbv; intros; simplify_eq; done. Qed.

Lemma getitem_run {S K V} `{Countable K} (d : gmap K V) k (s : S) v :
  d !! k = Some v -> getitem d k s = Ret v s.
Proof. unfold getitem. by intros ->. Qed.

(** Decompose a hypothesis stating that a sequence of binds returned. *)
Ltac inv_ret :=
  repeat match goal with
  | H : bind _ _ _ = Ret _ _ |- _ =>
      let a := fresh "a" in let s := fresh "s" in
      let H1 := fresh "Hrun" in let H2 := fresh "Hrun" in
      apply bind_Ret_inv in H as (a & s & H1 & H2)
  | H : ret _ _ = Ret _ _ |- _ => unfold ret in H; simplify_eq
  | H : get _ = Ret _ _ |- _ => unfold get in H; simplify_eq
  | H : gets _ _ = Ret _ _ |- _ => unfold gets in H; simplify_eq
  | H : put _ _ = Ret _ _ |- _ => unfold put in H; simplify_eq
  | H : modify _ _ = Ret _ _ |- _ => unfold modify in H; simplify_eq
  | H : raise _ _ = Ret _ _ |- _ => unfold raise in H; discriminate H
  | H : getitem _ _ _ = Ret _ _ |- _ =>
      let H1 := fresh "Hget" in
      apply getitem_Ret_inv in H as [H1 ->]
  end.

(** ** The stable sort behind [lcv] *)

Section SortedBy.

Context {A : Type} (key : A -> nat).

Lemma insert_by_perm x l : insert_by key x l ≡ₚ x :: l.
Proof.
  induction l as [|y l IH]; simpl; [done|].
  destruct (key x <=? key y)%nat; [done|].
  rewrite IH. apply Permutation_swap.
Qed.

Lemma insert_by_sorted x l :
  StronglySorted (key_le key) l -> StronglySorted (key_le key) (insert_by key x l).
Proof.
  induction 1 as [|y l Hl IH Hy]; simpl.
  - repeat constructor.
  - destruct (Nat.leb_spec (key x) (key y)) as [Hxy|Hxy].
    + constructor; [by constructor|].
      constructor; [done|].
      eapply Forall_impl; [exact Hy|]. unfold key_le. intros; lia.
    + constructor; [done|].
      rewrite insert_by_perm. constructor; [unfold key_le; lia|done].
Qed.

Lemma insert_by_filter k x l :
  filter (fun y => key y = k) (insert_by key x l)
  = filter (fun y => key y = k) (x :: l).
Proof.
  induction l as [|y l IH]; simpl; [done|].
  destruct (Nat.leb_spec (key x) (key y)) as [Hxy|Hxy]; [done|].
  rewrite filter_cons, IH, !filter_cons.
  repeat case_decide; try done; lia.
Qed.

Lemma sorted_by_perm l : sorted_by key l ≡ₚ l.
Proof.
  induction l as [|x l IH]; simpl; [done|].
  by rewrite insert_by_perm, IH.
Qed.

Lemma sorted_by_sorted l : StronglySorted (key_le key) (sorted_by key l).
Proof.
  induction l as [|x l IH]; simpl; [constructor|by apply insert_by_sorted].
Qed.

Lemma sorted_by_stable k l :
  filter (fun y => key y = k) (sorted_by key l) = filter (fun y => key y = k) l.
Proof.
  induction l as [|x l IH]; simpl; [done|].
  by rewrite insert_by_filter, !filter_cons, IH.
Qed.

End SortedBy.

Section LcvSpec.

Context {val : Type} `{EqDecision val}.

(** C8. [lcv] returns the current candidate values of [var] (what
    [choices] gives), rearranged so that the conflict counts against the
    assigned neighbours ascend, and values with the same count keep the
    order they have in [choices]; the world is left as it was. *)
Theorem lcv_sorted_stable (csp : CSP val) (var : string) (a : gmap string val)
    (w w' : World val) (cs : list val) :
  choices csp var w = Ret cs w' ->
  exists l,
    lcv var a csp w = Ret l w /\ w' = w /\
    l ≡ₚ cs /\
    StronglySorted (fun x y => nconflicts csp var x a <= nconflicts csp var y a) l /\
    forall n, filter (fun x => nconflicts csp var x a = n) l
              = filter (fun x => nconflicts csp var x a = n) cs.
Proof.
  intros Hc.
  assert (w' = w) as ->.
  { unfold choices in Hc. inv_ret.
    destruct (curr_domains _); [case_decide|]; by inv_ret. }
  exists (sorted_by (fun v => nconflicts csp var v a) cs).
  split; [|split; [done|split; [|split]]].
  - unfold lcv. by rewrite (bind_run _ _ _ _ _ Hc).
  - apply sorted_by_perm.
  - apply (sorted_by_sorted (fun v => nconflicts csp var v a)).
  - intros n. apply (sorted_by_stable (fun v => nconflicts csp var v a)).
Qed.

End LcvSpec.

(** ** [parse_neighbors] *)

Section ParseNeighbors.

#[local] Instance str_le_total : Total str_le.
Proof. intros s1 s2. apply String.leb_total. Qed.

#[local] Instance str_le_trans : Transitive str_le.
Proof.
  unfold str_le, String.leb. intros s1.
  induction s1 as [|a s1 IH]; intros [|b s2] [|c s3]; simpl; try done.
  unfold Ascii.compare.
  destruct (N.compare_spec (N_of_ascii a) (N_of_ascii b)) as [Hab|Hab|Hab];
    destruct (N.compare_spec (N_of_ascii b) (N_of_ascii c)) as [Hbc|Hbc|Hbc];
    destruct (N.compare_spec (N_of_ascii a) (N_of_ascii c)) as [Hac|Hac|Hac];
    try done; try lia.
  apply IH.
Qed.

Lemma od_get_append {A} k (x : A) g k' :
  od_get (od_append k x g) k'
  = if decide (k = k') then Some (default [] (od_get g k) ++ [x]) else od_get g k'.
Proof.
  induction g as [|[k0 l] g IH]; simpl.
  - repeat case_decide; simplify_eq; done.
  - destruct (decide (k0 = k)) as [->|Hne]; simpl.
    + repeat case_decide; simplify_eq; done.
    + rewrite IH. repeat case_decide; simplify_eq; done.
Qed.

Lemma od_keys_append {A} k (x : A) g :
  od_keys (od_append k x g) = if decide (k ∈ od_keys g) then od_keys g else od_keys g ++ [k].
Proof.
  unfold od_keys. induction g as [|[k0 l] g IH]; csimpl.
  - done.
  - destruct (decide (k0 = k)) as [->|Hne]; csimpl.
    + by rewrite decide_True by apply list_elem_of_here.
    + rewrite IH. repeat case_decide; try done; exfalso; set_solver.
Qed.

Lemma od_wf_append {A} k (x : A) g : od_wf g -> od_wf (od_append k x g).
Proof.
  unfold od_wf. rewrite od_keys_append. case_decide as Hin; [done|].
  intros Hnd. apply NoDup_app. split_and!; [done| |apply NoDup_singleton].
  intros y Hy ->%list_elem_of_singleton. done.
Qed.

Lemma adjacent_append g k x A B :
  adjacent (od_append k x g) A B <-> adjacent g A B \/ (A = k /\ B = x).
Proof.
  unfold adjacent. split.
  - intros (l & Hl & HB). rewrite od_get_append in Hl.
    case_decide as Hk; simplify_eq.
    + apply elem_of_app in HB as [HB| ->%list_elem_of_singleton]; [|by right].
      left. destruct (od_get g A) as [l|]; simpl in HB; [eauto|].
      by apply elem_of_nil in HB.
    + left; eauto.
  - intros [(l & Hl & HB)|[-> ->]].
    + rewrite od_get_append. case_decide as Hk; simplify_eq.
      * rewrite Hl. simpl. eexists; split; [done|]. apply elem_of_app; by left.
      * eauto.
    + rewrite od_get_append, decide_True by done.
      eexists; split; [done|]. apply elem_of_app; right. by apply list_elem_of_singleton.
Qed.

Lemma graph_inv_add_edge g A B :
  graph_inv g -> graph_inv (od_append B A (od_append A B g)).
Proof.
  intros [Hwf Hsym]. split; [by do 2 apply od_wf_append|].
  intros X Y. rewrite !adjacent_append. naive_solver.
Qed.

Lemma graph_inv_add_edges g A Bs :
  graph_inv g ->
  graph_inv (fold_left (fun graph B => od_append B A (od_append A B graph)) Bs g).
Proof.
  revert g. induction Bs as [|B Bs IH]; intros g Hg; simpl; [done|].
  by apply IH, graph_inv_add_edge.
Qed.

Lemma graph_inv_parse_spec g spec : graph_inv g -> graph_inv (parse_spec g spec).
Proof.
  intros Hg. unfold parse_spec.
  destruct (negb _); [done|].
  destruct (str_split_once _ _) as [[A Aneigh]|]; [|done].
  by apply graph_inv_add_edges.
Qed.

Lemma graph_inv_specs specs g : graph_inv g -> graph_inv (fold_left parse_spec specs g).
Proof.
  revert g. induction specs as [|spec specs IH]; intros g Hg; simpl; [done|].
  by apply IH, graph_inv_parse_spec.
Qed.

Lemma od_get_fmap {V W} (f : V -> W) (g : odict V) k :
  od_get ((fun kv => (kv.1, f kv.2)) <$> g) k = f <$> od_get g k.
Proof.
  induction g as [|[k0 v] g IH]; simpl; [done|].
  case_decide; [done|apply IH].
Qed.

Lemma elem_of_sorted_set x v : x ∈ sorted_set v <-> x ∈ v.
Proof.
  unfold sorted_set. rewrite merge_sort_Permutation. apply elem_of_remove_dups.
Qed.

Lemma adjacent_sorted g A B :
  adjacent ((fun kv => (kv.1, sorted_set kv.2)) <$> g) A B <-> adjacent g A B.
Proof.
  unfold adjacent. rewrite od_get_fmap. split.
  - intros (l & Hl & HB). destruct (od_get g A) as [l0|]; simplify_eq/=.
    exists l0. split; [done|]. by apply elem_of_sorted_set.
  - intros (l & Hl & HB). rewrite Hl. simpl. eexists; split; [done|].
    by apply elem_of_sorted_set.
Qed.

Lemma NoDup_sorted_set v : NoDup (sorted_set v).
Proof.
  unfold sorted_set. rewrite merge_sort_Permutation. apply NoDup_remove_dups.
Qed.

Lemma Sorted_sorted_set v : StronglySorted str_le (sorted_set v).
Proof. unfold sorted_set. apply StronglySorted_merge_sort; apply _. Qed.

Lemma str_split_nonempty sep s : str_split sep s ≠ [].
Proof.
  destruct s as [|c s]; simpl; [done|].
  destruct (Ascii.eqb c sep); [done|]. by destruct (str_split sep s).
Qed.

Lemma str_split_app sep s1 s2 :
  str_split sep (s1 +:+ String sep s2) = str_split sep s1 ++ str_split sep s2.
Proof.
  induction s1 as [|c s1 IH]; simpl.
  - by rewrite Ascii.eqb_refl.
  - destruct (Ascii.eqb c sep); [by rewrite IH|].
    rewrite IH. pose proof (str_split_nonempty sep s1).
    by destruct (str_split sep s1).
Qed.

Lemma str_split_absent sep s : str_contains sep s = false -> str_split sep s = [s].
Proof.
  induction s as [|c s IH]; simpl; [done|].
  destruct (Ascii.eqb c sep); simpl; [done|]. by intros ->%IH.
Qed.

Lemma str_contains_lstrip sep s :
  str_contains sep s = false -> str_contains sep (str_lstrip s) = false.
Proof.
  induction s as [|c s IH]; simpl; [done|].
  destruct (isspace c); [|done].
  intros [_ Hs]%orb_false_iff. by apply IH.
Qed.

Lemma str_contains_rstrip sep s :
  str_contains sep s = false -> str_contains sep (str_rstrip s) = false.
Proof.
  induction s as [|c s IH]; simpl; [done|].
  intros [Hc Hs]%orb_false_iff. specialize (IH Hs).
  destruct (str_rstrip s); simpl in *.
  - destruct (isspace c); simpl; [done|]. by rewrite Hc.
  - by rewrite Hc, IH.
Qed.

Lemma str_contains_strip sep s :
  str_contains sep s = false -> str_contains sep (str_strip s) = false.
Proof. intros. by apply str_contains_rstrip, str_contains_lstrip. Qed.

Lemma parse_spec_no_colon g spec : str_contains ":" spec = false -> parse_spec g spec = g.
Proof. unfold parse_spec. by intros ->. Qed.

Lemma str_split_once_contains sep s :
  str_contains sep s = true <-> is_Some (str_split_once sep s).
Proof.
  induction s as [|c s IH]; simpl.
  - split; [done|]. by intros [? ?].
  - destruct (Ascii.eqb c sep); simpl; [by split; [eexists|]|].
    rewrite IH. destruct (str_split_once sep s) as [[a b]|]; [by split; eexists|].
    split; by intros [? ?].
Qed.

Lemma adjacent_add_edges g A Bs X Y :
  adjacent (fold_left (fun graph B => od_append B A (od_append A B graph)) Bs g) X Y
  <-> adjacent g X Y \/ exists B, B ∈ Bs /\ ((X = A /\ Y = B) \/ (X = B /\ Y = A)).
Proof.
  revert g. induction Bs as [|B Bs IH]; intros g; simpl.
  - split; [by left|]. intros [?|(B & HB & _)]; [done|]. by apply elem_of_nil in HB.
  - rewrite IH, !adjacent_append. split.
    + intros [[[?|[-> ->]]|[-> ->]]|(B' & HB' & Hedge)].
      * by left.
      * right. exists B. split; [left|by left].
      * right. exists B. split; [left|by right].
      * right. exists B'. split; [by right|done].
    + intros [?|(B' & [->|HB']%elem_of_cons & Hedge)].
      * by left; left; left.
      * left. destruct Hedge as [[-> ->]|[-> ->]]; [left; by right|by right].
      * right. by exists B'.
Qed.

Lemma adjacent_parse_spec g spec X Y :
  adjacent (parse_spec g spec) X Y
  <-> adjacent g X Y \/
      exists A Aneigh B,
        str_split_once ":" spec = Some (A, Aneigh) /\ B ∈ str_words Aneigh /\
        ((X = str_strip A /\ Y = B) \/ (X = B /\ Y = str_strip A)).
Proof.
  unfold parse_spec. destruct (str_contains ":" spec) eqn:Hcolon; simpl.
  - apply str_split_once_contains in Hcolon as [[A Aneigh] Hsplit]. rewrite Hsplit.
    rewrite adjacent_add_edges. split.
    + intros [?|(B & HB & Hedge)]; [by left|]. right. by exists A, Aneigh, B.
    + intros [?|(A' & Aneigh' & B & [= <- <-] & HB & Hedge)]; [by left|].
      right. by exists B.
  - split; [by left|]. intros [?|(A & Aneigh & B & Hsplit & _)]; [done|].
    assert (str_contains ":" spec = true) as Hc
      by (apply str_split_once_contains; by rewrite Hsplit).
    congruence.
Qed.

Lemma adjacent_parse_specs specs : forall g X Y,
  adjacent (fold_left parse_spec specs g) X Y
  <-> adjacent g X Y \/
      exists spec A Aneigh B,
        spec ∈ specs /\
        str_split_once ":" spec = Some (A, Aneigh) /\ B ∈ str_words Aneigh /\
        ((X = str_strip A /\ Y = B) \/ (X = B /\ Y = str_strip A)).
Proof.
  induction specs as [|spec specs IH]; intros g X Y; simpl.
  - split; [by left|]. intros [?|(spec & ? & ? & ? & Hin & _)]; [done|].
    by apply elem_of_nil in Hin.
  - rewrite IH, adjacent_parse_spec. split.
    + intros [[?|(A & Aneigh & B & ? & ? & ?)]|(spec' & A & Aneigh & B & ? & ? & ? & ?)].
      * by left.
      * right. exists spec, A, Aneigh, B. split; [left|done].
      * right. exists spec', A, Aneigh, B. split; [by right|done].
    + intros [?|(spec' & A & Aneigh & B & [->|Hin]%elem_of_cons & ? & ? & ?)].
      * by left; left.
      * left. right. by exists A, Aneigh, B.
      * right. by exists spec', A, Aneigh, B.
Qed.

Lemma adjacent_parse_neighbors text X Y :
  adjacent (parse_neighbors text) X Y
  <-> exists spec, spec ∈ str_split ";" text /\ entry_edge spec X Y.
Proof.
  unfold parse_neighbors. rewrite adjacent_sorted, adjacent_parse_specs. split.
  - intros [(l & Hl & _)|(spec & A & Aneigh & B & Hin & Hsplit & HB & Hedge)]; [done|].
    apply list_elem_of_filter in Hin as [_ (entry & -> & Hentry)%list_elem_of_fmap].
    exists entry. split; [done|]. by exists A, Aneigh, B.
  - intros (entry & Hentry & A & Aneigh & B & Hsplit & HB & Hedge). right.
    exists (str_strip entry), A, Aneigh, B. split; [|done].
    apply list_elem_of_filter. split.
    + intros Hempty. by rewrite Hempty in Hsplit.
    + apply list_elem_of_fmap. by exists entry.
Qed.

Lemma str_split_no_sep sep s : Forall (fun e => str_contains sep e = false) (str_split sep s).
Proof.
  induction s as [|c s IH]; simpl; [by repeat constructor|].
  destruct (Ascii.eqb c sep) eqn:Hc; [by constructor|].
  destruct (str_split sep s) as [|cur more]; [by repeat constructor; simpl; rewrite Hc|].
  apply Forall_cons in IH as [Hcur Hmore]. constructor; [|done]. simpl. by rewrite Hc.
Qed.

Lemma str_split_concat sep l :
  l ≠ [] -> Forall (fun e => str_contains sep e = false) l ->
  str_split sep (String.concat (String sep EmptyString) l) = l.
Proof.
  induction l as [|x l IH]; [done|]. intros _ [Hx Hl]%Forall_cons.
  destruct l as [|y l]; [by apply str_split_absent|].
  change (String.concat (String sep EmptyString) (x :: y :: l))
    with (x +:+ String sep (String.concat (String sep EmptyString) (y :: l))).
  rewrite str_split_app, (str_split_absent _ _ Hx), IH by done. done.
Qed.

Lemma parse_specs_skip entries : forall g,
  fold_left parse_spec
    (filter (fun spec => spec ≠ EmptyString) (str_strip <$> entries)) g
  = fold_left parse_spec
      (filter (fun spec => spec ≠ EmptyString)
         (str_strip <$> filter (fun e => str_contains ":" e = true) entries)) g.
Proof.
  induction entries as [|e entries IH]; intros g; [done|].
  rewrite fmap_cons, !filter_cons.
  destruct (decide (str_contains ":" e = true)) as [Hcolon|Hcolon].
  - rewrite fmap_cons, filter_cons. case_decide; simpl; apply IH.
  - apply not_true_is_false in Hcolon. case_decide; simpl; [|apply IH].
    rewrite parse_spec_no_colon by (by apply str_contains_strip). apply IH.
Qed.

Lemma parse_neighbors_skip text :
  parse_neighbors text
  = parse_neighbors
      (String.concat ";" (filter (fun e => str_contains ":" e = true) (str_split ";" text))).
Proof.
  unfold parse_neighbors at 1. rewrite parse_specs_skip.
  assert (Forall (fun e => str_contains ";" e = false)
            (filter (fun e => str_contains ":" e = true) (str_split ";" text))) as Hsemi.
  { apply Forall_forall. intros e [_ He]%list_elem_of_filter.
    by eapply Forall_forall in He; [|apply str_split_no_sep]. }
  destruct (filter (fun e => str_contains ":" e = true) (str_split ";" text))
    as [|e l] eqn:Hfilter.
  - vm_compute. reflexivity.
  - unfold parse_neighbors. by rewrite str_split_concat.
Qed.

Lemma entry_edge_colon spec X Y : entry_edge spec X Y -> str_contains ":" spec = true.
Proof.
  intros (A & Aneigh & B & Hsplit & _).
  destruct (str_contains ":" spec) eqn:Hcolon; [done|].
  apply (str_contains_strip ":") in Hcolon.
  assert (str_contains ":" (str_strip spec) = true) as Hc
    by (apply str_split_once_contains; by rewrite Hsplit).
  congruence.
Qed.

(** C7. For every text, the graph built by [parse_neighbors] is symmetric
    ([B] is in the list of [A] exactly when [A] is in the list of [B]), has no
    key twice, and every adjacency list is duplicate-free and ascending. Its
    edges are exactly those that the entries of the text ask for: [X] and
    [Y] are adjacent exactly when some entry, between two [';'] or at an
    end of the text, holds a colon and names them, whatever the other
    entries are. An entry without [':'] asks for no edge, and the result is
    the one of the text without the entries that lack [':'], wherever they
    stand: they are skipped, and the other entries are still parsed. *)
Theorem parse_neighbors_graph (text : string) :
  (forall A B, adjacent (parse_neighbors text) A B <-> adjacent (parse_neighbors text) B A)
  /\ od_wf (parse_neighbors text)
  /\ (forall A l, od_get (parse_neighbors text) A = Some l ->
                  NoDup l /\ StronglySorted str_le l)
  /\ (forall s1 bad s2,
        text = s1 +:+ ";" +:+ bad +:+ ";" +:+ s2 ->
        str_contains ";" bad = false ->
        str_contains ":" bad = false ->
        parse_neighbors text = parse_neighbors (s1 +:+ ";" +:+ s2))
  /\ (forall X Y,
        adjacent (parse_neighbors text) X Y
        <-> exists spec, spec ∈ str_split ";" text /\ entry_edge spec X Y)
  /\ (forall bad X Y, str_contains ":" bad = false -> ~ entry_edge bad X Y)
  /\ parse_neighbors text
     = parse_neighbors
         (String.concat ";"
            (filter (fun e => str_contains ":" e = true) (str_split ";" text))).
Proof.
  assert (graph_inv (fold_left parse_spec
            (filter (fun spec => spec ≠ EmptyString) (str_strip <$> str_split ";" text)) []))
    as [Hwf Hsym].
  { apply graph_inv_specs. split; [apply NoDup_nil_2|].
    intros A B (l & Hl & _). done. }
  split_and!.
  - intros A B. unfold parse_neighbors. rewrite !adjacent_sorted. split; apply Hsym.
  - unfold parse_neighbors, od_wf, od_keys in *.
    by rewrite <-list_fmap_compose.
  - intros A l. unfold parse_neighbors. rewrite od_get_fmap.
    intros Hl. destruct (od_get _ A) as [l0|]; simplify_eq/=.
    split; [apply NoDup_sorted_set|apply Sorted_sorted_set].
  - intros s1 bad s2 -> Hsemi Hcolon. unfold parse_neighbors. f_equal.
    change (";" +:+ bad +:+ ";" +:+ s2) with (String ";" (bad +:+ String ";" s2)).
    change (";" +:+ s2) with (String ";" s2).
    rewrite !str_split_app, (str_split_absent _ bad Hsemi).
    rewrite !fmap_app, !filter_app, !fold_left_app. f_equal.
    rewrite list_fmap_singleton, filter_cons, filter_nil.
    clear Hwf Hsym. case_decide; simpl; [|done].
    by rewrite parse_spec_no_colon by by apply str_contains_strip.
  - apply adjacent_parse_neighbors.
  - intros bad X Y Hcolon Hedge%entry_edge_colon. congruence.
  - apply parse_neighbors_skip.
Qed.

End ParseNeighbors.

(** ** The pruning API of the store *)

Section Store.

Context {val : Type} `{EqDecision val}.
Implicit Types (d : gmap string (list val)) (w : World val).
Implicit Types (l : list val) (removals : list (removal val)).

Lemma set_curr_domains_twice o1 o2 w :
  set_curr_domains o1 (set_curr_domains o2 w) = set_curr_domains o1 w.
Proof. done. Qed.

Lemma set_curr_domains_id w : set_curr_domains (curr_domains w) w = w.
Proof. by destruct w. Qed.

Lemma the_curr_domains_run w d :
  curr_domains w = Some d -> the_curr_domains w = Ret d w.
Proof. unfold the_curr_domains, bind, gets. by intros ->. Qed.

Lemma the_curr_domains_Ret_inv w d w' :
  the_curr_domains w = Ret d w' -> curr_domains w = Some d /\ w' = w.
Proof.
  unfold the_curr_domains, bind, gets, ret, raise.
  destruct (curr_domains w); intros; simplify_eq; done.
Qed.

Lemma prune_run var value removals w d l :
  curr_domains w = Some d -> d !! var = Some l ->
  prune var value removals w =
    if decide (value ∈ l)
    then Ret (removals ++ [(var, value)])
             (set_curr_domains (Some (<[var := list_remove value l]> d)) w)
    else Ret removals w.
Proof.
  intros Hd Hl. unfold prune.
  rewrite (bind_run _ _ _ _ _ (the_curr_domains_run _ _ Hd)).
  rewrite (bind_run _ _ _ _ _ (getitem_run _ _ _ _ Hl)).
  by case_decide.
Qed.

Lemma list_remove_app_fresh (x : val) k rest :
  x ∉ k -> list_remove x (k ++ x :: rest) = k ++ rest.
Proof.
  induction k as [|y k IH]; simpl; intros Hx.
  - by rewrite decide_True.
  - apply not_elem_of_cons in Hx as [Hne Hx].
    rewrite decide_False by done. by rewrite IH.
Qed.

Lemma elem_of_list_remove (x y : val) l : y ∈ list_remove x l -> y ∈ l.
Proof.
  induction l as [|z l IH]; simpl; [done|].
  case_decide; [by right|].
  intros [->|Hy]%elem_of_cons; [left|right; auto].
Qed.

End Store.

(** ** Forward checking *)

Section ForwardChecking.

Context {val : Type} `{EqDecision val} (csp : CSP val).
Variables (var : string) (value : val) (a : gmap string val).
Implicit Types (d : gmap string (list val)) (w : World val).

Local Abbreviation keep := (fc_keep csp var value).
Local Abbreviation drop := (fc_drop csp var value).

Lemma fc_keep_idemp B l : keep B (keep B l) = keep B l.
Proof. unfold fc_keep. by rewrite list_filter_filter_l. Qed.

Lemma fc_drop_keep B l : drop B (keep B l) = [].
Proof.
  unfold fc_drop, fc_keep. rewrite list_filter_filter.
  induction l as [|b l IH]; [done|]. rewrite filter_cons.
  case_decide as Hb; [|done]. destruct Hb as [Hb1 Hb2]. congruence.
Qed.

(** The inner loop, started when the part [k] of the domain already passed
    holds no conflicting value and [snapshot] is still to come. *)
Lemma fc_prune_conflicts_run B snapshot : forall k removals w d,
  curr_domains w = Some d ->
  d !! B = Some (k ++ snapshot) ->
  (forall b, b ∈ k -> constraints csp var value B b = true) ->
  fc_prune_conflicts csp var value B snapshot removals w
  = Ret (removals ++ ((fun b => (B, b)) <$> drop B snapshot))
        (set_curr_domains (Some (<[B := k ++ keep B snapshot]> d)) w).
Proof.
  unfold fc_prune_conflicts.
  induction snapshot as [|b snapshot IH]; intros k removals w d Hd Hl Hk; simpl.
  - unfold ret. rewrite app_nil_r, insert_id by done.
    by rewrite <-Hd, set_curr_domains_id.
  - unfold fc_keep, fc_drop. rewrite !filter_cons.
    destruct (constraints csp var value B b) eqn:Hb; csimpl.
    + unfold bind at 1, ret at 1.
      rewrite (IH (k ++ [b]) removals w d Hd); [| by rewrite <-app_assoc |].
      * by rewrite <-app_assoc.
      * intros b' [?| ->%list_elem_of_singleton]%elem_of_app; auto.
    + assert (b ∉ k) as Hbk by (intros ?%Hk; congruence).
      pose proof (prune_run B b removals w d _ Hd Hl) as Hp.
      rewrite decide_True in Hp by (apply elem_of_app; right; left).
      rewrite list_remove_app_fresh in Hp by done.
      rewrite (bind_run _ _ _ _ _ Hp).
      rewrite (IH k _ _ (<[B := k ++ snapshot]> d)); [| done | by rewrite lookup_insert_eq | done].
      rewrite insert_insert_eq, set_curr_domains_twice, <-app_assoc. done.
Qed.

Lemma upto_first_ext {A} (P Q : A -> Prop)
    `{forall x, Decision (P x)} `{forall x, Decision (Q x)} (l : list A) :
  (forall x, P x <-> Q x) -> upto_first P l = upto_first Q l.
Proof.
  intros HPQ. induction l as [|x l IH]; simpl; [done|].
  rewrite IH. repeat case_decide; naive_solver.
Qed.

Lemma elem_of_upto_first {A} (P : A -> Prop) `{forall x, Decision (P x)} (l : list A) x :
  x ∈ upto_first P l -> x ∈ l.
Proof.
  induction l as [|y l IH]; simpl; [done|].
  case_decide.
  - intros ->%list_elem_of_singleton. left.
  - intros [->|?]%elem_of_cons; [left|right; auto].
Qed.

Lemma fc_logged_insert_keep d B l Bs :
  d !! B = Some l ->
  flat_map (fc_logged csp var value (<[B := keep B l]> d)) Bs
  = flat_map (fc_logged csp var value d) (filter (fun X => X ≠ B) Bs).
Proof.
  intros Hl. induction Bs as [|X Bs IH]; [done|].
  rewrite filter_cons. simpl. rewrite IH.
  destruct (decide (X = B)) as [->|Hne].
  - rewrite decide_False by naive_solver.
    unfold fc_logged at 1. by rewrite lookup_insert_eq; simpl; rewrite fc_drop_keep.
  - rewrite decide_True by done. simpl. f_equal.
    unfold fc_logged. by rewrite lookup_insert_ne.
Qed.

Lemma fc_emptied_insert_keep d B l X :
  d !! B = Some l ->
  fc_emptied csp var value (<[B := keep B l]> d) X <-> fc_emptied csp var value d X.
Proof.
  intros Hl. unfold fc_emptied. destruct (decide (X = B)) as [->|Hne].
  - by rewrite lookup_insert_eq, Hl; simpl; rewrite fc_keep_idemp.
  - by rewrite lookup_insert_ne.
Qed.

(** The outer loop, from a world whose working domains are [d]. *)
Lemma fc_neighbors_spec Bs : forall removals w d ok removals' w',
  curr_domains w = Some d ->
  fc_neighbors csp var value a Bs removals w = Ret (ok, removals') w' ->
  exists d',
    w' = set_curr_domains (Some d') w /\
    (ok = false <->
     exists B, B ∈ filter (fun B => a !! B = None) Bs /\ fc_emptied csp var value d B) /\
    (forall B,
       d' !! B =
         if decide (B ∈ upto_first (fc_emptied csp var value d)
                          (filter (fun B => a !! B = None) Bs))
         then keep B <$> d !! B else d !! B) /\
    removals' =
      removals ++
      flat_map (fc_logged csp var value d)
        (first_occurrences
           (upto_first (fc_emptied csp var value d)
              (filter (fun B => a !! B = None) Bs))).
Proof.
  induction Bs as [|B Bs IH]; intros removals w d ok removals' w' Hd Hrun.
  - simpl in Hrun. inv_ret. exists d. split_and!.
    + by rewrite <-Hd, set_curr_domains_id.
    + split; [done|]. intros (B & HB & _). by apply elem_of_nil in HB.
    + intros B. rewrite filter_nil. simpl.
      by destruct (decide (B ∈ [])) as [?%elem_of_nil|].
    + rewrite filter_nil. simpl. by rewrite app_nil_r.
  - simpl in Hrun. rewrite filter_cons.
    destruct (a !! B) as [x|] eqn:HaB.
    { rewrite decide_False by done. by apply IH. }
    rewrite decide_True by done.
    rewrite (bind_run _ _ _ _ _ (the_curr_domains_run _ _ Hd)) in Hrun.
    apply bind_Ret_inv in Hrun as (l & w1 & [Hl ->]%getitem_Ret_inv & Hrun).
    rewrite (bind_run _ _ _ _ _
               (fc_prune_conflicts_run B l [] removals w d Hd Hl
                  ltac:(by intros ? ?%elem_of_nil))) in Hrun.
    simpl in Hrun.
    set (d1 := <[B := keep B l]> d) in *.
    set (w1 := set_curr_domains (Some d1) w) in *.
    assert (curr_domains w1 = Some d1) as Hd1 by done.
    rewrite (bind_run _ _ _ _ _ (the_curr_domains_run _ _ Hd1)) in Hrun.
    assert (d1 !! B = Some (keep B l)) as Hl1 by apply lookup_insert_eq.
    rewrite (bind_run _ _ _ _ _ (getitem_run _ _ _ _ Hl1)) in Hrun.
    simpl. destruct (keep B l) as [|b0 kl] eqn:Hkeep.
    + inv_ret. exists d1.
      assert (fc_emptied csp var value d B) as Hemp.
      { unfold fc_emptied. by rewrite Hl. }
      rewrite decide_True by done. split_and!.
      * done.
      * split; [|done]. intros _. exists B. split; [left|done].
      * intros X. destruct (decide (X = B)) as [->|Hne].
        -- rewrite decide_True by left. by rewrite Hl1, Hl; simpl; rewrite Hkeep.
        -- rewrite decide_False by (by intros ->%list_elem_of_singleton).
           unfold d1. by rewrite lookup_insert_ne.
      * simpl. rewrite app_nil_r. unfold fc_logged. by rewrite Hl.
    + assert (~ fc_emptied csp var value d B) as Hemp.
      { unfold fc_emptied. by rewrite Hl; simpl; rewrite Hkeep. }
      rewrite decide_False by done.
      apply (IH _ _ d1) in Hrun as (d' & -> & Hok & Hd' & ->); [|done].
      assert (forall X, fc_emptied csp var value d1 X <-> fc_emptied csp var value d X)
        as Hiff.
      { intros X. unfold d1. rewrite <-Hkeep. by apply fc_emptied_insert_keep. }
      rewrite (upto_first_ext _ _ _ Hiff) in Hd'.
      rewrite (upto_first_ext _ _ _ Hiff).
      exists d'. split_and!.
      * done.
      * rewrite Hok. split.
        -- intros (X & HX & HXe). exists X. split; [by right|by apply Hiff].
        -- intros (X & [->|HX]%elem_of_cons & HXe); [done|].
           exists X. split; [done|by apply Hiff].
      * intros X. rewrite Hd'. destruct (decide (X = B)) as [->|Hne].
        -- rewrite (decide_True (P := B ∈ B :: _)) by left.
           rewrite Hl1, Hl. simpl. rewrite Hkeep, <-Hkeep, fc_keep_idemp.
           by case_decide.
        -- unfold d1. rewrite lookup_insert_ne by done.
           repeat case_decide; try done; exfalso; set_solver.
      * simpl. rewrite <-app_assoc. f_equal.
        unfold fc_logged at 2. rewrite Hl. simpl. f_equal.
        unfold d1. rewrite <-Hkeep. by apply fc_logged_insert_keep.
Qed.

(** C3. When [forward_checking] returns after [var = value] was committed,
    with [d0] the working domains once [support_pruning] has run: the
    unassigned neighbours of [var] are handled in order up to and including
    the first one whose domain is emptied, and the ones after it are not
    handled; the working domain of every handled neighbour loses exactly its
    values that conflict with [(var, value)]; every other domain, those of
    the assigned neighbours among them, is as before; each removed value is
    appended to the removal log; and the result is [False] exactly when the
    domain of some unassigned neighbour becomes empty. *)
Theorem forward_checking_prunes removals w ok removals' w' :
  forward_checking csp var value a removals w = Ret (ok, removals') w' ->
  exists w0 d0 d',
    support_pruning csp w = Ret tt w0 /\
    curr_domains w0 = Some d0 /\
    w' = set_curr_domains (Some d') w0 /\
    (ok = false <->
     exists B, B ∈ unassigned_neighbors csp var a /\ fc_emptied csp var value d0 B) /\
    (forall B,
       d' !! B =
         if decide (B ∈ upto_first (fc_emptied csp var value d0)
                          (unassigned_neighbors csp var a))
         then keep B <$> d0 !! B else d0 !! B) /\
    (forall B, is_Some (a !! B) -> d' !! B = d0 !! B) /\
    removals' =
      removals ++
      flat_map (fc_logged csp var value d0)
        (first_occurrences
           (upto_first (fc_emptied csp var value d0) (unassigned_neighbors csp var a))).
Proof.
  unfold forward_checking. intros Hrun.
  apply bind_Ret_inv in Hrun as ([] & w0 & Hsp & Hrun).
  apply bind_Ret_inv in Hrun as (d0 & w0' & [Hd0 ->]%the_curr_domains_Ret_inv & Hrun).
  apply (fc_neighbors_spec _ _ _ d0) in Hrun as (d' & -> & Hok & Hd' & ->); [|done].
  exists w0, d0, d'. split_and!; try done.
  intros B [x Hx]. rewrite Hd'. case_decide as HB; [|done].
  apply elem_of_upto_first in HB.
  unfold unassigned_neighbors in HB. apply list_elem_of_filter in HB as [HB _].
  congruence.
Qed.

End ForwardChecking.

(** ** Pruning and restoring *)

Section StoreInvariants.

Context {val : Type} `{EqDecision val} (csp : CSP val).
Implicit Types (d : gmap string (list val)) (w : World val).
Implicit Types (l : list val) (removals : list (removal val)).

Lemma copy_domains_loop_inv vs : forall acc w d w',
  for_each vs
    (fun d v => let* l := getitem (domains csp) v in ret (<[v := l]> d)) acc w
  = Ret d w' ->
  w' = w /\
  forall v, d !! v = if decide (v ∈ vs) then domains csp !! v else acc !! v.
Proof.
  induction vs as [|v0 vs IH]; intros acc w d w' Hrun; simpl in Hrun.
  - inv_ret. split; [done|]. intros v.
    by destruct (decide (v ∈ [])) as [?%elem_of_nil|].
  - apply bind_Ret_inv in Hrun as (acc' & w1 & Hstep & Hrun).
    apply bind_Ret_inv in Hstep as (l & ? & [Hl ->]%getitem_Ret_inv & Hstep).
    inv_ret. apply IH in Hrun as [-> Hd]. split; [done|].
    intros v. rewrite Hd. destruct (decide (v = v0)) as [->|Hne].
    + rewrite (decide_True (P := v0 ∈ v0 :: vs)) by left.
      case_decide; [done|]. by rewrite lookup_insert_eq.
    + rewrite lookup_insert_ne by done.
      repeat case_decide; try done; exfalso; set_solver.
Qed.

Lemma copy_domains_inv w d w' :
  copy_domains csp w = Ret d w' ->
  w' = w /\
  forall v, d !! v = if decide (v ∈ variables csp) then domains csp !! v else None.
Proof.
  intros Hrun. apply copy_domains_loop_inv in Hrun as [-> Hd].
  split; [done|]. intros v. rewrite Hd. by rewrite lookup_empty.
Qed.

Lemma support_pruning_inv w w' :
  support_pruning csp w = Ret tt w' ->
  match curr_domains w with
  | Some _ => w' = w
  | None =>
      exists d, w' = set_curr_domains (Some d) w /\
        forall v, d !! v = if decide (v ∈ variables csp) then domains csp !! v else None
  end.
Proof.
  unfold support_pruning. intros Hrun. inv_ret.
  destruct (curr_domains s) eqn:Hs; inv_ret; [done|].
  apply copy_domains_inv in Hrun as [-> Hd]. eauto.
Qed.

Lemma support_pruning_initialized w w' :
  support_pruning csp w = Ret tt w' -> is_Some (curr_domains w').
Proof.
  intros Hrun%support_pruning_inv.
  destruct (curr_domains w) eqn:Hw; [by subst; rewrite Hw|].
  destruct Hrun as (d & -> & _). by eexists.
Qed.

Lemma suppose_inv var value w removals w' :
  suppose csp var value w = Ret removals w' ->
  exists w0 d l,
    support_pruning csp w = Ret tt w0 /\
    curr_domains w0 = Some d /\
    d !! var = Some l /\
    removals = (fun v => (var, v)) <$> filter (fun v => v ≠ value) l /\
    w' = set_curr_domains (Some (<[var := [value]]> d)) w0.
Proof.
  unfold suppose. intros Hrun.
  apply bind_Ret_inv in Hrun as ([] & w0 & Hsp & Hrun).
  apply bind_Ret_inv in Hrun as (d & ? & [Hd ->]%the_curr_domains_Ret_inv & Hrun).
  inv_ret. by exists w0, d, a.
Qed.

Lemma prune_inv var value removals w removals' w' :
  prune var value removals w = Ret removals' w' ->
  exists d l,
    curr_domains w = Some d /\ d !! var = Some l /\
    ((value ∈ l /\ removals' = removals ++ [(var, value)] /\
      w' = set_curr_domains (Some (<[var := list_remove value l]> d)) w)
     \/ ((value ∉ l) /\ removals' = removals /\ w' = w)).
Proof.
  intros Hrun. pose proof Hrun as Hrun'. unfold prune in Hrun'.
  apply bind_Ret_inv in Hrun' as (d & ? & [Hd ->]%the_curr_domains_Ret_inv & Hrun').
  apply bind_Ret_inv in Hrun' as (l & ? & [Hl ->]%getitem_Ret_inv & _).
  rewrite (prune_run _ _ _ _ _ _ Hd Hl) in Hrun.
  exists d, l. case_decide; simplify_eq; naive_solver.
Qed.

Lemma pending_app v removals1 removals2 :
  pending v (removals1 ++ removals2) = pending v removals1 ++ pending v removals2.
Proof. unfold pending. by rewrite filter_app, fmap_app. Qed.

Lemma pending_nil v : pending (val := val) v [] = [].
Proof. done. Qed.

Lemma pending_tagged v v' l :
  pending v ((fun x => (v', x)) <$> l) = if decide (v' = v) then l else [].
Proof.
  unfold pending. induction l as [|x l IH].
  - by case_decide.
  - rewrite fmap_cons, filter_cons. simpl.
    destruct (decide (v' = v)); [|done]. csimpl. f_equal. exact IH.
Qed.

(** [restore] appends, for every variable, the values logged for it. *)
Lemma restore_inv removals : forall w w' d,
  curr_domains w = Some d ->
  restore removals w = Ret tt w' ->
  exists d', w' = set_curr_domains (Some d') w /\
    forall v, d' !! v = (fun l => l ++ pending v removals) <$> d !! v.
Proof.
  unfold restore.
  induction removals as [|[v0 x0] removals IH]; intros w w' d Hd Hrun.
  - rewrite (bind_run _ _ _ _ _ (the_curr_domains_run _ _ Hd)) in Hrun.
    simpl in Hrun. inv_ret. exists d. split.
    + by rewrite <-Hd, set_curr_domains_id.
    + intros v. rewrite pending_nil. destruct (d !! v); simpl; [|done].
      by rewrite app_nil_r.
  - rewrite (bind_run _ _ _ _ _ (the_curr_domains_run _ _ Hd)) in Hrun.
    simpl in Hrun.
    apply bind_Ret_inv in Hrun as ([] & w1 & Hstep & Hrun).
    rewrite (bind_run _ _ _ _ _ (the_curr_domains_run _ _ Hd)) in Hstep.
    apply bind_Ret_inv in Hstep as (l0 & ? & [Hget ->]%getitem_Ret_inv & Hstep).
    unfold modify in Hstep. simplify_eq.
    set (d1 := <[v0 := l0 ++ [x0]]> d) in *.
    specialize (IH (set_curr_domains (Some d1) w) w' d1 eq_refl).
    rewrite (bind_run _ _ _ _ _
               (the_curr_domains_run (set_curr_domains (Some d1) w) d1 eq_refl)) in IH.
    apply IH in Hrun as (d' & -> & Hd'). exists d'. split; [done|].
    intros v. rewrite Hd'. change ((v0, x0) :: removals) with ([(v0, x0)] ++ removals).
    rewrite pending_app. unfold pending at 2. rewrite filter_cons, filter_nil. simpl.
    unfold d1. destruct (decide (v0 = v)) as [->|Hne].
    + rewrite lookup_insert_eq, Hget. simpl. by rewrite <-app_assoc.
    + rewrite lookup_insert_ne by done. by destruct (d !! v).
Qed.

Lemma list_remove_perm (x : val) l : x ∈ l -> l ≡ₚ x :: list_remove x l.
Proof.
  induction l as [|y l IH]; simpl; [by intros ?%elem_of_nil|].
  case_decide as Hy; [by subst|].
  intros [->|Hx]%elem_of_cons; [done|].
  rewrite (IH Hx) at 1. apply Permutation_swap.
Qed.

Lemma keep_one_submseteq (x : val) l :
  x ∈ l -> x :: filter (fun v => v ≠ x) l ⊆+ l.
Proof.
  induction l as [|y l IH]; [by intros ?%elem_of_nil|].
  rewrite filter_cons. destruct (decide (y = x)) as [->|Hne].
  - intros _. rewrite decide_False by naive_solver.
    apply submseteq_skip, sublist_submseteq, sublist_filter.
  - rewrite decide_True by done.
    intros [->|Hx]%elem_of_cons; [done|].
    rewrite <-(Permutation_swap x y). by apply submseteq_skip, IH.
Qed.

Lemma elem_of_pending v x removals : (v, x) ∈ removals -> x ∈ pending v removals.
Proof.
  intros Hin. unfold pending.
  apply list_elem_of_fmap. exists (v, x). split; [done|].
  by apply list_elem_of_filter.
Qed.

(** [restore] cannot fail when every logged variable has a working domain. *)
Lemma restore_run removals : forall w d,
  curr_domains w = Some d ->
  (forall p, p ∈ removals -> is_Some (d !! p.1)) ->
  exists w', restore removals w = Ret tt w'.
Proof.
  unfold restore.
  induction removals as [|[v0 x0] removals IH]; intros w d Hd Hkeys.
  - rewrite (bind_run _ _ _ _ _ (the_curr_domains_run _ _ Hd)). by eexists.
  - rewrite (bind_run _ _ _ _ _ (the_curr_domains_run _ _ Hd)). simpl.
    destruct (Hkeys (v0, x0)) as [l0 Hl0]; [left|]. simpl in Hl0.
    set (d1 := <[v0 := l0 ++ [x0]]> d).
    assert ((let* d := the_curr_domains in
             let* l := getitem d v0 in
             modify (set_curr_domains (Some (<[v0 := l ++ [x0]]> d)))) w
            = Ret tt (set_curr_domains (Some d1) w)) as Hstep.
    { rewrite (bind_run _ _ _ _ _ (the_curr_domains_run _ _ Hd)).
      by rewrite (bind_run _ _ _ _ _ (getitem_run _ _ _ _ Hl0)). }
    rewrite (bind_run _ _ _ _ _ Hstep).
    destruct (IH (set_curr_domains (Some d1) w) d1 eq_refl) as [w' Hw'].
    { intros p Hp. unfold d1. destruct (decide (v0 = p.1)) as [->|Hne].
      - rewrite lookup_insert_eq. by eexists.
      - rewrite lookup_insert_ne by done. apply Hkeys. by right. }
    rewrite (bind_run _ _ _ _ _
               (the_curr_domains_run (set_curr_domains (Some d1) w) d1 eq_refl)) in Hw'.
    eauto.
Qed.

Lemma support_pruning_within w w' removals :
  (curr_domains w = None -> removals = []) ->
  domains_within csp w removals ->
  support_pruning csp w = Ret tt w' ->
  domains_within csp w' removals.
Proof.
  intros Hnone Hin Hrun%support_pruning_inv.
  destruct (curr_domains w) eqn:Hw; [by subst|].
  destruct Hrun as (d & -> & Hd). rewrite Hnone by done.
  intros d' v l [= <-] Hl. rewrite Hd in Hl. case_decide; [|done].
  exists l. by rewrite pending_nil, app_nil_r.
Qed.

Lemma support_pruning_working_domain w w' var :
  support_pruning csp w = Ret tt w' ->
  forall d l, curr_domains w' = Some d -> d !! var = Some l ->
  working_domain csp w var = Some l.
Proof.
  intros Hrun%support_pruning_inv d l Hd Hl. unfold working_domain.
  destruct (curr_domains w) eqn:Hw.
  - subst. rewrite Hw in Hd. by simplify_eq.
  - destruct Hrun as (d0 & -> & Hd0). simpl in Hd. simplify_eq.
    rewrite Hd0 in Hl. by case_decide.
Qed.

Lemma suppose_within var value w w' removals r l :
  working_domain csp w var = Some l -> value ∈ l ->
  (curr_domains w = None -> removals = []) ->
  domains_within csp w removals ->
  suppose csp var value w = Ret r w' ->
  domains_within csp w' (removals ++ r).
Proof.
  intros Hwd Hvalue Hnone Hin (w0 & d & l' & Hsp & Hd & Hl' & -> & ->)%suppose_inv.
  pose proof (support_pruning_working_domain _ _ _ Hsp _ _ Hd Hl') as Hwd'.
  rewrite Hwd in Hwd'. simplify_eq.
  pose proof (support_pruning_within _ _ _ Hnone Hin Hsp) as Hin0.
  intros d' v l1 [= <-] Hl1. rewrite pending_app, pending_tagged.
  destruct (decide (var = v)) as [->|Hne].
  - rewrite lookup_insert_eq in Hl1. simplify_eq.
    destruct (Hin0 _ _ _ Hd Hl') as (l0 & Hl0 & Hsub). exists l0. split; [done|].
    etrans; [|exact Hsub].
    rewrite (Permutation_app_comm (pending v removals)), app_assoc.
    apply submseteq_skips_r. simpl. by apply keep_one_submseteq.
  - rewrite lookup_insert_ne in Hl1 by done. rewrite app_nil_r. by eapply Hin0.
Qed.

Lemma prune_within var value w w' removals removals' :
  domains_within csp w removals ->
  prune var value removals w = Ret removals' w' ->
  domains_within csp w' removals'.
Proof.
  intros Hin (d & l & Hd & Hl & [(Hvalue & -> & ->)|(_ & -> & ->)])%prune_inv; [|done].
  intros d' v l1 [= <-] Hl1. rewrite pending_app.
  destruct (decide (var = v)) as [->|Hne].
  - rewrite lookup_insert_eq in Hl1. simplify_eq.
    destruct (Hin _ _ _ Hd Hl) as (l0 & Hl0 & Hsub). exists l0. split; [done|].
    etrans; [|exact Hsub].
    unfold pending at 2. rewrite filter_cons, filter_nil. simpl.
    rewrite decide_True by done. simpl.
    rewrite (list_remove_perm value l Hvalue) at 2.
    by rewrite app_assoc, (Permutation_app_comm _ [value]).
  - rewrite lookup_insert_ne in Hl1 by done.
    unfold pending at 2. rewrite filter_cons, filter_nil. simpl.
    rewrite decide_False by done. rewrite app_nil_r. by eapply Hin.
Qed.

Lemma restore_within w w' removals1 removals2 :
  domains_within csp w (removals1 ++ removals2) ->
  restore removals2 w = Ret tt w' ->
  domains_within csp w' removals1.
Proof.
  intros Hin Hrun. destruct (curr_domains w) as [d|] eqn:Hd.
  - destruct (restore_inv _ _ _ _ Hd Hrun) as (d' & -> & Hd').
    intros ? v l [= <-] Hl. rewrite Hd' in Hl.
    destruct (d !! v) as [l1|] eqn:Hl1; simplify_eq/=.
    destruct (Hin _ _ _ Hd Hl1) as (l0 & Hl0 & Hsub). exists l0. split; [done|].
    etrans; [|exact Hsub]. rewrite pending_app.
    by rewrite <-app_assoc, (Permutation_app_comm (pending v removals2)).
  - unfold restore, bind, the_curr_domains, bind, gets in Hrun. by rewrite Hd in Hrun.
Qed.

(** C4, as the code has it. The store keeps every working domain within
    the original domain of its variable: only values of the original domain,
    none more often than there, possibly fewer; the order is not kept, since
    [restore] appends the restored values at the end. With the values logged
    and not yet restored counted in, this is preserved by [support_pruning],
    by [suppose] when its value is in the working domain, by [prune], and by
    [restore] of logged values. *)
Theorem working_domains_within :
  (forall w w' removals,
     (curr_domains w = None -> removals = []) ->
     domains_within csp w removals ->
     support_pruning csp w = Ret tt w' ->
     domains_within csp w' removals) /\
  (forall var value w w' removals r l,
     working_domain csp w var = Some l -> value ∈ l ->
     (curr_domains w = None -> removals = []) ->
     domains_within csp w removals ->
     suppose csp var value w = Ret r w' ->
     domains_within csp w' (removals ++ r)) /\
  (forall var value w w' removals removals',
     domains_within csp w removals ->
     prune var value removals w = Ret removals' w' ->
     domains_within csp w' removals') /\
  (forall w w' removals1 removals2,
     domains_within csp w (removals1 ++ removals2) ->
     restore removals2 w = Ret tt w' ->
     domains_within csp w' removals1) /\
  (forall w removals d v l,
     domains_within csp w removals ->
     curr_domains w = Some d -> d !! v = Some l ->
     exists l0, domains csp !! v = Some l0 /\ l ⊆+ l0 /\ forall x, x ∈ l -> x ∈ l0).
Proof.
  split_and!.
  - apply support_pruning_within.
  - apply suppose_within.
  - apply prune_within.
  - apply restore_within.
  - intros w removals d v l Hin Hd Hl.
    destruct (Hin _ _ _ Hd Hl) as (l0 & Hl0 & Hsub). exists l0.
    assert (l ⊆+ l0) as Hsub'.
    { etrans; [|exact Hsub]. by apply submseteq_inserts_r. }
    split_and!; [done|done|]. intros x Hx. by eapply elem_of_submseteq.
Qed.

Lemma roundtrip_inv_start w d : curr_domains w = Some d -> roundtrip_inv d w [].
Proof.
  intros Hd. exists d. split; [done|]. intros v.
  destruct (d !! v) as [l|]; [|done].
  exists l. split; [done|]. intros x. by rewrite pending_nil, app_nil_r.
Qed.

Lemma roundtrip_inv_lookup d w removals d' v l' :
  roundtrip_inv d w removals -> curr_domains w = Some d' -> d' !! v = Some l' ->
  exists l, d !! v = Some l /\ forall x, x ∈ l' ++ pending v removals <-> x ∈ l.
Proof.
  intros (d'' & Hd'' & Hinv) Hd' Hl'. simplify_eq. specialize (Hinv v).
  destruct (d !! v) as [l|].
  - destruct Hinv as (l'' & ? & Hiff). simplify_eq. eauto.
  - destruct Hinv as [? _]. congruence.
Qed.

Lemma roundtrip_inv_update d w removals d' v l' new logged :
  roundtrip_inv d w removals -> curr_domains w = Some d' -> d' !! v = Some l' ->
  (forall x, x ∈ new ++ logged <-> x ∈ l') ->
  roundtrip_inv d (set_curr_domains (Some (<[v := new]> d')) w)
    (removals ++ ((fun x => (v, x)) <$> logged)).
Proof.
  intros Hinv Hd' Hl' Hiff.
  destruct (roundtrip_inv_lookup _ _ _ _ _ _ Hinv Hd' Hl') as (l & Hl & Hl_iff).
  destruct Hinv as (d'' & Hd'' & Hinv). simplify_eq.
  eexists. split; [done|]. intros u. specialize (Hinv u).
  rewrite pending_app, pending_tagged.
  destruct (decide (v = u)) as [->|Hne].
  - rewrite Hl. rewrite lookup_insert_eq. eexists. split; [done|].
    intros x. rewrite <-Hl_iff. rewrite !elem_of_app. rewrite <-Hiff, elem_of_app.
    tauto.
  - rewrite lookup_insert_ne by done. rewrite app_nil_r. exact Hinv.
Qed.

Lemma prune_step_roundtrip d w removals op removals' w' :
  roundtrip_inv d w removals ->
  match op with
  | OpSuppose var value => exists l, working_domain csp w var = Some l /\ value ∈ l
  | OpPrune _ _ => True
  end ->
  prune_step csp removals op w = Ret removals' w' ->
  roundtrip_inv d w' removals'.
Proof.
  intros Hinv Hop Hrun. destruct op as [var value|var value]; simpl in Hrun.
  - apply bind_Ret_inv in Hrun as (r & w1 & Hrun & Hret). inv_ret.
    destruct Hop as (l & Hwd & Hvalue).
    apply suppose_inv in Hrun as (w0 & d0 & l' & Hsp & Hd0 & Hl' & -> & ->).
    pose proof (support_pruning_working_domain _ _ _ Hsp _ _ Hd0 Hl') as Hwd'.
    rewrite Hwd in Hwd'. simplify_eq.
    apply support_pruning_inv in Hsp.
    destruct Hinv as (d' & Hd' & Hinv). rewrite Hd' in Hsp. subst w0.
    apply (roundtrip_inv_update _ _ _ _ _ l'); [by exists d'|done|done|].
    intros x. rewrite elem_of_app, list_elem_of_singleton, list_elem_of_filter.
    destruct (decide (x = value)); naive_solver.
  - apply prune_inv in Hrun as (d' & l & Hd' & Hl & [(Hvalue & -> & ->)|(_ & -> & ->)]);
      [|done].
    apply (roundtrip_inv_update _ _ _ _ _ l _ [value]); [done|done|done|].
    intros x. rewrite (list_remove_perm value l Hvalue) at 2.
    rewrite elem_of_app, elem_of_cons, elem_of_cons, elem_of_nil. tauto.
Qed.

Lemma prune_all_roundtrip d ops : forall w removals removals' w',
  roundtrip_inv d w removals ->
  supposes_in_domain csp ops w ->
  prune_all csp ops removals w = Ret removals' w' ->
  roundtrip_inv d w' removals'.
Proof.
  unfold prune_all.
  induction ops as [|op ops IH]; intros w removals removals' w' Hinv Hok Hrun;
    simpl in Hrun.
  - by inv_ret.
  - apply bind_Ret_inv in Hrun as (r & w1 & Hstep & Hrun).
    destruct Hok as [Hop Hrest].
    eapply IH; [|by eapply Hrest|exact Hrun].
    by eapply prune_step_roundtrip.
Qed.

(** After a pruning that kept [roundtrip_inv], [restore] succeeds and gives
    back the values of every domain. *)
Lemma restore_after_roundtrip d w1 removals :
  roundtrip_inv d w1 removals ->
  exists w2 d2,
    restore removals w1 = Ret tt w2 /\
    curr_domains w2 = Some d2 /\
    forall v,
      match d !! v with
      | Some l => exists l2, d2 !! v = Some l2 /\ forall x, x ∈ l2 <-> x ∈ l
      | None => d2 !! v = None
      end.
Proof.
  intros (d1 & Hd1 & Hinv).
  destruct (restore_run removals w1 d1 Hd1) as [w2 Hw2].
  { intros [v x] Hp%elem_of_pending. simpl. specialize (Hinv v).
    destruct (d !! v) as [l|].
    - destruct Hinv as (l' & -> & _). by eexists.
    - destruct Hinv as [_ Hnil]. rewrite Hnil in Hp. by apply elem_of_nil in Hp. }
  destruct (restore_inv _ _ _ _ Hd1 Hw2) as (d2 & -> & Hd2).
  eexists _, d2. split_and!; [done|done|].
  intros v. specialize (Hinv v). rewrite Hd2.
  destruct (d !! v) as [l|].
  - destruct Hinv as (l' & -> & Hiff). simpl. eauto.
  - destruct Hinv as [-> _]. done.
Qed.

(** C5, as the code has it. From initialized working domains, after any
    sequence of [suppose] and [prune] calls into a fresh removal log, every
    [suppose] being given a value that is in the working domain of its
    variable at that moment, [restore] with that log succeeds and leaves
    every variable with a working domain that has exactly the values it had
    before the pruning began (a variable without a working domain still has
    none). *)
Theorem prune_restore_roundtrip (ops : list prune_op) w d removals w1 :
  curr_domains w = Some d ->
  supposes_in_domain csp ops w ->
  prune_all csp ops [] w = Ret removals w1 ->
  exists w2 d2,
    restore removals w1 = Ret tt w2 /\
    curr_domains w2 = Some d2 /\
    forall v,
      match d !! v with
      | Some l => exists l2, d2 !! v = Some l2 /\ forall x, x ∈ l2 <-> x ∈ l
      | None => d2 !! v = None
      end.
Proof.
  intros Hd Hok Hrun. apply restore_after_roundtrip.
  by apply (prune_all_roundtrip d ops w [] removals w1 (roundtrip_inv_start _ _ Hd) Hok).
Qed.

End StoreInvariants.

(** ** The final validation of [backtracking_search] *)

Section Validation.

Context {val : Type} `{EqDecision val} (csp : CSP val).
Implicit Types (a r : gmap string val).

Lemma nconflicts_loop var x a ns acc :
  fold_left
    (fun conflicts n =>
       match a !! n with
       | Some b => if negb (constraints csp var x n b) then S conflicts else conflicts
       | None => conflicts
       end) ns acc
  = acc + length (filter (fun n => in_conflict csp var x a n = true) ns).
Proof.
  revert acc. induction ns as [|n ns IH]; intros acc; simpl; [lia|].
  rewrite IH, filter_cons.
  assert (in_conflict csp var x a n =
          match a !! n with Some b => negb (constraints csp var x n b) | None => false end)
    as -> by done.
  destruct (a !! n) as [b|]; [|done].
  destruct (negb _); simpl; [lia|done].
Qed.

Lemma nconflicts_length var x a :
  nconflicts csp var x a
  = length (filter (fun n => in_conflict csp var x a n = true)
                   (default [] (neighbors csp !! var))).
Proof. unfold nconflicts. by rewrite nconflicts_loop. Qed.

Lemma nconflicts_zero var x a :
  nconflicts csp var x a = 0 <->
  forall n y, n ∈ default [] (neighbors csp !! var) -> a !! n = Some y ->
              constraints csp var x n y = true.
Proof.
  rewrite nconflicts_length, length_zero_iff_nil. split.
  - intros Hnil n y Hn Hy. destruct (constraints csp var x n y) eqn:Hc; [done|].
    assert (in_conflict csp var x a n = true) as Hp.
    { unfold in_conflict. by rewrite Hy, Hc. }
    by destruct (filter_nil_not_elem_of _ _ n Hnil Hp).
  - intros Hall. induction (default [] (neighbors csp !! var)) as [|n ns IH]; [done|].
    rewrite filter_cons. rewrite decide_False.
    + apply IH. intros n' y Hn'. apply Hall. by right.
    + unfold in_conflict. destruct (a !! n) as [y|] eqn:Hy; [|done].
      rewrite (Hall n y); [done|left|done].
Qed.

Lemma all_conflict_free_inv {S} a vs (s s' : S) (b : bool) :
  all_conflict_free csp a vs s = Ret b s' ->
  s' = s /\
  (b = true -> forall v, v ∈ vs -> exists x, a !! v = Some x /\ nconflicts csp v x a = 0).
Proof.
  revert s s' b. induction vs as [|v vs IH]; intros s s' b Hrun; simpl in Hrun.
  - inv_ret. split; [done|]. by intros _ v ?%elem_of_nil.
  - apply bind_Ret_inv in Hrun as (x & ? & [Hx ->]%getitem_Ret_inv & Hrun).
    case_decide as Hc.
    + apply IH in Hrun as [-> Hall]. split; [done|].
      intros Hb v' [->|Hv']%elem_of_cons; eauto.
    + inv_ret. done.
Qed.

Lemma is_goal_inv {S} a (s s' : S) (b : bool) :
  is_goal csp a s = Ret b s' ->
  s' = s /\
  (b = true ->
   size a = length (variables csp) /\
   forall v, v ∈ variables csp -> exists x, a !! v = Some x /\ nconflicts csp v x a = 0).
Proof.
  unfold is_goal. case_decide as Hsize.
  - intros. inv_ret. done.
  - intros [-> Hall]%all_conflict_free_inv. split; [done|].
    intros Hb. split; [|by apply Hall]. by destruct (decide (size a = length (variables csp))).
Qed.

(** [is_goal] neither reads nor changes the state. *)
Lemma is_goal_pure a :
  exists r : bool + exn,
    forall S (s : S), is_goal csp a s = match r with inl b => Ret b s | inr e => Exc e s end.
Proof.
  unfold is_goal. case_decide as Hsz; [by exists (inl false)|]. clear Hsz.
  induction (variables csp) as [|v vs IH]; simpl; [by exists (inl true)|].
  unfold bind, getitem. destruct (a !! v); simpl.
  - unfold ret. case_decide; [apply IH|by exists (inl false)].
  - by exists (inr KeyError).
Qed.

Lemma is_goal_Exc_state {S} a (s s' : S) e :
  is_goal csp a s = Exc e s' -> s' = s.
Proof.
  unfold is_goal. case_decide as Hsz; [done|]. clear Hsz.
  induction (variables csp) as [|v vs IH]; simpl; [done|].
  unfold bind, getitem. destruct (a !! v); simpl.
  - unfold ret. case_decide; [apply IH|done].
  - unfold raise. by intros [= _ <-].
Qed.

(** C1. Whatever the strategies, a result other than [None] returned by
    [backtracking_search] has one value for every variable of the CSP (and
    as many entries as there are variables), and the values of every variable
    and of each of its assigned neighbours satisfy the constraint; for
    [different_values_constraint] they differ. A candidate returned by
    [backtrack] for which [is_goal] is false is not returned: the search ends
    with [AssertionError]. *)
Theorem backtracking_search_validated
    (select_unassigned_variable : gmap string val -> CSP val -> M (World val) string)
    (order_domain_values : string -> gmap string val -> CSP val -> M (World val) (list val))
    (inference : CSP val -> string -> val -> gmap string val -> list (removal val) ->
                 M (World val) (bool * list (removal val)))
    (trace : option (list (trace_event val))) (max_steps : option nat)
    (fuel : nat) (w : World val) :
  (forall r s',
     backtracking_search csp select_unassigned_variable order_domain_values
       inference trace max_steps fuel w = Ret (Some r) s' ->
     size r = length (variables csp) /\
     (forall v, v ∈ variables csp -> is_Some (r !! v)) /\
     (forall v n x y,
        v ∈ variables csp -> n ∈ default [] (neighbors csp !! v) ->
        r !! v = Some x -> r !! n = Some y ->
        constraints csp v x n y = true /\
        (constraints csp = different_values_constraint -> x ≠ y))) /\
  (forall cand s1,
     backtrack csp select_unassigned_variable order_domain_values inference
       max_steps fuel
       {| world := w; assignment := ∅; step := 0; trace := trace |}
     = Ret (Some cand) s1 ->
     is_goal csp cand s1 = Ret false s1 ->
     backtracking_search csp select_unassigned_variable order_domain_values
       inference trace max_steps fuel w = Exc AssertionError s1).
Proof.
  unfold backtracking_search, search_body. split.
  - intros r s' Hrun.
    apply bind_Ret_inv in Hrun as (result & s1 & Hbt & Hrun).
    destruct result as [r'|]; [|by inv_ret].
    apply bind_Ret_inv in Hrun as (g & s2 & Hgoal & Hrun).
    destruct g; [|by inv_ret]. inv_ret.
    apply is_goal_inv in Hgoal as [-> Hgoal].
    destruct (Hgoal eq_refl) as [Hsize Hall]. split_and!; [done| |].
    + intros v Hv. destruct (Hall v Hv) as (x & -> & _). by eexists.
    + intros v n x y Hv Hn Hx Hy.
      destruct (Hall v Hv) as (x' & Hx' & Hzero). simplify_eq.
      pose proof (proj1 (nconflicts_zero v x r) Hzero n y Hn Hy) as Hc.
      split; [done|]. intros Hdiff. rewrite Hdiff in Hc.
      unfold different_values_constraint in Hc. by apply bool_decide_eq_true in Hc.
  - intros cand s1 Hbt Hgoal.
    rewrite (bind_run _ _ _ _ _ Hbt). by rewrite (bind_run _ _ _ _ _ Hgoal).
Qed.

End Validation.

(** ** Reasoning rules *)

Section Rules.

Context {S : Type}.

Lemma triple_bind {A B} (P : S -> Prop) (m : M S A) (k : A -> M S B) Q1 Q2 E :
  triple P m Q1 E -> (forall a, triple (Q1 a) (k a) Q2 E) -> triple P (bind m k) Q2 E.
Proof.
  intros Hm Hk s Hs. specialize (Hm s Hs). unfold bind.
  destruct (m s) as [a s1|e s1|]; simpl in *; [by apply Hk|done|done].
Qed.

Lemma triple_ret {A} (P : S -> Prop) (a : A) (Q : A -> S -> Prop) E :
  (forall s, P s -> Q a s) -> triple P (ret a) Q E.
Proof. intros HQ s Hs. by apply HQ. Qed.

Lemma triple_conseq {A} (P P' : S -> Prop) (m : M S A) (Q Q' : A -> S -> Prop) (E E' : exn -> S -> Prop) :
  triple P' m Q' E' ->
  (forall s, P s -> P' s) -> (forall a s, Q' a s -> Q a s) -> (forall e s, E' e s -> E e s) ->
  triple P m Q E.
Proof.
  intros Hm HP HQ HE s Hs. specialize (Hm s (HP s Hs)).
  destruct (m s); simpl in *; auto.
Qed.

Lemma raises_only_bind {A B} R (m : M S A) (k : A -> M S B) :
  raises_only R m -> (forall a, raises_only R (k a)) -> raises_only R (bind m k).
Proof.
  intros Hm Hk s e s' [Hrun|(a & s1 & _ & Hrun)]%bind_Exc_inv; [by eapply Hm|by eapply Hk].
Qed.

Lemma raises_only_ret {A} R (a : A) : raises_only (S := S) R (ret a).
Proof. by intros s e s'. Qed.

Lemma raises_only_get R : raises_only (S := S) R get.
Proof. by intros s e s'. Qed.

Lemma raises_only_gets {A} R (f : S -> A) : raises_only R (gets f).
Proof. by intros s e s'. Qed.

Lemma raises_only_put R (s0 : S) : raises_only R (put s0).
Proof. by intros s e s'. Qed.

Lemma raises_only_modify R (f : S -> S) : raises_only R (modify f).
Proof. by intros s e s'. Qed.

Lemma raises_only_raise {A} (R : exn -> Prop) e : R e -> raises_only (S := S) (A := A) R (raise e).
Proof. intros He s e' s' [= <- _]. done. Qed.

Lemma raises_only_getitem {K V} `{Countable K} (R : exn -> Prop) (d : gmap K V) k :
  R KeyError -> raises_only (S := S) R (getitem d k).
Proof.
  intros HR. unfold getitem.
  destruct (d !! k); [apply raises_only_ret|by apply raises_only_raise].
Qed.

Lemma raises_only_first {A} (R : exn -> Prop) (seq : list A) :
  R StopIteration -> raises_only (S := S) R (first seq).
Proof.
  intros HR. destruct seq; [by apply raises_only_raise|apply raises_only_ret].
Qed.

Lemma raises_only_for_each {A B} R (l : list A) (body : B -> A -> M S B) acc :
  (forall acc x, raises_only R (body acc x)) -> raises_only R (for_each l body acc).
Proof.
  intros Hbody. revert acc. induction l as [|x l IH]; intros acc; simpl.
  - apply raises_only_ret.
  - apply raises_only_bind; [apply Hbody|apply IH].
Qed.

Lemma raises_only_weaken {A} (R R' : exn -> Prop) (m : M S A) :
  raises_only R m -> (forall e, R e -> R' e) -> raises_only R' m.
Proof. intros Hm HR s e s' Hrun. eapply HR, Hm, Hrun. Qed.

Lemma rel_bind {A B} (Rs : S -> S -> Prop) (m1 m2 : M S A) (k1 k2 : A -> M S B) :
  related Rs m1 m2 -> (forall a, related Rs (k1 a) (k2 a)) ->
  related Rs (bind m1 k1) (bind m2 k2).
Proof.
  intros Hm Hk s1 s2 Hs. specialize (Hm s1 s2 Hs). unfold bind.
  destruct (m1 s1) as [a1 s1'|e1 s1'|], (m2 s2) as [a2 s2'|e2 s2'|]; simpl in *;
    try done.
  destruct Hm as [-> Hs']. by apply Hk.
Qed.

Lemma rel_ret {A} (Rs : S -> S -> Prop) (a : A) : related Rs (ret a) (ret a).
Proof. by intros s1 s2 Hs. Qed.

Lemma rel_raise {A} (Rs : S -> S -> Prop) e : related Rs (raise (A := A) e) (raise e).
Proof. by intros s1 s2 Hs. Qed.

Lemma rel_getitem {K V} `{Countable K} (Rs : S -> S -> Prop) (d : gmap K V) k :
  related Rs (getitem d k) (getitem d k).
Proof. unfold getitem. destruct (d !! k); [apply rel_ret|apply rel_raise]. Qed.

Lemma rel_first {A} (Rs : S -> S -> Prop) (seq : list A) :
  related Rs (first seq) (first seq).
Proof. destruct seq; [apply rel_raise|apply rel_ret]. Qed.

Lemma rel_for_each {A B} (Rs : S -> S -> Prop) (l : list A) (body : B -> A -> M S B) acc :
  (forall acc x, related Rs (body acc x) (body acc x)) ->
  related Rs (for_each l body acc) (for_each l body acc).
Proof.
  intros Hbody. revert acc. induction l as [|x l IH]; intros acc; simpl.
  - apply rel_ret.
  - apply rel_bind; [apply Hbody|apply IH].
Qed.

End Rules.

Create HintDb raises.

#[local] Hint Resolve raises_only_ret raises_only_get raises_only_gets raises_only_put
  raises_only_modify raises_only_raise raises_only_getitem raises_only_first : raises.

(** Decompose a goal [raises_only R m] along the structure of [m]. *)
Ltac raises_step :=
  first
    [ apply raises_only_bind; [|intros ?]
    | apply raises_only_for_each; intros ? ?
    | solve [eauto with raises]
    | progress case_match ].

Ltac raises_auto := repeat raises_step.

(** ** What the store and the strategies can raise *)

Section Raises.

Context {val : Type} `{EqDecision val} (csp : CSP val).
Variable R : exn -> Prop.

Lemma raises_only_the_curr_domains :
  R AssertionError -> raises_only R (the_curr_domains (val := val)).
Proof. intros HR. unfold the_curr_domains. raises_auto. Qed.

Lemma raises_only_support_pruning : R KeyError -> raises_only R (support_pruning csp).
Proof. intros HR. unfold support_pruning, copy_domains. raises_auto. Qed.

Lemma raises_only_assign var (v : val) a : raises_only R (assign var v a).
Proof. unfold assign. raises_auto. Qed.

Lemma raises_only_suppose var value :
  R KeyError -> R AssertionError -> raises_only R (suppose csp var value).
Proof.
  intros HK HA. unfold suppose.
  raises_step; [by apply raises_only_support_pruning|].
  raises_step; [by apply raises_only_the_curr_domains|]. raises_auto.
Qed.

Lemma raises_only_prune var (value : val) removals :
  R KeyError -> R AssertionError -> raises_only R (prune var value removals).
Proof.
  intros HK HA. unfold prune.
  raises_step; [by apply raises_only_the_curr_domains|]. raises_auto.
Qed.

Lemma raises_only_restore (removals : list (removal val)) :
  R KeyError -> R AssertionError -> raises_only R (restore removals).
Proof.
  intros HK HA. unfold restore.
  raises_step; [by apply raises_only_the_curr_domains|].
  raises_step. raises_step.
  raises_step; [by apply raises_only_the_curr_domains|]. raises_auto.
Qed.

Lemma raises_only_choices var : R KeyError -> raises_only R (choices csp var).
Proof. intros HK. unfold choices. raises_auto. Qed.

Lemma raises_only_first_unassigned_variable a :
  R StopIteration -> raises_only R (first_unassigned_variable a csp).
Proof. intros HS. unfold first_unassigned_variable. raises_auto. Qed.

Lemma raises_only_num_legal_values var a :
  R KeyError -> raises_only R (num_legal_values csp var a).
Proof. intros HK. unfold num_legal_values. raises_auto. Qed.

Lemma raises_only_random_choice {A} (seq : option (list A)) :
  R TypeError -> R IndexError -> raises_only R (random_choice (val := val) seq).
Proof. intros HT HI. unfold random_choice. raises_auto. Qed.

Lemma raises_only_mrv a :
  R KeyError -> R TypeError -> R IndexError -> raises_only R (mrv a csp).
Proof.
  intros HK HT HI. unfold mrv, argmin_random_tie.
  raises_step; [|by apply raises_only_random_choice].
  raises_step. raises_step; [by apply raises_only_num_legal_values|]. raises_auto.
Qed.

Lemma raises_only_unordered_domain_values var a :
  R KeyError -> raises_only R (unordered_domain_values var a csp).
Proof. apply raises_only_choices. Qed.

Lemma raises_only_lcv var a : R KeyError -> raises_only R (lcv var a csp).
Proof.
  intros HK. unfold lcv. raises_step; [by apply raises_only_choices|raises_auto].
Qed.

Lemma raises_only_no_inference var value a removals :
  raises_only R (no_inference csp var value a removals).
Proof. unfold no_inference. raises_auto. Qed.

Lemma raises_only_forward_checking var value a removals :
  R KeyError -> R AssertionError ->
  raises_only R (forward_checking csp var value a removals).
Proof.
  intros HK HA. unfold forward_checking.
  raises_step; [by apply raises_only_support_pruning|].
  raises_step; [by apply raises_only_the_curr_domains|].
  generalize (default [] (neighbors csp !! var)). intros Bs. revert removals.
  induction Bs as [|B Bs IH]; intros removals; simpl; [raises_auto|].
  destruct (a !! B); [apply IH|].
  raises_step; [by apply raises_only_the_curr_domains|].
  raises_step; [raises_auto|].
  raises_step.
  { unfold fc_prune_conflicts. raises_step.
    destruct (negb _); [by apply raises_only_prune|raises_auto]. }
  raises_step; [by apply raises_only_the_curr_domains|].
  raises_step; [raises_auto|].
  case_match; [raises_auto|apply IH].
Qed.

End Raises.

(** ** Invariants of the engine that do not depend on the store *)

Section EngineInvariant.

Context {val : Type} `{EqDecision val} (csp : CSP val).
Variable select_unassigned_variable : gmap string val -> CSP val -> M (World val) string.
Variable order_domain_values :
  string -> gmap string val -> CSP val -> M (World val) (list val).
Variable inference :
  CSP val -> string -> val -> gmap string val -> list (removal val) ->
  M (World val) (bool * list (removal val)).
Variable max_steps : option nat.

(** [I] speaks of the trace and the step counter only; [R] bounds what the
    strategies raise; [Elog] is what [log] leaves when it raises. *)
Variable I : SearchState val -> Prop.
Variable R : exn -> Prop.
Variable Elog : exn -> SearchState val -> Prop.

Hypothesis I_world : forall s w, I s -> I (set_world w s).
Hypothesis I_assignment : forall s a, I s -> I (set_assignment a s).
Hypothesis log_I : forall ev var v, triple I (log max_steps ev var v) (fun _ => I) Elog.
Hypothesis select_R : forall a, raises_only R (select_unassigned_variable a csp).
Hypothesis order_R : forall var a, raises_only R (order_domain_values var a csp).
Hypothesis inference_R :
  forall var value a removals, raises_only R (inference csp var value a removals).
Hypothesis R_KeyError : R KeyError.
Hypothesis R_AssertionError : R AssertionError.

Lemma engine_log ev var v :
  triple I (log max_steps ev var v) (fun _ => I) (engine_exc I R Elog).
Proof. eapply triple_conseq; [apply log_I|done|done|]. intros e s ?. by right. Qed.

Lemma engine_in_world {A} (m : M (World val) A) :
  raises_only R m -> triple I (in_world m) (fun _ => I) (engine_exc I R Elog).
Proof.
  intros Hm s Hs. unfold in_world, zoom.
  destruct (m (world s)) as [a w'|e w'|] eqn:Hrun; simpl; [by apply I_world| |done].
  left. split; [by apply I_world|by eapply Hm].
Qed.

Lemma engine_gets {A} (f : SearchState val -> A) : triple I (gets f) (fun _ => I) (engine_exc I R Elog).
Proof. by intros s Hs. Qed.

Lemma engine_modify_assignment (f : SearchState val -> gmap string val) :
  triple I (modify (fun s => set_assignment (f s) s)) (fun _ => I) (engine_exc I R Elog).
Proof. intros s Hs. by apply I_assignment. Qed.

Lemma engine_ret {A} (a : A) : triple I (ret a) (fun _ => I) (engine_exc I R Elog).
Proof. by intros s Hs. Qed.

Ltac engine_step lem :=
  apply (triple_bind I _ _ (fun _ => I)); [lem|intros ?].

Lemma engine_try_values recurse var values :
  triple I recurse (fun _ => I) (engine_exc I R Elog) ->
  triple I (try_values csp inference max_steps recurse var values) (fun _ => I) (engine_exc I R Elog).
Proof.
  intros Hrec. induction values as [|value rest IH]; simpl; [apply engine_ret|].
  engine_step ltac:(apply engine_log).
  engine_step ltac:(apply engine_gets).
  case_decide.
  { engine_step ltac:(apply engine_log). apply IH. }
  engine_step ltac:(apply engine_in_world, raises_only_assign).
  engine_step ltac:(apply (engine_modify_assignment (fun _ => _))).
  engine_step ltac:(apply engine_log).
  engine_step ltac:(by apply engine_in_world, raises_only_suppose).
  engine_step ltac:(apply engine_in_world, inference_R).
  match goal with p : (bool * list (removal val))%type |- _ => destruct p as [ok removals] end.
  assert (triple I
            (in_world (restore removals) >>
             modify (fun s => set_assignment (unassign var (assignment s)) s) >>
             log max_steps BACKTRACK (Some var) (Some value) >>
             try_values csp inference max_steps recurse var rest)
            (fun _ => I) (engine_exc I R Elog)) as Hundo.
  { engine_step ltac:(by apply engine_in_world, raises_only_restore).
    engine_step ltac:(apply engine_modify_assignment).
    engine_step ltac:(apply engine_log). apply IH. }
  destruct ok.
  - engine_step ltac:(apply Hrec).
    case_match; [apply engine_ret|apply Hundo].
  - engine_step ltac:(apply engine_log). apply Hundo.
Qed.

Lemma engine_backtrack fuel :
  triple I
    (backtrack csp select_unassigned_variable order_domain_values inference max_steps fuel)
    (fun _ => I) (engine_exc I R Elog).
Proof.
  induction fuel as [|fuel IH]; simpl; [by intros s Hs|].
  engine_step ltac:(apply engine_gets).
  case_decide.
  { engine_step ltac:(apply engine_log). apply engine_ret. }
  engine_step ltac:(apply engine_in_world, select_R).
  engine_step ltac:(apply engine_in_world, order_R).
  by apply engine_try_values.
Qed.

Lemma raises_only_all_conflict_free {S} a vs :
  raises_only (S := S) R (all_conflict_free csp a vs).
Proof.
  induction vs as [|v vs IH]; simpl; [raises_auto|].
  raises_step; [raises_auto|]. case_decide; [apply IH|raises_auto].
Qed.

Lemma raises_only_is_goal {S} a : raises_only (S := S) R (is_goal csp a).
Proof.
  unfold is_goal. case_decide; [raises_auto|apply raises_only_all_conflict_free].
Qed.

Lemma engine_search_body fuel :
  triple I
    (search_body csp select_unassigned_variable order_domain_values inference
       max_steps fuel)
    (fun _ => I) (engine_exc I R Elog).
Proof.
  unfold search_body. engine_step ltac:(apply engine_backtrack).
  case_match; [|apply engine_ret].
  apply (triple_bind I _ _ (fun _ => I)).
  - intros s Hs. destruct (is_goal csp _ s) as [b s'|e s'|] eqn:Hg; simpl; [|left|done].
    + by apply is_goal_inv in Hg as [-> _].
    + pose proof (raises_only_is_goal _ _ _ _ Hg) as HR.
      split; [|done]. by rewrite (is_goal_Exc_state _ _ _ _ _ Hg).
  - intros []; [apply engine_ret|]. intros s Hs. left. done.
Qed.

End EngineInvariant.

(** ** Two runs of the engine side by side *)

Section EngineRelated.

Context {val : Type} `{EqDecision val} (csp : CSP val).
Variable select_unassigned_variable : gmap string val -> CSP val -> M (World val) string.
Variable order_domain_values :
  string -> gmap string val -> CSP val -> M (World val) (list val).
Variable inference :
  CSP val -> string -> val -> gmap string val -> list (removal val) ->
  M (World val) (bool * list (removal val)).
Variables max_steps1 max_steps2 : option nat.

(** [Rs] relates the states of the two runs; [good] holds of the store
    operations and of the strategies. *)
Variable Rs : SearchState val -> SearchState val -> Prop.
Variable good : forall A, M (World val) A -> Prop.

Hypothesis Rs_assignment : forall s1 s2, Rs s1 s2 -> assignment s1 = assignment s2.
Hypothesis Rs_set_assignment :
  forall s1 s2 a, Rs s1 s2 -> Rs (set_assignment a s1) (set_assignment a s2).
Hypothesis Rs_log :
  forall ev var v, related Rs (log max_steps1 ev var v) (log max_steps2 ev var v).
Hypothesis Rs_in_world :
  forall A (m : M (World val) A), good A m -> related Rs (in_world m) (in_world m).
Hypothesis good_assign : forall var v a, good _ (assign var v a).
Hypothesis good_suppose : forall var value, good _ (suppose csp var value).
Hypothesis good_restore : forall removals, good _ (restore removals).
Hypothesis good_select : forall a, good _ (select_unassigned_variable a csp).
Hypothesis good_order : forall var a, good _ (order_domain_values var a csp).
Hypothesis good_inference :
  forall var value a removals, good _ (inference csp var value a removals).

Lemma related_bind {A B} (m1 m2 : M (SearchState val) A) (k1 k2 : A -> M (SearchState val) B) :
  related Rs m1 m2 -> (forall a, related Rs (k1 a) (k2 a)) ->
  related Rs (bind m1 k1) (bind m2 k2).
Proof.
  intros Hm Hk s1 s2 Hs. specialize (Hm s1 s2 Hs). unfold bind.
  destruct (m1 s1) as [a1 s1'|e1 s1'|], (m2 s2) as [a2 s2'|e2 s2'|]; simpl in *;
    try done.
  destruct Hm as [-> Hs']. by apply Hk.
Qed.

Lemma related_ret {A} (a : A) : related Rs (ret a) (ret a).
Proof. by intros s1 s2 Hs. Qed.

Lemma related_gets_assignment : related Rs (gets assignment) (gets assignment).
Proof. intros s1 s2 Hs. split; [by apply Rs_assignment|done]. Qed.

Lemma related_unassign var :
  related Rs (modify (fun s => set_assignment (unassign var (assignment s)) s))
             (modify (fun s => set_assignment (unassign var (assignment s)) s)).
Proof.
  intros s1 s2 Hs. split; [done|].
  rewrite (Rs_assignment _ _ Hs). by apply Rs_set_assignment.
Qed.

Lemma related_set_assignment a :
  related Rs (modify (set_assignment a)) (modify (set_assignment a)).
Proof. intros s1 s2 Hs. split; [done|]. by apply Rs_set_assignment. Qed.

Lemma related_try_values recurse1 recurse2 var values :
  related Rs recurse1 recurse2 ->
  related Rs (try_values csp inference max_steps1 recurse1 var values)
             (try_values csp inference max_steps2 recurse2 var values).
Proof.
  intros Hrec. induction values as [|value rest IH]; simpl; [apply related_ret|].
  apply related_bind; [apply Rs_log|intros _].
  apply related_bind; [apply related_gets_assignment|intros a].
  case_decide.
  { apply related_bind; [apply Rs_log|intros _]. apply IH. }
  apply related_bind; [apply Rs_in_world, good_assign|intros a'].
  apply related_bind; [apply related_set_assignment|intros _].
  apply related_bind; [apply Rs_log|intros _].
  apply related_bind; [apply Rs_in_world, good_suppose|intros removals].
  apply related_bind; [apply Rs_in_world, good_inference|intros [ok removals']].
  assert (related Rs
            (in_world (restore removals') >>
             modify (fun s => set_assignment (unassign var (assignment s)) s) >>
             log max_steps1 BACKTRACK (Some var) (Some value) >>
             try_values csp inference max_steps1 recurse1 var rest)
            (in_world (restore removals') >>
             modify (fun s => set_assignment (unassign var (assignment s)) s) >>
             log max_steps2 BACKTRACK (Some var) (Some value) >>
             try_values csp inference max_steps2 recurse2 var rest)) as Hundo.
  { apply related_bind; [apply Rs_in_world, good_restore|intros _].
    apply related_bind; [apply related_unassign|intros _].
    apply related_bind; [apply Rs_log|intros _]. apply IH. }
  destruct ok.
  - apply related_bind; [apply Hrec|intros [r|]]; [apply related_ret|apply Hundo].
  - apply related_bind; [apply Rs_log|intros _]. apply Hundo.
Qed.

Lemma related_backtrack fuel :
  related Rs
    (backtrack csp select_unassigned_variable order_domain_values inference
       max_steps1 fuel)
    (backtrack csp select_unassigned_variable order_domain_values inference
       max_steps2 fuel).
Proof.
  induction fuel as [|fuel IH]; simpl; [by intros s1 s2 Hs|].
  apply related_bind; [apply related_gets_assignment|intros a].
  case_decide.
  { apply related_bind; [apply Rs_log|intros _]. apply related_ret. }
  apply related_bind; [apply Rs_in_world, good_select|intros var].
  apply related_bind; [apply Rs_in_world, good_order|intros values].
  by apply related_try_values.
Qed.

Lemma related_is_goal a : related Rs (is_goal csp a) (is_goal csp a).
Proof.
  intros s1 s2 Hs. destruct (is_goal_pure csp a) as [[b|e] Hpure]; by rewrite !Hpure.
Qed.

Lemma related_search_body fuel :
  related Rs
    (search_body csp select_unassigned_variable order_domain_values inference
       max_steps1 fuel)
    (search_body csp select_unassigned_variable order_domain_values inference
       max_steps2 fuel).
Proof.
  unfold search_body.
  apply related_bind; [apply related_backtrack|intros [r|]]; [|apply related_ret].
  apply related_bind; [apply related_is_goal|intros []]; [apply related_ret|].
  by intros s1 s2 Hs.
Qed.

End EngineRelated.

(** ** Searching without a trace *)

Section Untraced.

Context {val : Type} `{EqDecision val} (csp : CSP val).
Variable select_unassigned_variable : gmap string val -> CSP val -> M (World val) string.
Variable order_domain_values :
  string -> gmap string val -> CSP val -> M (World val) (list val).
Variable inference :
  CSP val -> string -> val -> gmap string val -> list (removal val) ->
  M (World val) (bool * list (removal val)).

Lemma log_untraced max_steps ev var (v : option val) s :
  trace s = None -> log max_steps ev var v s = Ret tt s.
Proof. unfold log, bind, get. by intros ->. Qed.

Lemma outcome_rel_eq {S A} (P : S -> Prop) (o1 o2 : outcome S A) :
  outcome_rel (fun s1 s2 => s1 = s2 /\ P s1) o1 o2 -> o1 = o2.
Proof.
  destruct o1, o2; simpl; try done; intros [-> [-> _]]; done.
Qed.

(** C10. With [trace=None], [log] returns at once and leaves the state as
    it is, so whatever [max_steps] is, [backtracking_search] does exactly what
    it does without any cap; the step counter is still 0 when the search
    ends, by a result or by an exception, and, the strategies raising no
    [RuntimeError] of their own, the search never ends with the
    [RuntimeError] of the trace cap. *)
Theorem untraced_search_unbounded (max_steps : option nat) (fuel : nat) (w : World val) :
  (forall a, raises_only (fun e => e ≠ RuntimeError) (select_unassigned_variable a csp)) ->
  (forall var a, raises_only (fun e => e ≠ RuntimeError) (order_domain_values var a csp)) ->
  (forall var value a removals,
     raises_only (fun e => e ≠ RuntimeError) (inference csp var value a removals)) ->
  (forall ev var (v : option val) s,
     trace s = None -> log max_steps ev var v s = Ret tt s) /\
  backtracking_search csp select_unassigned_variable order_domain_values inference
    None max_steps fuel w
  = backtracking_search csp select_unassigned_variable order_domain_values inference
      None None fuel w /\
  post (fun _ s => step s = 0 /\ trace s = None)
       (fun e s => step s = 0 /\ trace s = None /\ e ≠ RuntimeError)
       (backtracking_search csp select_unassigned_variable order_domain_values
          inference None max_steps fuel w).
Proof.
  intros Hsel Hord Hinf. split_and!.
  - intros. by apply log_untraced.
  - unfold backtracking_search.
    apply (outcome_rel_eq (fun s => trace s = None)).
    apply (related_search_body csp _ _ _ _ _ (fun s1 s2 => s1 = s2 /\ trace s1 = None)
             (fun _ _ => True)); try done.
    + by intros s1 s2 [-> _].
    + by intros s1 s2 a [-> ?].
    + intros ev var v s1 s2 [-> Hs]. by rewrite !log_untraced.
    + intros A m _ s1 s2 [-> Hs]. unfold in_world, zoom.
      by destruct (m (world s2)).
  - unfold backtracking_search.
    assert (triple (fun s => step s = 0 /\ trace s = None)
              (search_body csp select_unassigned_variable order_domain_values
                 inference max_steps fuel)
              (fun _ s => step s = 0 /\ trace s = None)
              (engine_exc (fun s => step s = 0 /\ trace s = None)
                 (fun e => e ≠ RuntimeError) (fun _ _ => False))) as Htriple.
    { apply engine_search_body; try done.
      intros ev var v s [Hstep Htrace]. by rewrite log_untraced. }
    specialize (Htriple {| world := w; assignment := ∅; step := 0; trace := None |}
                  (conj eq_refl eq_refl)).
    destruct (search_body _ _ _ _ _ _ _) as [r s|e s|]; simpl in *; [done| |done].
    by destruct Htriple as [[[? ?] ?]|[]].
Qed.

End Untraced.

(** ** The trace and its cap *)

Section TraceCap.

Context {val : Type} `{EqDecision val} (csp : CSP val).
Variable select_unassigned_variable : gmap string val -> CSP val -> M (World val) string.
Variable order_domain_values :
  string -> gmap string val -> CSP val -> M (World val) (list val).
Variable inference :
  CSP val -> string -> val -> gmap string val -> list (removal val) ->
  M (World val) (bool * list (removal val)).
Variable max_steps : option nat.
Variable t0 : list (trace_event val).

Lemma log_overflow ev var (v : option val) s m :
  max_steps = Some m -> is_Some (trace s) -> m <= step s ->
  log max_steps ev var v s = Exc RuntimeError (set_step (S (step s)) s).
Proof.
  intros -> [t Ht] Hm. unfold log, bind, get. rewrite Ht. unfold put.
  destruct (Nat.ltb_spec m (S (step s))); [done|lia].
Qed.

Lemma log_trace_inv ev var (v : option val) :
  triple (trace_inv max_steps t0) (log max_steps ev var v) (fun _ => (trace_inv max_steps t0))
    (fun e s => e = RuntimeError /\ overflowed t0 max_steps s).
Proof.
  intros s [(evs & Ht & Hsteps) Hcap]. unfold log, bind, get. rewrite Ht. unfold put.
  unfold trace_inv, overflowed, within_cap in *.
  assert (forall ev : trace_event val,
            ev_step ev = S (step s) ->
            traced t0 (set_trace (Some ((t0 ++ evs) ++ [ev])) (set_step (S (step s)) s))
                   (S (step s))) as Happend.
  { intros ev' Hev'. exists (evs ++ [ev']). split; [by rewrite app_assoc|].
    rewrite fmap_app, Hsteps, seq_S. simpl. by rewrite Hev'. }
  destruct max_steps as [m|].
  - destruct (Nat.ltb_spec m (S (step s))) as [Hlt|Hge].
    + split; [done|]. exists m. split; [done|]. split; [simpl; lia|].
      exists evs. split; [done|]. assert (step s = m) as <- by lia. done.
    + split; [by apply Happend|simpl; lia].
  - split; [by apply Happend|done].
Qed.

Lemma search_trace_cap fuel w :
  (forall a, raises_only (fun e => e ≠ RuntimeError) (select_unassigned_variable a csp)) ->
  (forall var a, raises_only (fun e => e ≠ RuntimeError) (order_domain_values var a csp)) ->
  (forall var value a removals,
     raises_only (fun e => e ≠ RuntimeError) (inference csp var value a removals)) ->
  post (fun _ s => (trace_inv max_steps t0) s)
       (fun e s => (e ≠ RuntimeError /\ (trace_inv max_steps t0) s)
                   \/ (e = RuntimeError /\ overflowed t0 max_steps s))
       (backtracking_search csp select_unassigned_variable order_domain_values
          inference (Some t0) max_steps fuel w).
Proof.
  intros Hsel Hord Hinf. unfold backtracking_search.
  assert (triple (trace_inv max_steps t0)
            (search_body csp select_unassigned_variable order_domain_values
               inference max_steps fuel)
            (fun _ => (trace_inv max_steps t0))
            (engine_exc (trace_inv max_steps t0) (fun e => e ≠ RuntimeError)
               (fun e s => e = RuntimeError /\ overflowed t0 max_steps s))) as Htriple.
  { apply engine_search_body; try done. apply log_trace_inv. }
  set (s0 := {| world := w; assignment := ∅; step := 0; trace := Some t0 |}).
  assert ((trace_inv max_steps t0) s0) as Hs0.
  { split; [|destruct max_steps; simpl; lia]. exists []. by rewrite app_nil_r. }
  specialize (Htriple s0 Hs0).
  destruct (search_body _ _ _ _ _ _ _) as [r s|e s|]; simpl in *; [done| |done].
  destruct Htriple as [[? ?]|?]; auto.
Qed.

Lemma traced_increasing s n :
  traced t0 s n ->
  exists evs, trace s = Some (t0 ++ evs) /\ length evs = n /\
    forall i j ei ej, i < j -> evs !! i = Some ei -> evs !! j = Some ej ->
                      ev_step ei < ev_step ej.
Proof.
  intros (evs & Ht & Hsteps). exists evs. split; [done|].
  split; [by rewrite <-(length_fmap ev_step), Hsteps, length_seq|].
  intros i j ei ej Hij Hi Hj.
  assert ((ev_step <$> evs) !! i = Some (ev_step ei)) as Hi' by by rewrite list_lookup_fmap, Hi.
  assert ((ev_step <$> evs) !! j = Some (ev_step ej)) as Hj' by by rewrite list_lookup_fmap, Hj.
  rewrite Hsteps in Hi', Hj'.
  apply lookup_seq in Hi' as [-> _]. apply lookup_seq in Hj' as [-> _]. lia.
Qed.

End TraceCap.

(** C6. With a trace list, the events that the search appends are numbered
    1, 2, 3, ... in order, so the step numbers increase along the trace, and
    the counter never passes [max_steps] while the search runs: a search that
    returns (a solution or [None]) logged at most [max_steps] events; [log]
    called when the counter has reached the cap raises [RuntimeError], and
    the search then ends with that [RuntimeError], the counter one past the
    cap and exactly [max_steps] events appended (the strategies raise no
    [RuntimeError] of their own). [solve_map_coloring] called without
    [max_steps] runs with the cap 50000. *)
Theorem trace_steps_and_cap :
  (forall (val : Type) (Heq : EqDecision val) (csp : CSP val)
      select_unassigned_variable order_domain_values inference
      (t0 : list (trace_event val)) (max_steps : option nat) (fuel : nat) (w : World val),
     (forall a, raises_only (fun e => e ≠ RuntimeError) (select_unassigned_variable a csp)) ->
     (forall var a, raises_only (fun e => e ≠ RuntimeError) (order_domain_values var a csp)) ->
     (forall var value a removals,
        raises_only (fun e => e ≠ RuntimeError) (inference csp var value a removals)) ->
     post (fun _ s => traced t0 s (step s) /\ within_cap max_steps (step s))
          (fun e s => (e ≠ RuntimeError /\ traced t0 s (step s) /\
                       within_cap max_steps (step s))
                      \/ (e = RuntimeError /\ overflowed t0 max_steps s))
          (backtracking_search csp select_unassigned_variable order_domain_values
             inference (Some t0) max_steps fuel w)) /\
  (forall (val : Type) (t0 : list (trace_event val)) s n,
     traced t0 s n ->
     exists evs, trace s = Some (t0 ++ evs) /\ length evs = n /\
       forall i j ei ej, i < j -> evs !! i = Some ei -> evs !! j = Some ej ->
                         ev_step ei < ev_step ej) /\
  (forall (val : Type) (max_steps : option nat) m ev var (v : option val) s,
     max_steps = Some m -> is_Some (trace s) -> m <= step s ->
     log max_steps ev var v s = Exc RuntimeError (set_step (S (step s)) s)) /\
  (forall neighbor_dict domain_letters log_events fuel r,
     solve_map_coloring neighbor_dict domain_letters None log_events fuel r
     = solve_map_coloring neighbor_dict domain_letters (Some (50 * 1000)) log_events fuel r /\
     post (fun _ s => step s <= 50 * 1000)
          (fun e s => e = RuntimeError -> step s = S (50 * 1000))
          (solve_map_coloring neighbor_dict domain_letters None log_events fuel r)).
Proof.
  split_and!.
  - intros. by apply search_trace_cap.
  - intros val t0 s n. apply traced_increasing.
  - intros val max_steps m ev var v s. apply log_overflow.
  - intros nd dl le fuel r. split; [reflexivity|].
    unfold solve_map_coloring.
    change (default (50 * 1000) None) with (50 * 1000).
    generalize (50 * 1000). intros cap.
    assert (post (fun _ s => trace_inv (Some cap) [] s)
              (fun e s => (e ≠ RuntimeError /\ trace_inv (Some cap) [] s)
                          \/ (e = RuntimeError /\ overflowed [] (Some cap) s))
              (backtracking_search
                 (MapColoringCSP (str_chars dl) (NeighborsDict nd))
                 mrv lcv forward_checking (Some []) (Some cap) fuel (fresh_world r)))
      as Hcap.
    { apply search_trace_cap; intros.
      - by apply raises_only_mrv.
      - by apply raises_only_lcv.
      - by apply raises_only_forward_checking. }
    destruct (backtracking_search _ _ _ _ _ _ _ _) as [sol s|e s|]; [| |exact Logic.I].
    + destruct Hcap as [_ Hcap]. exact Hcap.
    + intros ->. destruct Hcap as [[Hne _]|[_ (m & Hm & Hstep & _)]]; [done|].
      injection Hm as <-. exact Hstep.
Qed.

(** ** Determinism *)

Create HintDb rel.

#[local] Hint Resolve rel_ret rel_raise rel_getitem rel_first : rel.

Ltac rel_step :=
  first
    [ apply rel_bind; [|intros ?]
    | apply rel_for_each; intros ? ?
    | solve [eauto with rel]
    | progress case_match ].

Ltac rel_auto := repeat rel_step.

Section Determinism.

Context {val : Type} `{EqDecision val} (csp : CSP val).

Lemma rel_gets_curr_domains :
  related same_store (gets (curr_domains (val := val))) (gets curr_domains).
Proof. intros w1 w2 [Hd Hn]. done. Qed.

Lemma rel_set_curr_domains (d : option (gmap string (list val))) :
  related same_store (modify (set_curr_domains d)) (modify (set_curr_domains d)).
Proof. intros w1 w2 [Hd Hn]. done. Qed.

#[local] Hint Resolve rel_gets_curr_domains rel_set_curr_domains : rel.

Lemma deterministic_the_curr_domains : deterministic (the_curr_domains (val := val)).
Proof. unfold deterministic, the_curr_domains. rel_auto. Qed.

Lemma deterministic_support_pruning : deterministic (support_pruning csp).
Proof. unfold deterministic, support_pruning, copy_domains. rel_auto. Qed.

#[local] Hint Resolve deterministic_the_curr_domains deterministic_support_pruning : rel.

Lemma deterministic_assign var (v : val) a : deterministic (assign var v a).
Proof.
  unfold deterministic, assign. rel_step; [|rel_auto].
  intros w1 w2 [Hd Hn]. split; [done|]. split; simpl; congruence.
Qed.

Lemma deterministic_suppose var value : deterministic (suppose csp var value).
Proof. unfold deterministic, suppose. rel_auto. Qed.

Lemma deterministic_prune var (value : val) removals :
  deterministic (prune var value removals).
Proof. unfold deterministic, prune. rel_auto. Qed.

Lemma deterministic_restore (removals : list (removal val)) :
  deterministic (restore removals).
Proof. unfold deterministic, restore. rel_auto. Qed.

Lemma deterministic_choices var : deterministic (choices csp var).
Proof. unfold deterministic, choices. rel_auto. Qed.

Lemma deterministic_first_unassigned_variable a :
  deterministic (first_unassigned_variable a csp).
Proof. unfold deterministic, first_unassigned_variable. rel_auto. Qed.

Lemma deterministic_unordered_domain_values var a :
  deterministic (unordered_domain_values var a csp).
Proof. apply deterministic_choices. Qed.

Lemma deterministic_lcv var a : deterministic (lcv var a csp).
Proof.
  unfold deterministic, lcv. rel_step; [apply deterministic_choices|rel_auto].
Qed.

Lemma deterministic_no_inference var value a removals :
  deterministic (no_inference csp var value a removals).
Proof. unfold deterministic, no_inference. rel_auto. Qed.

Lemma deterministic_forward_checking var value a removals :
  deterministic (forward_checking csp var value a removals).
Proof.
  unfold deterministic, forward_checking. rel_step; [rel_auto|]. rel_step; [rel_auto|].
  generalize (default [] (neighbors csp !! var)). intros Bs. revert removals.
  induction Bs as [|B Bs IH]; intros removals; simpl; [rel_auto|].
  destruct (a !! B); [apply IH|].
  rel_step; [rel_auto|]. rel_step; [rel_auto|].
  rel_step.
  { unfold fc_prune_conflicts. rel_step.
    destruct (negb _); [apply deterministic_prune|rel_auto]. }
  rel_step; [rel_auto|]. rel_step; [rel_auto|].
  case_match; [rel_auto|apply IH].
Qed.

Lemma same_search_log max_steps ev var (v : option val) :
  related same_search (log max_steps ev var v) (log max_steps ev var v).
Proof.
  intros s1 s2 ([Hd Hn] & Ha & Hstep & Htrace). unfold log, bind, get, put, modify.
  rewrite <-Htrace, <-Hstep, <-Ha.
  destruct (trace s1) as [t|] eqn:Ht1.
  - destruct (match max_steps with Some m => _ | None => _ end); simpl;
      (split; [done|]); unfold same_search; simpl; repeat split; congruence.
  - simpl. split; [done|]. unfold same_search. repeat split; congruence.
Qed.

Lemma same_search_in_world {A} (m : M (World val) A) :
  deterministic m -> related same_search (in_world m) (in_world m).
Proof.
  intros Hm s1 s2 (Hw & Ha & Hstep & Htrace). unfold in_world, zoom.
  specialize (Hm _ _ Hw).
  destruct (m (world s1)), (m (world s2)); simpl in *; try done;
    destruct Hm as [-> Hw']; done.
Qed.

(** C9. With [first_unassigned_variable], [lcv] and an inference strategy
    that does not consult the random generator, two calls of
    [backtracking_search] on equal inputs (the same problem, the same working
    domains and counters of the store, the same trace list and cap) end
    alike whatever the states of the random generator: the same solution or
    [None] (or the same exception), and the same trace, event for event. *)
Theorem deterministic_search
    (inference : CSP val -> string -> val -> gmap string val -> list (removal val) ->
                 M (World val) (bool * list (removal val)))
    (trace : option (list (trace_event val))) (max_steps : option nat)
    (fuel : nat) (w1 w2 : World val) :
  (forall var value a removals, deterministic (inference csp var value a removals)) ->
  same_store w1 w2 ->
  outcome_rel same_search
    (backtracking_search csp first_unassigned_variable lcv inference
       trace max_steps fuel w1)
    (backtracking_search csp first_unassigned_variable lcv inference
       trace max_steps fuel w2).
Proof.
  intros Hinf Hw. unfold backtracking_search.
  apply (related_search_body csp _ _ _ _ _ same_search (@deterministic val)).
  - by intros s1 s2 (_ & ? & _).
  - by intros s1 s2 a (? & ? & ? & ?).
  - apply same_search_log.
  - intros A m. apply same_search_in_world.
  - apply deterministic_assign.
  - apply deterministic_suppose.
  - apply deterministic_restore.
  - apply deterministic_first_unassigned_variable.
  - apply deterministic_lcv.
  - apply Hinf.
  - done.
Qed.

End Determinism.

(** ** Soundness and termination of the search with forward checking *)

Section Soundness.

Context {val : Type} `{EqDecision val} (csp : CSP val).
Hypothesis Hwf : well_formed csp.
Implicit Types (a : gmap string val) (w : World val) (d : gmap string (list val)).

Lemma copy_domains_loop_run vs w : forall acc,
  (forall v, v ∈ vs -> is_Some (domains csp !! v)) ->
  exists d,
    for_each vs
      (fun d v => let* l := getitem (domains csp) v in ret (<[v := l]> d)) acc w
    = Ret d w.
Proof.
  induction vs as [|v vs IH]; intros acc Hdom; simpl; [by eexists|].
  destruct (Hdom v) as [l Hl]; [left|].
  rewrite (bind_run _ _ _ (<[v := l]> acc) w).
  - apply IH. intros v' Hv'. apply Hdom. by right.
  - by rewrite (bind_run _ _ _ _ _ (getitem_run _ _ _ _ Hl)).
Qed.

(** The working domains after [support_pruning]. *)
Lemma support_pruning_run w :
  exists d0,
    support_pruning csp w = Ret tt (set_curr_domains (Some d0) w) /\
    (forall d, curr_domains w = Some d -> d0 = d) /\
    (curr_domains w = None ->
     forall v, d0 !! v = if decide (v ∈ variables csp) then domains csp !! v else None).
Proof.
  unfold support_pruning. destruct (curr_domains w) as [d|] eqn:Hd.
  - exists d. split_and!; [|by intros ? [= ->]|done].
    unfold bind, gets. rewrite Hd. unfold ret. by rewrite <-Hd, set_curr_domains_id.
  - destruct (copy_domains_loop_run (variables csp) w ∅ (wf_domains _ Hwf)) as [d0 Hrun].
    exists d0. split_and!; [|done|].
    + unfold bind at 1, gets. rewrite Hd. fold (copy_domains csp) in Hrun.
      by rewrite (bind_run _ _ _ _ _ Hrun).
    + intros _. by apply copy_domains_inv in Hrun as [_ Hd0].
Qed.

Lemma support_pruning_lookup w d0 v :
  support_pruning csp w = Ret tt (set_curr_domains (Some d0) w) ->
  v ∈ variables csp ->
  d0 !! v = working_domain csp w v.
Proof.
  intros Hrun Hv. unfold working_domain.
  pose proof (support_pruning_inv _ _ _ Hrun) as Hinv.
  destruct (curr_domains w) as [d|] eqn:Hd.
  - assert (curr_domains (set_curr_domains (Some d0) w) = curr_domains w) as Heq
      by by rewrite Hinv.
    simpl in Heq. rewrite Hd in Heq. by simplify_eq.
  - destruct Hinv as (d1 & Heq & Hd1).
    assert (d0 = d1) as -> by (by injection Heq).
    rewrite Hd1. by rewrite decide_True.
Qed.

Lemma support_pruning_store_ok w d0 :
  support_pruning csp w = Ret tt (set_curr_domains (Some d0) w) ->
  store_ok csp w -> store_ok csp (set_curr_domains (Some d0) w).
Proof.
  intros Hrun Hok d [= <-].
  pose proof (support_pruning_inv _ _ _ Hrun) as Hinv.
  destruct (curr_domains w) as [d|] eqn:Hd.
  - assert (curr_domains (set_curr_domains (Some d0) w) = curr_domains w) as Heq
      by by rewrite Hinv.
    simpl in Heq. rewrite Hd in Heq. simplify_eq. by apply Hok.
  - destruct Hinv as (d1 & Heq & Hd1).
    assert (d0 = d1) as -> by (by injection Heq).
    split.
    + intros v. rewrite Hd1. case_decide as Hv.
      * split; [intros _; by apply (wf_domains _ Hwf)|done].
      * split; [done|by intros [? ?]].
    + intros v l. rewrite Hd1. case_decide; [|done]. eauto.
Qed.

Lemma suppose_run var value w :
  store_ok csp w ->
  var ∈ variables csp ->
  exists d0 l,
    support_pruning csp w = Ret tt (set_curr_domains (Some d0) w) /\
    working_domain csp w var = Some l /\
    d0 !! var = Some l /\
    suppose csp var value w
    = Ret ((fun v => (var, v)) <$> filter (fun v => v ≠ value) l)
          (set_curr_domains (Some (<[var := [value]]> d0)) w).
Proof.
  intros Hok Hvar. destruct (support_pruning_run w) as (d0 & Hsp & Hsome & Hnone).
  pose proof (support_pruning_lookup _ _ _ Hsp Hvar) as Hlook.
  assert (is_Some (working_domain csp w var)) as [l Hl].
  { unfold working_domain. destruct (curr_domains w) as [d|] eqn:Hd.
    - by apply (Hok d Hd).
    - by apply (wf_domains _ Hwf). }
  exists d0, l. split_and!; [done|done|congruence|].
  unfold suppose. rewrite (bind_run _ _ _ _ _ Hsp).
  rewrite (bind_run _ _ _ d0 (set_curr_domains (Some d0) w)) by done.
  rewrite (bind_run _ _ _ l (set_curr_domains (Some d0) w));
    [done|apply getitem_run; congruence].
Qed.

Lemma forward_checking_initialized var value a removals w d :
  curr_domains w = Some d ->
  forward_checking csp var value a removals w
  = fc_neighbors csp var value a (default [] (neighbors csp !! var)) removals w.
Proof.
  intros Hd. unfold forward_checking, support_pruning.
  unfold bind at 1. unfold bind at 1. unfold gets. rewrite Hd. unfold ret.
  by rewrite (bind_run _ _ _ _ _ (the_curr_domains_run _ _ Hd)).
Qed.

Lemma fc_neighbors_run var value a Bs : forall removals w d,
  curr_domains w = Some d ->
  (forall B, B ∈ Bs -> a !! B = None -> is_Some (d !! B)) ->
  exists ok removals' w',
    fc_neighbors csp var value a Bs removals w = Ret (ok, removals') w'.
Proof.
  induction Bs as [|B Bs IH]; intros removals w d Hd Hkeys; simpl; [by eexists _, _, _|].
  destruct (a !! B) as [x|] eqn:HaB.
  { eapply IH; [done|]. intros B' HB'. apply Hkeys. by right. }
  destruct (Hkeys B) as [l Hl]; [left|done|].
  rewrite (bind_run _ _ _ _ _ (the_curr_domains_run _ _ Hd)).
  rewrite (bind_run _ _ _ _ _ (getitem_run _ _ _ _ Hl)).
  rewrite (bind_run _ _ _ _ _
             (fc_prune_conflicts_run csp var value B l [] removals w d Hd Hl
                ltac:(by intros ? ?%elem_of_nil))).
  simpl.
  set (d1 := <[B := fc_keep csp var value B l]> d).
  set (w1 := set_curr_domains (Some d1) w).
  assert (curr_domains w1 = Some d1) as Hd1 by done.
  rewrite (bind_run _ _ _ _ _ (the_curr_domains_run _ _ Hd1)).
  assert (d1 !! B = Some (fc_keep csp var value B l)) as Hl1 by apply lookup_insert_eq.
  rewrite (bind_run _ _ _ _ _ (getitem_run _ _ _ _ Hl1)).
  destruct (fc_keep csp var value B l); [by eexists _, _, _|].
  eapply IH; [done|]. intros B' HB' HaB'. unfold d1.
  destruct (decide (B = B')) as [->|Hne].
  - rewrite lookup_insert_eq. by eexists.
  - rewrite lookup_insert_ne by done. apply Hkeys; [by right|done].
Qed.

Lemma fc_neighbors_roundtrip var value a d0 Bs : forall removals w ok removals' w',
  roundtrip_inv d0 w removals ->
  fc_neighbors csp var value a Bs removals w = Ret (ok, removals') w' ->
  roundtrip_inv d0 w' removals'.
Proof.
  induction Bs as [|B Bs IH]; intros removals w ok removals' w' Hinv Hrun;
    simpl in Hrun; [by inv_ret|].
  destruct (a !! B) as [x|] eqn:HaB; [by eapply IH|].
  pose proof Hinv as (d & Hd & _).
  rewrite (bind_run _ _ _ _ _ (the_curr_domains_run _ _ Hd)) in Hrun.
  apply bind_Ret_inv in Hrun as (l & ? & [Hl ->]%getitem_Ret_inv & Hrun).
  rewrite (bind_run _ _ _ _ _
             (fc_prune_conflicts_run csp var value B l [] removals w d Hd Hl
                ltac:(by intros ? ?%elem_of_nil))) in Hrun.
  simpl in Hrun.
  assert (roundtrip_inv d0
            (set_curr_domains (Some (<[B := fc_keep csp var value B l]> d)) w)
            (removals ++ ((fun b => (B, b)) <$> fc_drop csp var value B l))) as Hinv1.
  { eapply roundtrip_inv_update; [done|done|done|].
    intros x. unfold fc_keep, fc_drop.
    rewrite elem_of_app, !list_elem_of_filter.
    destruct (constraints csp var value B x); naive_solver. }
  set (d1 := <[B := fc_keep csp var value B l]> d) in *.
  set (w1 := set_curr_domains (Some d1) w) in *.
  assert (curr_domains w1 = Some d1) as Hd1 by done.
  rewrite (bind_run _ _ _ _ _ (the_curr_domains_run _ _ Hd1)) in Hrun.
  assert (d1 !! B = Some (fc_keep csp var value B l)) as Hl1 by apply lookup_insert_eq.
  rewrite (bind_run _ _ _ _ _ (getitem_run _ _ _ _ Hl1)) in Hrun.
  destruct (fc_keep csp var value B l); [by inv_ret|].
  by eapply IH.
Qed.

Lemma working_domain_is_Some w v :
  store_ok csp w -> v ∈ variables csp -> is_Some (working_domain csp w v).
Proof.
  intros Hok Hv. unfold working_domain. destruct (curr_domains w) as [d|] eqn:Hd.
  - by apply (Hok d Hd).
  - by apply (wf_domains _ Hwf).
Qed.

Lemma same_domains_refl w : same_domains csp w w.
Proof. split; [done|]. intros v l _ Hl. by exists l. Qed.

Lemma same_domains_trans w1 w2 w3 :
  same_domains csp w1 w2 -> same_domains csp w2 w3 -> same_domains csp w1 w3.
Proof.
  intros [Hi12 H12] [Hi23 H23]. split; [auto|]. intros v l Hv Hl.
  destruct (H12 v l Hv Hl) as (l2 & Hl2 & Hiff2).
  destruct (H23 v l2 Hv Hl2) as (l3 & Hl3 & Hiff3).
  exists l3. split; [done|]. intros x. by rewrite Hiff3.
Qed.

Lemma same_domains_back w w' v l' :
  store_ok csp w -> same_domains csp w w' -> v ∈ variables csp ->
  working_domain csp w' v = Some l' ->
  exists l, working_domain csp w v = Some l /\ forall x, x ∈ l' <-> x ∈ l.
Proof.
  intros Hok [_ Hsame] Hv Hl'.
  destruct (working_domain_is_Some w v Hok Hv) as [l Hl].
  destruct (Hsame v l Hv Hl) as (l'' & Hl'' & Hiff). exists l. split; [done|].
  by simplify_eq.
Qed.

Lemma search_inv_transfer a w w' :
  search_inv csp a w -> store_ok csp w' -> same_domains csp w w' ->
  search_inv csp a w'.
Proof.
  intros (Ha & Hok & Hpr) Hok' Hsame. split_and!; [done|done|].
  intros A x B l' HA HB HaB Hl' b Hb.
  assert (B ∈ variables csp) as HBv.
  { eapply (wf_closed _ Hwf); [|done]. apply Ha. by eexists. }
  destruct (same_domains_back _ _ _ _ Hok Hsame HBv Hl') as (l & Hl & Hiff).
  eapply Hpr; [done|done|done|done|]. by apply Hiff.
Qed.

Lemma roundtrip_inv_transfer d0 w2 w3 removals :
  (forall v, v ∈ variables csp <-> is_Some (d0 !! v)) ->
  roundtrip_inv d0 w2 removals -> store_ok csp w3 -> same_domains csp w2 w3 ->
  roundtrip_inv d0 w3 removals.
Proof.
  intros Hkeys (d2 & Hd2 & Hinv) Hok3 [Hinit Hsame].
  destruct Hinit as [d3 Hd3]; [by eexists|].
  exists d3. split; [done|]. intros v. specialize (Hinv v).
  destruct (d0 !! v) as [l|] eqn:Hl.
  - destruct Hinv as (l2 & Hl2 & Hiff).
    assert (v ∈ variables csp) as Hv by (apply Hkeys; by eexists).
    destruct (Hsame v l2 Hv) as (l3 & Hl3 & Hiff3).
    { unfold working_domain. by rewrite Hd2. }
    unfold working_domain in Hl3. rewrite Hd3 in Hl3.
    exists l3. split; [done|]. intros x. rewrite <-Hiff, !elem_of_app, Hiff3. done.
  - destruct Hinv as [_ Hpend]. split; [|done].
    destruct (d3 !! v) eqn:Hv3; [|done].
    assert (v ∈ variables csp) as Hv by (apply (Hok3 d3 Hd3); by eexists).
    apply Hkeys in Hv as [? ?]. congruence.
Qed.

(** The world after the [restore] that undoes one value: the store is as
    good as before the value was tried. *)
Lemma restore_undoes w d0 w3 removals :
  store_ok csp w ->
  support_pruning csp w = Ret tt (set_curr_domains (Some d0) w) ->
  roundtrip_inv d0 w3 removals ->
  exists w4,
    restore removals w3 = Ret tt w4 /\ store_ok csp w4 /\ same_domains csp w w4.
Proof.
  intros Hok Hsp Hinv.
  pose proof (support_pruning_store_ok _ _ Hsp Hok d0 eq_refl) as [Hkeys Hsub].
  destruct (restore_after_roundtrip _ _ _ Hinv) as (w4 & d4 & Hrun & Hd4 & Hback).
  exists w4. split_and!; [done| |].
  - intros d [= <-]%(eq_trans (eq_sym Hd4)). split.
    + intros v. rewrite Hkeys. specialize (Hback v). destruct (d0 !! v) as [l|].
      * destruct Hback as (l4 & -> & _). by split; eexists.
      * rewrite Hback. by split; intros [? ?].
    + intros v l4 Hl4. specialize (Hback v). destruct (d0 !! v) as [l|] eqn:Hl.
      * destruct Hback as (l4' & Hl4' & Hiff). simplify_eq.
        destruct (Hsub v l Hl) as (l0 & Hl0 & Hincl). exists l0. split; [done|].
        intros x Hx. by apply Hincl, Hiff.
      * congruence.
  - split; [by intros _; eexists|]. intros v l Hv Hl.
    rewrite <-(support_pruning_lookup _ _ _ Hsp Hv) in Hl.
    specialize (Hback v). rewrite Hl in Hback.
    destruct Hback as (l4 & Hl4 & Hiff). exists l4. split; [|done].
    unfold working_domain. by rewrite Hd4.
Qed.

Lemma working_domain_within w v l :
  store_ok csp w -> working_domain csp w v = Some l ->
  exists l0, domains csp !! v = Some l0 /\ forall x, x ∈ l -> x ∈ l0.
Proof.
  intros Hok. unfold working_domain. destruct (curr_domains w) as [d|] eqn:Hd.
  - apply (Hok d Hd).
  - intros Hl. by exists l.
Qed.

Lemma asg_ok_extend a w var value l :
  search_inv csp a w -> var ∈ variables csp -> a !! var = None ->
  working_domain csp w var = Some l -> value ∈ l ->
  nconflicts csp var value a = 0 ->
  asg_ok csp (<[var := value]> a).
Proof.
  intros ((Hvars & Hvals & Hcons) & Hok & Hpr) Hvar Hnone Hl Hvalue Hzero.
  split_and!.
  - intros v. destruct (decide (var = v)) as [->|Hne]; [done|].
    rewrite lookup_insert_ne by done. apply Hvars.
  - intros v x. destruct (decide (var = v)) as [->|Hne].
    + rewrite lookup_insert_eq. intros [= <-].
      destruct (working_domain_within _ _ _ Hok Hl) as (l0 & Hl0 & Hincl). eauto.
    + rewrite lookup_insert_ne by done. apply Hvals.
  - intros v n x y Hx Hn Hy.
    destruct (decide (v = var)) as [->|Hv], (decide (n = var)) as [->|Hn'].
    + by destruct (wf_loop_free _ Hwf var Hvar).
    + rewrite lookup_insert_eq in Hx. rewrite lookup_insert_ne in Hy by done.
      simplify_eq. by eapply (proj1 (nconflicts_zero csp var x a) Hzero).
    + rewrite lookup_insert_ne in Hx by done. rewrite lookup_insert_eq in Hy.
      simplify_eq. by eapply Hpr.
    + rewrite lookup_insert_ne in Hx, Hy by done. by eapply Hcons.
Qed.

Lemma upto_first_all {A} (P : A -> Prop) `{forall x, Decision (P x)} (l : list A) :
  (forall x, x ∈ l -> ~ P x) -> upto_first P l = l.
Proof.
  induction l as [|x l IH]; intros Hall; simpl; [done|].
  rewrite decide_False by (apply Hall; left).
  f_equal. apply IH. intros y Hy. apply Hall. by right.
Qed.

Lemma roundtrip_store_ok d0 w2 removals :
  (forall v, v ∈ variables csp <-> is_Some (d0 !! v)) ->
  (forall v l, d0 !! v = Some l ->
     exists l0, domains csp !! v = Some l0 /\ forall x, x ∈ l -> x ∈ l0) ->
  roundtrip_inv d0 w2 removals -> store_ok csp w2.
Proof.
  intros Hkeys Hsub (d2 & Hd2 & Hinv) d [= <-]%(eq_trans (eq_sym Hd2)). split.
  - intros v. rewrite Hkeys. specialize (Hinv v). destruct (d0 !! v) as [l|].
    + destruct Hinv as (l2 & -> & _). by split; eexists.
    + destruct Hinv as [-> _]. by split; intros [? ?].
  - intros v l2 Hl2. specialize (Hinv v). destruct (d0 !! v) as [l|] eqn:Hl.
    + destruct Hinv as (l2' & Hl2' & Hiff). simplify_eq.
      destruct (Hsub v l Hl) as (l0 & Hl0 & Hincl). exists l0. split; [done|].
      intros x Hx. apply Hincl, Hiff, elem_of_app. by left.
    + destruct Hinv as [? _]. congruence.
Qed.

Lemma pruned_after_fc a w d0 var value removals1 removals2 w2 :
  search_inv csp a w -> var ∈ variables csp -> a !! var = None ->
  support_pruning csp w = Ret tt (set_curr_domains (Some d0) w) ->
  fc_neighbors csp var value (<[var := value]> a) (default [] (neighbors csp !! var))
    removals1 (set_curr_domains (Some (<[var := [value]]> d0)) w)
  = Ret (true, removals2) w2 ->
  pruned csp (<[var := value]> a) w2.
Proof.
  intros ((Hvars & _ & _) & Hok & Hpr) Hvar Hnone Hsp Hfc.
  apply (fc_neighbors_spec _ _ _ _ _ _ _ (<[var := [value]]> d0)) in Hfc
    as (d2 & -> & Hfalse & Hd2 & _); [|done].
  intros A x B l2 HA HB HaB Hl2 b Hb.
  unfold working_domain in Hl2. simpl in Hl2.
  assert (B ≠ var) as HBvar by (intros ->; by rewrite lookup_insert_eq in HaB).
  rewrite lookup_insert_ne in HaB by done.
  rewrite Hd2 in Hl2. rewrite lookup_insert_ne in Hl2 by done.
  destruct (decide (var = A)) as [<-|HAvar].
  - rewrite lookup_insert_eq in HA. simplify_eq.
    rewrite upto_first_all in Hl2.
    + rewrite decide_True in Hl2.
      * destruct (d0 !! B) as [l1|]; simplify_eq/=.
        unfold fc_keep in Hb. by apply list_elem_of_filter in Hb as [? _].
      * apply list_elem_of_filter. split; [|done]. by rewrite lookup_insert_ne.
    + intros B' HB' Hemp. assert (true = false); [|done]. apply Hfalse. eauto.
  - rewrite lookup_insert_ne in HA by done.
    assert (A ∈ variables csp) as HAv by (apply Hvars; by eexists).
    assert (B ∈ variables csp) as HBv by by eapply (wf_closed _ Hwf).
    assert (exists l1, d0 !! B = Some l1 /\ b ∈ l1) as (l1 & Hl1 & Hb1).
    { case_decide; [|by eauto].
      destruct (d0 !! B) as [l1|]; simplify_eq/=. exists l1. split; [done|].
      unfold fc_keep in Hb. by apply list_elem_of_filter in Hb as [_ ?]. }
    rewrite (support_pruning_lookup _ _ _ Hsp HBv) in Hl1.
    by eapply Hpr.
Qed.

Lemma store_ok_curr w w' :
  curr_domains w' = curr_domains w -> store_ok csp w -> store_ok csp w'.
Proof. intros Heq Hok d Hd. apply Hok. congruence. Qed.

Lemma working_domain_curr w w' v :
  curr_domains w' = curr_domains w -> working_domain csp w' v = working_domain csp w v.
Proof. unfold working_domain. by intros ->. Qed.

Lemma search_inv_curr a w w' :
  curr_domains w' = curr_domains w -> search_inv csp a w -> search_inv csp a w'.
Proof.
  intros Heq (Ha & Hok & Hpr). split_and!; [done|by eapply store_ok_curr|].
  intros A x B l HA HB HaB Hl. rewrite (working_domain_curr _ _ _ Heq) in Hl.
  by eapply Hpr.
Qed.

Lemma same_domains_curr_l w w' w'' :
  curr_domains w' = curr_domains w -> same_domains csp w' w'' -> same_domains csp w w''.
Proof.
  intros Heq [Hinit Hsame]. split; [by rewrite <-Heq|].
  intros v l Hv Hl. apply Hsame; [done|]. by rewrite (working_domain_curr _ _ _ Heq).
Qed.

Variable max_steps : option nat.

Lemma log_run_free ev var (v : option val) w a n t :
  cap_free max_steps t ->
  exists n' t',
    log max_steps ev var v {| world := w; assignment := a; step := n; trace := t |}
    = Ret tt {| world := w; assignment := a; step := n'; trace := t' |} /\
    cap_free max_steps t'.
Proof.
  intros [->| ->].
  - exists n, None. split; [done|by left].
  - unfold log, bind, get, put, modify. simpl.
    destruct t as [t|]; simpl; eexists _, _; (split; [reflexivity|by right]).
Qed.

Lemma in_world_run {A} (m : M (World val) A) w a n t x w' :
  m w = Ret x w' ->
  in_world m {| world := w; assignment := a; step := n; trace := t |}
  = Ret x {| world := w'; assignment := a; step := n; trace := t |}.
Proof. unfold in_world, zoom. simpl. by intros ->. Qed.

Lemma unassign_insert var value a :
  a !! var = None -> unassign var (<[var := value]> a) = a.
Proof.
  intros Hnone. unfold unassign.
  rewrite decide_True by (rewrite lookup_insert_eq; by eexists).
  by apply delete_insert_id.
Qed.

(** The loop over the values of [var], when the recursive call is known to
    behave. *)
Lemma try_values_total recurse var a :
  var ∈ variables csp -> a !! var = None ->
  (forall a' w' n' t',
     size a' = S (size a) -> search_inv csp a' w' -> cap_free max_steps t' ->
     exists r s',
       recurse {| world := w'; assignment := a'; step := n'; trace := t' |} = Ret r s' /\
       search_post csp max_steps w' a' r s') ->
  forall values w n t,
    search_inv csp a w -> cap_free max_steps t ->
    (forall x, x ∈ values -> exists l, working_domain csp w var = Some l /\ x ∈ l) ->
    exists r s',
      try_values csp forward_checking max_steps recurse var values
        {| world := w; assignment := a; step := n; trace := t |} = Ret r s' /\
      search_post csp max_steps w a r s'.
Proof.
  intros Hvar Hnone Hrec values.
  induction values as [|value rest IH]; intros w n t Hinv Hcap Hvals.
  { eexists None, _. split; [reflexivity|]. split; [done|].
    split_and!; [done|apply Hinv|apply same_domains_refl]. }
  simpl.
  destruct (log_run_free TRY (Some var) (Some value) w a n t Hcap)
    as (n1 & t1 & Hlog1 & Hcap1).
  rewrite (bind_run _ _ _ _ _ Hlog1).
  rewrite (bind_run _ _ _ a {| world := w; assignment := a; step := n1; trace := t1 |})
    by done.
  case_decide as Hconf.
  { destruct (log_run_free CONFLICT (Some var) (Some value) w a n1 t1 Hcap1)
      as (n2 & t2 & Hlog2 & Hcap2).
    rewrite (bind_run _ _ _ _ _ Hlog2).
    apply IH; [done|done|]. intros x Hx. apply Hvals. by right. }
  assert (nconflicts csp var value a = 0) as Hzero
    by (destruct (decide (nconflicts csp var value a = 0)); done).
  set (w_a := {| curr_domains := curr_domains w; nassigns := S (nassigns w);
                 rand := rand w |}).
  set (a' := <[var := value]> a).
  rewrite (bind_run _ _ _ a' {| world := w_a; assignment := a; step := n1; trace := t1 |})
    by (by apply in_world_run).
  rewrite (bind_run _ _ _ tt {| world := w_a; assignment := a'; step := n1; trace := t1 |})
    by done.
  destruct (log_run_free ASSIGN (Some var) (Some value) w_a a' n1 t1 Hcap1)
    as (n2 & t2 & Hlog2 & Hcap2).
  rewrite (bind_run _ _ _ _ _ Hlog2).
  destruct (Hvals value) as (l & Hl & Hvalue); [left|].
  assert (search_inv csp a w_a) as Hinv_a by by eapply search_inv_curr.
  pose proof Hinv_a as (Hasg & Hok_a & Hpr_a).
  destruct (suppose_run var value w_a Hok_a Hvar) as (d0 & l' & Hsp & Hl' & Hd0l & Hsuppose).
  assert (l' = l) as -> by (unfold working_domain in *; simpl in *; congruence).
  rewrite (bind_run _ _ _ _ _ (in_world_run _ _ a' n2 t2 _ _ Hsuppose)).
  set (removals1 := (fun v => (var, v)) <$> filter (fun v => v ≠ value) l) in *.
  set (d1 := <[var := [value]]> d0) in *.
  set (w1 := set_curr_domains (Some d1) w_a) in *.
  pose proof (support_pruning_store_ok _ _ Hsp Hok_a d0 eq_refl) as [Hkeys0 Hsub0].
  destruct (fc_neighbors_run var value a' (default [] (neighbors csp !! var))
              removals1 w1 d1 eq_refl) as (ok & removals2 & w2 & Hfc).
  { intros B HB _. unfold d1. destruct (decide (var = B)) as [->|Hne].
    - rewrite lookup_insert_eq. by eexists.
    - rewrite lookup_insert_ne by done. apply Hkeys0. by eapply (wf_closed _ Hwf). }
  pose proof Hfc as Hfc'.
  rewrite <-(forward_checking_initialized var value a' removals1 w1 d1 eq_refl) in Hfc'.
  rewrite (bind_run _ _ _ _ _ (in_world_run _ _ a' n2 t2 _ _ Hfc')).
  assert (roundtrip_inv d0 w1 removals1) as Hrt1.
  { apply (roundtrip_inv_update d0 (set_curr_domains (Some d0) w_a) [] d0 var l
             [value] (filter (fun v => v ≠ value) l)); [|done|done|].
    - by apply roundtrip_inv_start.
    - intros x. rewrite elem_of_app, list_elem_of_singleton, list_elem_of_filter.
      destruct (decide (x = value)); naive_solver. }
  pose proof (fc_neighbors_roundtrip _ _ _ _ _ _ _ _ _ _ Hrt1 Hfc) as Hrt2.
  pose proof (roundtrip_store_ok _ _ _ Hkeys0 Hsub0 Hrt2) as Hok2.
  assert (forall w3 n3 t3,
            store_ok csp w3 -> same_domains csp w2 w3 -> cap_free max_steps t3 ->
            exists r s',
              (in_world (restore removals2) >>
               modify (fun s => set_assignment (unassign var (assignment s)) s) >>
               log max_steps BACKTRACK (Some var) (Some value) >>
               try_values csp forward_checking max_steps recurse var rest)
                {| world := w3; assignment := a'; step := n3; trace := t3 |} = Ret r s' /\
              search_post csp max_steps w a r s') as Hundo.
  { intros w3 n3 t3 Hok3 Hsame3 Hcap3.
    pose proof (roundtrip_inv_transfer _ _ _ _ Hkeys0 Hrt2 Hok3 Hsame3) as Hrt3.
    destruct (restore_undoes w_a d0 w3 removals2 Hok_a Hsp Hrt3)
      as (w4 & Hrestore & Hok4 & Hsame4).
    rewrite (bind_run _ _ _ _ _ (in_world_run _ _ a' n3 t3 _ _ Hrestore)).
    rewrite (bind_run _ _ _ tt {| world := w4; assignment := a; step := n3; trace := t3 |}).
    2:{ unfold modify. simpl. unfold set_assignment. simpl. unfold a'.
        by rewrite (unassign_insert var value a Hnone). }
    destruct (log_run_free BACKTRACK (Some var) (Some value) w4 a n3 t3 Hcap3)
      as (n4 & t4 & Hlog4 & Hcap4).
    rewrite (bind_run _ _ _ _ _ Hlog4).
    destruct (IH w4 n4 t4) as (r & s' & Hrun & Hcap' & Hpost); [|done| |].
    - by eapply search_inv_transfer.
    - intros x Hx. destruct (Hvals x) as (lx & Hlx & Hxl); [by right|].
      rewrite <-(working_domain_curr w w_a var eq_refl) in Hlx.
      destruct Hsame4 as [_ Hsame4].
      destruct (Hsame4 var lx Hvar Hlx) as (l4 & Hl4 & Hiff). exists l4.
      split; [done|]. by apply Hiff.
    - exists r, s'. split; [done|]. split; [done|].
      destruct r; [done|]. destruct Hpost as (? & ? & Hsame'). split_and!; [done|done|].
      eapply same_domains_trans; [|done].
      by apply (same_domains_curr_l w w_a). }
  destruct ok.
  - destruct (Hrec a' w2 n2 t2) as (r & s3 & Hrun & Hcap3 & Hpost); [| |done|].
    + unfold a'. by apply map_size_insert_None.
    + split_and!; [by eapply asg_ok_extend|done|by eapply pruned_after_fc].
    + rewrite (bind_run _ _ _ _ _ Hrun). destruct r as [c|].
      * eexists (Some c), s3. split; [done|]. split; done.
      * destruct s3 as [w3 a3 n3 t3]. simpl in *.
        destruct Hpost as (-> & Hok3 & Hsame3). by apply Hundo.
  - destruct (log_run_free INFER_FAIL (Some var) (Some value) w2 a' n2 t2 Hcap2)
      as (n3 & t3 & Hlog3 & Hcap3).
    rewrite (bind_run _ _ _ _ _ Hlog3).
    apply Hundo; [done|apply same_domains_refl|done].
Qed.

Lemma asg_ok_size a : asg_ok csp a -> size a <= length (variables csp).
Proof.
  intros (Hvars & _ & _).
  rewrite <-size_dom, <-(size_list_to_set (C := gset string) (variables csp))
    by apply (wf_nodup _ Hwf).
  apply subseteq_size. intros v Hv%elem_of_dom. apply elem_of_list_to_set. by apply Hvars.
Qed.

Lemma asg_ok_complete a v :
  asg_ok csp a -> size a = length (variables csp) -> v ∈ variables csp ->
  is_Some (a !! v).
Proof.
  intros (Hvars & _ & _) Hsize Hv. apply elem_of_dom.
  assert (dom a ≡ list_to_set (C := gset string) (variables csp)) as ->.
  { apply set_subseteq_size_equiv.
    - intros u Hu%elem_of_dom. apply elem_of_list_to_set. by apply Hvars.
    - rewrite size_dom, size_list_to_set by apply (wf_nodup _ Hwf). lia. }
  by apply elem_of_list_to_set.
Qed.

Lemma asg_ok_unassigned a :
  asg_ok csp a -> size a ≠ length (variables csp) ->
  exists v, v ∈ variables csp /\ a !! v = None.
Proof.
  intros Ha Hsize. pose proof (asg_ok_size a Ha) as Hle.
  destruct (decide (Forall (fun v => is_Some (a !! v)) (variables csp))) as [Hall|Hex].
  - exfalso. apply Hsize, Nat.le_antisymm; [done|].
    rewrite <-size_dom, <-(size_list_to_set (C := gset string) (variables csp))
      by apply (wf_nodup _ Hwf).
    apply subseteq_size. intros v Hv%elem_of_list_to_set. apply elem_of_dom.
    by eapply Forall_forall in Hall.
  - apply not_Forall_Exists in Hex; [|apply _].
    apply Exists_exists in Hex as (v & Hv & Hnone). exists v. split; [done|].
    by apply eq_None_not_Some.
Qed.

Lemma asg_ok_solution a :
  asg_ok csp a -> size a = length (variables csp) -> solution csp a.
Proof.
  intros Ha Hsize. pose proof Ha as (Hvars & Hvals & Hcons). split.
  - intros v Hv. destruct (asg_ok_complete a v Ha Hsize Hv) as [x Hx].
    destruct (Hvals v x Hx) as (l0 & Hl0 & Hin). eauto.
  - intros v n x y _ Hn Hx Hy. by eapply Hcons.
Qed.

Lemma choices_run w var :
  store_ok csp w -> var ∈ variables csp ->
  exists l, working_domain csp w var = Some l /\ choices csp var w = Ret l w.
Proof.
  intros Hok Hvar. destruct (working_domain_is_Some w var Hok Hvar) as [l Hl].
  exists l. split; [done|]. unfold choices, bind, gets. unfold working_domain in Hl.
  destruct (curr_domains w) as [d|] eqn:Hd.
  - rewrite decide_False; [by apply getitem_run|].
    intros ->. by rewrite lookup_empty in Hl.
  - by apply getitem_run.
Qed.

Variable select_unassigned_variable : gmap string val -> CSP val -> M (World val) string.
Variable order_domain_values :
  string -> gmap string val -> CSP val -> M (World val) (list val).
Hypothesis Hselect : selects_unassigned csp select_unassigned_variable.
Hypothesis Horder : orders_choices csp order_domain_values.

Lemma backtrack_total fuel : forall w a n t,
  search_inv csp a w ->
  length (variables csp) < fuel + size a ->
  cap_free max_steps t ->
  exists r s',
    backtrack csp select_unassigned_variable order_domain_values forward_checking
      max_steps fuel {| world := w; assignment := a; step := n; trace := t |}
    = Ret r s' /\
    search_post csp max_steps w a r s'.
Proof.
  induction fuel as [|fuel IH]; intros w a n t Hinv Hfuel Hcap.
  { pose proof (asg_ok_size a (proj1 Hinv)). simpl in Hfuel. lia. }
  simpl.
  rewrite (bind_run _ _ _ a {| world := w; assignment := a; step := n; trace := t |})
    by done.
  case_decide as Hsize.
  { destruct (log_run_free GOAL None None w a n t Hcap) as (n1 & t1 & Hlog & Hcap1).
    rewrite (bind_run _ _ _ _ _ Hlog). eexists (Some a), _. split; [done|].
    split; [done|]. split; [|done]. apply asg_ok_solution; [apply Hinv|done]. }
  pose proof Hinv as (Hasg & Hok & Hpr).
  destruct (Hselect a w Hok (asg_ok_unassigned a Hasg Hsize))
    as (var & w' & Hsel & Hvar & Hnone & Hcurr).
  rewrite (bind_run _ _ _ _ _ (in_world_run _ _ a n t _ _ Hsel)).
  assert (search_inv csp a w') as Hinv' by by eapply search_inv_curr.
  destruct (choices_run w' var (proj1 (proj2 Hinv')) Hvar) as (l & Hl & Hchoices).
  destruct (Horder var a w' l Hchoices) as (values & Hvalues & Hincl).
  rewrite (bind_run _ _ _ _ _ (in_world_run _ _ a n t _ _ Hvalues)).
  destruct (try_values_total
              (backtrack csp select_unassigned_variable order_domain_values
                 forward_checking max_steps fuel)
              var a Hvar Hnone) with (values := values) (w := w') (n := n) (t := t)
    as (r & s' & Hrun & Hcap' & Hpost); [|done|done| |].
  - intros a' w'' n' t' Hsize' Hinv'' Hcap''. apply IH; [done| |done]. lia.
  - intros x Hx. exists l. split; [done|]. by apply Hincl.
  - exists r, s'. split; [done|]. split; [done|]. destruct r; [done|].
    destruct Hpost as (? & ? & Hsame). split_and!; [done|done|].
    by apply (same_domains_curr_l w w').
Qed.

Lemma is_goal_solution {S} c (s : S) :
  solution csp c -> size c = length (variables csp) -> is_goal csp c s = Ret true s.
Proof.
  intros [Hall Hcons] Hsize. unfold is_goal. rewrite decide_False by (by intros ?).
  assert (forall vs, (forall v, v ∈ vs -> v ∈ variables csp) ->
                     all_conflict_free csp c vs s = Ret true s) as Hloop.
  { induction vs as [|v vs IHv]; intros Hvs; simpl; [done|].
    destruct (Hall v) as (x & l & Hx & _); [apply Hvs; left|].
    rewrite (bind_run _ _ _ _ _ (getitem_run _ _ _ _ Hx)).
    rewrite decide_True.
    - apply IHv. intros v' Hv'. apply Hvs. by right.
    - apply nconflicts_zero. intros n y Hn Hy. eapply Hcons; [|done|done|done].
      apply Hvs. left. }
  by apply Hloop.
Qed.

(** With forward checking, a well-formed problem and no cap in the way, the
    search returns, and what it returns, when not [None], is a solution. *)
Lemma search_sound_total (tr : option (list (trace_event val))) (fuel : nat)
    (rnd : RandomSrc) :
  cap_free max_steps tr ->
  length (variables csp) < fuel ->
  exists r s',
    backtracking_search csp select_unassigned_variable order_domain_values
      forward_checking tr max_steps fuel (fresh_world rnd) = Ret r s' /\
    match r with Some c => solution csp c | None => True end.
Proof.
  intros Hcap Hfuel. unfold backtracking_search, search_body.
  destruct (backtrack_total fuel (fresh_world rnd) ∅ 0 tr) as (r & s' & Hrun & _ & Hpost);
    [|by rewrite map_size_empty, Nat.add_0_r|done|].
  { split_and!.
    - split_and!; [by intros v [? ?]|by intros v x ?|by intros v n x y ?].
    - by intros d ?.
    - by intros A x B l ?. }
  rewrite (bind_run _ _ _ _ _ Hrun). destruct r as [c|]; [|by eexists None, _].
  destruct Hpost as [Hsol Hsize].
  rewrite (bind_run _ _ _ _ _ (is_goal_solution c s' Hsol Hsize)).
  by eexists (Some c), _.
Qed.

End Soundness.

(** ** The built-in strategies and [MapColoringCSP] fit the soundness proof *)

Section Strategies.

Context {val : Type} `{EqDecision val} (csp : CSP val).
Hypothesis Hwf : well_formed csp.

Lemma first_unassigned_variable_selects :
  selects_unassigned csp first_unassigned_variable.
Proof.
  intros a w _ (v & Hv & Hnone). unfold first_unassigned_variable.
  destruct (filter (fun v => a !! v = None) (variables csp)) as [|v0 vs] eqn:Hf.
  - by destruct (filter_nil_not_elem_of _ _ v Hf Hnone).
  - exists v0, w. split; [done|].
    assert (v0 ∈ filter (fun v => a !! v = None) (variables csp)) as Hin
      by (rewrite Hf; left).
    apply list_elem_of_filter in Hin as [? ?]. done.
Qed.

Lemma num_legal_values_run var a w :
  store_ok csp w -> var ∈ variables csp ->
  exists k, num_legal_values csp var a w = Ret k w.
Proof.
  intros Hok Hvar. unfold num_legal_values, bind, gets.
  destruct (curr_domains w) as [d|] eqn:Hd.
  - destruct (proj1 (proj1 (Hok d Hd) var) Hvar) as [l Hl].
    rewrite (getitem_run _ _ _ _ Hl). by eexists.
  - destruct (wf_domains _ Hwf var Hvar) as [l Hl].
    rewrite (getitem_run _ _ _ _ Hl). by eexists.
Qed.

Lemma argmin_loop_run {A} (P : A -> Prop) (key : A -> M (World val) nat) w seq :
  forall best : option (list A * nat),
  (forall x, x ∈ seq -> P x /\ exists k, key x w = Ret k w) ->
  match best with Some (b, _) => b ≠ [] /\ forall x, x ∈ b -> P x | None => True end ->
  exists best',
    for_each seq
      (fun (best : option (list A * nat)) x =>
         let* k := key x in
         match best with
         | None => ret (Some ([x], k))
         | Some (b, best_key) =>
             if (k <? best_key)%nat then ret (Some ([x], k))
             else if (k =? best_key)%nat then ret (Some (b ++ [x], best_key))
             else ret best
         end) best w = Ret best' w /\
    match best' with
    | Some (b, _) => b ≠ [] /\ forall x, x ∈ b -> P x
    | None => best = None /\ seq = []
    end.
Proof.
  induction seq as [|x seq IH]; intros best Hseq Hbest; simpl.
  - exists best. split; [done|]. by destruct best as [[b k]|].
  - destruct (Hseq x) as [HPx [k Hk]]; [left|].
    match goal with
    | |- context [bind ?m _ w] =>
        assert (m w
                = Ret (match best with
                       | None => Some ([x], k)
                       | Some (b, best_key) =>
                           if (k <? best_key)%nat then Some ([x], k)
                           else if (k =? best_key)%nat then Some (b ++ [x], best_key)
                           else best
                       end) w) as Hstep
    end.
    { rewrite (bind_run _ _ _ _ _ Hk). destruct best as [[b best_key]|]; [|done].
      destruct (k <? best_key)%nat; [done|]. by destruct (k =? best_key)%nat. }
    rewrite (bind_run _ _ _ _ _ Hstep).
    edestruct IH as (best' & Hrun & Hbest'); [| |exists best'; split; [exact Hrun|]].
    + intros y Hy. apply Hseq. by right.
    + destruct best as [[b best_key]|].
      * destruct Hbest as [Hne Hb]. destruct (k <? best_key)%nat.
        -- split; [done|]. by intros y ->%list_elem_of_singleton.
        -- destruct (k =? best_key)%nat; [|done]. split; [by destruct b|].
           intros y [Hy| ->%list_elem_of_singleton]%elem_of_app; auto.
      * split; [done|]. by intros y ->%list_elem_of_singleton.
    + destruct best' as [[b' k']|]; [done|]. destruct Hbest' as [Hnone _].
      destruct best as [[b best_key]|]; [|done].
      destruct (k <? best_key)%nat; [done|]. by destruct (k =? best_key)%nat.
Qed.

Lemma mrv_selects : selects_unassigned csp mrv.
Proof.
  intros a w Hok (v & Hv & Hnone). unfold mrv, argmin_random_tie.
  destruct (argmin_loop_run (fun v => v ∈ variables csp /\ a !! v = None)
              (fun v => num_legal_values csp v a) w
              (filter (fun v => a !! v = None) (variables csp)) None)
    as (best & Hrun & Hbest); [|done|].
  { intros x [? ?]%list_elem_of_filter. split; [done|]. by apply num_legal_values_run. }
  rewrite (bind_run _ _ _ _ _ Hrun).
  destruct best as [[b k]|].
  - destruct Hbest as [Hne Hb]. destruct b as [|x b]; [done|]. simpl.
    eexists _, _. split; [reflexivity|].
    destruct (Hb (nth (draws (rand w) (pos (rand w)) mod length (x :: b)) (x :: b) x))
      as [? ?]; [|done].
    apply list_elem_of_In, nth_In. apply Nat.mod_upper_bound. done.
  - destruct Hbest as [_ Hnil].
    by destruct (filter_nil_not_elem_of _ _ v Hnil Hnone).
Qed.

Lemma unordered_domain_values_orders : orders_choices csp unordered_domain_values.
Proof. intros var a w l Hc. exists l. by split. Qed.

Lemma lcv_orders : orders_choices csp lcv.
Proof.
  intros var a w l Hc. eexists. unfold lcv. rewrite (bind_run _ _ _ _ _ Hc).
  split; [reflexivity|]. intros x. by rewrite sorted_by_perm.
Qed.

End Strategies.

Section MapColoring.

Context {val : Type} `{EqDecision val}.

Lemma od_to_map_lookup {V} (g : odict V) k : od_to_map g !! k = od_get g k.
Proof.
  unfold od_to_map. induction g as [|[k0 v] g IH]; simpl; [done|].
  rewrite lookup_insert. case_decide; [done|apply IH].
Qed.

Lemma od_get_Some {V} (g : odict V) k v : od_get g k = Some v -> (k, v) ∈ g.
Proof.
  induction g as [|[k0 v0] g IH]; simpl; [done|].
  case_decide; [intros [= <-]; subst; left|right; auto].
Qed.

Lemma od_get_keys {V} (g : odict V) k : k ∈ od_keys g -> is_Some (od_get g k).
Proof.
  unfold od_keys. induction g as [|[k0 v0] g IH]; csimpl; [by intros ?%elem_of_nil|].
  case_decide; [by eexists|]. intros [->|?]%elem_of_cons; [done|auto].
Qed.

Lemma domains_lookup (colors : list val) (vars : list string) v :
  (list_to_map ((fun v => (v, colors)) <$> vars) : gmap string (list val)) !! v
  = if decide (v ∈ vars) then Some colors else None.
Proof.
  induction vars as [|v0 vars IH]; csimpl.
  - rewrite lookup_empty. by destruct (decide (v ∈ [])) as [?%elem_of_nil|].
  - rewrite lookup_insert. destruct (decide (v0 = v)) as [->|Hne].
    + by rewrite decide_True by left.
    + rewrite IH. repeat case_decide; try done; exfalso; set_solver.
Qed.

Lemma MapColoringCSP_well_formed (colors : list val) (neighbors : neighbors_arg) :
  simple_graph (neighbors_of neighbors) ->
  well_formed (MapColoringCSP colors neighbors).
Proof.
  intros [Hnd Hall]. rewrite Forall_forall in Hall. split; simpl.
  - exact Hnd.
  - intros v Hv. rewrite domains_lookup, decide_True by done. by eexists.
  - intros v n Hv. rewrite od_to_map_lookup.
    destruct (od_get _ v) as [l|] eqn:Hl; simpl; [|by intros ?%elem_of_nil].
    intros Hn. apply od_get_Some in Hl. destruct (Hall _ Hl) as [_ Hkeys].
    simpl in Hkeys. rewrite Forall_forall in Hkeys. by apply Hkeys.
  - intros v Hv. rewrite od_to_map_lookup.
    destruct (od_get _ v) as [l|] eqn:Hl; simpl; [|apply not_elem_of_nil].
    apply od_get_Some in Hl. by destruct (Hall _ Hl) as [? _].
Qed.

(** C2, as the code has it. For a map-coloring problem over a simple graph
    (no region among its own neighbours, every neighbour a region) that has
    no proper coloring with the given colors, searched with
    [first_unassigned_variable] or [mrv], [unordered_domain_values] or [lcv],
    and [forward_checking], with no trace or no [max_steps], and a recursion
    budget above the number of regions: [backtracking_search] returns
    [None]. *)
Theorem uncolorable_returns_None
    (colors : list val) (neighbors : neighbors_arg)
    (select_unassigned_variable : gmap string val -> CSP val -> M (World val) string)
    (order_domain_values : string -> gmap string val -> CSP val -> M (World val) (list val))
    (trace : option (list (trace_event val))) (max_steps : option nat)
    (fuel : nat) (rnd : RandomSrc) :
  simple_graph (neighbors_of neighbors) ->
  select_unassigned_variable = first_unassigned_variable \/
    select_unassigned_variable = mrv ->
  order_domain_values = unordered_domain_values \/ order_domain_values = lcv ->
  trace = None \/ max_steps = None ->
  length (neighbors_of neighbors) < fuel ->
  ~ (exists c, solution (MapColoringCSP colors neighbors) c) ->
  exists s,
    backtracking_search (MapColoringCSP colors neighbors)
      select_unassigned_variable order_domain_values forward_checking
      trace max_steps fuel (fresh_world rnd) = Ret None s.
Proof.
  intros Hgraph Hsel Hord Hcap Hfuel Hnone.
  pose proof (MapColoringCSP_well_formed colors neighbors Hgraph) as Hwf.
  destruct (search_sound_total (MapColoringCSP colors neighbors) Hwf max_steps
              select_unassigned_variable order_domain_values) with
    (tr := trace) (fuel := fuel) (rnd := rnd) as (r & s & Hrun & Hr).
  - destruct Hsel as [-> | ->];
      [apply first_unassigned_variable_selects|by apply mrv_selects].
  - destruct Hord as [-> | ->]; [apply unordered_domain_values_orders|apply lcv_orders].
  - exact Hcap.
  - simpl. unfold od_keys. by rewrite length_fmap.
  - destruct r as [c|]; [|by exists s]. destruct Hnone. by exists c.
Qed.

End MapColoring.

(** * Concrete runs *)

Example parse_neighbors_doc :
  parse_neighbors "X: Y Z; Y: Z"
  = [("X", ["Y"; "Z"]); ("Y", ["X"; "Z"]); ("Z", ["X"; "Y"])].
Proof. vm_compute. reflexivity. Qed.

Example lcv_star3 :
  exists w, lcv "A" (<["B" := "R"]> (<["C" := "R"]> ∅)) star3 (fresh_world rand0)
            = Ret ["G"; "B"; "R"] w.
Proof. eexists. vm_compute. reflexivity. Qed.

Example cycle4_solved :
  exists a s,
    backtracking_search cycle4 mrv lcv forward_checking (Some []) None 10
      (fresh_world rand0) = Ret (Some a) s /\
    a = list_to_map [("A", "R"); ("B", "G"); ("C", "R"); ("D", "G")] /\
    (ev_event <$> default [] (trace s))
    = [TRY; ASSIGN; TRY; ASSIGN; TRY; ASSIGN; TRY; ASSIGN; GOAL].
Proof.
  eexists _, _. split; [vm_compute; reflexivity|].
  split; vm_compute; reflexivity.
Qed.

(** ** The theorems at concrete inputs *)

(** [lcv_sorted_stable] for the centre of [star3] when both leaves are red:
    G and B (no conflict) come first, in their order, and R (two conflicts)
    last. *)
Lemma lcv_sorted_stable_witness :
  exists l,
    lcv "A" (<["B" := "R"]> (<["C" := "R"]> ∅)) star3 (fresh_world rand0)
    = Ret l (fresh_world rand0) /\
    (fresh_world rand0 : World string) = fresh_world rand0 /\
    l ≡ₚ ["R"; "G"; "B"] /\
    StronglySorted
      (fun x y => nconflicts star3 "A" x (<["B" := "R"]> (<["C" := "R"]> ∅))
                  <= nconflicts star3 "A" y (<["B" := "R"]> (<["C" := "R"]> ∅))) l /\
    forall n,
      filter (fun x => nconflicts star3 "A" x (<["B" := "R"]> (<["C" := "R"]> ∅)) = n) l
      = filter (fun x => nconflicts star3 "A" x (<["B" := "R"]> (<["C" := "R"]> ∅)) = n)
               ["R"; "G"; "B"].
Proof.
  apply (lcv_sorted_stable star3 "A" (<["B" := "R"]> (<["C" := "R"]> ∅))
           (fresh_world rand0) (fresh_world rand0) ["R"; "G"; "B"]).
  vm_compute. reflexivity.
Defined.

(** [parse_neighbors_graph] for a text with one entry that lacks the colon,
    in the middle and in front. *)
Lemma parse_neighbors_graph_witness :
  (adjacent (parse_neighbors "X: Y Z;oops;Y: Z") "Z" "X" <->
   adjacent (parse_neighbors "X: Y Z;oops;Y: Z") "X" "Z") /\
  parse_neighbors "X: Y Z;oops;Y: Z" = parse_neighbors "X: Y Z;Y: Z" /\
  adjacent (parse_neighbors "oops; X: Y") "Y" "X" /\
  parse_neighbors "oops; X: Y" = parse_neighbors " X: Y".
Proof.
  destruct (parse_neighbors_graph "X: Y Z;oops;Y: Z") as (Hsym & _ & _ & Hskip & _).
  destruct (parse_neighbors_graph "oops; X: Y") as (_ & _ & _ & _ & Hedges & _ & Hrest).
  split; [apply Hsym|]. split; [apply (Hskip "X: Y Z" "oops" "Y: Z"); reflexivity|].
  split; [|exact Hrest].
  apply Hedges. exists " X: Y". split; [vm_compute; set_solver|].
  exists "X", " Y", "Y". split; [vm_compute; reflexivity|].
  split; [vm_compute; set_solver|]. right. split; [reflexivity|vm_compute; reflexivity].
Defined.

(** [forward_checking_prunes] on [star3] after [A = R] was committed. *)
Lemma forward_checking_prunes_witness :
  exists ok removals' w',
    forward_checking star3 "A" "R" (<["A" := "R"]> ∅) [] (fresh_world rand0)
    = Ret (ok, removals') w' /\
    ok = true /\
    removals' = [("B", "R"); ("C", "R")] /\
    exists w0 d0 d',
      support_pruning star3 (fresh_world rand0) = Ret tt w0 /\
      curr_domains w0 = Some d0 /\
      w' = set_curr_domains (Some d') w0 /\
      (ok = false <->
       exists B, B ∈ unassigned_neighbors star3 "A" (<["A" := "R"]> ∅) /\
                 fc_emptied star3 "A" "R" d0 B) /\
      (forall B,
         d' !! B =
           if decide (B ∈ upto_first (fc_emptied star3 "A" "R" d0)
                            (unassigned_neighbors star3 "A" (<["A" := "R"]> ∅)))
           then fc_keep star3 "A" "R" B <$> d0 !! B else d0 !! B) /\
      (forall B, is_Some ((<["A" := "R"]> ∅ : gmap string string) !! B) ->
                 d' !! B = d0 !! B) /\
      removals' =
        [] ++
        flat_map (fc_logged star3 "A" "R" d0)
          (first_occurrences
             (upto_first (fc_emptied star3 "A" "R" d0)
                (unassigned_neighbors star3 "A" (<["A" := "R"]> ∅)))).
Proof.
  eexists _, _, _. split; [vm_compute; reflexivity|].
  split; [reflexivity|]. split; [reflexivity|].
  eapply (forward_checking_prunes star3 "A" "R" (<["A" := "R"]> ∅) []
            (fresh_world rand0)).
  vm_compute. reflexivity.
Defined.

(** On [star3]: [suppose A G] and then [restore] of its log leave the
    domain of A as G, R, B, which is not a subsequence of R, G, B, although
    the domains were subsequences before. *)
Lemma restore_reorders_domain :
  exists removals w1 w2 d2,
    domains_subsequence star3 star3_world /\
    suppose star3 "A" "G" star3_world = Ret removals w1 /\
    restore removals w1 = Ret tt w2 /\
    curr_domains w2 = Some d2 /\
    domains star3 !! "A" = Some ["R"; "G"; "B"] /\
    d2 !! "A" = Some ["G"; "R"; "B"] /\
    ~ domains_subsequence star3 w2.
Proof.
  eexists _, _, _, _. split_and!; try (vm_compute; reflexivity).
  - intros d v l Hd Hl.
    assert (support_pruning star3 (fresh_world rand0) = Ret tt star3_world) as Hsp
      by (vm_compute; reflexivity).
    apply support_pruning_inv in Hsp as (d' & Hw & Hd'). simpl in Hw.
    rewrite Hw in Hd. simpl in Hd. simplify_eq.
    rewrite Hd' in Hl. case_decide; [|done]. exists l. by split.
  - intros Hsub.
    destruct (Hsub _ "A" ["G"; "R"; "B"] eq_refl) as (l0 & Hl0 & Hs);
      [vm_compute; reflexivity|].
    vm_compute in Hl0. injection Hl0 as <-.
    apply sublist_length in Hs as Hlen.
    apply sublist_cons_r in Hs as [Hs|(l' & [=] & _)].
    apply sublist_length in Hs. simpl in Hs. lia.
Defined.

(** [working_domains_within] on [star3]: after [suppose A G] and [restore],
    the domains are still within the original ones. *)
Lemma working_domains_within_witness :
  domains_within star3 star3_world [] /\
  suppose star3 "A" "G" star3_world = Ret star3_supposed.1 star3_supposed.2 /\
  restore star3_supposed.1 star3_supposed.2 = Ret tt star3_restored /\
  domains_within star3 star3_restored [].
Proof.
  destruct (working_domains_within star3) as (Hsp & Hsuppose & _ & Hrestore & _).
  assert (domains_within star3 star3_world []) as Hstart.
  { apply (Hsp (fresh_world rand0) star3_world []);
      [done|by intros d v l ?|vm_compute; reflexivity]. }
  split; [exact Hstart|].
  split; [vm_compute; reflexivity|]. split; [vm_compute; reflexivity|].
  apply (Hrestore star3_supposed.2 star3_restored [] star3_supposed.1);
    [|vm_compute; reflexivity].
  apply (Hsuppose "A" "G" star3_world star3_supposed.2 [] star3_supposed.1
           ["R"; "G"; "B"]);
    [vm_compute; reflexivity| |by intros [=]|exact Hstart|vm_compute; reflexivity].
  apply elem_of_cons. right. left.
Defined.

(** On [star3]: [suppose A Y] with a value Y that the domain of A does not
    hold, then [restore] of its log, leaves Y in the domain of A. *)
Lemma suppose_foreign_value_stays :
  exists d removals w1 w2 d2 l l2,
    curr_domains star3_world = Some d /\
    prune_all star3 [OpSuppose "A" "Y"] [] star3_world = Ret removals w1 /\
    restore removals w1 = Ret tt w2 /\
    curr_domains w2 = Some d2 /\
    d !! "A" = Some l /\ d2 !! "A" = Some l2 /\
    ~ (forall x, x ∈ l2 <-> x ∈ l).
Proof.
  eexists _, _, _, _, _, _, _. split_and!; try (vm_compute; reflexivity).
  intros Hiff. specialize (Hiff "Y").
  assert ("Y" ∈ ["R"; "G"; "B"]) as Hin by (apply Hiff; left).
  set_solver.
Defined.

(** [prune_restore_roundtrip] on [star3]: [suppose A G], then [prune B R],
    then [restore]. *)
Lemma prune_restore_roundtrip_witness :
  exists w2 d2,
    restore star3_pruned.1 star3_pruned.2 = Ret tt w2 /\
    curr_domains w2 = Some d2 /\
    forall v,
      match star3_domains !! v with
      | Some l => exists l2, d2 !! v = Some l2 /\ forall x, x ∈ l2 <-> x ∈ l
      | None => d2 !! v = None
      end.
Proof.
  apply (prune_restore_roundtrip star3 [OpSuppose "A" "G"; OpPrune "B" "R"]
           star3_world star3_domains star3_pruned.1 star3_pruned.2).
  - vm_compute. reflexivity.
  - simpl. split.
    + exists ["R"; "G"; "B"]. split; [vm_compute; reflexivity|]. right. left.
    + intros removals r w' Hrun. split; [done|]. done.
  - vm_compute. reflexivity.
Defined.

(** The two colors cannot color the odd cycle, and the one color cannot
    color the loop. *)
Lemma cycle5_uncolorable : ~ (exists c, solution cycle5 c).
Proof.
  intros (c & Hall & Hcons).
  assert (variables cycle5 = ["A"; "B"; "E"; "C"; "D"]) as Hvars
    by (vm_compute; reflexivity).
  assert (forall v, v ∈ variables cycle5 -> exists x, c !! v = Some x /\ (x = "R" \/ x = "G"))
    as Hcol.
  { intros v Hv. destruct (Hall v Hv) as (x & l & Hx & Hl & Hin).
    exists x. split; [done|].
    change (domains cycle5)
      with (list_to_map ((fun v => (v, ["R"; "G"])) <$> variables cycle5)
            : gmap string (list string)) in Hl.
    rewrite domains_lookup, decide_True in Hl by done.
    injection Hl as <-. set_solver. }
  assert (forall v n x y, v ∈ variables cycle5 ->
            n ∈ default [] (neighbors cycle5 !! v) ->
            c !! v = Some x -> c !! n = Some y -> x ≠ y) as Hdiff.
  { intros v n x y Hv Hn Hx Hy. specialize (Hcons v n x y Hv Hn Hx Hy).
    simpl in Hcons. unfold different_values_constraint in Hcons.
    by apply bool_decide_eq_true in Hcons. }
  rewrite Hvars in Hcol, Hdiff.
  destruct (Hcol "A") as (xA & HA & HcA); [set_solver|].
  destruct (Hcol "B") as (xB & HB & HcB); [set_solver|].
  destruct (Hcol "C") as (xC & HC & HcC); [set_solver|].
  destruct (Hcol "D") as (xD & HD & HcD); [set_solver|].
  destruct (Hcol "E") as (xE & HE & HcE); [set_solver|].
  assert (xA ≠ xB) as Hab.
  { apply (Hdiff "A" "B"); [set_solver| |done|done]. vm_compute. set_solver. }
  assert (xB ≠ xC) as Hbc.
  { apply (Hdiff "B" "C"); [set_solver| |done|done]. vm_compute. set_solver. }
  assert (xC ≠ xD) as Hcd.
  { apply (Hdiff "C" "D"); [set_solver| |done|done]. vm_compute. set_solver. }
  assert (xD ≠ xE) as Hde.
  { apply (Hdiff "D" "E"); [set_solver| |done|done]. vm_compute. set_solver. }
  assert (xE ≠ xA) as Hea.
  { apply (Hdiff "E" "A"); [set_solver| |done|done]. vm_compute. set_solver. }
  destruct HcA, HcB, HcC, HcD, HcE; congruence.
Qed.

Lemma loop1_uncolorable : ~ (exists c, solution loop1 c).
Proof.
  intros (c & Hall & Hcons).
  assert ("A" ∈ variables loop1) as HA by (vm_compute; set_solver).
  destruct (Hall "A" HA) as (x & l & Hx & _ & _).
  assert (constraints loop1 "A" x "A" x = true) as Hc.
  { apply Hcons; [done| |done|done]. vm_compute. set_solver. }
  simpl in Hc. unfold different_values_constraint in Hc.
  by apply bool_decide_eq_true in Hc.
Qed.

(** The search on the loop ends with [AssertionError], and the search on
    the odd cycle with a trace capped at three events ends with
    [RuntimeError]: neither returns [None], although neither problem has a
    coloring. *)
Lemma uncolorable_without_None :
  ~ (exists c, solution loop1 c) /\
  (exists s, backtracking_search loop1 mrv lcv forward_checking None None 5
               (fresh_world rand0) = Exc AssertionError s) /\
  ~ (exists c, solution cycle5 c) /\
  (exists s, backtracking_search cycle5 mrv lcv forward_checking (Some []) (Some 3) 10
               (fresh_world rand0) = Exc RuntimeError s).
Proof.
  split; [exact loop1_uncolorable|]. split; [eexists; vm_compute; reflexivity|].
  split; [exact cycle5_uncolorable|]. eexists; vm_compute; reflexivity.
Defined.

(** [uncolorable_returns_None] on the odd cycle with two colors. *)
Lemma uncolorable_returns_None_witness :
  exists s,
    backtracking_search cycle5 mrv lcv forward_checking None None 6 (fresh_world rand0)
    = Ret None s.
Proof.
  apply (uncolorable_returns_None ["R"; "G"]
           (NeighborsText "A: B E; B: C; C: D; D: E") mrv lcv None None 6 rand0).
  - apply (bool_decide_unpack (simple_graph _)). vm_compute. exact Logic.I.
  - by right.
  - by right.
  - by left.
  - vm_compute. lia.
  - exact cycle5_uncolorable.
Defined.

(** [backtracking_search_validated] on [cycle4], whose solution is returned,
    and on [loop1], whose candidate is refused. *)
Lemma backtracking_search_validated_witness :
  (size cycle4_outcome.1 = length (variables cycle4) /\
   (forall v, v ∈ variables cycle4 -> is_Some (cycle4_outcome.1 !! v)) /\
   (forall v n x y,
      v ∈ variables cycle4 -> n ∈ default [] (neighbors cycle4 !! v) ->
      cycle4_outcome.1 !! v = Some x -> cycle4_outcome.1 !! n = Some y ->
      constraints cycle4 v x n y = true /\
      (constraints cycle4 = different_values_constraint -> x ≠ y))) /\
  backtracking_search loop1 mrv lcv forward_checking None None 5 (fresh_world rand0)
  = Exc AssertionError loop1_candidate.2.
Proof.
  split.
  - apply (proj1 (backtracking_search_validated cycle4 mrv lcv forward_checking
                    (Some []) None 10 (fresh_world rand0))
             cycle4_outcome.1 cycle4_outcome.2).
    vm_compute. reflexivity.
  - apply (proj2 (backtracking_search_validated loop1 mrv lcv forward_checking
                    None None 5 (fresh_world rand0))
             loop1_candidate.1 loop1_candidate.2).
    + vm_compute. reflexivity.
    + vm_compute. reflexivity.
Defined.

(** [trace_steps_and_cap] on [cycle5] with a cap of three events. *)
Lemma trace_steps_and_cap_witness :
  post (fun _ s => traced [] s (step s) /\ within_cap (Some 3) (step s))
       (fun e s => (e ≠ RuntimeError /\ traced [] s (step s) /\
                    within_cap (Some 3) (step s))
                   \/ (e = RuntimeError /\ overflowed [] (Some 3) s))
       (backtracking_search cycle5 mrv lcv forward_checking (Some []) (Some 3) 10
          (fresh_world rand0)).
Proof.
  apply (proj1 trace_steps_and_cap string _ cycle5 mrv lcv forward_checking
           [] (Some 3) 10 (fresh_world rand0)).
  - intros a. by apply raises_only_mrv.
  - intros var a. by apply raises_only_lcv.
  - intros var value a removals. by apply raises_only_forward_checking.
Defined.

(** [deterministic_search] on [cycle5] with forward checking, for two
    different random generators. *)
Lemma deterministic_search_witness :
  outcome_rel same_search
    (backtracking_search cycle5 first_unassigned_variable lcv forward_checking
       (Some []) None 10 (fresh_world rand0))
    (backtracking_search cycle5 first_unassigned_variable lcv forward_checking
       (Some []) None 10 (fresh_world rand1)).
Proof.
  apply (deterministic_search cycle5 forward_checking (Some []) None 10
           (fresh_world rand0) (fresh_world rand1)).
  - intros var value a removals. apply deterministic_forward_checking.
  - split; reflexivity.
Defined.

(** [untraced_search_unbounded] on [cycle5] with [max_steps = 0]. *)
Lemma untraced_search_unbounded_witness :
  (forall ev var (v : option string) s,
     trace s = None -> log (Some 0) ev var v s = Ret tt s) /\
  backtracking_search cycle5 mrv lcv forward_checking None (Some 0) 10 (fresh_world rand0)
  = backtracking_search cycle5 mrv lcv forward_checking None None 10 (fresh_world rand0) /\
  post (fun _ s => step s = 0 /\ trace s = None)
       (fun e s => step s = 0 /\ trace s = None /\ e ≠ RuntimeError)
       (backtracking_search cycle5 mrv lcv forward_checking None (Some 0) 10
          (fresh_world rand0)).
Proof.
  apply (untraced_search_unbounded cycle5 mrv lcv forward_checking (Some 0) 10
           (fresh_world rand0)).
  - intros a. by apply raises_only_mrv.
  - intros var a. by apply raises_only_lcv.
  - intros var value a removals. by apply raises_only_forward_checking.
Defined.

(** * Further properties of the code *)

(** ** Completeness of the search with forward checking *)

Section Completeness.

Context {val : Type} `{EqDecision val} (csp : CSP val).
Hypothesis Hwf : well_formed csp.
Variable max_steps : option nat.

Lemma log_cases ev var (v : option val) w a n t :
  (exists n' t',
     log max_steps ev var v {| world := w; assignment := a; step := n; trace := t |}
     = Ret tt {| world := w; assignment := a; step := n'; trace := t' |}) \/
  (exists s',
     log max_steps ev var v {| world := w; assignment := a; step := n; trace := t |}
     = Exc RuntimeError s').
Proof.
  unfold log, bind, get, put, modify. simpl. destruct t as [t|]; simpl.
  - destruct max_steps as [m|]; [destruct (m <? S n)%nat|]; simpl; eauto.
  - left. by eexists _, _.
Qed.

Lemma extends_same_domains a w w' c :
  same_domains csp w w' -> extends csp a w c -> extends csp a w' c.
Proof.
  intros [_ Hsame] (Hsol & Hagree & Hin). split_and!; [done|done|].
  intros v Hv. destruct (Hin v Hv) as (x & l & Hx & Hl & Hxl).
  destruct (Hsame v l Hv Hl) as (l' & Hl' & Hiff). exists x, l'.
  split_and!; [done|done|]. by apply Hiff.
Qed.

Lemma extends_curr a w w' c :
  curr_domains w' = curr_domains w -> extends csp a w c -> extends csp a w' c.
Proof.
  intros Hcurr (Hsol & Hagree & Hin). split_and!; [done|done|].
  intros v Hv. destruct (Hin v Hv) as (x & l & Hx & Hl & Hxl). exists x, l.
  by rewrite (working_domain_curr csp w w' v Hcurr).
Qed.

Lemma search_outcome_mono (P Q : gmap string val -> Prop) w1 w2 a o :
  same_domains csp w1 w2 ->
  (forall c, extends csp a w1 c -> Q c -> extends csp a w2 c -> P c) ->
  search_outcome csp P w2 a o -> search_outcome csp Q w1 a o.
Proof.
  intros Hsame HPQ. destruct o as [[c|] s'|e s'|]; simpl; [done| |done|done].
  intros (Ha & Hok' & Hsame' & Hnone). split_and!; [done|done| |].
  - by eapply same_domains_trans.
  - intros c Hc HQ. apply (Hnone c); [by eapply extends_same_domains|].
    apply HPQ; [done|done|by eapply extends_same_domains].
Qed.

Lemma conflict_excludes var value a w c :
  var ∈ variables csp ->
  nconflicts csp var value a ≠ 0 ->
  extends csp a w c -> c !! var = Some value -> False.
Proof.
  intros Hvar Hconf ([_ Hcons] & Hagree & _) Hc. apply Hconf, nconflicts_zero.
  intros n y Hn Hy. eapply Hcons; [done|done|done|]. by apply Hagree.
Qed.

(** Forward checking after [var = value] keeps every solution that agrees
    with the assignment and takes [value] at [var]. *)
Lemma fc_keeps_extensions a w d0 var value removals1 ok removals2 w2 c :
  var ∈ variables csp -> a !! var = None ->
  support_pruning csp w = Ret tt (set_curr_domains (Some d0) w) ->
  fc_neighbors csp var value (<[var := value]> a) (default [] (neighbors csp !! var))
    removals1 (set_curr_domains (Some (<[var := [value]]> d0)) w)
  = Ret (ok, removals2) w2 ->
  extends csp a w c -> c !! var = Some value ->
  ok = true /\ extends csp (<[var := value]> a) w2 c.
Proof.
  intros Hvar Hnone Hsp Hfc (Hsol & Hagree & Hin) Hcv.
  destruct (fc_neighbors_spec csp var value _ _ _
              (set_curr_domains (Some (<[var := [value]]> d0)) w)
              (<[var := [value]]> d0) _ _ _ eq_refl Hfc) as (d' & -> & Hok & Hd' & _).
  pose proof Hsol as [_ Hcons].
  assert (forall B x, B ∈ default [] (neighbors csp !! var) -> c !! B = Some x ->
                      constraints csp var value B x = true) as Hvalue.
  { intros B x HB Hx. by eapply Hcons. }
  assert (forall B, B ≠ var -> B ∈ variables csp ->
            exists x l, c !! B = Some x /\ (<[var := [value]]> d0) !! B = Some l /\ x ∈ l)
    as Hd1.
  { intros B Hne HB. destruct (Hin B HB) as (x & l & Hx & Hl & Hxl). exists x, l.
    rewrite lookup_insert_ne by done.
    by rewrite (support_pruning_lookup csp w d0 B Hsp HB). }
  split.
  - destruct ok; [done|]. exfalso.
    destruct (proj1 Hok eq_refl) as (B & [HBnone HB]%list_elem_of_filter & Hempty).
    assert (B ≠ var) as Hne by (intros ->; by rewrite lookup_insert_eq in HBnone).
    destruct (Hd1 B Hne) as (x & l & Hx & Hl & Hxl); [by eapply (wf_closed _ Hwf)|].
    unfold fc_emptied, fc_keep in Hempty. rewrite Hl in Hempty. simpl in Hempty.
    assert (x ∈ filter (fun b => constraints csp var value B b = true) l) as Hf.
    { apply list_elem_of_filter. split; [by apply Hvalue|done]. }
    rewrite Hempty in Hf. by apply elem_of_nil in Hf.
  - split_and!; [done| |].
    + intros v x. destruct (decide (v = var)) as [->|Hne].
      * rewrite lookup_insert_eq. congruence.
      * rewrite lookup_insert_ne by done. apply Hagree.
    + intros v Hv. unfold working_domain. simpl. rewrite Hd'.
      destruct (decide (v = var)) as [->|Hne].
      * exists value, [value]. split; [done|]. rewrite decide_False.
        -- rewrite lookup_insert_eq. split; [done|]. apply list_elem_of_singleton. done.
        -- intros [Hn _]%elem_of_upto_first%list_elem_of_filter.
           by rewrite lookup_insert_eq in Hn.
      * destruct (Hd1 v Hne Hv) as (x & l & Hx & Hl & Hxl). rewrite Hl.
        case_decide as Hup.
        -- exists x, (fc_keep csp var value v l). split_and!; [done|done|].
           apply list_elem_of_filter. split; [|done]. apply Hvalue; [|done].
           by apply elem_of_upto_first, list_elem_of_filter in Hup as [_ ?].
        -- by exists x, l.
Qed.

(** The loop over the values of [var], when the recursive call is known to
    behave. *)
Lemma try_values_strong recurse var a :
  var ∈ variables csp -> a !! var = None ->
  (forall a' w' n' t',
     size a' = S (size a) -> search_inv csp a' w' ->
     search_outcome csp (fun _ => True) w' a'
       (recurse {| world := w'; assignment := a'; step := n'; trace := t' |})) ->
  forall values w n t,
    search_inv csp a w ->
    (forall x, x ∈ values -> exists l, working_domain csp w var = Some l /\ x ∈ l) ->
    search_outcome csp (fun c => exists x, c !! var = Some x /\ x ∈ values) w a
      (try_values csp forward_checking max_steps recurse var values
         {| world := w; assignment := a; step := n; trace := t |}).
Proof.
  intros Hvar Hnone Hrec values.
  induction values as [|value rest IH]; intros w n t Hinv Hvals.
  { simpl. split_and!; [done|apply Hinv|apply same_domains_refl|].
    intros c _ (x & _ & Hx). by apply elem_of_nil in Hx. }
  simpl.
  destruct (log_cases TRY (Some var) (Some value) w a n t)
    as [(n1 & t1 & Hlog1)|(s' & Hexc)];
    [|by rewrite (bind_run_Exc _ _ _ _ _ Hexc)].
  rewrite (bind_run _ _ _ _ _ Hlog1).
  rewrite (bind_run _ _ _ a {| world := w; assignment := a; step := n1; trace := t1 |})
    by done.
  case_decide as Hconf.
  { destruct (log_cases CONFLICT (Some var) (Some value) w a n1 t1)
      as [(n2 & t2 & Hlog2)|(s' & Hexc)];
      [|by rewrite (bind_run_Exc _ _ _ _ _ Hexc)].
    rewrite (bind_run _ _ _ _ _ Hlog2).
    eapply (search_outcome_mono _ _ w w); [apply same_domains_refl| |apply IH].
    - intros c Hc (x & Hx & [->|Hin]%elem_of_cons) _; [|by eauto].
      destruct (conflict_excludes var value a w c); done.
    - done.
    - intros x Hx. apply Hvals. by right. }
  assert (nconflicts csp var value a = 0) as Hzero
    by (destruct (decide (nconflicts csp var value a = 0)); done).
  set (w_a := {| curr_domains := curr_domains w; nassigns := S (nassigns w);
                 rand := rand w |}).
  set (a' := <[var := value]> a).
  rewrite (bind_run _ _ _ a' {| world := w_a; assignment := a; step := n1; trace := t1 |})
    by (by apply in_world_run).
  rewrite (bind_run _ _ _ tt {| world := w_a; assignment := a'; step := n1; trace := t1 |})
    by done.
  destruct (log_cases ASSIGN (Some var) (Some value) w_a a' n1 t1)
    as [(n2 & t2 & Hlog2)|(s' & Hexc)];
    [|by rewrite (bind_run_Exc _ _ _ _ _ Hexc)].
  rewrite (bind_run _ _ _ _ _ Hlog2).
  destruct (Hvals value) as (l & Hl & Hvalue); [left|].
  assert (search_inv csp a w_a) as Hinv_a by by eapply search_inv_curr.
  pose proof Hinv_a as (Hasg & Hok_a & Hpr_a).
  destruct (suppose_run csp Hwf var value w_a Hok_a Hvar)
    as (d0 & l' & Hsp & Hl' & Hd0l & Hsuppose).
  assert (l' = l) as -> by (unfold working_domain in *; simpl in *; congruence).
  rewrite (bind_run _ _ _ _ _ (in_world_run _ _ a' n2 t2 _ _ Hsuppose)).
  set (removals1 := (fun v => (var, v)) <$> filter (fun v => v ≠ value) l) in *.
  set (d1 := <[var := [value]]> d0) in *.
  set (w1 := set_curr_domains (Some d1) w_a) in *.
  pose proof (support_pruning_store_ok csp Hwf _ _ Hsp Hok_a d0 eq_refl) as [Hkeys0 Hsub0].
  destruct (fc_neighbors_run csp var value a' (default [] (neighbors csp !! var))
              removals1 w1 d1 eq_refl) as (ok & removals2 & w2 & Hfc).
  { intros B HB _. unfold d1. destruct (decide (var = B)) as [->|Hne].
    - rewrite lookup_insert_eq. by eexists.
    - rewrite lookup_insert_ne by done. apply Hkeys0. by eapply (wf_closed _ Hwf). }
  pose proof Hfc as Hfc'.
  rewrite <-(forward_checking_initialized csp var value a' removals1 w1 d1 eq_refl) in Hfc'.
  rewrite (bind_run _ _ _ _ _ (in_world_run _ _ a' n2 t2 _ _ Hfc')).
  assert (roundtrip_inv d0 w1 removals1) as Hrt1.
  { apply (roundtrip_inv_update d0 (set_curr_domains (Some d0) w_a) [] d0 var l
             [value] (filter (fun v => v ≠ value) l)); [|done|done|].
    - by apply roundtrip_inv_start.
    - intros x. rewrite elem_of_app, list_elem_of_singleton, list_elem_of_filter.
      destruct (decide (x = value)); naive_solver. }
  pose proof (fc_neighbors_roundtrip _ _ _ _ _ _ _ _ _ _ _ Hrt1 Hfc) as Hrt2.
  pose proof (roundtrip_store_ok _ _ _ _ Hkeys0 Hsub0 Hrt2) as Hok2.
  assert (forall c, extends csp a w c -> c !! var = Some value ->
                    ok = true /\ extends csp a' w2 c) as Hkeep.
  { intros c Hc Hcv.
    apply (fc_keeps_extensions a w_a d0 var value removals1 ok removals2 w2 c);
      [done|done|done|done| |done].
    by apply (extends_curr a w w_a). }
  assert (forall w3 n3 t3,
            store_ok csp w3 -> same_domains csp w2 w3 ->
            (forall c, extends csp a w c -> c !! var = Some value -> False) ->
            search_outcome csp (fun c => exists x, c !! var = Some x /\ x ∈ value :: rest)
              w a
              ((in_world (restore removals2) >>
                modify (fun s => set_assignment (unassign var (assignment s)) s) >>
                log max_steps BACKTRACK (Some var) (Some value) >>
                try_values csp forward_checking max_steps recurse var rest)
                 {| world := w3; assignment := a'; step := n3; trace := t3 |})) as Hundo.
  { intros w3 n3 t3 Hok3 Hsame3 Hnot.
    pose proof (roundtrip_inv_transfer _ _ _ _ _ Hkeys0 Hrt2 Hok3 Hsame3) as Hrt3.
    destruct (restore_undoes csp Hwf w_a d0 w3 removals2 Hok_a Hsp Hrt3)
      as (w4 & Hrestore & Hok4 & Hsame4).
    rewrite (bind_run _ _ _ _ _ (in_world_run _ _ a' n3 t3 _ _ Hrestore)).
    rewrite (bind_run _ _ _ tt {| world := w4; assignment := a; step := n3; trace := t3 |}).
    2:{ unfold modify. simpl. unfold set_assignment. simpl. unfold a'.
        by rewrite (unassign_insert var value a Hnone). }
    destruct (log_cases BACKTRACK (Some var) (Some value) w4 a n3 t3)
      as [(n4 & t4 & Hlog4)|(s' & Hexc)];
      [|by rewrite (bind_run_Exc _ _ _ _ _ Hexc)].
    rewrite (bind_run _ _ _ _ _ Hlog4).
    assert (same_domains csp w w4) as Hsame by by apply (same_domains_curr_l csp w w_a).
    eapply (search_outcome_mono _ _ w w4); [done| |apply IH].
    - intros c Hc (x & Hx & [->|Hin]%elem_of_cons) _; [by destruct (Hnot c)|by eauto].
    - by eapply search_inv_transfer.
    - intros x Hx. destruct (Hvals x) as (lx & Hlx & Hxl); [by right|].
      destruct Hsame as [_ Hsame].
      destruct (Hsame var lx Hvar Hlx) as (l4 & Hl4 & Hiff). exists l4.
      split; [done|]. by apply Hiff. }
  destruct ok.
  - assert (search_inv csp a' w2) as Hinv2.
    { split_and!; [by eapply asg_ok_extend|done|by eapply pruned_after_fc]. }
    pose proof (Hrec a' w2 n2 t2 (map_size_insert_None _ _ _ Hnone) Hinv2) as Hpost.
    destruct (recurse {| world := w2; assignment := a'; step := n2; trace := t2 |})
      as [[c|] s3|e s3|] eqn:Hrun; simpl in Hpost; [| | |done].
    + rewrite (bind_run _ _ _ _ _ Hrun). simpl.
      destruct Hpost as (Hsol & Hsize & Hagree). split_and!; [done|done|].
      intros v x Hv. apply Hagree. unfold a'. rewrite lookup_insert_ne; [done|].
      intros <-. congruence.
    + rewrite (bind_run _ _ _ _ _ Hrun).
      destruct s3 as [w3 a3 n3 t3]. simpl in *.
      destruct Hpost as (-> & Hok3 & Hsame3 & Hnoext). apply Hundo; [done|done|].
      intros c Hc Hcv. destruct (Hkeep c Hc Hcv) as [_ Hext]. by apply (Hnoext c).
    + by rewrite (bind_run_Exc _ _ _ _ _ Hrun).
  - destruct (log_cases INFER_FAIL (Some var) (Some value) w2 a' n2 t2)
      as [(n3 & t3 & Hlog3)|(s' & Hexc)];
      [|by rewrite (bind_run_Exc _ _ _ _ _ Hexc)].
    rewrite (bind_run _ _ _ _ _ Hlog3).
    apply Hundo; [done|apply same_domains_refl|].
    intros c Hc Hcv. by destruct (Hkeep c Hc Hcv).
Qed.

Variable select_unassigned_variable : gmap string val -> CSP val -> M (World val) string.
Variable order_domain_values :
  string -> gmap string val -> CSP val -> M (World val) (list val).
Hypothesis Hselect : selects_unassigned csp select_unassigned_variable.
Hypothesis Horder : covers_choices csp order_domain_values.

Lemma backtrack_strong fuel : forall w a n t,
  search_inv csp a w ->
  length (variables csp) < fuel + size a ->
  search_outcome csp (fun _ => True) w a
    (backtrack csp select_unassigned_variable order_domain_values forward_checking
       max_steps fuel {| world := w; assignment := a; step := n; trace := t |}).
Proof.
  induction fuel as [|fuel IH]; intros w a n t Hinv Hfuel.
  { pose proof (asg_ok_size csp Hwf a (proj1 Hinv)). simpl in Hfuel. lia. }
  simpl.
  rewrite (bind_run _ _ _ a {| world := w; assignment := a; step := n; trace := t |})
    by done.
  case_decide as Hsize.
  { destruct (log_cases GOAL None None w a n t) as [(n1 & t1 & Hlog)|(s' & Hexc)];
      [|by rewrite (bind_run_Exc _ _ _ _ _ Hexc)].
    rewrite (bind_run _ _ _ _ _ Hlog). simpl. split_and!; [|done|done].
    apply (asg_ok_solution csp Hwf); [apply Hinv|done]. }
  pose proof Hinv as (Hasg & Hok & Hpr).
  destruct (Hselect a w Hok (asg_ok_unassigned csp Hwf a Hasg Hsize))
    as (var & w' & Hsel & Hvar & Hnone & Hcurr).
  rewrite (bind_run _ _ _ _ _ (in_world_run _ _ a n t _ _ Hsel)).
  assert (search_inv csp a w') as Hinv' by by eapply search_inv_curr.
  destruct (choices_run csp Hwf w' var (proj1 (proj2 Hinv')) Hvar) as (l & Hl & Hchoices).
  destruct (Horder var a w' l Hchoices) as (values & Hvalues & Hiff).
  rewrite (bind_run _ _ _ _ _ (in_world_run _ _ a n t _ _ Hvalues)).
  eapply (search_outcome_mono _ _ w w');
    [|
     |apply (try_values_strong
               (backtrack csp select_unassigned_variable order_domain_values
                  forward_checking max_steps fuel) var a Hvar Hnone)].
  - split; [by rewrite Hcurr|]. intros v lv _ Hlv. exists lv.
    by rewrite (working_domain_curr csp w w' v Hcurr).
  - intros c _ _ (_ & _ & Hin). destruct (Hin var Hvar) as (x & lx & Hx & Hlx & Hxl).
    exists x. split; [done|]. apply Hiff. congruence.
  - intros a' w'' n' t' Hsize' Hinv''. apply IH; [done|lia].
  - done.
  - intros x Hx. exists l. split; [done|]. by apply Hiff.
Qed.

(** With forward checking and a well-formed problem the search returns a
    solution, or [None] when there is none, or stops at the trace cap. *)
Lemma search_classified (tr : option (list (trace_event val))) (fuel : nat)
    (rnd : RandomSrc) :
  length (variables csp) < fuel ->
  match backtracking_search csp select_unassigned_variable order_domain_values
          forward_checking tr max_steps fuel (fresh_world rnd) with
  | Ret (Some c) s => solution csp c
  | Ret None s =>
      (forall c, ~ solution csp c) /\ assignment s = ∅ /\
      store_ok csp (world s) /\ same_domains csp (fresh_world rnd) (world s)
  | Exc e s => e = RuntimeError
  | NoFuel => False
  end.
Proof.
  intros Hfuel. unfold backtracking_search, search_body.
  assert (search_inv csp ∅ (fresh_world rnd)) as Hinit.
  { split_and!.
    - split_and!; [by intros v [? ?]|by intros v x ?|by intros v n x y ?].
    - by intros d ?.
    - by intros A x B l ?. }
  assert (length (variables csp) < fuel + size (∅ : gmap string val)) as Hsz
    by by rewrite map_size_empty, Nat.add_0_r.
  pose proof (backtrack_strong fuel (fresh_world rnd) ∅ 0 tr Hinit Hsz) as Hpost.
  destruct (backtrack csp select_unassigned_variable order_domain_values forward_checking
              max_steps fuel
              {| world := fresh_world rnd; assignment := ∅; step := 0; trace := tr |})
    as [[c|] s'|e s'|] eqn:Hrun; simpl in Hpost; [| | |done].
  - rewrite (bind_run _ _ _ _ _ Hrun). destruct Hpost as (Hsol & Hsize & _).
    by rewrite (bind_run _ _ _ _ _ (is_goal_solution csp c s' Hsol Hsize)).
  - rewrite (bind_run _ _ _ _ _ Hrun). simpl.
    destruct Hpost as (Ha & Hok & Hsame & Hnone).
    split_and!; [|done|done|done].
    intros c Hsol. apply (Hnone c); [|done]. split_and!; [done|by intros v x ?|].
    intros v Hv. destruct Hsol as [Hall _].
    destruct (Hall v Hv) as (x & l & Hx & Hl & Hxl). by exists x, l.
  - by rewrite (bind_run_Exc _ _ _ _ _ Hrun).
Qed.

End Completeness.

Section BuiltinStrategies.

Context {val : Type} `{EqDecision val} (csp : CSP val).

Lemma unordered_domain_values_covers : covers_choices csp unordered_domain_values.
Proof. intros var a w l Hl. exists l. by split. Qed.

Lemma lcv_covers : covers_choices csp lcv.
Proof.
  intros var a w l Hl. eexists. unfold lcv. rewrite (bind_run _ _ _ _ _ Hl).
  split; [reflexivity|]. intros x. by rewrite sorted_by_perm.
Qed.

Lemma builtin_selects select_unassigned_variable :
  well_formed csp ->
  select_unassigned_variable = first_unassigned_variable \/
    select_unassigned_variable = mrv ->
  selects_unassigned csp select_unassigned_variable.
Proof.
  intros Hwf [->| ->]; [apply first_unassigned_variable_selects|by apply mrv_selects].
Qed.

Lemma builtin_covers order_domain_values :
  order_domain_values = unordered_domain_values \/ order_domain_values = lcv ->
  covers_choices csp order_domain_values.
Proof. intros [->| ->]; [apply unordered_domain_values_covers|apply lcv_covers]. Qed.

Lemma covers_orders order_domain_values :
  covers_choices csp order_domain_values -> orders_choices csp order_domain_values.
Proof.
  intros Hcov var a w l Hl. destruct (Hcov var a w l Hl) as (l' & Hrun & Hiff).
  exists l'. split; [done|]. intros x. apply Hiff.
Qed.

(** X1: for a well-formed problem that has a solution, the search with a
    built-in selector, a built-in value ordering and forward checking, when
    no trace cap can stop it, returns a solution: every variable gets a value
    of its domain and every constraint between neighbours holds. *)
Theorem search_finds_solution
    (select_unassigned_variable : gmap string val -> CSP val -> M (World val) string)
    (order_domain_values : string -> gmap string val -> CSP val -> M (World val) (list val))
    (trace : option (list (trace_event val))) (max_steps : option nat)
    (fuel : nat) (rnd : RandomSrc) :
  well_formed csp ->
  select_unassigned_variable = first_unassigned_variable \/
    select_unassigned_variable = mrv ->
  order_domain_values = unordered_domain_values \/ order_domain_values = lcv ->
  trace = None \/ max_steps = None ->
  length (variables csp) < fuel ->
  (exists c, solution csp c) ->
  exists c s,
    backtracking_search csp select_unassigned_variable order_domain_values
      forward_checking trace max_steps fuel (fresh_world rnd) = Ret (Some c) s /\
    solution csp c.
Proof.
  intros Hwf Hsel Hord Hcap Hfuel [c0 Hc0].
  pose proof (builtin_selects _ Hwf Hsel) as Hselect.
  pose proof (builtin_covers _ Hord) as Hcover.
  destruct (search_sound_total csp Hwf max_steps select_unassigned_variable
              order_domain_values Hselect (covers_orders _ Hcover) trace fuel rnd
              Hcap Hfuel) as (r & s & Hrun & _).
  pose proof (search_classified csp Hwf max_steps select_unassigned_variable
                order_domain_values Hselect Hcover trace fuel rnd Hfuel) as Hclass.
  rewrite Hrun in Hclass. destruct r as [c|].
  - by exists c, s.
  - destruct Hclass as [Hnone _]. by destruct (Hnone c0).
Qed.

(** X2: for a well-formed problem, the search with the built-in strategies
    and forward checking ends in one of three ways, whatever the trace and
    the cap: a solution, [None] when there is no solution, or RuntimeError,
    the last only when a trace is kept and a cap is set. It raises nothing
    else, and a recursion depth of one more than the number of variables is
    never exceeded. *)
Theorem search_ends_cleanly
    (select_unassigned_variable : gmap string val -> CSP val -> M (World val) string)
    (order_domain_values : string -> gmap string val -> CSP val -> M (World val) (list val))
    (trace : option (list (trace_event val))) (max_steps : option nat)
    (fuel : nat) (rnd : RandomSrc) :
  well_formed csp ->
  select_unassigned_variable = first_unassigned_variable \/
    select_unassigned_variable = mrv ->
  order_domain_values = unordered_domain_values \/ order_domain_values = lcv ->
  length (variables csp) < fuel ->
  match backtracking_search csp select_unassigned_variable order_domain_values
          forward_checking trace max_steps fuel (fresh_world rnd) with
  | Ret (Some c) s => solution csp c
  | Ret None s => forall c, ~ solution csp c
  | Exc e s => e = RuntimeError /\ is_Some trace /\ is_Some max_steps
  | NoFuel => False
  end.
Proof.
  intros Hwf Hsel Hord Hfuel.
  pose proof (builtin_selects _ Hwf Hsel) as Hselect.
  pose proof (builtin_covers _ Hord) as Hcover.
  pose proof (search_classified csp Hwf max_steps select_unassigned_variable
                order_domain_values Hselect Hcover trace fuel rnd Hfuel) as Hclass.
  destruct (backtracking_search csp select_unassigned_variable order_domain_values
              forward_checking trace max_steps fuel (fresh_world rnd))
    as [[c|] s|e s|] eqn:Hrun; [done|by destruct Hclass|..|done].
  split; [done|].
  destruct trace as [t|], max_steps as [m|]; [by split; eexists|exfalso..].
  all: edestruct (search_sound_total csp Hwf) as (r & s' & Hrun' & _);
    [exact Hselect|exact (covers_orders _ Hcover)| |exact Hfuel|
     rewrite Hrun in Hrun'; discriminate Hrun'].
  - by right.
  - by left.
  - by left.
Qed.

(** X3: for a well-formed problem, a search from a fresh store with
    [first_unassigned_variable] or [mrv], [unordered_domain_values] or
    [lcv], and [forward_checking], that returns [None] within a recursion
    budget above the number of variables, has undone everything: the
    assignment is empty again, and the working domain of every variable
    holds exactly the values of its original domain. *)
Theorem failed_search_restores_domains
    (select_unassigned_variable : gmap string val -> CSP val -> M (World val) string)
    (order_domain_values : string -> gmap string val -> CSP val -> M (World val) (list val))
    (trace : option (list (trace_event val))) (max_steps : option nat)
    (fuel : nat) (rnd : RandomSrc) (s : SearchState val) :
  well_formed csp ->
  select_unassigned_variable = first_unassigned_variable \/
    select_unassigned_variable = mrv ->
  order_domain_values = unordered_domain_values \/ order_domain_values = lcv ->
  length (variables csp) < fuel ->
  backtracking_search csp select_unassigned_variable order_domain_values
    forward_checking trace max_steps fuel (fresh_world rnd) = Ret None s ->
  assignment s = ∅ /\
  forall v, v ∈ variables csp ->
    exists l0 l,
      domains csp !! v = Some l0 /\ working_domain csp (world s) v = Some l /\
      forall x, x ∈ l <-> x ∈ l0.
Proof.
  intros Hwf Hsel Hord Hfuel Hrun.
  pose proof (builtin_selects _ Hwf Hsel) as Hselect.
  pose proof (builtin_covers _ Hord) as Hcover.
  pose proof (search_classified csp Hwf max_steps select_unassigned_variable
                order_domain_values Hselect Hcover trace fuel rnd Hfuel) as Hclass.
  rewrite Hrun in Hclass. destruct Hclass as (_ & Ha & _ & _ & Hsame).
  split; [done|]. intros v Hv.
  destruct (wf_domains _ Hwf v Hv) as [l0 Hl0].
  destruct (Hsame v l0 Hv Hl0) as (l & Hl & Hiff). by exists l0, l.
Qed.

End BuiltinStrategies.

(** ** The entry point [solve_map_coloring] *)

Section SolveMapColoring.

Lemma solution_proper_coloring {val : Type} `{EqDecision val}
    (g : odict (list string)) (colors : list val) (c : gmap string val) :
  solution (MapColoringCSP colors (NeighborsDict g)) c <-> proper_coloring g colors c.
Proof.
  unfold solution, proper_coloring, MapColoringCSP. simpl. split.
  - intros [Hall Hcons]. split.
    + intros A HA. destruct (Hall A HA) as (x & l & Hx & Hl & Hxl).
      rewrite domains_lookup, decide_True in Hl by done. exists x. by simplify_eq.
    + intros A B x y HA (l & Hl & HB) Hx Hy.
      specialize (Hcons A B x y HA). rewrite od_to_map_lookup, Hl in Hcons.
      specialize (Hcons HB Hx Hy). unfold different_values_constraint in Hcons.
      by apply bool_decide_eq_true in Hcons.
  - intros [Hall Hcons]. split.
    + intros v Hv. destruct (Hall v Hv) as (x & Hx & Hxl). exists x, colors.
      by rewrite domains_lookup, decide_True.
    + intros v n x y Hv Hn Hx Hy. unfold different_values_constraint.
      apply bool_decide_eq_true. apply (Hcons v n); [done| |done|done].
      rewrite od_to_map_lookup in Hn. destruct (od_get g v) as [l|] eqn:Hl.
      * by exists l.
      * by apply elem_of_nil in Hn.
Qed.

Lemma Forall_filter_keep {A} (Q P : A -> Prop) `{forall x, Decision (P x)} (l : list A) :
  Forall Q l -> Forall Q (filter P l).
Proof.
  rewrite !Forall_forall. intros Hall x [_ Hx]%list_elem_of_filter. by apply Hall.
Qed.

Lemma StronglySorted_filter {A} (R : relation A) (P : A -> Prop)
    `{forall x, Decision (P x)} (l : list A) :
  StronglySorted R l -> StronglySorted R (filter P l).
Proof.
  induction 1 as [|x l Hsorted IH Hall]; [constructor|].
  rewrite filter_cons. case_decide; [|done]. constructor; [done|].
  by apply Forall_filter_keep.
Qed.

Lemma numbered_steps_increase {val : Type} (evs : list (trace_event val)) : forall a n,
  ev_step <$> evs = seq a n ->
  StronglySorted (fun e1 e2 => ev_step e1 < ev_step e2) evs /\
  Forall (fun e => a <= ev_step e < a + n) evs.
Proof.
  induction evs as [|e evs IH]; intros a n Hsteps; [split; constructor|].
  destruct n as [|n]; [done|]. simpl in Hsteps. injection Hsteps as He Hrest.
  destruct (IH (S a) n Hrest) as [Hsorted Hall]. split.
  - constructor; [done|]. eapply Forall_impl; [exact Hall|]. simpl. intros; lia.
  - constructor; [lia|]. eapply Forall_impl; [exact Hall|]. simpl. intros; lia.
Qed.

(** X4: on the neighbour dictionary of a simple graph, [solve_map_coloring]
    returns a proper coloring with the letters of [domain_letters], or [None]
    when there is none, together with a trace of events of the requested
    kinds whose step numbers increase and do not exceed [max_steps]; or it
    raises RuntimeError, with the step counter one past [max_steps]. It
    raises nothing else. *)
Theorem solve_map_coloring_outcome (neighbor_dict : odict (list string))
    (domain_letters : string) (max_steps : option nat)
    (log_events : option (list event_kind)) (fuel : nat) (r : RandomSrc) :
  simple_graph neighbor_dict ->
  length neighbor_dict < fuel ->
  match solve_map_coloring neighbor_dict domain_letters max_steps log_events fuel r with
  | Ret (solution, trace) s =>
      match solution with
      | Some c => proper_coloring neighbor_dict (str_chars domain_letters) c
      | None => forall c, ~ proper_coloring neighbor_dict (str_chars domain_letters) c
      end /\
      steps_increase (default (50 * 1000) max_steps) trace /\
      forall evs, log_events = Some evs -> Forall (fun e => ev_event e ∈ evs) trace
  | Exc e s => e = RuntimeError /\ step s = S (default (50 * 1000) max_steps)
  | NoFuel => False
  end.
Proof.
  intros Hsimple Hfuel. unfold solve_map_coloring.
  generalize (default (50 * 1000) max_steps). intros cap.
  set (csp := MapColoringCSP (str_chars domain_letters) (NeighborsDict neighbor_dict)).
  assert (well_formed csp) as Hwf by by apply MapColoringCSP_well_formed.
  assert (length (variables csp) < fuel) as Hfuel'.
  { unfold csp, MapColoringCSP, od_keys. simpl. by rewrite length_fmap. }
  pose proof (search_classified csp Hwf (Some cap) mrv lcv (mrv_selects csp Hwf)
                (lcv_covers csp) (Some []) fuel r Hfuel') as Hclass.
  pose proof (search_trace_cap csp mrv lcv forward_checking (Some cap) [] fuel
                (fresh_world r)) as Htrace.
  assert (post (fun _ s => trace_inv (Some cap) [] s)
            (fun e s => (e ≠ RuntimeError /\ trace_inv (Some cap) [] s)
                        \/ (e = RuntimeError /\ overflowed [] (Some cap) s))
            (backtracking_search csp mrv lcv forward_checking (Some []) (Some cap) fuel
               (fresh_world r))) as Htrace'.
  { apply Htrace.
    - intros a. by apply raises_only_mrv.
    - intros var a. by apply raises_only_lcv.
    - intros var value a removals. by apply raises_only_forward_checking. }
  clear Htrace. rename Htrace' into Htrace.
  destruct (backtracking_search csp mrv lcv forward_checking (Some []) (Some cap) fuel
              (fresh_world r)) as [sol s|e s|] eqn:Hrun; [| |done].
  - simpl in Htrace. destruct Htrace as [(evs & Hevs & Hsteps) Hcap].
    rewrite Hevs. simpl in *.
    destruct (numbered_steps_increase evs 1 (step s) Hsteps) as [Hsorted Hall].
    split_and!.
    + destruct sol as [c|].
      * by apply solution_proper_coloring.
      * intros c Hc%solution_proper_coloring. by destruct Hclass as [Hnone _], (Hnone c).
    + destruct log_events as [kinds|]; (split;
        [try apply StronglySorted_filter; done
        |try apply Forall_filter_keep; eapply Forall_impl; [exact Hall|]; simpl; intros; lia]).
    + intros kinds ->. apply Forall_forall. by intros e [? _]%list_elem_of_filter.
  - subst e. split; [done|]. simpl in Htrace.
    destruct Htrace as [[? _]|[_ (m & Hm & Hstep & _)]]; [done|]. by simplify_eq.
Qed.

End SolveMapColoring.

(** ** The selectors, and the edges of the pruning interface *)

Section Selectors.

Context {val : Type} `{EqDecision val} (csp : CSP val).

Lemma filter_first_split {A} (P : A -> Prop) `{forall x, Decision (P x)} (l : list A) :
  match filter P l with
  | x :: _ => exists pre post, l = pre ++ x :: post /\ Forall (fun y => ~ P y) pre /\ P x
  | [] => Forall (fun y => ~ P y) l
  end.
Proof.
  induction l as [|y l IH]; [constructor|].
  rewrite filter_cons. case_decide as Hy.
  - exists [], l. by split_and!.
  - destruct (filter P l) as [|x rest].
    + by constructor.
    + destruct IH as (pre & post & -> & Hpre & Hx). exists (y :: pre), post.
      split_and!; [done|by constructor|done].
Qed.

(** X5: [first_unassigned_variable] returns the first variable, in the order
    of [csp.variables], that the assignment does not hold, and changes
    nothing; when every variable is assigned it raises StopIteration. *)
Theorem first_unassigned_variable_first (a : gmap string val) (w : World val) :
  match first_unassigned_variable a csp w with
  | Ret v w' =>
      w' = w /\ a !! v = None /\
      exists pre post,
        variables csp = pre ++ v :: post /\ Forall (fun u => is_Some (a !! u)) pre
  | Exc e w' =>
      e = StopIteration /\ w' = w /\ Forall (fun u => is_Some (a !! u)) (variables csp)
  | NoFuel => False
  end.
Proof.
  unfold first_unassigned_variable, first.
  pose proof (filter_first_split (fun v => a !! v = None) (variables csp)) as Hsplit.
  destruct (filter (fun v => a !! v = None) (variables csp)) as [|v rest]; simpl.
  - split_and!; [done|done|]. eapply Forall_impl; [exact Hsplit|]. simpl.
    intros u Hu. by apply not_eq_None_Some.
  - destruct Hsplit as (pre & post & Hvars & Hpre & Hv). split_and!; [done|done|].
    exists pre, post. split; [done|]. eapply Forall_impl; [exact Hpre|]. simpl.
    intros u Hu. by apply not_eq_None_Some.
Qed.

Lemma bind_bind_run {S A B C} (m : M S A) (k1 : A -> M S B) (k2 : B -> M S C) s a s1 :
  m s = Ret a s1 -> bind (bind m k1) k2 s = bind (k1 a) k2 s1.
Proof. unfold bind. by intros ->. Qed.

Lemma argmin_loop_min {A} (key : A -> M (World val) nat) w seq :
  forall seen (best : option (list A * nat)),
  (forall x, x ∈ seq -> exists k, key x w = Ret k w) ->
  argmin_inv key w seen best ->
  exists best',
    for_each seq
      (fun (best : option (list A * nat)) x =>
         let* k := key x in
         match best with
         | None => ret (Some ([x], k))
         | Some (b, best_key) =>
             if (k <? best_key)%nat then ret (Some ([x], k))
             else if (k =? best_key)%nat then ret (Some (b ++ [x], best_key))
             else ret best
         end) best w = Ret best' w /\
    argmin_inv key w (seen ++ seq) best'.
Proof.
  induction seq as [|x seq IH]; intros seen best Hkey Hinv.
  { exists best. rewrite app_nil_r. by split. }
  destruct (Hkey x) as [k Hk]; [left|]. simpl.
  rewrite (bind_bind_run _ _ _ _ _ _ Hk).
  replace (seen ++ x :: seq) with ((seen ++ [x]) ++ seq) by by rewrite <-app_assoc.
  assert (forall y, y ∈ seq -> exists k, key y w = Ret k w) as Hkey'
    by (intros y Hy; apply Hkey; by right).
  destruct best as [[b best_key]|].
  - destruct Hinv as (Hne & Hb & Hmin).
    destruct (k <? best_key)%nat eqn:Hlt; [|destruct (k =? best_key)%nat eqn:Heq].
    + rewrite (bind_run _ _ _ (Some ([x], k)) w) by done.
      apply Nat.ltb_lt in Hlt. apply IH; [done|]. split_and!; [done| |].
      * intros y ->%list_elem_of_singleton. split; [|done].
        apply elem_of_app. right. by apply list_elem_of_singleton.
      * intros y ky [Hy| ->%list_elem_of_singleton]%elem_of_app Hky.
        -- specialize (Hmin y ky Hy Hky). lia.
        -- assert (ky = k) by congruence. lia.
    + rewrite (bind_run _ _ _ (Some (b ++ [x], best_key)) w) by done.
      apply Nat.eqb_eq in Heq as ->. apply IH; [done|]. split_and!.
      * by destruct b.
      * intros y [Hy| ->%list_elem_of_singleton]%elem_of_app.
        -- destruct (Hb y Hy). split; [|done]. apply elem_of_app. by left.
        -- split; [|done]. apply elem_of_app. right. by apply list_elem_of_singleton.
      * intros y ky [Hy| ->%list_elem_of_singleton]%elem_of_app Hky.
        -- by apply (Hmin y).
        -- assert (ky = best_key) by congruence. lia.
    + rewrite (bind_run _ _ _ (Some (b, best_key)) w) by done.
      apply Nat.ltb_ge in Hlt. apply Nat.eqb_neq in Heq. apply IH; [done|].
      split_and!; [done| |].
      * intros y Hy. destruct (Hb y Hy). split; [|done]. apply elem_of_app. by left.
      * intros y ky [Hy| ->%list_elem_of_singleton]%elem_of_app Hky.
        -- by apply (Hmin y).
        -- assert (ky = k) by congruence. lia.
  - rewrite (bind_run _ _ _ (Some ([x], k)) w) by done.
    simpl in Hinv. subst seen. apply IH; [done|]. split_and!; [done| |].
    + intros y ->%list_elem_of_singleton. split; [|done]. by apply list_elem_of_singleton.
    + intros y ky ->%list_elem_of_singleton Hky. assert (ky = k) by congruence. lia.
Qed.

Lemma random_choice_run {A} (x : A) (rest : list A) (w : World val) :
  exists y,
    random_choice (Some (x :: rest)) w
    = Ret y (set_rand {| draws := draws (rand w); pos := S (pos (rand w)) |} w) /\
    y ∈ x :: rest.
Proof.
  set (i := draws (rand w) (pos (rand w)) mod length (x :: rest)).
  destruct (lookup_lt_is_Some_2 (x :: rest) i) as [y Hy].
  { apply Nat.mod_upper_bound. done. }
  exists y. split; [|by eapply list_elem_of_lookup_2].
  unfold random_choice, bind, get, put, ret. cbv zeta. fold i.
  by rewrite (nth_lookup_Some _ _ x _ Hy).
Qed.

(** X6: [mrv] returns an unassigned variable whose count of legal values is
    the least among the unassigned variables, and draws once from the random
    generator; when every variable is assigned it raises TypeError. *)
Theorem mrv_fewest_legal_values (a : gmap string val) (w : World val) :
  (forall u, u ∈ variables csp -> a !! u = None ->
     exists k, num_legal_values csp u a w = Ret k w) ->
  match mrv a csp w with
  | Ret v w' =>
      v ∈ variables csp /\ a !! v = None /\
      (exists kv,
         num_legal_values csp v a w = Ret kv w /\
         forall u ku,
           u ∈ variables csp -> a !! u = None ->
           num_legal_values csp u a w = Ret ku w -> kv <= ku) /\
      w' = set_rand {| draws := draws (rand w); pos := S (pos (rand w)) |} w
  | Exc e w' =>
      e = TypeError /\ w' = w /\ Forall (fun u => is_Some (a !! u)) (variables csp)
  | NoFuel => False
  end.
Proof.
  intros Hkey. unfold mrv, argmin_random_tie.
  set (unassigned := filter (fun v => a !! v = None) (variables csp)).
  destruct (argmin_loop_min (fun v => num_legal_values csp v a) w unassigned [] None)
    as (best & Hloop & Hinv); [|done|].
  { intros u [Hu Hin]%list_elem_of_filter. by apply Hkey. }
  rewrite (bind_run _ _ _ _ _ Hloop). simpl in Hinv.
  destruct best as [[b k]|].
  - destruct Hinv as (Hne & Hb & Hmin). destruct b as [|x rest]; [done|].
    change (random_choice (fst <$> Some (x :: rest, k)) w)
      with (random_choice (Some (x :: rest)) w).
    destruct (random_choice_run x rest w) as (v & -> & Hv).
    destruct (Hb v Hv) as [[Hnone Hin]%list_elem_of_filter Hkv].
    split_and!; [done|done| |done]. exists k. split; [done|].
    intros u ku Hu Hunone Hku. apply (Hmin u); [|done].
    by apply list_elem_of_filter.
  - split_and!; [done|done|]. apply Forall_forall. intros u Hu.
    apply not_eq_None_Some. intros Hnone.
    assert (u ∈ unassigned) as Hin by by apply list_elem_of_filter.
    rewrite Hinv in Hin. by apply elem_of_nil in Hin.
Qed.

End Selectors.

Section StoreEdges.

Context {val : Type} `{EqDecision val} (csp : CSP val).

Lemma copy_domains_loop_cases vs (w : World val) : forall acc : gmap string (list val),
  (exists d,
     for_each vs
       (fun d v => let* l := getitem (domains csp) v in ret (<[v := l]> d)) acc w
     = Ret d w /\
     Forall (fun v => is_Some (domains csp !! v)) vs) \/
  (for_each vs
     (fun d v => let* l := getitem (domains csp) v in ret (<[v := l]> d)) acc w
   = Exc KeyError w /\
   Exists (fun v => domains csp !! v = None) vs).
Proof.
  induction vs as [|v vs IH]; intros acc; simpl.
  { left. exists acc. by split. }
  destruct (domains csp !! v) as [l|] eqn:Hl.
  - rewrite (bind_bind_run _ _ _ _ _ _ (getitem_run _ _ w _ Hl)).
    rewrite (bind_run _ _ _ (<[v := l]> acc) w) by done.
    destruct (IH (<[v := l]> acc)) as [(d & Hrun & Hall)|[Hrun Hex]].
    + left. exists d. split; [done|]. constructor; [by rewrite Hl|done].
    + right. split; [done|]. by right.
  - right. split; [|by left]. unfold bind, getitem. by rewrite Hl.
Qed.

(** X7: [support_pruning] gives every variable a working domain equal to its
    original domain, touching neither [nassigns] nor the random generator;
    once the working domains exist it does nothing, so calling it again
    changes nothing; when a variable has no domain it raises KeyError and
    leaves the working domains uninitialized. *)
Theorem support_pruning_initializes (w : World val) :
  match support_pruning csp w with
  | Ret _ w' =>
      (exists d,
         w' = set_curr_domains (Some d) w /\
         match curr_domains w with
         | Some d0 => d = d0
         | None =>
             forall v, d !! v = if decide (v ∈ variables csp) then domains csp !! v else None
         end) /\
      support_pruning csp w' = Ret tt w'
  | Exc e w' =>
      e = KeyError /\ w' = w /\ curr_domains w = None /\
      Exists (fun v => domains csp !! v = None) (variables csp)
  | NoFuel => False
  end.
Proof.
  unfold support_pruning at 1. unfold bind at 1, gets.
  destruct (curr_domains w) as [d0|] eqn:Hd0.
  - simpl. split.
    + exists d0. split; [|done]. by rewrite <-Hd0, set_curr_domains_id.
    + unfold support_pruning, bind, gets. by rewrite Hd0.
  - unfold copy_domains.
    destruct (copy_domains_loop_cases (variables csp) w ∅) as [(d & Hrun & Hall)|[Hrun Hex]].
    + rewrite (bind_run _ _ _ _ _ Hrun). unfold modify. split.
      * exists d. split; [done|].
        destruct (copy_domains_loop_inv csp _ _ _ _ _ Hrun) as [_ Hd].
        intros v. rewrite Hd. case_decide; [done|]. by rewrite lookup_empty.
      * done.
    + rewrite (bind_run_Exc _ _ _ _ _ Hrun). done.
Qed.

(** X8: [suppose] leaves [var] with the one value [value], logs the other
    values of its working domain in order, and leaves the other variables as
    they were; [choices] then gives just [value]; restoring the log gives
    [var] the value [value] followed by the other values in their order. *)
Theorem suppose_then_restore (var : string) (value : val) (w w' : World val)
    (removals : list (removal val)) :
  suppose csp var value w = Ret removals w' ->
  exists l w'',
    working_domain csp w var = Some l /\
    removals = (fun v => (var, v)) <$> filter (fun v => v ≠ value) l /\
    choices csp var w' = Ret [value] w' /\
    (forall v, v ≠ var -> v ∈ variables csp ->
       working_domain csp w' v = working_domain csp w v) /\
    restore removals w' = Ret tt w'' /\
    working_domain csp w'' var = Some (value :: filter (fun v => v ≠ value) l) /\
    (forall v, v ≠ var -> working_domain csp w'' v = working_domain csp w' v).
Proof.
  intros Hrun.
  destruct (suppose_inv csp var value w removals w' Hrun)
    as (w0 & d & l & Hsp & Hd & Hl & -> & ->).
  set (removals := (fun v => (var, v)) <$> filter (fun v => v ≠ value) l).
  set (w' := set_curr_domains (Some (<[var := [value]]> d)) w0).
  destruct (restore_run removals w' (<[var := [value]]> d) eq_refl) as [w'' Hrestore].
  { intros p (x & -> & _)%list_elem_of_fmap. simpl. rewrite lookup_insert_eq. by eexists. }
  destruct (restore_inv removals w' w'' _ eq_refl Hrestore) as (d'' & -> & Hd'').
  exists l, (set_curr_domains (Some d'') w'). split_and!.
  - by eapply support_pruning_working_domain.
  - done.
  - unfold choices, bind, gets. simpl. rewrite decide_False by apply insert_non_empty.
    apply getitem_run. by rewrite lookup_insert_eq.
  - intros v Hne Hv. unfold working_domain at 1. simpl.
    rewrite lookup_insert_ne by done.
    pose proof (support_pruning_inv csp w w0 Hsp) as Hinv. unfold working_domain.
    destruct (curr_domains w) as [d0|] eqn:Hd0.
    + subst w0. rewrite Hd0 in Hd. by simplify_eq.
    + destruct Hinv as (d1 & -> & Hd1). simpl in Hd. simplify_eq.
      by rewrite Hd1, decide_True.
  - done.
  - unfold working_domain. simpl. rewrite Hd'', lookup_insert_eq. simpl.
    unfold removals. by rewrite pending_tagged, decide_True.
  - intros v Hne. unfold working_domain. simpl. rewrite Hd''.
    unfold removals. rewrite pending_tagged, decide_False by done.
    destruct (<[var := [value]]> d !! v); simpl; [by rewrite app_nil_r|done].
Qed.

Lemma the_curr_domains_None (w : World val) :
  curr_domains w = None -> the_curr_domains w = Exc AssertionError w.
Proof. intros Hd. unfold the_curr_domains, bind, gets. by rewrite Hd. Qed.

Lemma support_pruning_noop (w : World val) :
  is_Some (curr_domains w) -> support_pruning csp w = Ret tt w.
Proof. intros [d Hd]. unfold support_pruning, bind, gets. by rewrite Hd. Qed.

Lemma restore_app (removals1 removals2 : list (removal val)) (w w1 : World val) :
  restore removals1 w = Ret tt w1 ->
  restore (removals1 ++ removals2) w = restore removals2 w1.
Proof.
  unfold restore. intros Hrun.
  pose proof Hrun as Hrun0.
  apply bind_Ret_inv in Hrun0 as (d & w0 & [Hd ->]%the_curr_domains_Ret_inv & _).
  rewrite (bind_run _ _ _ _ _ (the_curr_domains_run w d Hd)) in Hrun.
  rewrite (bind_run _ _ _ _ _ (the_curr_domains_run w d Hd)).
  assert (is_Some (curr_domains w)) as Hsome by by eexists.
  clear Hd. revert w Hrun Hsome.
  induction removals1 as [|[var value] removals1 IH]; intros w Hrun [d' Hd']; simpl in *.
  - unfold ret in Hrun. simplify_eq.
    by rewrite (bind_run _ _ _ _ _ (the_curr_domains_run w1 d' Hd')).
  - apply bind_Ret_inv in Hrun as ([] & w0 & Hstep & Hrun).
    rewrite (bind_run _ _ _ _ _ Hstep). apply IH; [done|].
    apply bind_Ret_inv in Hstep as (d0 & ? & [_ ->]%the_curr_domains_Ret_inv & Hstep).
    apply bind_Ret_inv in Hstep as (l0 & ? & [_ ->]%getitem_Ret_inv & Hstep).
    unfold modify in Hstep. simplify_eq. by eexists.
Qed.

(** X9: the errors of the pruning interface. Before [support_pruning],
    [prune] and [restore] raise AssertionError, even for an empty log; on a
    variable without a working domain [prune] and [suppose] raise KeyError;
    [restore] stops with KeyError at the first such entry of the log, the
    entries before it staying restored; in each case nothing else changes.
    [choices] reads the original domains while the working domains are
    missing or an empty dictionary. *)
Theorem pruning_interface_errors :
  (forall var (value : val) removals w,
     curr_domains w = None ->
     prune var value removals w = Exc AssertionError w /\
     restore removals w = Exc AssertionError w) /\
  (forall var value removals w d,
     curr_domains w = Some d -> d !! var = None ->
     prune var value removals w = Exc KeyError w /\
     suppose csp var value w = Exc KeyError w) /\
  (forall removals1 var (value : val) removals2 w w1 d1,
     restore removals1 w = Ret tt w1 ->
     curr_domains w1 = Some d1 -> d1 !! var = None ->
     restore (removals1 ++ (var, value) :: removals2) w = Exc KeyError w1) /\
  (forall var w,
     curr_domains w = None \/ curr_domains w = Some ∅ ->
     choices csp var w = getitem (domains csp) var w).
Proof.
  split_and!.
  - intros var value removals w Hd. split.
    + unfold prune. by rewrite (bind_run_Exc _ _ _ _ _ (the_curr_domains_None w Hd)).
    + unfold restore. by rewrite (bind_run_Exc _ _ _ _ _ (the_curr_domains_None w Hd)).
  - intros var value removals w d Hd Hvar. split.
    + unfold prune. rewrite (bind_run _ _ _ _ _ (the_curr_domains_run w d Hd)).
      unfold bind, getitem. by rewrite Hvar.
    + unfold suppose.
      assert (support_pruning csp w = Ret tt w) as Hsp
        by (apply support_pruning_noop; by eexists).
      rewrite (bind_run _ _ _ _ _ Hsp).
      rewrite (bind_run _ _ _ _ _ (the_curr_domains_run w d Hd)).
      unfold bind, getitem. by rewrite Hvar.
  - intros removals1 var value removals2 w w1 d1 Hrun Hd1 Hvar.
    rewrite (restore_app _ _ _ _ Hrun). unfold restore.
    rewrite (bind_run _ _ _ _ _ (the_curr_domains_run w1 d1 Hd1)). simpl.
    unfold bind at 1. unfold bind at 1.
    rewrite (the_curr_domains_run w1 d1 Hd1). unfold bind, getitem. by rewrite Hvar.
  - intros var w [Hd|Hd]; unfold choices, bind, gets; rewrite Hd; [done|].
    by rewrite decide_True.
Qed.

End StoreEdges.

(** ** Pruning and restoring domains without duplicates *)

Section RoundtripPermutation.

Context {val : Type} `{EqDecision val} (csp : CSP val).

Lemma roundtrip_perm_start (w : World val) d :
  curr_domains w = Some d -> roundtrip_perm d w [].
Proof.
  intros Hd. exists d. split; [done|]. intros v.
  destruct (d !! v) as [l|]; [|done].
  exists l. split; [done|]. by rewrite pending_nil, app_nil_r.
Qed.

Lemma roundtrip_perm_lookup d (w : World val) removals d' v l' :
  roundtrip_perm d w removals -> curr_domains w = Some d' -> d' !! v = Some l' ->
  exists l, d !! v = Some l /\ l' ++ pending v removals ≡ₚ l.
Proof.
  intros (d'' & Hd'' & Hinv) Hd' Hl'. simplify_eq. specialize (Hinv v).
  destruct (d !! v) as [l|].
  - destruct Hinv as (l'' & ? & Hperm). simplify_eq. eauto.
  - destruct Hinv as [? _]. congruence.
Qed.

Lemma roundtrip_perm_update d (w : World val) removals d' v l' new logged :
  roundtrip_perm d w removals -> curr_domains w = Some d' -> d' !! v = Some l' ->
  new ++ logged ≡ₚ l' ->
  roundtrip_perm d (set_curr_domains (Some (<[v := new]> d')) w)
    (removals ++ ((fun x => (v, x)) <$> logged)).
Proof.
  intros Hinv Hd' Hl' Hperm.
  destruct (roundtrip_perm_lookup _ _ _ _ _ _ Hinv Hd' Hl') as (l & Hl & Hl_perm).
  destruct Hinv as (d'' & Hd'' & Hinv). simplify_eq.
  eexists. split; [done|]. intros u. specialize (Hinv u).
  rewrite pending_app, pending_tagged.
  destruct (decide (v = u)) as [->|Hne].
  - rewrite Hl. rewrite lookup_insert_eq. eexists. split; [done|].
    rewrite <-Hl_perm, <-Hperm. rewrite <-!app_assoc. apply Permutation_app_head.
    apply Permutation_app_comm.
  - rewrite lookup_insert_ne by done. rewrite app_nil_r. exact Hinv.
Qed.

Lemma keep_one_perm (x : val) l :
  NoDup l -> x ∈ l -> x :: filter (fun v => v ≠ x) l ≡ₚ l.
Proof.
  intros Hnd Hx. apply NoDup_Permutation; [|done|].
  - constructor; [|by apply NoDup_filter].
    intros [Hne _]%list_elem_of_filter. done.
  - intros y. rewrite elem_of_cons, list_elem_of_filter.
    destruct (decide (y = x)); naive_solver.
Qed.

Lemma prune_step_perm d w removals op removals' w' :
  (forall v l, d !! v = Some l -> NoDup l) ->
  roundtrip_perm d w removals ->
  match op with
  | OpSuppose var value => exists l, working_domain csp w var = Some l /\ value ∈ l
  | OpPrune _ _ => True
  end ->
  prune_step csp removals op w = Ret removals' w' ->
  roundtrip_perm d w' removals'.
Proof.
  intros Hnd Hinv Hop Hrun. destruct op as [var value|var value]; simpl in Hrun.
  - apply bind_Ret_inv in Hrun as (r & w1 & Hrun & Hret). inv_ret.
    destruct Hop as (l & Hwd & Hvalue).
    apply suppose_inv in Hrun as (w0 & d0 & l' & Hsp & Hd0 & Hl' & -> & ->).
    pose proof (support_pruning_working_domain _ _ _ _ Hsp _ _ Hd0 Hl') as Hwd'.
    rewrite Hwd in Hwd'. simplify_eq.
    apply support_pruning_inv in Hsp.
    pose proof Hinv as (d' & Hd' & _). rewrite Hd' in Hsp. subst w0.
    destruct (roundtrip_perm_lookup _ _ _ _ _ _ Hinv Hd0 Hl') as (l0 & Hl0 & Hperm).
    apply (roundtrip_perm_update _ _ _ _ _ l'); [done|done|done|].
    apply keep_one_perm; [|done].
    apply (NoDup_app l' (pending var removals)). rewrite Hperm. by eapply Hnd.
  - apply prune_inv in Hrun as (d' & l & Hd' & Hl & [(Hvalue & -> & ->)|(_ & -> & ->)]);
      [|done].
    apply (roundtrip_perm_update _ _ _ _ _ l _ [value]); [done|done|done|].
    rewrite (list_remove_perm value l Hvalue) at 2.
    by rewrite <-Permutation_cons_append.
Qed.

Lemma prune_all_perm d ops : forall w removals removals' w',
  (forall v l, d !! v = Some l -> NoDup l) ->
  roundtrip_perm d w removals ->
  supposes_in_domain csp ops w ->
  prune_all csp ops removals w = Ret removals' w' ->
  roundtrip_perm d w' removals'.
Proof.
  unfold prune_all.
  induction ops as [|op ops IH]; intros w removals removals' w' Hnd Hinv Hok Hrun;
    simpl in Hrun.
  - by inv_ret.
  - apply bind_Ret_inv in Hrun as (r & w1 & Hstep & Hrun).
    destruct Hok as [Hop Hrest].
    eapply IH; [done| |by eapply Hrest|exact Hrun].
    by eapply prune_step_perm.
Qed.

(** X10: when the working domains hold no value twice, pruning (by [suppose]
    with values of the working domains, and by [prune]) into a fresh log and
    then restoring that log leaves every variable with a rearrangement of the
    working domain it had: the same values, each once, so the same length. *)
Theorem prune_restore_permutation (ops : list prune_op) w d removals w1 :
  curr_domains w = Some d ->
  (forall v l, d !! v = Some l -> NoDup l) ->
  supposes_in_domain csp ops w ->
  prune_all csp ops [] w = Ret removals w1 ->
  exists w2 d2,
    restore removals w1 = Ret tt w2 /\
    curr_domains w2 = Some d2 /\
    forall v,
      match d !! v with
      | Some l => exists l2, d2 !! v = Some l2 /\ l2 ≡ₚ l /\ length l2 = length l
      | None => d2 !! v = None
      end.
Proof.
  intros Hd Hnd Hok Hrun.
  pose proof (prune_all_perm d ops w [] removals w1 Hnd (roundtrip_perm_start _ _ Hd)
                Hok Hrun) as (d1 & Hd1 & Hinv).
  destruct (restore_run removals w1 d1 Hd1) as [w2 Hw2].
  { intros [v x] Hp%elem_of_pending. simpl. specialize (Hinv v).
    destruct (d !! v) as [l|].
    - destruct Hinv as (l' & -> & _). by eexists.
    - destruct Hinv as [_ Hnil]. rewrite Hnil in Hp. by apply elem_of_nil in Hp. }
  destruct (restore_inv _ _ _ _ Hd1 Hw2) as (d2 & -> & Hd2).
  eexists _, d2. split_and!; [done|done|].
  intros v. specialize (Hinv v). rewrite Hd2.
  destruct (d !! v) as [l|].
  - destruct Hinv as (l' & -> & Hperm). simpl. eexists. split; [done|].
    split; [done|]. by rewrite Hperm.
  - destruct Hinv as [-> _]. done.
Qed.

End RoundtripPermutation.

(** ** Forward checking twice *)

Section ForwardCheckingAgain.

Context {val : Type} `{EqDecision val} (csp : CSP val).
Variables (var : string) (value : val) (a : gmap string val).

Lemma fc_keep_all B l :
  (forall b, b ∈ l -> constraints csp var value B b = true) ->
  fc_keep csp var value B l = l /\ fc_drop csp var value B l = [].
Proof.
  intros Hall. unfold fc_keep, fc_drop. induction l as [|b l IH]; [done|].
  rewrite !filter_cons.
  rewrite decide_True by (apply Hall; left).
  rewrite decide_False by (rewrite Hall; [done|left]).
  destruct IH as [-> ->]; [|done]. intros b' Hb'. apply Hall. by right.
Qed.

Lemma fc_prune_conflicts_noop B l removals w d :
  curr_domains w = Some d -> d !! B = Some l ->
  (forall b, b ∈ l -> constraints csp var value B b = true) ->
  fc_prune_conflicts csp var value B l removals w = Ret removals w.
Proof.
  intros Hd Hl Hall.
  rewrite (fc_prune_conflicts_run csp var value B l [] removals w d Hd Hl)
    by (intros b Hb; by apply elem_of_nil in Hb).
  destruct (fc_keep_all B l Hall) as [-> ->]. simpl. rewrite app_nil_r.
  rewrite insert_id by done. by rewrite <-Hd, set_curr_domains_id.
Qed.

Lemma fc_keep_consistent B l b :
  b ∈ fc_keep csp var value B l -> constraints csp var value B b = true.
Proof. unfold fc_keep. by intros [? _]%list_elem_of_filter. Qed.

Lemma fc_neighbors_idem Bs : forall removals w d ok removals' w',
  curr_domains w = Some d ->
  fc_neighbors csp var value a Bs removals w = Ret (ok, removals') w' ->
  forall removals2,
    fc_neighbors csp var value a Bs removals2 w' = Ret (ok, removals2) w'.
Proof.
  induction Bs as [|B Bs IH]; intros removals w d ok removals' w' Hd Hrun removals2;
    simpl in *.
  { unfold ret in Hrun. by simplify_eq. }
  destruct (a !! B) as [y|] eqn:HB; [by eapply IH|].
  apply bind_Ret_inv in Hrun as (d0 & w0 & [Hd0 ->]%the_curr_domains_Ret_inv & Hrun).
  assert (d0 = d) as -> by congruence.
  apply bind_Ret_inv in Hrun as (snapshot & ? & [Hsnap ->]%getitem_Ret_inv & Hrun).
  rewrite (bind_run _ _ _ _ _
             (fc_prune_conflicts_run csp var value B snapshot [] removals w d Hd Hsnap
                ltac:(by intros b Hb%elem_of_nil))) in Hrun.
  simpl in Hrun.
  remember (fc_keep csp var value B snapshot) as l1 eqn:Hl1def.
  remember (set_curr_domains (Some (<[B := l1]> d)) w) as w1 eqn:Hw1.
  assert (curr_domains w1 = Some (<[B := l1]> d)) as Hd1 by by subst w1.
  rewrite (bind_run _ _ _ _ _ (the_curr_domains_run w1 _ Hd1)) in Hrun.
  rewrite (bind_run _ _ _ l1 w1) in Hrun
    by (apply getitem_run; by rewrite lookup_insert_eq).
  assert (forall b, b ∈ l1 -> constraints csp var value B b = true) as Hcons
    by (subst l1; apply fc_keep_consistent).
  assert (forall w2 d2,
            curr_domains w2 = Some d2 -> d2 !! B = Some l1 ->
            (let* d := the_curr_domains in
             let* snapshot := getitem d B in
             let* removals := fc_prune_conflicts csp var value B snapshot removals2 in
             let* d := the_curr_domains in
             let* l := getitem d B in
             match l with
             | [] => ret (false, removals)
             | _ :: _ => fc_neighbors csp var value a Bs removals
             end) w2
            = match l1 with
              | [] => Ret (false, removals2) w2
              | _ :: _ => fc_neighbors csp var value a Bs removals2 w2
              end) as Hagain.
  { intros w2 d2 Hd2 Hl2.
    rewrite (bind_run _ _ _ _ _ (the_curr_domains_run w2 d2 Hd2)).
    rewrite (bind_run _ _ _ _ _ (getitem_run d2 B w2 l1 Hl2)).
    rewrite (bind_run _ _ _ _ _
               (fc_prune_conflicts_noop B l1 removals2 w2 d2 Hd2 Hl2 Hcons)).
    rewrite (bind_run _ _ _ _ _ (the_curr_domains_run w2 d2 Hd2)).
    rewrite (bind_run _ _ _ _ _ (getitem_run d2 B w2 l1 Hl2)).
    by destruct l1. }
  destruct l1 as [|b l1'].
  - unfold ret in Hrun. injection Hrun as <- <- <-.
    rewrite (Hagain w1 _ Hd1); [done|by rewrite lookup_insert_eq].
  - destruct (fc_neighbors_spec csp var value a Bs _ w1 _ ok removals' w' Hd1 Hrun)
      as (d' & -> & _ & Hd' & _).
    rewrite (Hagain (set_curr_domains (Some d') w1) d' eq_refl).
    + by eapply IH.
    + rewrite Hd', lookup_insert_eq. case_decide; [|done]. simpl.
      by rewrite Hl1def, fc_keep_idemp.
Qed.

(** X11: forward checking is idempotent. Once [forward_checking] has
    returned, running it again for the same [var = value] and assignment
    gives the same verdict, logs no further removal and leaves every working
    domain as it is. *)
Theorem forward_checking_idempotent removals w ok removals' w' :
  forward_checking csp var value a removals w = Ret (ok, removals') w' ->
  forall removals2,
    forward_checking csp var value a removals2 w' = Ret (ok, removals2) w'.
Proof.
  intros Hrun removals2. unfold forward_checking in Hrun.
  apply bind_Ret_inv in Hrun as ([] & w0 & Hsp & Hrun).
  apply bind_Ret_inv in Hrun as (d0 & ? & [Hd0 ->]%the_curr_domains_Ret_inv & Hrun).
  destruct (fc_neighbors_spec csp var value a _ _ w0 d0 ok removals' w' Hd0 Hrun)
    as (d' & Hw' & _).
  rewrite (forward_checking_initialized csp var value a removals2 w' d')
    by (by rewrite Hw').
  by eapply fc_neighbors_idem.
Qed.

End ForwardCheckingAgain.

(** ** Counting conflicts, and the last event of a trace *)

Section Conflicts.

Context {val : Type} `{EqDecision val} (csp : CSP val).

(** X12: [nconflicts] never exceeds the number of neighbours of [var]; it is
    0 exactly when [value] satisfies the constraint with every assigned
    neighbour, so it is 0 for a variable without neighbours entry and under
    the empty assignment; for map coloring it is the number of neighbours,
    as listed, that hold the same color. *)
Theorem nconflicts_counts (var : string) (x : val) (a : gmap string val) :
  nconflicts csp var x a <= length (default [] (neighbors csp !! var)) /\
  (nconflicts csp var x a = 0 <->
   forall n y, n ∈ default [] (neighbors csp !! var) -> a !! n = Some y ->
               constraints csp var x n y = true) /\
  (neighbors csp !! var = None -> nconflicts csp var x a = 0) /\
  nconflicts csp var x ∅ = 0 /\
  (constraints csp = different_values_constraint ->
   nconflicts csp var x a
   = length (filter (fun n => a !! n = Some x) (default [] (neighbors csp !! var)))).
Proof.
  split_and!.
  - rewrite nconflicts_length. apply length_filter.
  - apply nconflicts_zero.
  - intros Hnone. rewrite nconflicts_length, Hnone. done.
  - apply nconflicts_zero. intros n y _ Hy. by rewrite lookup_empty in Hy.
  - intros Hcons. rewrite nconflicts_length. f_equal. apply list_filter_iff.
    intros n. unfold in_conflict. rewrite Hcons. unfold different_values_constraint.
    destruct (a !! n) as [y|]; [|done].
    rewrite negb_true_iff, bool_decide_eq_false. split.
    + intros Hxy. f_equal. destruct (decide (x = y)); [done|]. by destruct Hxy.
    + intros [= ->] Hne. done.
Qed.

End Conflicts.

Section GoalLogged.

Context {val : Type} `{EqDecision val} (csp : CSP val).
Variable select_unassigned_variable : gmap string val -> CSP val -> M (World val) string.
Variable order_domain_values :
  string -> gmap string val -> CSP val -> M (World val) (list val).
Variable inference :
  CSP val -> string -> val -> gmap string val -> list (removal val) ->
  M (World val) (bool * list (removal val)).
Variable max_steps : option nat.

Lemma triple_any {S A} (m : M S A) :
  triple (fun _ => True) m (fun _ _ => True) (fun _ _ => True).
Proof. intros s _. by destruct (m s). Qed.

Lemma triple_then {S A B} (m : M S A) (k : A -> M S B) Q :
  (forall x, triple (fun _ => True) (k x) Q (fun _ _ => True)) ->
  triple (fun _ => True) (bind m k) Q (fun _ _ => True).
Proof. intros Hk. eapply triple_bind; [apply triple_any|]. intros x. apply Hk. Qed.

Lemma try_values_goal_logged recurse var values :
  triple (fun _ => True) recurse goal_logged (fun _ _ => True) ->
  triple (fun _ => True) (try_values csp inference max_steps recurse var values)
    goal_logged (fun _ _ => True).
Proof.
  intros Hrec. induction values as [|value rest IH]; simpl.
  { by apply triple_ret. }
  apply triple_then; intros _. apply triple_then; intros a0.
  case_decide.
  { by apply triple_then; intros _. }
  apply triple_then; intros a1. apply triple_then; intros _.
  apply triple_then; intros _. apply triple_then; intros removals.
  apply triple_then; intros [ok removals'].
  assert (triple (fun _ => True)
            (in_world (restore removals') >>
             modify (fun s => set_assignment (unassign var (assignment s)) s) >>
             log max_steps BACKTRACK (Some var) (Some value) >>
             try_values csp inference max_steps recurse var rest)
            goal_logged (fun _ _ => True)) as Hundo.
  { apply triple_then; intros _. apply triple_then; intros _.
    by apply triple_then; intros _. }
  destruct ok.
  - eapply triple_bind; [exact Hrec|]. intros [c|].
    + by apply triple_ret.
    + eapply triple_conseq; [exact Hundo|done..].
  - by apply triple_then; intros _.
Qed.

Lemma log_goal_logged :
  triple (fun _ => True)
    (let* a := gets assignment in log max_steps GOAL None None >> ret (Some a))
    (goal_logged (val := val)) (fun _ _ => True).
Proof.
  intros s _. cbv [bind gets log get put modify ret raise].
  destruct (trace s) as [t|] eqn:Ht.
  - destruct max_steps as [m|]; [destruct (m <? S (step s))%nat|]; simpl; [done|..].
    all: intros t' [= <-]; by eexists _, _.
  - simpl. intros t' Ht'. congruence.
Qed.

Lemma backtrack_goal_logged fuel :
  triple (fun _ => True)
    (backtrack csp select_unassigned_variable order_domain_values inference
       max_steps fuel)
    goal_logged (fun _ _ => True).
Proof.
  induction fuel as [|fuel IH]; [by intros s _|].
  intros s _.
  pose proof (log_goal_logged s Logic.I) as Hgoal.
  simpl. unfold bind at 1, gets at 1.
  case_decide as Hsize.
  - unfold bind at 1, gets at 1 in Hgoal. exact Hgoal.
  - apply (triple_then (S := SearchState val)); [|done]. intros var.
    apply triple_then; intros values.
    by apply try_values_goal_logged.
Qed.

(** X13: when the search returns a solution and a trace is kept, the last
    event of the trace is the GOAL event: it carries the returned solution
    as its snapshot, the number of variables of the solution as its depth,
    no variable and no value, and the final step number. *)
Theorem solution_is_last_event (tr : option (list (trace_event val)))
    (fuel : nat) (w : World val) (c : gmap string val) (s : SearchState val)
    (t : list (trace_event val)) :
  backtracking_search csp select_unassigned_variable order_domain_values inference
    tr max_steps fuel w = Ret (Some c) s ->
  trace s = Some t ->
  exists t' e,
    t = t' ++ [e] /\ ev_event e = GOAL /\ ev_assignment e = c /\
    ev_depth e = length (variables csp) /\ ev_var e = None /\ ev_val e = None /\
    ev_step e = step s.
Proof.
  unfold backtracking_search, search_body. intros Hrun Ht.
  apply bind_Ret_inv in Hrun as (r & s1 & Hback & Hrun).
  pose proof (backtrack_goal_logged fuel
                {| world := w; assignment := ∅; step := 0; trace := tr |} Logic.I)
    as Hpost.
  rewrite Hback in Hpost.
  destruct r as [c'|]; [|unfold ret in Hrun; by simplify_eq].
  apply bind_Ret_inv in Hrun as (g & s2 & Hgoal & Hrun).
  destruct (is_goal_inv csp c' s1 s2 g Hgoal) as [-> Hg].
  destruct g; [|done]. unfold ret in Hrun. simplify_eq.
  destruct (Hg eq_refl) as [Hsize _].
  destruct (Hpost t Ht) as (t' & e & ? & ? & ? & ? & ? & ? & ?).
  exists t', e. split_and!; [done|done|done|congruence|done|done|done].
Qed.

End GoalLogged.

(** ** The edges that [parse_neighbors] gives *)

Section ParseNeighborsEdges.

Lemma no_empty_list_append g k x : no_empty_list g -> no_empty_list (od_append k x g).
Proof.
  intros Hg A l. rewrite od_get_append. case_decide.
  - intros [= <-]. by destruct (default [] (od_get g k)).
  - apply Hg.
Qed.

Lemma no_empty_list_parse_spec g spec : no_empty_list g -> no_empty_list (parse_spec g spec).
Proof.
  intros Hg. unfold parse_spec. destruct (negb _); [done|].
  destruct (str_split_once ":" spec) as [[A Aneigh]|]; [|done].
  generalize (str_words Aneigh). intros Bs. revert g Hg.
  induction Bs as [|B Bs IH]; intros g Hg; simpl; [done|].
  apply IH. by do 2 apply no_empty_list_append.
Qed.

Lemma no_empty_list_specs specs g :
  no_empty_list g -> no_empty_list (fold_left parse_spec specs g).
Proof.
  revert g. induction specs as [|spec specs IH]; intros g Hg; simpl; [done|].
  by apply IH, no_empty_list_parse_spec.
Qed.

Lemma od_get_is_key {V} (g : odict V) k v : od_get g k = Some v -> k ∈ od_keys g.
Proof.
  intros Hg%od_get_Some. unfold od_keys. apply list_elem_of_fmap. by exists (k, v).
Qed.

Lemma od_get_elem {V} (g : odict V) k v : od_wf g -> (k, v) ∈ g -> od_get g k = Some v.
Proof.
  unfold od_wf, od_keys. induction g as [|[k' v'] g IH]; intros Hwf Hin.
  { by apply elem_of_nil in Hin. }
  rewrite fmap_cons in Hwf. apply NoDup_cons in Hwf as [Hnot Hnd]. simpl.
  apply elem_of_cons in Hin as [[= <- <-]|Hin]; [by rewrite decide_True|].
  rewrite decide_False; [by apply IH|].
  intros ->. apply Hnot. apply list_elem_of_fmap. by exists (k, v).
Qed.

Lemma str_split_pieces c sep s p :
  str_contains c s = false -> p ∈ str_split sep s -> str_contains c p = false.
Proof.
  revert p. induction s as [|x s IH]; intros p Hs Hp; simpl in *.
  { by apply list_elem_of_singleton in Hp as ->. }
  apply orb_false_iff in Hs as [Hx Hs].
  destruct (Ascii.eqb x sep).
  - apply elem_of_cons in Hp as [->|Hp]; [done|by apply IH].
  - destruct (str_split sep s) as [|cur more] eqn:Hsplit.
    + by apply list_elem_of_singleton in Hp as ->; simpl; rewrite Hx.
    + apply elem_of_cons in Hp as [->|Hp].
      * simpl. rewrite Hx. simpl. apply IH; [done|by left].
      * apply IH; [done|by right].
Qed.

Lemma parse_neighbors_graph_inv text :
  graph_inv (fold_left parse_spec
               (filter (fun spec => spec ≠ EmptyString)
                  (str_strip <$> str_split ";" text)) []).
Proof.
  apply graph_inv_specs. split; [constructor|].
  intros A B (l & Hl & _). done.
Qed.

(** X14: in the graph that [parse_neighbors] returns, every region that is
    a key has at least one neighbour, so a region listed with no neighbour
    ([A:]) is left out unless another entry names it; every neighbour is
    itself a key; the graph is a simple graph exactly when no region is its
    own neighbour; and a text without any [:] gives the empty graph. *)
Theorem parse_neighbors_edges (text : string) :
  (forall A l, od_get (parse_neighbors text) A = Some l -> l ≠ []) /\
  (forall A B, adjacent (parse_neighbors text) A B -> B ∈ od_keys (parse_neighbors text)) /\
  (simple_graph (parse_neighbors text) <->
   forall A, ~ adjacent (parse_neighbors text) A A) /\
  (str_contains ":" text = false -> parse_neighbors text = []).
Proof.
  pose proof (parse_neighbors_graph_inv text) as [Hwf Hsym].
  assert (od_wf (parse_neighbors text)) as Hwf'.
  { unfold parse_neighbors, od_wf, od_keys in *. rewrite <-list_fmap_compose.
    exact Hwf. }
  assert (forall A B, adjacent (parse_neighbors text) A B ->
                      B ∈ od_keys (parse_neighbors text)) as Hclosed.
  { intros A B HAB. unfold parse_neighbors in HAB.
    apply (proj1 (adjacent_sorted _ _ _)), Hsym, (proj2 (adjacent_sorted _ _ _)) in HAB.
    destruct HAB as (l & Hl & _). by eapply od_get_is_key. }
  split_and!.
  - intros A l. unfold parse_neighbors. rewrite od_get_fmap.
    destruct (od_get _ A) as [l0|] eqn:Hl0; [|done]. intros [= <-].
    pose proof (no_empty_list_specs _ [] ltac:(by intros ? ? ?) A l0 Hl0) as Hne.
    destruct l0 as [|x l0]; [done|]. intros Hnil.
    assert (x ∈ sorted_set (x :: l0)) as Hx by (apply elem_of_sorted_set; left).
    rewrite Hnil in Hx. by apply elem_of_nil in Hx.
  - exact Hclosed.
  - split.
    + intros [_ Hall] A (l & Hl & HA).
      pose proof (od_get_Some _ _ _ Hl) as Hin.
      eapply Forall_forall in Hall; [|exact Hin]. simpl in Hall. by destruct Hall.
    + intros Hloop. split; [done|]. apply Forall_forall. intros [A l] Hin. simpl.
      pose proof (od_get_elem _ _ _ Hwf' Hin) as Hl. split.
      * intros HA. apply (Hloop A). by exists l.
      * apply Forall_forall. intros B HB. apply (Hclosed A). by exists l.
  - intros Hcolon. unfold parse_neighbors.
    assert (forall specs,
              Forall (fun spec => str_contains ":" spec = false) specs ->
              fold_left parse_spec specs [] = []) as Hfold.
    { induction specs as [|spec specs IH]; intros Hall; [done|].
      apply Forall_cons in Hall as [Hspec Hall]. simpl.
      rewrite parse_spec_no_colon by done. by apply IH. }
    rewrite Hfold; [done|]. apply Forall_forall.
    intros spec [_ (p & -> & Hp)%list_elem_of_fmap]%list_elem_of_filter.
    apply str_contains_strip. by eapply str_split_pieces.
Qed.

End ParseNeighborsEdges.

(** ** The graph that [build_adjacency] gives *)

Section BuildAdjacencySpec.

Variable geom : Type.
Variable touches : geom -> geom -> bool.
Variable _candidate_indices : list (string * geom) -> geom -> list nat.

Lemma pure_post_bind {S A B} (m : M S A) (k : A -> M S B) Q1 Q2 E (s : S) :
  pure_post Q1 E s (m s) ->
  (forall a, Q1 a -> pure_post Q2 E s (k a s)) ->
  pure_post Q2 E s (bind m k s).
Proof.
  unfold bind. destruct (m s) as [a s'|e s'|]; simpl; [|done|done].
  intros [-> Ha] Hk. by apply Hk.
Qed.

Lemma pure_post_for_each {S A B} (I : list A -> B -> Prop) E (body : B -> A -> M S B)
    (s : S) (l : list A) : forall seen acc,
  I seen acc ->
  (forall seen acc x, I seen acc -> x ∈ l ->
     pure_post (I (seen ++ [x])) E s (body acc x s)) ->
  pure_post (I (seen ++ l)) E s (for_each l body acc s).
Proof.
  induction l as [|x l IH]; intros seen acc Hacc Hbody; simpl.
  { rewrite app_nil_r. by split. }
  eapply pure_post_bind; [apply Hbody; [done|left]|].
  intros acc' Hacc'. replace (seen ++ x :: l) with ((seen ++ [x]) ++ l)
    by by rewrite <-app_assoc.
  apply IH; [done|]. intros seen' acc'' y Hy Hin. apply Hbody; [done|by right].
Qed.

Lemma od_get_set {V} k (v : V) d k' :
  od_get (od_set k v d) k' = if decide (k = k') then Some v else od_get d k'.
Proof.
  induction d as [|[k0 v0] d IH]; simpl.
  - by repeat case_decide.
  - destruct (decide (k0 = k)) as [->|Hne]; simpl.
    + by repeat case_decide.
    + rewrite IH. repeat case_decide; congruence.
Qed.

Lemma od_keys_cons {V} k (v : V) d : od_keys ((k, v) :: d) = k :: od_keys d.
Proof. done. Qed.

Lemma od_keys_set {V} k (v : V) d :
  od_keys (od_set k v d) = if decide (k ∈ od_keys d) then od_keys d else od_keys d ++ [k].
Proof.
  induction d as [|[k0 v0] d IH]; [done|].
  cbn [od_set]. destruct (decide (k0 = k)) as [->|Hne].
  - rewrite !od_keys_cons. rewrite decide_True; [done|left].
  - rewrite !od_keys_cons, IH. destruct (decide (k ∈ od_keys d)) as [Hin|Hnot].
    + rewrite decide_True; [done|by right].
    + rewrite decide_False; [done|]. intros [->|?]%elem_of_cons; done.
Qed.

Lemma od_wf_set {V} k (v : V) d : od_wf d -> od_wf (od_set k v d).
Proof.
  unfold od_wf. rewrite od_keys_set. case_decide as Hk; [done|].
  intros Hnd. apply NoDup_app. split_and!; [done| |apply NoDup_singleton].
  by intros x Hx ->%list_elem_of_singleton.
Qed.

Lemma geom_by_name_keys (rows : list (string * geom)) :
  od_wf (geom_by_name rows) /\
  forall k, k ∈ od_keys (geom_by_name rows) <-> k ∈ od_keys rows.
Proof.
  unfold geom_by_name.
  assert (forall d : odict geom,
            od_wf d ->
            od_wf (fold_left (fun d row => od_set row.1 row.2 d) rows d) /\
            forall k, k ∈ od_keys (fold_left (fun d row => od_set row.1 row.2 d) rows d)
                      <-> k ∈ od_keys d \/ k ∈ od_keys rows) as Hgen.
  { induction rows as [|[n g] rows IH]; intros d Hd; simpl.
    - split; [done|]. intros k. rewrite elem_of_nil. tauto.
    - destruct (IH (od_set n g d) (od_wf_set n g d Hd)) as [Hwf Hkeys].
      split; [done|]. intros k. rewrite Hkeys, od_keys_set, elem_of_cons.
      case_decide; [|rewrite elem_of_app, list_elem_of_singleton]; naive_solver. }
  destruct (Hgen [] ltac:(constructor)) as [Hwf Hkeys]. split; [done|].
  intros k. rewrite Hkeys. unfold od_keys. simpl. rewrite elem_of_nil. tauto.
Qed.

Lemma iloc_names_post {S} (rows : list (string * geom)) idxs (s : S) :
  pure_post
    (fun names =>
       forall b, b ∈ names <-> exists i row, i ∈ idxs /\ rows !! i = Some row /\ row.1 = b)
    (fun e => e = IndexError) s (iloc_names rows idxs s).
Proof.
  unfold iloc_names.
  pose proof (pure_post_for_each
           (fun seen names =>
              forall b, b ∈ names <->
                exists i row, i ∈ seen /\ rows !! i = Some row /\ row.1 = b)
           (fun e => e = IndexError)
           (fun names i =>
              match rows !! i with
              | Some row => ret (names ++ [row.1])
              | None => raise IndexError
              end)
           s idxs [] []) as Hloop.
  simpl in Hloop. apply Hloop; clear Hloop.
  - intros b. rewrite elem_of_nil. split; [done|]. intros (i & _ & Hi & _).
    by apply elem_of_nil in Hi.
  - intros seen names i Hnames _. destruct (rows !! i) as [row|] eqn:Hrow; simpl; [|done].
    split; [done|]. intros b. rewrite elem_of_app, list_elem_of_singleton, Hnames. split.
    + intros [(j & r & Hj & Hr & Hb)| ->].
      * exists j, r. split_and!; [|done|done]. apply elem_of_app. by left.
      * exists i, row. split_and!; [|done|done]. apply elem_of_app. right.
        by apply list_elem_of_singleton.
    + intros (j & r & [Hj| ->%list_elem_of_singleton]%elem_of_app & Hr & Hb).
      * left. eauto.
      * right. congruence.
Qed.

Lemma touching_post {S} (rows : list (string * geom)) a a_geom candidates (s : S) :
  (forall b, b ∈ candidates -> b ∈ od_keys rows) ->
  pure_post
    (fun neigh_list =>
       forall b, b ∈ neigh_list <->
         b ≠ a /\ b ∈ candidates /\
         exists b_geom, od_get (geom_by_name rows) b = Some b_geom /\
                        touches a_geom b_geom = true)
    (fun e => e = IndexError) s
    (touching touches (geom_by_name rows) a a_geom candidates s).
Proof.
  intros Hcand. unfold touching.
  pose proof (pure_post_for_each
           (fun seen neigh_list =>
              forall b, b ∈ neigh_list <->
                b ≠ a /\ b ∈ seen /\
                exists b_geom, od_get (geom_by_name rows) b = Some b_geom /\
                               touches a_geom b_geom = true)
           (fun e => e = IndexError)
           (fun neigh_list b =>
              if decide (a = b) then ret neigh_list
              else
                let* b_geom := od_getitem (geom_by_name rows) b in
                if touches a_geom b_geom then ret (neigh_list ++ [b]) else ret neigh_list)
           s candidates [] []) as Hloop.
  simpl in Hloop. apply Hloop; clear Hloop.
  - intros b. rewrite !elem_of_nil. naive_solver.
  - intros seen neigh_list b Hinv Hb. case_decide as Hab.
    + split; [done|]. intros c. rewrite Hinv, elem_of_app, list_elem_of_singleton.
      naive_solver.
    + destruct (geom_by_name_keys rows) as [_ Hkeys].
      destruct (od_get_keys (geom_by_name rows) b) as [b_geom Hg];
        [by apply Hkeys, Hcand|].
      unfold bind, od_getitem. rewrite Hg. simpl.
      destruct (touches a_geom b_geom) eqn:Htouch; simpl; (split; [done|]); intros c.
      * rewrite !elem_of_app, Hinv, !list_elem_of_singleton. split.
        -- intros [(? & ? & ?)| ->]; [naive_solver|].
           split_and!; [by intros ->|by right|eauto].
        -- intros (Hne & [Hc| ->] & Hex); [left; done|by right].
      * rewrite Hinv, elem_of_app, list_elem_of_singleton. split; [naive_solver|].
        intros (Hne & [Hc| ->] & (c_geom & Hc_geom & Hc_touch)); [by eauto|].
        congruence.
Qed.

(** X15: [build_adjacency] gives a simple graph, whatever the spatial index
    proposes: its keys are the region names of the frame, no region is
    among its own neighbours, every neighbour is itself a key, and every
    neighbour list is sorted and without duplicates; a region B is a
    neighbour of A exactly when it differs from A, is named by a candidate
    row of A, and its geometry touches that of A. The only error is the
    IndexError of a candidate position past the last row. *)
Theorem build_adjacency_simple_graph {S} (regions_gdf : list (string * geom)) (s : S) :
  match build_adjacency touches _candidate_indices regions_gdf s with
  | Ret g s' =>
      s' = s /\ simple_graph g /\
      (forall A, A ∈ od_keys g <-> A ∈ od_keys regions_gdf) /\
      forall A l, od_get g A = Some l ->
        NoDup l /\ StronglySorted str_le l /\
        exists a_geom,
          od_get (geom_by_name regions_gdf) A = Some a_geom /\
          forall B, B ∈ l <->
            B ≠ A /\
            (exists i row,
               i ∈ _candidate_indices regions_gdf a_geom /\
               regions_gdf !! i = Some row /\ row.1 = B) /\
            exists b_geom,
              od_get (geom_by_name regions_gdf) B = Some b_geom /\
              touches a_geom b_geom = true
  | Exc e _ => e = IndexError
  | NoFuel => False
  end.
Proof.
  set (rows := regions_gdf).
  set (good := fun A l =>
         NoDup l /\ StronglySorted str_le l /\
         exists a_geom,
           od_get (geom_by_name rows) A = Some a_geom /\
           forall B, B ∈ l <->
             B ≠ A /\
             (exists i row,
                i ∈ _candidate_indices rows a_geom /\ rows !! i = Some row /\ row.1 = B) /\
             exists b_geom,
               od_get (geom_by_name rows) B = Some b_geom /\
               touches a_geom b_geom = true).
  destruct (geom_by_name_keys rows) as [Hwf Hkeys].
  pose proof (pure_post_for_each
           (fun seen (g : odict (list string)) =>
              od_wf g /\ (forall A, A ∈ od_keys g <-> A ∈ seen) /\
              forall A l, od_get g A = Some l -> good A l)
           (fun e => e = IndexError)
           (fun neighbors a =>
              let* a_geom := od_getitem (geom_by_name rows) a in
              let idxs := _candidate_indices rows a_geom in
              let* candidate_names := iloc_names rows idxs in
              let* neigh_list := touching touches (geom_by_name rows) a a_geom
                                   candidate_names in
              ret (od_set a (sorted_set neigh_list) neighbors))
           s (od_keys (geom_by_name rows)) [] []) as Hloop.
  simpl in Hloop. unfold build_adjacency.
  assert (forall (o : outcome S (odict (list string))),
            pure_post
              (fun g => od_wf g /\
                        (forall A, A ∈ od_keys g <-> A ∈ od_keys (geom_by_name rows)) /\
                        forall A l, od_get g A = Some l -> good A l)
              (fun e => e = IndexError) s o ->
            match o with
            | Ret g s' =>
                s' = s /\ simple_graph g /\
                (forall A, A ∈ od_keys g <-> A ∈ od_keys rows) /\
                forall A l, od_get g A = Some l -> good A l
            | Exc e _ => e = IndexError
            | NoFuel => False
            end) as Hfinal.
  { intros [g s'|e s'|]; simpl; [|done|done].
    intros (-> & Hg & Hgkeys & Hgood). split_and!; [done| | |done].
    - split; [done|]. apply Forall_forall. intros [A l] Hin. simpl.
      pose proof (od_get_elem _ _ _ Hg Hin) as Hl.
      destruct (Hgood A l Hl) as (_ & _ & a_geom & _ & Hiff). split.
      + intros HA%Hiff. by destruct HA.
      + apply Forall_forall. intros B HB%Hiff.
        destruct HB as (_ & (i & row & _ & Hrow & <-) & _).
        apply Hgkeys, Hkeys. unfold od_keys. apply list_elem_of_fmap.
        exists row. split; [done|]. by eapply list_elem_of_lookup_2.
    - intros A. split; intros HA; [by apply Hkeys, Hgkeys|by apply Hgkeys, Hkeys]. }
  apply Hfinal. apply Hloop; clear Hloop Hfinal.
  - split_and!; [constructor|done|done].
  - intros seen g a (Hg & Hgkeys & Hgood) Ha.
    destruct (od_get_keys (geom_by_name rows) a Ha) as [a_geom Ha_geom].
    apply (pure_post_bind _ _ (fun x => x = a_geom)).
    { unfold od_getitem. rewrite Ha_geom. by split. }
    intros ? ->.
    eapply pure_post_bind; [apply iloc_names_post|]. intros candidates Hcand.
    eapply pure_post_bind.
    { apply touching_post. intros b (i & row & _ & Hrow & <-)%Hcand.
      unfold od_keys. apply list_elem_of_fmap. exists row. split; [done|].
      by eapply list_elem_of_lookup_2. }
    intros neigh_list Hneigh. simpl. split; [done|]. split_and!.
    + by apply od_wf_set.
    + intros A. rewrite od_keys_set, elem_of_app, list_elem_of_singleton.
      case_decide as HA; [|rewrite elem_of_app, list_elem_of_singleton];
        rewrite Hgkeys; [|tauto]. split; [tauto|]. intros [?| ->]; [done|].
      by apply Hgkeys.
    + intros A l. rewrite od_get_set. case_decide as HA; [|by apply Hgood].
      intros [= <-]. subst A. split_and!.
      * apply NoDup_sorted_set.
      * apply Sorted_sorted_set.
      * exists a_geom. split; [done|]. intros B. simpl in Hneigh, Hcand. split.
        -- intros HB%elem_of_sorted_set%Hneigh. destruct HB as (? & Hc%Hcand & ?). done.
        -- intros (? & Hc%Hcand & ?). by apply elem_of_sorted_set, Hneigh.
Qed.

End BuildAdjacencySpec.

(** ** The rules of tic-tac-toe *)

Section RunLength.

Import TicTacToe.

Lemma run_bind_Done {A B} (a : A) (f : A -> run B) : (Done a ≫= f) = f a.
Proof. done. Qed.

Lemma run_bind_inv {A B} (m : run A) (f : A -> run B) b :
  m ≫= f = Done b -> exists a, m = Done a /\ f a = Done b.
Proof. destruct m as [a| |]; [|done..]. intros Hf. by exists a. Qed.

(** What a finished loop has counted. *)
Lemma run_length_spec fuel board player dx dy : forall x y n,
  run_length fuel board player x y dx dy = Done n ->
  (forall i : nat, i < n -> board !! (x + Z.of_nat i * dx, y + Z.of_nat i * dy)%Z = Some player) /\
  board !! (x + Z.of_nat n * dx, y + Z.of_nat n * dy)%Z ≠ Some player.
Proof.
  induction fuel as [|fuel IH]; intros x y n; simpl; [done|].
  case_decide as Hcell.
  - intros (m & Hm & [= <-])%run_bind_inv. destruct (IH _ _ _ Hm) as [Hall Hstop]. split.
    + intros [|i] Hi.
      * by rewrite !Z.mul_0_l, !Z.add_0_r.
      * specialize (Hall i ltac:(lia)).
        replace (x + Z.of_nat (S i) * dx)%Z with (x + dx + Z.of_nat i * dx)%Z by lia.
        by replace (y + Z.of_nat (S i) * dy)%Z with (y + dy + Z.of_nat i * dy)%Z by lia.
    + replace (x + Z.of_nat (S m) * dx)%Z with (x + dx + Z.of_nat m * dx)%Z by lia.
      by replace (y + Z.of_nat (S m) * dy)%Z with (y + dy + Z.of_nat m * dy)%Z by lia.
  - intros [= <-]. split; [lia|]. by rewrite !Z.mul_0_l, !Z.add_0_r.
Qed.

(** A cell behind the start of the loop is never read. *)
Lemma run_length_delete fuel board player dx dy : forall x y (j : Z),
  (dx, dy) ≠ (0, 0)%Z -> (1 <= j)%Z ->
  run_length fuel (delete (x - j * dx, y - j * dy)%Z board) player x y dx dy
  = run_length fuel board player x y dx dy.
Proof.
  induction fuel as [|fuel IH]; intros x y j Hdelta Hj; cbn [run_length]; [done|].
  rewrite lookup_delete_ne.
  2:{ intros [= Hx Hy]. apply Hdelta. f_equal; nia. }
  case_decide; [|done].
  specialize (IH (x + dx)%Z (y + dy)%Z (j + 1)%Z Hdelta ltac:(lia)).
  replace (x + dx - (j + 1) * dx)%Z with (x - j * dx)%Z in IH by lia.
  replace (y + dy - (j + 1) * dy)%Z with (y - j * dy)%Z in IH by lia.
  by rewrite IH.
Qed.

(** Along a direction that moves, the loop ends within the budget. *)
Lemma run_length_total dx dy player : forall n board x y,
  (dx, dy) ≠ (0, 0)%Z -> size board <= n ->
  exists m, run_length (S n) board player x y dx dy = Done m /\ m <= n.
Proof.
  induction n as [|n IH]; intros board x y Hdelta Hsize; simpl.
  - case_decide as Hcell; [|by exists 0].
    assert (board = ∅) as -> by (apply map_size_empty_inv; lia).
    by rewrite lookup_empty in Hcell.
  - case_decide as Hcell; [|exists 0; split; [done|lia]].
    destruct (IH (delete (x, y) board) (x + dx)%Z (y + dy)%Z Hdelta) as (m & Hm & Hle).
    { rewrite map_size_delete, Hcell. lia. }
    pose proof (run_length_delete (S n) board player dx dy (x + dx)%Z (y + dy)%Z 1
                  Hdelta ltac:(lia)) as Hdel.
    replace (x + dx - 1 * dx)%Z with x in Hdel by lia.
    replace (y + dy - 1 * dy)%Z with y in Hdel by lia.
    rewrite Hdel in Hm. simpl in Hm. rewrite Hm. exists (S m). split; [done|lia].
Qed.

(** On the spot the loop never ends, whatever the budget. *)
Lemma run_length_diverges fuel board player x y :
  board !! (x, y) = Some player ->
  run_length fuel board player x y 0 0 = Unfinished.
Proof.
  intros Hcell. induction fuel as [|fuel IH]; simpl; [done|].
  rewrite decide_True by done. rewrite !Z.add_0_r. by rewrite IH.
Qed.

End RunLength.

Section TicTacToeRules.

Variables h v k : Z.

Lemma k_in_row_counts (board : Board) (move : Move) (player : string) (delta : Move) :
  delta ≠ (0, 0)%Z ->
  exists b : bool,
    TicTacToe.k_in_row k board move player delta = Done b /\
    (b = true <-> in_a_row k board player move delta).
Proof.
  intros Hdelta. destruct delta as [dx dy]. destruct move as [x0 y0]. unfold TicTacToe.k_in_row.
  destruct (run_length_total dx dy player (size board) board (x0 + dx)%Z (y0 + dy)%Z
              Hdelta ltac:(done)) as (n1 & Hn1 & _).
  destruct (run_length_total (- dx)%Z (- dy)%Z player (size board) board
              (x0 - dx)%Z (y0 - dy)%Z) as (n2 & Hn2 & _); [|done|].
  { intros [= ? ?]. apply Hdelta. f_equal; lia. }
  rewrite Hn1, run_bind_Done, Hn2, run_bind_Done. eexists. split; [done|].
  destruct (run_length_spec _ _ _ _ _ _ _ _ Hn1) as [Hfwd Hfwd_stop].
  destruct (run_length_spec _ _ _ _ _ _ _ _ Hn2) as [Hback Hback_stop].
  rewrite bool_decide_eq_true. split.
  + intros Hk. exists (- Z.of_nat n2)%Z, (Z.of_nat n1). split_and!; [lia..|].
    intros t Ht Hne. simpl. destruct (decide (0 < t)%Z) as [Hpos|Hneg].
    * specialize (Hfwd (Z.to_nat (t - 1)) ltac:(lia)).
      rewrite Z2Nat.id in Hfwd by lia.
      replace (x0 + dx + (t - 1) * dx)%Z with (x0 + t * dx)%Z in Hfwd by ring.
      by replace (y0 + dy + (t - 1) * dy)%Z with (y0 + t * dy)%Z in Hfwd by ring.
    * specialize (Hback (Z.to_nat (- t - 1)) ltac:(lia)).
      rewrite Z2Nat.id in Hback by lia.
      replace (x0 - dx + (- t - 1) * - dx)%Z with (x0 + t * dx)%Z in Hback by ring.
      by replace (y0 - dy + (- t - 1) * - dy)%Z with (y0 + t * dy)%Z in Hback by ring.
  + intros (lo & hi & Hrange & Hk & Hline).
    assert (hi <= Z.of_nat n1)%Z as Hhi.
    { apply Z.le_ngt. intros Hlt. apply Hfwd_stop.
      specialize (Hline (Z.of_nat n1 + 1)%Z ltac:(lia) ltac:(lia)). simpl in Hline.
      replace (x0 + dx + Z.of_nat n1 * dx)%Z with (x0 + (Z.of_nat n1 + 1) * dx)%Z
        by ring.
      by replace (y0 + dy + Z.of_nat n1 * dy)%Z with (y0 + (Z.of_nat n1 + 1) * dy)%Z
        by ring. }
    assert (- Z.of_nat n2 <= lo)%Z as Hlo.
    { apply Z.le_ngt. intros Hlt. apply Hback_stop.
      specialize (Hline (- Z.of_nat n2 - 1)%Z ltac:(lia) ltac:(lia)). simpl in Hline.
      replace (x0 - dx + Z.of_nat n2 * - dx)%Z with (x0 + (- Z.of_nat n2 - 1) * dx)%Z
        by ring.
      by replace (y0 - dy + Z.of_nat n2 * - dy)%Z with (y0 + (- Z.of_nat n2 - 1) * dy)%Z
        by ring. }
    lia.
Qed.

(** X16: along a direction that moves, [k_in_row] returns, and returns True
    exactly when the move completes at least [k] cells in a row of the
    player along that direction, the cell of the move counting as the
    player's whatever the board holds there; for the direction (0, 0) on a
    cell that holds the player it never returns. *)
Theorem k_in_row_spec (board : Board) (move : Move) (player : string) :
  (forall delta : Move,
     delta ≠ (0, 0)%Z ->
     exists b : bool,
       TicTacToe.k_in_row k board move player delta = Done b /\
       (b = true <-> in_a_row k board player move delta)) /\
  (board !! move = Some player ->
   TicTacToe.k_in_row k board move player (0, 0)%Z = Unfinished /\
   forall fuel, TicTacToe.run_length fuel board player move.1 move.2 0 0 = Unfinished).
Proof.
  split.
  - intros delta Hdelta. by apply k_in_row_counts.
  - intros Hcell. destruct move as [x0 y0]. split.
    + unfold TicTacToe.k_in_row. replace (x0 + 0)%Z with x0 by lia.
      replace (y0 + 0)%Z with y0 by lia.
      by rewrite (run_length_diverges _ _ _ _ _ Hcell).
    + intros fuel. by apply run_length_diverges.
Qed.

Lemma compute_utility_spec (board : Board) (move : Move) (player : string) :
  exists won : bool,
    TicTacToe.compute_utility k board move player
    = Done (if won then if decide (player = "X") then 1 else -1 else 0)%Z /\
    (won = true <-> winning k board player move).
Proof.
  pose proof (k_in_row_counts board move player) as Hspec.
  destruct (Hspec (0, 1)%Z ltac:(done)) as (b1 & Hb1 & Hiff1).
  destruct (Hspec (1, 0)%Z ltac:(done)) as (b2 & Hb2 & Hiff2).
  destruct (Hspec (1, 1)%Z ltac:(done)) as (b3 & Hb3 & Hiff3).
  destruct (Hspec (1, -1)%Z ltac:(done)) as (b4 & Hb4 & Hiff4).
  unfold TicTacToe.compute_utility. rewrite Hb1, run_bind_Done.
  assert (forall delta, delta ∈ directions -> in_a_row k board player move delta ->
                        b1 = true \/ b2 = true \/ b3 = true \/ b4 = true) as Hdir.
  { unfold directions. intros delta Hdelta Hrow.
    repeat (apply elem_of_cons in Hdelta as [->|Hdelta]); [tauto..|].
    by apply elem_of_nil in Hdelta. }
  assert (forall delta, delta ∈ directions -> in_a_row k board player move delta ->
                        winning k board player move) as Hwin by (intros; by eexists).
  unfold directions in Hwin.
  destruct b1.
  { exists true. split; [done|]. split; [|done]. intros _.
    apply (Hwin (0, 1)%Z); [repeat constructor|tauto]. }
  rewrite Hb2, run_bind_Done. destruct b2.
  { exists true. split; [done|]. split; [|done]. intros _.
    apply (Hwin (1, 0)%Z); [repeat constructor|tauto]. }
  rewrite Hb3, run_bind_Done. destruct b3.
  { exists true. split; [done|]. split; [|done]. intros _.
    apply (Hwin (1, 1)%Z); [repeat constructor|tauto]. }
  rewrite Hb4, run_bind_Done. destruct b4.
  { exists true. split; [done|]. split; [|done]. intros _.
    apply (Hwin (1, -1)%Z); [repeat constructor|tauto]. }
  exists false. split; [done|]. split; [done|].
  intros (delta & Hdelta & Hrow). destruct (Hdir delta Hdelta Hrow) as [?|[?|[?|?]]]; done.
Qed.

Lemma result_illegal (state : GameState) (move : Move) :
  move ∉ moves state -> TicTacToe.result k state (Some move) = Done state.
Proof. intros Hmove. unfold TicTacToe.result. by rewrite decide_False. Qed.

Lemma result_legal (state : GameState) (move : Move) :
  move ∈ moves state ->
  exists won : bool,
    TicTacToe.result k state (Some move)
    = Done {| to_move := if decide (to_move state = "X") then "O" else "X";
              utility :=
                (if won then if decide (to_move state = "X") then 1 else -1 else 0)%Z;
              board := <[move := to_move state]> (board state);
              moves := list_remove move (moves state) |} /\
    (won = true <->
     winning k (<[move := to_move state]> (board state)) (to_move state) move).
Proof.
  intros Hmove. unfold TicTacToe.result. rewrite decide_True by done.
  destruct (compute_utility_spec (<[move := to_move state]> (board state)) move
              (to_move state)) as (won & Hu & Hwin).
  exists won. by rewrite Hu.
Qed.

(** X17: [result] always returns. Without a move, or for a move that is not
    among [state.moves], it returns the state as it is. For a legal move it
    marks the cell for the player to move, drops the move from [moves],
    hands the turn to "O" after "X" and to "X" after anyone else, and sets
    the utility to that of the move: 1 for "X" and -1 for anyone else when
    the move completes [k] in a row along one of the four directions, else
    0, whatever the utility was before. *)
Theorem result_spec (state : GameState) (move : Move) :
  TicTacToe.result k state None = Done state /\
  (move ∉ moves state -> TicTacToe.result k state (Some move) = Done state) /\
  (move ∈ moves state ->
   exists won : bool,
     TicTacToe.result k state (Some move)
     = Done {| to_move := if decide (to_move state = "X") then "O" else "X";
               utility :=
                 (if won then if decide (to_move state = "X") then 1 else -1 else 0)%Z;
               board := <[move := to_move state]> (board state);
               moves := list_remove move (moves state) |} /\
     (won = true <->
      winning k (<[move := to_move state]> (board state)) (to_move state) move)).
Proof.
  split_and!; [done|apply result_illegal|apply result_legal].
Qed.

End TicTacToeRules.

(** ** The states of a game of tic-tac-toe *)

Section Reachable.

Variables h v k : Z.

Lemma elem_of_range1 n x : x ∈ range1 n <-> (1 <= x <= n)%Z.
Proof.
  unfold range1. rewrite list_elem_of_fmap. split.
  - intros (i & -> & Hi%elem_of_seq). lia.
  - intros Hx. exists (Z.to_nat x). split; [lia|]. apply elem_of_seq. lia.
Qed.

Lemma NoDup_range1 n : NoDup (range1 n).
Proof.
  unfold range1. apply NoDup_fmap_2; [|apply NoDup_seq]. intros i j. lia.
Qed.

Lemma length_range1 n : length (range1 n) = Z.to_nat n.
Proof. unfold range1. by rewrite length_fmap, length_seq. Qed.

Lemma elem_of_cells (c : Move) :
  c ∈ moves (TicTacToe.initial h v) <-> (1 <= c.1 <= h)%Z /\ (1 <= c.2 <= v)%Z.
Proof.
  simpl. rewrite list_elem_of_bind. setoid_rewrite list_elem_of_bind.
  setoid_rewrite list_elem_of_singleton. setoid_rewrite elem_of_range1.
  destruct c as [x y]. simpl. split.
  - intros (x' & (y' & [= -> ->] & Hy) & Hx). done.
  - intros [Hx Hy]. exists x. split; [|done]. by exists y.
Qed.

Lemma NoDup_cells : NoDup (moves (TicTacToe.initial h v)).
Proof.
  simpl. apply NoDup_bind; [| |apply NoDup_range1].
  - intros x1 x2 c _ _ (y1 & ->%list_elem_of_singleton & _)%list_elem_of_bind
      (y2 & [= -> _]%list_elem_of_singleton & _)%list_elem_of_bind. done.
  - intros x _. apply NoDup_bind; [| |apply NoDup_range1].
    + intros y1 y2 c _ _ ->%list_elem_of_singleton [= ->]%list_elem_of_singleton. done.
    + intros y _. apply NoDup_singleton.
Qed.

Lemma length_bind_singleton {A B} (g : A -> B) (l : list A) :
  length (y ← l; [g y]) = length l.
Proof. induction l as [|y l IH]; [done|]. rewrite bind_cons. simpl. by rewrite IH. Qed.

Lemma length_cells : length (moves (TicTacToe.initial h v)) = Z.to_nat h * Z.to_nat v.
Proof.
  simpl. rewrite <-(length_range1 h), <-(length_range1 v).
  induction (range1 h) as [|x xs IH]; [done|].
  rewrite bind_cons, length_app, IH, length_bind_singleton. done.
Qed.

Lemma state_inv_initial : state_inv h v (TicTacToe.initial h v).
Proof.
  split; simpl.
  - by rewrite map_to_list_empty, app_nil_r.
  - intros c p Hc. by rewrite lookup_empty in Hc.
  - left. split; [done|]. rewrite map_size_empty. by exists 0.
  - by left.
Qed.

Lemma state_inv_free state c :
  state_inv h v state -> c ∈ moves state -> board state !! c = None.
Proof.
  intros [Hcells _ _ _] Hc.
  pose proof NoDup_cells as Hnd. rewrite <-Hcells in Hnd.
  apply NoDup_app in Hnd as (_ & Hdisj & _).
  destruct (board state !! c) as [p|] eqn:Hp; [|done].
  destruct (Hdisj c Hc). apply list_elem_of_fmap. exists (c, p). split; [done|].
  by apply elem_of_map_to_list.
Qed.

Lemma state_inv_result state move state' :
  state_inv h v state ->
  TicTacToe.result k state move = Done state' ->
  state_inv h v state'.
Proof.
  intros Hinv Hresult. destruct move as [move|]; [|by injection Hresult as <-].
  pose proof (result_illegal k state move) as Hillegal.
  pose proof (result_legal k state move) as Hlegal.
  destruct (decide (move ∈ moves state)) as [Hmove|Hmove].
  2:{ rewrite (Hillegal Hmove) in Hresult. by injection Hresult as <-. }
  destruct (Hlegal Hmove) as (won & Hrun & _). rewrite Hrun in Hresult.
  injection Hresult as <-.
  pose proof (state_inv_free state move Hinv Hmove) as Hfree.
  destruct Hinv as [Hcells Hmarks Hturn Hutil]. split; simpl.
  - rewrite <-Hcells. rewrite (map_to_list_insert _ _ _ Hfree). rewrite fmap_cons. simpl.
    pose proof (list_remove_perm move (moves state) Hmove) as Hperm.
    transitivity ((move :: list_remove move (moves state))
                  ++ (map_to_list (board state)).*1).
    + simpl. by rewrite Permutation_middle.
    + by rewrite <-Hperm.
  - intros c p. destruct (decide (move = c)) as [->|Hne].
    + rewrite lookup_insert_eq. intros [= <-]. destruct Hturn as [[-> _]|[-> _]]; auto.
    + rewrite lookup_insert_ne by done. apply Hmarks.
  - rewrite (map_size_insert_None _ _ _ Hfree).
    destruct Hturn as [[-> Heven]|[-> Hodd]]; simpl.
    + right. split; [done|]. by apply Nat.Odd_succ.
    + left. split; [done|]. by apply Nat.Even_succ.
  - destruct won; [|by left]. right.
    destruct Hturn as [[-> _]|[-> _]]; simpl; [by left|by right].
Qed.

Lemma reachable_state_inv (state : GameState) :
  reachable h v k state -> state_inv h v state.
Proof.
  induction 1 as [|state move state' _ IH Hresult]; [apply state_inv_initial|].
  by eapply state_inv_result.
Qed.

(** X18: every state of a game of tic-tac-toe, reached from the initial
    state by [result] with any moves, legal or not, keeps the board
    consistent: the free cells listed in [moves] and the marked cells of
    [board] are together the cells of the board, each once, so no cell is
    both free and marked, no move is listed twice, and their numbers add up
    to [h * v]; the marks are "X" and "O"; "X" is to move on an even number
    of marks and "O" on an odd number; the utility is 0, or 1 right after a
    move of "X", or -1 right after a move of "O". *)
Theorem reachable_invariant (state : GameState) :
  reachable h v k state ->
  state_inv h v state /\
  NoDup (moves state) /\
  (forall c, c ∈ moves state -> board state !! c = None) /\
  (forall c, c ∈ moves state \/ is_Some (board state !! c) <->
             (1 <= c.1 <= h)%Z /\ (1 <= c.2 <= v)%Z) /\
  length (moves state) + size (board state) = Z.to_nat h * Z.to_nat v.
Proof.
  intros Hreach.
  pose proof (reachable_state_inv state Hreach) as Hinv.
  split; [done|]. pose proof Hinv as [Hcells _ _ _].
  pose proof NoDup_cells as Hnd. rewrite <-Hcells in Hnd.
  split_and!.
  - by apply NoDup_app in Hnd as (? & _ & _).
  - intros c. by apply state_inv_free.
  - intros c. rewrite <-elem_of_cells, <-Hcells, elem_of_app. f_equiv.
    rewrite list_elem_of_fmap. split.
    + intros [p Hp]. exists (c, p). split; [done|]. by apply elem_of_map_to_list.
    + intros ([c' p] & -> & Hp%elem_of_map_to_list). by exists p.
  - rewrite <-length_cells, <-Hcells, length_app, length_fmap.
    by rewrite length_map_to_list.
Qed.

End Reachable.

(** ** Playing a game *)

Section PlayGame.

Variables h v k : Z.

Lemma random_player_legal (game : Game.methods) ok : plays_legal game ok random_player.
Proof.
  intros state io _. unfold random_player.
  destruct (Game.actions game state) as [|m rest] eqn:Hactions.
  - exists None, io. by split.
  - eexists _, _. split; [reflexivity|]. intros _. eexists. split; [done|]. simpl.
    set (i := draws (io_rand io) (pos (io_rand io)) mod length (m :: rest)).
    destruct (lookup_lt_is_Some_2 (m :: rest) i) as [y Hy].
    { apply Nat.mod_upper_bound. done. }
    change (nth i (m :: rest) m ∈ m :: rest).
    rewrite (nth_lookup_Some _ _ m _ Hy). by eapply list_elem_of_lookup_2.
Qed.

Lemma reachable_game_over state io out :
  reachable h v k state ->
  TicTacToe.terminal_test state = true ->
  io_stdout io = out ->
  game_over h v k (TicTacToe.utility state "X")
    (print (TicTacToe.display h v state) io).
Proof.
  intros Hreach Hterm Hout. exists state, out. split_and!; [done|done|done| |].
  - destruct (reachable_state_inv h v k state Hreach) as [_ _ _ Hutil].
    unfold TicTacToe.utility. simpl. lia.
  - simpl. by rewrite Hout.
Qed.

Lemma length_list_remove (m : Move) (l : list Move) :
  m ∈ l -> S (length (list_remove m l)) = length l.
Proof. intros Hm. by rewrite (list_remove_perm m l Hm) at 2. Qed.

(** One pass over the players from a state that is not terminal. *)
Lemma play_round_spec (players : list Game.player) : forall state io,
  Forall (plays_legal (TicTacToe.game h v k) (reachable h v k)) players ->
  reachable h v k state ->
  TicTacToe.terminal_test state = false ->
  exists r io',
    Game.play_round (TicTacToe.game h v k) players state io = Done (r, io') /\
    match r with
    | inl u => game_over h v k u io'
    | inr state' =>
        reachable h v k state' /\ TicTacToe.terminal_test state' = false /\
        length (moves state') + length players = length (moves state)
    end.
Proof.
  induction players as [|p players IH]; intros state io Hlegal Hreach Hterm; simpl.
  { exists (inr state), io. split; [done|]. split_and!; [done|done|lia]. }
  apply Forall_cons in Hlegal as [Hp Hlegal].
  destruct (Hp state io Hreach) as (move & io1 & Hmove & Hlegal_move).
  rewrite Hmove. simpl.
  assert (moves state ≠ []) as Hmoves.
  { unfold TicTacToe.terminal_test in Hterm. apply orb_false_iff in Hterm as [_ Hlen].
    apply bool_decide_eq_false in Hlen. by destruct (moves state). }
  destruct (Hlegal_move Hmoves) as (m & -> & Hm). simpl in Hm.
  pose proof (result_legal k state m) as Hresult.
  destruct (Hresult Hm) as (won & Hrun & _). rewrite Hrun. simpl.
  set (state' := {| to_move := _; utility := _; board := _; moves := _ |}) in *.
  assert (reachable h v k state') as Hreach' by (by eapply reachable_result).
  destruct (TicTacToe.terminal_test state') eqn:Hterm'.
  - eexists (inl _), _. split; [done|]. by eapply reachable_game_over.
  - destruct (IH state' io1 Hlegal Hreach' Hterm') as (r & io' & Hround & Hr).
    exists r, io'. split; [done|]. destruct r as [u|state'']; [done|].
    destruct Hr as (? & ? & Hlen). split_and!; [done|done|].
    simpl in Hlen. pose proof (length_list_remove m (moves state) Hm). lia.
Qed.

Lemma play_loop_spec (players : list Game.player) (fuel : nat) : forall state io,
  players ≠ [] ->
  Forall (plays_legal (TicTacToe.game h v k) (reachable h v k)) players ->
  reachable h v k state ->
  TicTacToe.terminal_test state = false ->
  length (moves state) <= fuel ->
  exists u io',
    Game.play_loop fuel (TicTacToe.game h v k) players state io = Done (u, io') /\
    game_over h v k u io'.
Proof.
  induction fuel as [|fuel IH]; intros state io Hne Hlegal Hreach Hterm Hfuel.
  { unfold TicTacToe.terminal_test in Hterm. apply orb_false_iff in Hterm as [_ Hlen].
    apply bool_decide_eq_false in Hlen. lia. }
  simpl. destruct (play_round_spec players state io Hlegal Hreach Hterm)
    as (r & io' & -> & Hr). simpl.
  destruct r as [u|state']; [by exists u, io'|].
  destruct Hr as (Hreach' & Hterm' & Hlen). apply IH; [done..|].
  destruct players; [done|]. simpl in Hlen. lia.
Qed.

(** X19: a game of tic-tac-toe between players that, in the states of the
    game, always answer with a legal move ends: [play_game] returns after at most [h * v] moves, in a
    terminal state reached by the rules, with the utility of that state for
    "X", which is 0, 1 or -1, and the display of that state printed last.
    Called without players it never returns. *)
Theorem play_game_ends (players : list Game.player) (fuel : nat) (io : GameIO) :
  (players ≠ [] ->
   Forall (plays_legal (TicTacToe.game h v k) (reachable h v k)) players ->
   Z.to_nat h * Z.to_nat v < fuel ->
   exists u io',
     Game.play_game fuel (TicTacToe.game h v k) players io = Done (u, io') /\
     game_over h v k u io') /\
  Game.play_game fuel (TicTacToe.game h v k) [] io = Unfinished.
Proof.
  split.
  - intros Hne Hlegal Hfuel. unfold Game.play_game.
    destruct (TicTacToe.terminal_test (TicTacToe.initial h v)) eqn:Hterm.
    + destruct fuel as [|fuel]; [lia|]. destruct players as [|p players]; [done|].
      apply Forall_cons in Hlegal as [Hp _]. simpl.
      destruct (Hp (TicTacToe.initial h v) io ltac:(constructor))
        as (move & io1 & -> & _). simpl.
      assert (moves (TicTacToe.initial h v) = []) as Hnil.
      { unfold TicTacToe.terminal_test in Hterm.
        apply orb_true_iff in Hterm as [Hu%bool_decide_eq_true|Hl%bool_decide_eq_true].
        - done.
        - by apply nil_length_inv. }
      assert (TicTacToe.result k (TicTacToe.initial h v) move
              = Done (TicTacToe.initial h v)) as ->.
      { destruct move as [m|]; [|done]. unfold TicTacToe.result.
        rewrite decide_False; [done|]. rewrite Hnil. apply not_elem_of_nil. }
      simpl. rewrite Hterm.
      eexists _, _. split; [done|]. eapply reachable_game_over; [constructor|done|done].
    + apply play_loop_spec; [done|done|constructor|done|].
      change (length (moves (TicTacToe.initial h v)) <= fuel).
      rewrite length_cells. lia.
  - unfold Game.play_game. generalize (Game.initial (TicTacToe.game h v k)).
    induction fuel as [|fuel IH]; intros state; [done|]. simpl. apply IH.
Qed.

End PlayGame.

(** ** The minimax decision *)

Section MinimaxDecision.

Lemma max_by_loop_spec {A} (key : A -> run Z) (l : list A) : forall best best_key r,
  max_by_loop key l best best_key = Done r ->
  exists r_key,
    ((r = best /\ r_key = best_key) \/ (r ∈ l /\ key r = Done r_key)) /\
    (best_key <= r_key)%Z /\
    forall x, x ∈ l -> exists kx, key x = Done kx /\ (kx <= r_key)%Z.
Proof.
  induction l as [|x l IH]; intros best best_key r; simpl.
  { intros [= <-]. exists best_key. split_and!; [by left|lia|].
    intros x Hx. by apply elem_of_nil in Hx. }
  intros (kx & Hkx & Hrest)%run_bind_inv.
  destruct (Z.ltb_spec best_key kx) as [Hlt|Hge].
  - destruct (IH _ _ _ Hrest) as (r_key & Hr & Hle & Hall). exists r_key. split_and!.
    + right. destruct Hr as [[-> ->]|[Hr Hkey]]; [by split; [left|]|by split; [right|]].
    + lia.
    + intros y [->|Hy]%elem_of_cons; [|by apply Hall]. exists kx. split; [done|lia].
  - destruct (IH _ _ _ Hrest) as (r_key & Hr & Hle & Hall). exists r_key. split_and!.
    + destruct Hr as [[-> ->]|[Hr Hkey]]; [by left|right; by split; [right|]].
    + done.
    + intros y [->|Hy]%elem_of_cons; [|by apply Hall]. exists kx. split; [done|lia].
Qed.

Variable game : Game.methods.

(** X20: when [minmax_decision] returns, it returns None exactly when the
    state has no action, and otherwise an action of the state whose value,
    the minimax value of the state after it, is the greatest among the
    actions. *)
Theorem minmax_decision_best (fuel : nat) (state : GameState) (m : option Move) :
  minmax_decision fuel state game = Done m ->
  (m = None <-> Game.actions game state = []) /\
  forall a, m = Some a ->
    a ∈ Game.actions game state /\
    exists t,
      move_value fuel state game a = Done t /\
      forall b, b ∈ Game.actions game state ->
        exists tb, move_value fuel state game b = Done tb /\ (tb <= t)%Z.
Proof.
  unfold minmax_decision. fold (move_value fuel state game).
  destruct (Game.actions game state) as [|a0 rest] eqn:Hactions.
  { intros [= <-]. split; [done|]. by intros a. }
  intros (k0 & Hk0 & (best & Hbest & [= <-])%run_bind_inv)%run_bind_inv.
  split; [done|]. intros a [= <-].
  destruct (max_by_loop_spec _ _ _ _ _ Hbest) as (t & Hr & Hle & Hall).
  split.
  - destruct Hr as [[-> _]|[Hr _]]; [left|by right].
  - exists t. split.
    + destruct Hr as [[-> ->]|[_ Hkey]]; done.
    + intros b [->|Hb]%elem_of_cons; [|by apply Hall]. by exists k0.
Qed.

End MinimaxDecision.

(** ** Alpha-beta search against minimax *)

(** Case analysis on the numbers in sight, down to linear arithmetic. *)
Ltac num_cases :=
  repeat match goal with n : number |- _ => destruct n end;
  unfold py_max, py_min, num_ge in *;
  cbn [num_lt negb py_int] in *;
  repeat match goal with
         | H : context [(?a <? ?b)%Z] |- _ =>
             destruct (Z.ltb_spec a b); cbn [num_lt negb py_int] in *
         | |- context [(?a <? ?b)%Z] =>
             destruct (Z.ltb_spec a b); cbn [num_lt negb py_int] in *
         end;
  repeat match goal with
         | H : ?b = ?b -> _ |- _ => specialize (H eq_refl)
         | H : true = false -> _ |- _ => clear H
         | H : false = true -> _ |- _ => clear H
         end;
  simplify_eq; try done; try lia; try (f_equal; lia).

Section AlphaBeta.

Variable game : Game.methods.
Variable player : string.

Lemma py_max_NegInf a : py_max a NegInf = a.
Proof. by destruct a. Qed.

Lemma py_min_PosInf b : py_min b PosInf = b.
Proof. by destruct b. Qed.

Section Loops.

Variable mm : GameState -> run Z.
Variable ab : GameState -> number -> number -> run Z.
Hypothesis ab_ok : forall s' alpha beta x,
  num_lt alpha beta = true -> mm s' = Done x ->
  exists r, ab s' alpha beta = Done r /\ within_window alpha beta x r.

Lemma fold_max_ge s (acts : list Move) : forall acc vT,
  run_fold (fun v a => s' ← Game.result game s (Some a); x ← mm s';
                       Done (py_max v (Int x))) acts acc = Done vT ->
  num_lt vT acc = false.
Proof.
  clear ab_ok.
  induction acts as [|a acts IH]; intros acc vT; simpl.
  { intros [= <-]. num_cases. }
  intros (acc' & (s' & Hs' & (x & Hx & [= <-])%run_bind_inv)%run_bind_inv
          & Hrest)%run_bind_inv.
  apply IH in Hrest. clear IH Hx. num_cases.
Qed.

Lemma fold_min_le s (acts : list Move) : forall acc vT,
  run_fold (fun v a => s' ← Game.result game s (Some a); x ← mm s';
                       Done (py_min v (Int x))) acts acc = Done vT ->
  num_lt acc vT = false.
Proof.
  clear ab_ok.
  induction acts as [|a acts IH]; intros acc vT; simpl.
  { intros [= <-]. num_cases. }
  intros (acc' & (s' & Hs' & (x & Hx & [= <-])%run_bind_inv)%run_bind_inv
          & Hrest)%run_bind_inv.
  apply IH in Hrest. clear IH Hx. num_cases.
Qed.

(** The loop of [max_value] with pruning against the loop without: [v0]
    and [vT0] are the values of [v] in the two when the actions [acts] are
    left. *)
Lemma alpha_beta_max_loop_ok s alpha0 beta : forall acts v0 vT0 vT T,
  num_lt alpha0 beta = true ->
  num_lt v0 beta = true ->
  (num_lt alpha0 v0 = false -> num_lt v0 vT0 = false) ->
  (num_lt alpha0 v0 = true -> vT0 = v0) ->
  run_fold (fun v a => s' ← Game.result game s (Some a); x ← mm s';
                       Done (py_max v (Int x))) acts vT0 = Done vT ->
  py_int vT = Done T ->
  exists r, alpha_beta_max_loop game ab s beta acts v0 (py_max alpha0 v0) = Done r /\
            within_window alpha0 beta T r.
Proof.
  induction acts as [|a acts IH]; intros v0 vT0 vT T Hab Hv0 I1 I2; simpl.
  { intros [= <-] HT. unfold within_window. clear ab_ok.
    destruct v0 as [|r|]; [| |num_cases].
    - num_cases.
    - exists r. split; [done|]. num_cases. }
  intros (acc' & (s' & Hs' & (x & Hx & [= <-])%run_bind_inv)%run_bind_inv
          & Hrest)%run_bind_inv HT.
  rewrite Hs', run_bind_Done.
  destruct (ab_ok s' (py_max alpha0 v0) beta x) as (r & Hr & Hwin); [|done|].
  { clear -Hab Hv0. num_cases. }
  rewrite Hr, run_bind_Done. cbv zeta.
  destruct (num_ge (py_max v0 (Int r)) beta) eqn:Hcut.
  - apply fold_max_ge in Hrest. exists r. unfold within_window in *. clear IH ab_ok Hr Hx Hs'.
    destruct Hwin as (W1 & W2 & W3). split; [num_cases|]. num_cases.
  - assert (py_max (py_max alpha0 v0) (py_max v0 (Int r))
            = py_max alpha0 (py_max v0 (Int r))) as -> by (clear; num_cases).
    apply (IH (py_max v0 (Int r)) (py_max vT0 (Int x)) vT T Hab);
      [| | |exact Hrest|exact HT];
      unfold within_window in *; destruct Hwin as (W1 & W2 & W3);
      revert W1 W2 W3 I1 I2 Hcut Hab Hv0; clear; intros; num_cases.
Qed.

(** The same for the loop of [min_value]. *)
Lemma alpha_beta_min_loop_ok s alpha beta0 : forall acts v0 vT0 vT T,
  num_lt alpha beta0 = true ->
  num_lt alpha v0 = true ->
  (num_lt v0 beta0 = false -> num_lt vT0 v0 = false) ->
  (num_lt v0 beta0 = true -> vT0 = v0) ->
  run_fold (fun v a => s' ← Game.result game s (Some a); x ← mm s';
                       Done (py_min v (Int x))) acts vT0 = Done vT ->
  py_int vT = Done T ->
  exists r, alpha_beta_min_loop game ab s alpha acts v0 (py_min beta0 v0) = Done r /\
            within_window alpha beta0 T r.
Proof.
  induction acts as [|a acts IH]; intros v0 vT0 vT T Hab Hv0 I1 I2; simpl.
  { intros [= <-] HT. unfold within_window. clear ab_ok.
    destruct v0 as [|r|]; [num_cases| |].
    - exists r. split; [done|]. num_cases.
    - num_cases. }
  intros (acc' & (s' & Hs' & (x & Hx & [= <-])%run_bind_inv)%run_bind_inv
          & Hrest)%run_bind_inv HT.
  rewrite Hs', run_bind_Done.
  destruct (ab_ok s' alpha (py_min beta0 v0) x) as (r & Hr & Hwin); [|done|].
  { clear -Hab Hv0. num_cases. }
  rewrite Hr, run_bind_Done. cbv zeta.
  destruct (num_ge alpha (py_min v0 (Int r))) eqn:Hcut.
  - apply fold_min_le in Hrest. exists r. unfold within_window in *. clear IH ab_ok Hr Hx Hs'.
    destruct Hwin as (W1 & W2 & W3). split; [num_cases|]. num_cases.
  - assert (py_min (py_min beta0 v0) (py_min v0 (Int r))
            = py_min beta0 (py_min v0 (Int r))) as -> by (clear; num_cases).
    apply (IH (py_min v0 (Int r)) (py_min vT0 (Int x)) vT T Hab);
      [| | |exact Hrest|exact HT];
      unfold within_window in *; destruct Hwin as (W1 & W2 & W3);
      revert W1 W2 W3 I1 I2 Hcut Hab Hv0; clear; intros; num_cases.
Qed.

End Loops.

(** The nested functions of [alpha_beta_search] against those of
    [minmax_decision], on any window that is not empty. *)
Lemma alpha_beta_values_ok (fuel : nat) :
  (forall s alpha beta x,
     num_lt alpha beta = true ->
     minmax_max_value game player fuel s = Done x ->
     exists r, alpha_beta_max_value game player fuel s alpha beta = Done r /\
               within_window alpha beta x r) /\
  (forall s alpha beta x,
     num_lt alpha beta = true ->
     minmax_min_value game player fuel s = Done x ->
     exists r, alpha_beta_min_value game player fuel s alpha beta = Done r /\
               within_window alpha beta x r).
Proof.
  induction fuel as [|fuel [IHmax IHmin]]; [done|].
  split; intros s alpha beta x Hab; simpl.
  - destruct (Game.terminal_test game s).
    { intros [= <-]. eexists. split; [done|]. unfold within_window. split_and!; [lia..|done]. }
    intros (vT & Hfold & HT)%run_bind_inv.
    pose proof (alpha_beta_max_loop_ok _ _ IHmin s alpha beta (Game.actions game s)
                  NegInf NegInf vT x Hab) as Hloop.
    rewrite py_max_NegInf in Hloop. apply Hloop; [|done|done|done|done].
    clear -Hab. num_cases.
  - destruct (Game.terminal_test game s).
    { intros [= <-]. eexists. split; [done|]. unfold within_window. split_and!; [lia..|done]. }
    intros (vT & Hfold & HT)%run_bind_inv.
    pose proof (alpha_beta_min_loop_ok _ _ IHmax s alpha beta (Game.actions game s)
                  PosInf PosInf vT x Hab) as Hloop.
    rewrite py_min_PosInf in Hloop. apply Hloop; [|done|done|done|done].
    clear -Hab. num_cases.
Qed.

End AlphaBeta.

Section AlphaBetaSearch.

Variable game : Game.methods.

Lemma alpha_beta_root_loop (fuel : nat) (state : GameState) :
  forall rest best best_key m,
    max_by_loop (move_value fuel state game) rest best best_key = Done m ->
    exists score,
      run_fold
        (fun '(best_score, best_action) a =>
           s' ← Game.result game state (Some a);
           v ← alpha_beta_min_value game (Game.to_move game state) fuel s'
                 best_score PosInf;
           if num_lt best_score (Int v) then Done (Int v, Some a)
           else Done (best_score, best_action))
        rest (Int best_key, Some best)
      = Done (Int score, Some m).
Proof.
  induction rest as [|a rest IH]; intros best best_key m; simpl.
  { intros [= <-]. by exists best_key. }
  intros (t & (s' & Hs' & Ht)%run_bind_inv & Hrest)%run_bind_inv.
  rewrite Hs', run_bind_Done.
  destruct (proj2 (alpha_beta_values_ok game (Game.to_move game state) fuel)
              s' (Int best_key) PosInf t eq_refl Ht) as (r & Hr & W1 & W2 & W3).
  rewrite Hr, run_bind_Done. simpl in *.
  destruct (Z.ltb_spec best_key r) as [Hlt|Hge].
  - rewrite <-(W3 eq_refl eq_refl) in *.
    destruct (Z.ltb_spec best_key t); [|lia]. by apply IH.
  - specialize (W1 eq_refl).
    destruct (Z.ltb_spec best_key t); [lia|]. by apply IH.
Qed.

Lemma alpha_beta_search_of_minmax (fuel : nat) (state : GameState) (m : option Move) :
  minmax_decision fuel state game = Done m ->
  alpha_beta_search fuel state game = Done m.
Proof.
  unfold minmax_decision, alpha_beta_search. fold (move_value fuel state game).
  destruct (Game.actions game state) as [|a rest]; [by intros [= <-]|].
  intros (t & (s' & Hs' & Ht)%run_bind_inv & (best & Hbest & [= <-])%run_bind_inv)%run_bind_inv.
  simpl. rewrite Hs', run_bind_Done.
  destruct (proj2 (alpha_beta_values_ok game (Game.to_move game state) fuel)
              s' NegInf PosInf t eq_refl Ht) as (r & Hr & W1 & W2 & W3).
  rewrite Hr, run_bind_Done. simpl in *. rewrite <-(W3 eq_refl eq_refl).
  destruct (alpha_beta_root_loop fuel state rest a t best Hbest) as (score & ->).
  done.
Qed.

(** X21: whenever [minmax_decision] returns, [alpha_beta_search] returns
    too, and returns the same move: pruning changes neither the choice nor
    how ties between moves of equal value are broken. *)
Theorem alpha_beta_search_agrees (fuel : nat) (state : GameState) (m : option Move) :
  minmax_decision fuel state game = Done m ->
  alpha_beta_search fuel state game = Done m.
Proof. apply alpha_beta_search_of_minmax. Qed.

End AlphaBetaSearch.

Section SearchPlayers.

Variables h v k : Z.

Lemma minmax_max_value_S game player fuel s :
  minmax_max_value game player (S fuel) s
  = if Game.terminal_test game s then Done (Game.utility game s player)
    else v ← run_fold (fun v a => s' ← Game.result game s (Some a);
                                  x ← minmax_min_value game player fuel s';
                                  Done (py_max v (Int x)))
               (Game.actions game s) NegInf;
         py_int v.
Proof. done. Qed.

Lemma minmax_min_value_S game player fuel s :
  minmax_min_value game player (S fuel) s
  = if Game.terminal_test game s then Done (Game.utility game s player)
    else v ← run_fold (fun v a => s' ← Game.result game s (Some a);
                                  x ← minmax_max_value game player fuel s';
                                  Done (py_min v (Int x)))
               (Game.actions game s) PosInf;
         py_int v.
Proof. done. Qed.

Lemma minmax_fold_total game (mm : GameState -> run Z)
    (pick : number -> number -> number) (bad : number) (s : GameState) :
  (forall z, bad ≠ Int z) ->
  (forall a b, a ≠ bad -> exists z, pick a (Int b) = Int z) ->
  forall acts acc,
    acc ≠ bad ->
    (forall a, a ∈ acts -> exists s' x,
        Game.result game s (Some a) = Done s' /\ mm s' = Done x) ->
    exists vT,
      run_fold (fun v a => s' ← Game.result game s (Some a); x ← mm s';
                           Done (pick v (Int x))) acts acc = Done vT /\
      (acts ≠ [] -> exists z, vT = Int z).
Proof.
  intros Hbad Hpick. induction acts as [|a acts IH]; intros acc Hacc Hall; cbn [run_fold].
  { by exists acc. }
  destruct (Hall a) as (s' & x & Hs' & Hx); [left|].
  rewrite Hs', run_bind_Done, Hx, !run_bind_Done.
  destruct (Hpick acc x Hacc) as [z Hz].
  destruct (IH (pick acc (Int x))) as (vT & Hfold & HvT).
  { rewrite Hz. intros Heq. by destruct (Hbad z). }
  { intros b Hb. apply Hall. by right. }
  exists vT. split; [done|]. intros _.
  destruct acts as [|b acts]; [|by apply HvT].
  injection Hfold as <-. by exists z.
Qed.

Lemma py_max_Int a b : a ≠ PosInf -> exists z, py_max a (Int b) = Int z.
Proof.
  intros Ha. destruct a; unfold py_max; simpl; [by eexists| |done].
  destruct (_ <? _)%Z; by eexists.
Qed.

Lemma py_min_Int a b : a ≠ NegInf -> exists z, py_min a (Int b) = Int z.
Proof.
  intros Ha. destruct a; unfold py_min; simpl; [done| |by eexists].
  destruct (_ <? _)%Z; by eexists.
Qed.

Lemma result_shrinks (s : GameState) (a : Move) :
  a ∈ moves s ->
  exists s', TicTacToe.result k s (Some a) = Done s' /\
             S (length (moves s')) = length (moves s).
Proof.
  intros Ha. pose proof (result_legal k s a) as Hlegal.
  destruct (Hlegal Ha) as (won & -> & _). eexists. split; [done|]. simpl.
  by apply length_list_remove.
Qed.

Lemma minmax_values_total (player : string) : forall fuel s,
  length (moves s) < fuel ->
  (exists x, minmax_max_value (TicTacToe.game h v k) player fuel s = Done x) /\
  (exists x, minmax_min_value (TicTacToe.game h v k) player fuel s = Done x).
Proof.
  induction fuel as [|fuel IH]; intros s Hlen; [lia|].
  rewrite minmax_max_value_S, minmax_min_value_S.
  destruct (Game.terminal_test (TicTacToe.game h v k) s) eqn:Hterm; [split; by eexists|].
  change (TicTacToe.terminal_test s = false) in Hterm.
  change (Game.actions (TicTacToe.game h v k) s) with (moves s).
  assert (moves s ≠ []) as Hmoves.
  { intros Hnil. unfold TicTacToe.terminal_test in Hterm. rewrite Hnil in Hterm.
    simpl in Hterm. by rewrite orb_true_r in Hterm. }
  assert (forall a, a ∈ moves s -> exists s',
             Game.result (TicTacToe.game h v k) s (Some a) = Done s' /\
             length (moves s') < fuel)
    as Hchild.
  { intros a Ha. destruct (result_shrinks s a Ha) as (s' & Hs' & Hlen').
    exists s'. split; [done|lia]. }
  split.
  - destruct (minmax_fold_total (TicTacToe.game h v k)
                (minmax_min_value (TicTacToe.game h v k) player fuel) py_max PosInf s
                ltac:(done) py_max_Int (moves s) NegInf ltac:(done)) as (vT & -> & HvT).
    { intros a Ha. destruct (Hchild a Ha) as (s' & Hs' & Hlen').
      destruct (proj2 (IH s' Hlen')) as [x Hx]. by exists s', x. }
    destruct (HvT Hmoves) as [z ->]. by exists z.
  - destruct (minmax_fold_total (TicTacToe.game h v k)
                (minmax_max_value (TicTacToe.game h v k) player fuel) py_min NegInf s
                ltac:(done) py_min_Int (moves s) PosInf ltac:(done)) as (vT & -> & HvT).
    { intros a Ha. destruct (Hchild a Ha) as (s' & Hs' & Hlen').
      destruct (proj1 (IH s' Hlen')) as [x Hx]. by exists s', x. }
    destruct (HvT Hmoves) as [z ->]. by exists z.
Qed.

Lemma max_by_loop_total {A} (key : A -> run Z) : forall l best best_key,
  (forall x, x ∈ l -> exists t, key x = Done t) ->
  exists r, max_by_loop key l best best_key = Done r /\ (r = best \/ r ∈ l).
Proof.
  induction l as [|x l IH]; intros best best_key Hall; simpl.
  { exists best. by split; [|left]. }
  destruct (Hall x) as [t ->]; [left|]. rewrite run_bind_Done.
  destruct (best_key <? t)%Z.
  - destruct (IH x t) as (r & -> & Hr); [intros; apply Hall; by right|].
    exists r. split; [done|]. right. destruct Hr as [->|Hr]; [left|by right].
  - destruct (IH best best_key) as (r & -> & Hr); [intros; apply Hall; by right|].
    exists r. split; [done|]. destruct Hr as [->|Hr]; [by left|right; by right].
Qed.

Lemma minmax_decision_eq (fuel : nat) (state : GameState) (game : Game.methods) :
  minmax_decision fuel state game
  = match Game.actions game state with
    | [] => Done None
    | a :: rest =>
        t ← move_value fuel state game a;
        best ← max_by_loop (move_value fuel state game) rest a t;
        Done (Some best)
    end.
Proof. done. Qed.

Lemma minmax_decision_total (fuel : nat) (state : GameState) :
  length (moves state) <= fuel ->
  exists m, minmax_decision fuel state (TicTacToe.game h v k) = Done m /\
            (moves state ≠ [] -> exists a, m = Some a /\ a ∈ moves state).
Proof.
  intros Hlen. rewrite minmax_decision_eq.
  change (Game.actions (TicTacToe.game h v k) state) with (moves state).
  destruct (moves state) as [|a rest] eqn:Hmoves; [by exists None|].
  assert (forall b, b ∈ a :: rest -> exists t,
             move_value fuel state (TicTacToe.game h v k) b = Done t) as Hkey.
  { intros b Hb. rewrite <-Hmoves in Hb. unfold move_value.
    change (Game.result (TicTacToe.game h v k) state (Some b))
      with (TicTacToe.result k state (Some b)).
    destruct (result_shrinks state b Hb) as (s' & -> & Hlen').
    rewrite run_bind_Done. apply minmax_values_total. rewrite Hmoves in Hlen'.
    simpl in *. lia. }
  destruct (Hkey a) as [t ->]; [left|]. rewrite run_bind_Done.
  destruct (max_by_loop_total (move_value fuel state (TicTacToe.game h v k)) rest a t)
    as (r & -> & Hr).
  { intros b Hb. apply Hkey. by right. }
  exists (Some r). split; [done|]. intros _. exists r. split; [done|].
  destruct Hr as [->|Hr]; [left|by right].
Qed.

(** X22: on a state of tic-tac-toe with at most [fuel] free cells, both
    [minmax_player] and [alpha_beta_player] return, raise nothing, leave the
    random generator and the output alone, and answer with the same move:
    one of the free cells when there is one, None when the board is full. *)
Theorem search_players_move (fuel : nat) (state : GameState) (io : GameIO) :
  length (moves state) <= fuel ->
  exists m,
    minmax_player fuel (TicTacToe.game h v k) state io = Done (m, io) /\
    alpha_beta_player fuel (TicTacToe.game h v k) state io = Done (m, io) /\
    match m with
    | Some a => a ∈ moves state
    | None => moves state = []
    end.
Proof.
  intros Hlen. destruct (minmax_decision_total fuel state Hlen) as (m & Hm & Hlegal).
  exists m. unfold minmax_player, alpha_beta_player.
  rewrite (alpha_beta_search_of_minmax _ _ _ _ Hm), Hm. split_and!; [done..|].
  destruct (moves state) as [|a rest] eqn:Hmoves.
  - rewrite minmax_decision_eq in Hm.
    change (Game.actions (TicTacToe.game h v k) state) with (moves state) in Hm.
    rewrite Hmoves in Hm. by injection Hm as <-.
  - destruct Hlegal as (b & -> & Hb); done.
Qed.

End SearchPlayers.

(** ** The further theorems at concrete inputs *)

Lemma cycle4_well_formed : well_formed cycle4.
Proof.
  apply MapColoringCSP_well_formed.
  apply (bool_decide_unpack (simple_graph _)). vm_compute. exact Logic.I.
Qed.

Lemma cycle5_well_formed : well_formed cycle5.
Proof.
  apply MapColoringCSP_well_formed.
  apply (bool_decide_unpack (simple_graph _)). vm_compute. exact Logic.I.
Qed.

Lemma cycle4_colorable : exists c, solution cycle4 c.
Proof.
  exists (list_to_map [("A", "R"); ("B", "G"); ("C", "R"); ("D", "G")]).
  assert (variables cycle4 = ["A"; "B"; "D"; "C"]) as Hvars by (vm_compute; reflexivity).
  split.
  - intros v Hv. rewrite Hvars in Hv.
    repeat (apply elem_of_cons in Hv as [->|Hv]); [..|by apply elem_of_nil in Hv];
      eexists _, _; (split; [vm_compute; reflexivity|]);
      (split; [vm_compute; reflexivity|]); set_solver.
  - intros v n x y Hv Hn Hx Hy. rewrite Hvars in Hv.
    repeat (apply elem_of_cons in Hv as [->|Hv]); [..|by apply elem_of_nil in Hv];
      vm_compute in Hn;
      repeat (apply elem_of_cons in Hn as [->|Hn]); try (by apply elem_of_nil in Hn);
      vm_compute in Hx; vm_compute in Hy; simplify_eq; vm_compute; reflexivity.
Qed.

(** [search_finds_solution] on [cycle4]. *)
Lemma search_finds_solution_witness :
  exists c s,
    backtracking_search cycle4 mrv lcv forward_checking None None 5 (fresh_world rand0)
    = Ret (Some c) s /\
    solution cycle4 c.
Proof.
  apply (search_finds_solution cycle4 mrv lcv None None 5 rand0).
  - exact cycle4_well_formed.
  - by right.
  - by right.
  - by left.
  - vm_compute. lia.
  - exact cycle4_colorable.
Defined.

(** [search_ends_cleanly] on [cycle5], traced and capped at three events. *)
Lemma search_ends_cleanly_witness :
  match backtracking_search cycle5 first_unassigned_variable unordered_domain_values
          forward_checking (Some []) (Some 3) 6 (fresh_world rand0) with
  | Ret (Some c) s => solution cycle5 c
  | Ret None s => forall c, ~ solution cycle5 c
  | Exc e s => e = RuntimeError /\ is_Some (Some ([] : list (trace_event string))) /\
               is_Some (Some 3)
  | NoFuel => False
  end.
Proof.
  apply (search_ends_cleanly cycle5 first_unassigned_variable unordered_domain_values
           (Some []) (Some 3) 6 rand0).
  - exact cycle5_well_formed.
  - by left.
  - by left.
  - vm_compute. lia.
Defined.

(** [failed_search_restores_domains] on [cycle5]. *)
Lemma failed_search_restores_domains_witness :
  exists s,
    backtracking_search cycle5 mrv lcv forward_checking None None 6 (fresh_world rand0)
    = Ret None s /\
    assignment s = ∅ /\
    forall v, v ∈ variables cycle5 ->
      exists l0 l,
        domains cycle5 !! v = Some l0 /\ working_domain cycle5 (world s) v = Some l /\
        forall x, x ∈ l <-> x ∈ l0.
Proof.
  eexists. split; [vm_compute; reflexivity|].
  eapply (failed_search_restores_domains cycle5 mrv lcv None None 6 rand0).
  - exact cycle5_well_formed.
  - by right.
  - by right.
  - vm_compute. lia.
  - vm_compute. reflexivity.
Defined.

(** [solve_map_coloring_outcome] on the triangle with three letters. *)
Lemma solve_map_coloring_outcome_witness :
  match solve_map_coloring triangle "RGB" None None 4 rand0 with
  | Ret (solution, trace) s =>
      match solution with
      | Some c => proper_coloring triangle (str_chars "RGB") c
      | None => forall c, ~ proper_coloring triangle (str_chars "RGB") c
      end /\
      steps_increase (default (50 * 1000) None) trace /\
      forall evs, (None : option (list event_kind)) = Some evs ->
                  Forall (fun e => ev_event e ∈ evs) trace
  | Exc e s => e = RuntimeError /\ step s = S (default (50 * 1000) None)
  | NoFuel => False
  end.
Proof.
  apply (solve_map_coloring_outcome triangle "RGB" None None 4 rand0).
  - apply (bool_decide_unpack (simple_graph _)). vm_compute. exact Logic.I.
  - vm_compute. lia.
Defined.

(** [mrv_fewest_legal_values] on [star3] with nothing assigned. *)
Lemma mrv_fewest_legal_values_witness :
  match mrv ∅ star3 star3_world with
  | Ret v w' =>
      v ∈ variables star3 /\ (∅ : gmap string string) !! v = None /\
      (exists kv,
         num_legal_values star3 v ∅ star3_world = Ret kv star3_world /\
         forall u ku,
           u ∈ variables star3 -> (∅ : gmap string string) !! u = None ->
           num_legal_values star3 u ∅ star3_world = Ret ku star3_world -> kv <= ku) /\
      w' = set_rand {| draws := draws (rand star3_world);
                       pos := S (pos (rand star3_world)) |} star3_world
  | Exc e w' =>
      e = TypeError /\ w' = star3_world /\
      Forall (fun u => is_Some ((∅ : gmap string string) !! u)) (variables star3)
  | NoFuel => False
  end.
Proof.
  apply (mrv_fewest_legal_values star3 ∅ star3_world).
  intros u Hu _.
  assert (variables star3 = ["A"; "B"; "C"]) as Hvars by (vm_compute; reflexivity).
  rewrite Hvars in Hu.
  repeat (apply elem_of_cons in Hu as [->|Hu]); [..|by apply elem_of_nil in Hu];
    eexists; vm_compute; reflexivity.
Defined.

(** [suppose_then_restore] on [star3]: [suppose A G] and the [restore] of
    its log. *)
Lemma suppose_then_restore_witness :
  exists l w'',
    working_domain star3 star3_world "A" = Some l /\
    star3_supposed.1 = (fun v => ("A", v)) <$> filter (fun v => v ≠ "G") l /\
    choices star3 "A" star3_supposed.2 = Ret ["G"] star3_supposed.2 /\
    (forall v, v ≠ "A" -> v ∈ variables star3 ->
       working_domain star3 star3_supposed.2 v = working_domain star3 star3_world v) /\
    restore star3_supposed.1 star3_supposed.2 = Ret tt w'' /\
    working_domain star3 w'' "A" = Some ("G" :: filter (fun v => v ≠ "G") l) /\
    (forall v, v ≠ "A" ->
       working_domain star3 w'' v = working_domain star3 star3_supposed.2 v).
Proof.
  apply (suppose_then_restore star3 "A" "G" star3_world star3_supposed.2 star3_supposed.1).
  vm_compute. reflexivity.
Defined.

(** [pruning_interface_errors] on [star3]: without working domains, and
    for a variable that the working domains do not know. *)
Lemma pruning_interface_errors_witness :
  (prune "A" "R" [] (fresh_world rand0) = Exc AssertionError (fresh_world rand0) /\
   restore [("A", "R")] (fresh_world rand0) = Exc AssertionError (fresh_world rand0)) /\
  (prune "Z" "R" [] star3_world = Exc KeyError star3_world /\
   suppose star3 "Z" "R" star3_world = Exc KeyError star3_world).
Proof.
  destruct (pruning_interface_errors star3) as (Hnone & Hkey & _ & _). split.
  - apply (Hnone "A" "R" [] (fresh_world rand0)). reflexivity.
  - apply (Hkey "Z" "R" [] star3_world star3_domains); vm_compute; reflexivity.
Defined.

Lemma star3_domains_NoDup v l : star3_domains !! v = Some l -> NoDup l.
Proof.
  assert (star3_domains
          = list_to_map [("A", ["R"; "G"; "B"]); ("B", ["R"; "G"; "B"]);
                         ("C", ["R"; "G"; "B"])]) as -> by (vm_compute; reflexivity).
  intros Hl%elem_of_list_to_map_2.
  assert (l = ["R"; "G"; "B"]) as -> by set_solver.
  apply (bool_decide_unpack _). vm_compute. exact Logic.I.
Qed.

(** [prune_restore_permutation] on [star3]: [suppose A G], then
    [prune B R], then [restore]. *)
Lemma prune_restore_permutation_witness :
  exists w2 d2,
    restore star3_pruned.1 star3_pruned.2 = Ret tt w2 /\
    curr_domains w2 = Some d2 /\
    forall v,
      match star3_domains !! v with
      | Some l => exists l2, d2 !! v = Some l2 /\ l2 ≡ₚ l /\ length l2 = length l
      | None => d2 !! v = None
      end.
Proof.
  apply (prune_restore_permutation star3 [OpSuppose "A" "G"; OpPrune "B" "R"]
           star3_world star3_domains star3_pruned.1 star3_pruned.2).
  - vm_compute. reflexivity.
  - exact star3_domains_NoDup.
  - simpl. split.
    + exists ["R"; "G"; "B"]. split; [vm_compute; reflexivity|]. right. left.
    + intros removals r w' Hrun. split; [done|]. done.
  - vm_compute. reflexivity.
Defined.

(** [forward_checking_idempotent] on [star3] after [A = R] was committed. *)
Lemma forward_checking_idempotent_witness :
  exists ok removals' w',
    forward_checking star3 "A" "R" (<["A" := "R"]> ∅) [] (fresh_world rand0)
    = Ret (ok, removals') w' /\
    forall removals2,
      forward_checking star3 "A" "R" (<["A" := "R"]> ∅) removals2 w'
      = Ret (ok, removals2) w'.
Proof.
  eexists _, _, _. split; [vm_compute; reflexivity|].
  eapply (forward_checking_idempotent star3 "A" "R" (<["A" := "R"]> ∅) []
            (fresh_world rand0)).
  vm_compute. reflexivity.
Defined.

(** [nconflicts_counts] for the centre of [star3] when both leaves are
    red. *)
Lemma nconflicts_counts_witness :
  nconflicts star3 "A" "R" (<["B" := "R"]> (<["C" := "R"]> ∅))
  <= length (default [] (neighbors star3 !! "A")) /\
  nconflicts star3 "A" "R" (<["B" := "R"]> (<["C" := "R"]> ∅))
  = length (filter (fun n => (<["B" := "R"]> (<["C" := "R"]> ∅) : gmap string string) !! n
                             = Some "R")
              (default [] (neighbors star3 !! "A"))).
Proof.
  destruct (nconflicts_counts star3 "A" "R" (<["B" := "R"]> (<["C" := "R"]> ∅)))
    as (Hle & _ & _ & _ & Hdiff).
  split; [exact Hle|]. apply Hdiff. reflexivity.
Defined.

(** [solution_is_last_event] on [cycle4]. *)
Lemma solution_is_last_event_witness :
  exists t' e,
    default [] (trace cycle4_outcome.2) = t' ++ [e] /\
    ev_event e = GOAL /\ ev_assignment e = cycle4_outcome.1 /\
    ev_depth e = length (variables cycle4) /\ ev_var e = None /\ ev_val e = None /\
    ev_step e = step cycle4_outcome.2.
Proof.
  apply (solution_is_last_event cycle4 mrv lcv forward_checking None (Some []) 10
           (fresh_world rand0) cycle4_outcome.1 cycle4_outcome.2).
  - vm_compute. reflexivity.
  - vm_compute. reflexivity.
Defined.

(** [parse_neighbors_edges] on a text with one entry, and on a text
    without a colon. *)
Lemma parse_neighbors_edges_witness :
  (["B"; "C"] : list string) ≠ [] /\ parse_neighbors "oops" = [].
Proof.
  split.
  - apply (proj1 (parse_neighbors_edges "A: B C") "A"). vm_compute. reflexivity.
  - apply (proj2 (proj2 (proj2 (parse_neighbors_edges "oops")))). vm_compute. reflexivity.
Defined.

(** [k_in_row_spec] for a third "X" in the first row, along the row, and
    along the direction that does not move. *)
Lemma k_in_row_spec_witness :
  (exists b : bool,
     TicTacToe.k_in_row 3 two_in_row (1, 3)%Z "X" (0, 1)%Z = Done b /\
     (b = true <-> in_a_row 3 two_in_row "X" (1, 3)%Z (0, 1)%Z)) /\
  TicTacToe.k_in_row 3 two_in_row (1, 1)%Z "X" (0, 0)%Z = Unfinished.
Proof.
  split.
  - apply (proj1 (k_in_row_spec 3 two_in_row (1, 3)%Z "X")). done.
  - apply (proj2 (k_in_row_spec 3 two_in_row (1, 1)%Z "X")). vm_compute. reflexivity.
Defined.

(** [result_spec] for the first move of a game on the board of three by
    three, to the middle, and for a move outside the board. *)
Lemma result_spec_witness :
  (exists won : bool,
     TicTacToe.result 3 (TicTacToe.initial 3 3) (Some (2, 2)%Z)
     = Done {| to_move := if decide (to_move (TicTacToe.initial 3 3) = "X") then "O" else "X";
               utility :=
                 (if won
                  then if decide (to_move (TicTacToe.initial 3 3) = "X") then 1 else -1
                  else 0)%Z;
               board := <[(2, 2)%Z := to_move (TicTacToe.initial 3 3)]>
                          (board (TicTacToe.initial 3 3));
               moves := list_remove (2, 2)%Z (moves (TicTacToe.initial 3 3)) |} /\
     (won = true <->
      winning 3 (<[(2, 2)%Z := to_move (TicTacToe.initial 3 3)]>
                   (board (TicTacToe.initial 3 3)))
        (to_move (TicTacToe.initial 3 3)) (2, 2)%Z)) /\
  TicTacToe.result 3 (TicTacToe.initial 3 3) (Some (4, 4)%Z)
  = Done (TicTacToe.initial 3 3).
Proof.
  split.
  - apply (proj2 (proj2 (result_spec 3 (TicTacToe.initial 3 3) (2, 2)%Z))).
    apply (bool_decide_unpack _). vm_compute. exact Logic.I.
  - apply (proj1 (proj2 (result_spec 3 (TicTacToe.initial 3 3) (4, 4)%Z))).
    apply (bool_decide_unpack _). vm_compute. exact Logic.I.
Defined.

(** [reachable_invariant] for the state after the first move to the
    middle of the board of three by three. *)
Lemma reachable_invariant_witness :
  exists state,
    TicTacToe.result 3 (TicTacToe.initial 3 3) (Some (2, 2)%Z) = Done state /\
    state_inv 3 3 state /\
    NoDup (moves state) /\
    (forall c, c ∈ moves state -> board state !! c = None) /\
    (forall c, c ∈ moves state \/ is_Some (board state !! c) <->
               (1 <= c.1 <= 3)%Z /\ (1 <= c.2 <= 3)%Z) /\
    length (moves state) + size (board state) = Z.to_nat 3 * Z.to_nat 3.
Proof.
  eexists. split; [vm_compute; reflexivity|].
  apply (reachable_invariant 3 3 3).
  eapply (reachable_result 3 3 3 (TicTacToe.initial 3 3) (Some (2, 2)%Z)).
  - apply reachable_initial.
  - vm_compute. reflexivity.
Defined.

(** [play_game_ends] for two random players on the board of two by two. *)
Lemma play_game_ends_witness :
  exists u io',
    Game.play_game 5 (TicTacToe.game 2 2 2) [random_player; random_player] quiet_io
    = Done (u, io') /\
    game_over 2 2 2 u io'.
Proof.
  apply (proj1 (play_game_ends 2 2 2 [random_player; random_player] 5 quiet_io)).
  - done.
  - repeat constructor; apply random_player_legal.
  - vm_compute. lia.
Defined.

(** [minmax_decision_best] for the first move on the board of two by two,
    where every move wins. *)
Lemma minmax_decision_best_witness :
  (1, 1)%Z ∈ Game.actions (TicTacToe.game 2 2 2) (TicTacToe.initial 2 2) /\
  exists t,
    move_value 5 (TicTacToe.initial 2 2) (TicTacToe.game 2 2 2) (1, 1)%Z = Done t /\
    forall b, b ∈ Game.actions (TicTacToe.game 2 2 2) (TicTacToe.initial 2 2) ->
      exists tb,
        move_value 5 (TicTacToe.initial 2 2) (TicTacToe.game 2 2 2) b = Done tb /\
        (tb <= t)%Z.
Proof.
  apply (proj2 (minmax_decision_best (TicTacToe.game 2 2 2) 5 (TicTacToe.initial 2 2)
                  (Some (1, 1)%Z) ltac:(vm_compute; reflexivity))).
  reflexivity.
Defined.

(** [alpha_beta_search_agrees] for the first move on the board of two by
    two. *)
Lemma alpha_beta_search_agrees_witness :
  alpha_beta_search 5 (TicTacToe.initial 2 2) (TicTacToe.game 2 2 2)
  = Done (Some (1, 1)%Z).
Proof.
  apply (alpha_beta_search_agrees (TicTacToe.game 2 2 2) 5 (TicTacToe.initial 2 2)).
  vm_compute. reflexivity.
Defined.

(** [search_players_move] for the first move on the board of two by two. *)
Lemma search_players_move_witness :
  exists m,
    minmax_player 4 (TicTacToe.game 2 2 2) (TicTacToe.initial 2 2) quiet_io
    = Done (m, quiet_io) /\
    alpha_beta_player 4 (TicTacToe.game 2 2 2) (TicTacToe.initial 2 2) quiet_io
    = Done (m, quiet_io) /\
    match m with
    | Some a => a ∈ moves (TicTacToe.initial 2 2)
    | None => moves (TicTacToe.initial 2 2) = []
    end.
Proof.
  apply (search_players_move 2 2 2 4 (TicTacToe.initial 2 2) quiet_io).
  vm_compute. lia.
Defined.
